(** * HomeStore persistence core: append block allocator, log device, write-back cache

    A shallow embedding of
      - src/lib/blkalloc/append_blk_allocator.cpp   (Module AppendBlkAlloc)
      - src/lib/logstore/log_dev.hpp                (Module LogGroupFmt)
      - src/logdev/log_dev.cpp                      (Module LogDevice)
      - src/engine/homeds/btree/writeBack_cache.hpp (Module WBCache)
      - src/lib/logstore/log_dev.hpp, rollback superblock (Module RollbackSb)
      - src/logdev/log_dev.cpp, recovery            (Module LogRecovery)
      - src/lib/new_device/virtual_dev.cpp          (Module VDev)
      - src/main/vol_interface.hpp                  (Module VolReq)
      - src/lib/replication/repl_dev/common.cpp     (Module ReplReq)
    Machine integers are [Z] with the wrap-around written out; atomics are
    plain fields updated by one atomic step at a time. *)

From Stdlib Require Import ZArith Lia Bool List.
From stdpp Require Import base numbers list gmap.
Import ListNotations.
Open Scope Z_scope.

(** ** Machine arithmetic shared by the modules *)

Definition wrap (bits : Z) (x : Z) : Z := x mod 2 ^ bits.

(** ** The append block allocator (append_blk_allocator.cpp) *)

Module AppendBlkAlloc.

(** [blk_num_t], [get_total_blks()], [max_blks_per_blkid()], the chunk id and
    the superblock constants are declared in headers that are not part of
    the sources at hand: they are fields of the configuration. *)
Record BlkAllocConfig := {
  blk_num_bits : Z;          (* width of blk_num_t *)
  total_blks : Z;            (* get_total_blks() *)
  max_blks_per_blkid : Z;    (* max_blks_per_blkid() *)
  chunk_id : Z;              (* m_chunk_id *)
  append_blkalloc_sb_magic : Z;
  append_blkalloc_sb_version : Z
}.

Record BlkId := { blk_num : Z; blk_count : Z; chunk_num : Z }.

Record blk_alloc_hints := { reserved_blks : option Z }.

Inductive BlkAllocStatus := SUCCESS | SPACE_FULL | FAILED.

Record append_blk_sb_t := {
  magic : Z;
  version : Z;
  allocator_id : Z;
  commit_offset : Z;
  freeable_nblks : Z
}.

Record AppendBlkAllocator := {
  m_last_append_offset : Z;
  m_commit_offset : Z;
  m_freeable_nblks : Z;
  m_is_dirty : bool;
  m_sb : append_blk_sb_t
}.

Section Ops.
Variable cfg : BlkAllocConfig.

Local Abbreviation w := (wrap (blk_num_bits cfg)).

(** Constructor with [need_format = true]; the superblock is created from
    the freshly zeroed fields. *)
Definition construct_format (id : Z) : AppendBlkAllocator :=
  {| m_last_append_offset := 0;
     m_commit_offset := 0;
     m_freeable_nblks := 0;
     m_is_dirty := false;
     m_sb := {| magic := append_blkalloc_sb_magic cfg;
                version := append_blkalloc_sb_version cfg;
                allocator_id := id;
                commit_offset := 0;
                freeable_nblks := 0 |} |}.

(** [on_meta_blk_found]: the two release assertions abort ([None]) on a
    foreign superblock; otherwise both offsets restart from the persisted
    commit offset. *)
Definition on_meta_blk_found (a : AppendBlkAllocator) (buf : append_blk_sb_t)
  : option AppendBlkAllocator :=
  if negb (magic buf =? append_blkalloc_sb_magic cfg) then None
  else if negb (version buf =? append_blkalloc_sb_version cfg) then None
  else Some {| m_last_append_offset := commit_offset buf;
               m_commit_offset := commit_offset buf;
               m_freeable_nblks := freeable_nblks buf;
               m_is_dirty := m_is_dirty a;
               m_sb := buf |}.

Definition get_used_blks (a : AppendBlkAllocator) : Z := m_last_append_offset a.

Definition available_blks (a : AppendBlkAllocator) : Z :=
  w (total_blks cfg - get_used_blks a).

Definition get_defrag_nblks (a : AppendBlkAllocator) : Z := m_freeable_nblks a.

(** The block count [alloc] compares the request against: [available_blks]
    less the reserved hint, saturating at zero. *)
Definition avail_after_hint (a : AppendBlkAllocator) (hint : blk_alloc_hints) : Z :=
  match reserved_blks hint with
  | Some r => if r <? available_blks a then available_blks a - r else 0
  | None => available_blks a
  end.

(** [alloc]: the result is the status, the value written to [out_bid]
    ([None] when it is left untouched) and the allocator afterwards. *)
Definition alloc (a : AppendBlkAllocator) (nblks : Z) (hint : blk_alloc_hints)
  : BlkAllocStatus * option BlkId * AppendBlkAllocator :=
  let avail_blks := avail_after_hint a hint in
  if avail_blks <? nblks then (SPACE_FULL, None, a)
  else if max_blks_per_blkid cfg <? nblks then (FAILED, None, a)
  else
    (SUCCESS,
     Some {| blk_num := m_last_append_offset a;
             blk_count := nblks;
             chunk_num := chunk_id cfg |},
     {| m_last_append_offset := w (m_last_append_offset a + nblks);
        m_commit_offset := m_commit_offset a;
        m_freeable_nblks := m_freeable_nblks a;
        m_is_dirty := m_is_dirty a;
        m_sb := m_sb a |}).

Definition alloc_contiguous (a : AppendBlkAllocator) :=
  alloc a 1 {| reserved_blks := None |}.

Definition is_blk_alloced (a : AppendBlkAllocator) (in_bid : BlkId) : bool :=
  blk_num in_bid <? get_used_blks a.

(** [reserve_on_disk]: the compare-exchange loop ends with the larger of the
    two offsets stored; the dirty flag is raised only when it stored. *)
Definition reserve_on_disk (a : AppendBlkAllocator) (blkid : BlkId)
  : BlkAllocStatus * AppendBlkAllocator :=
  let new_offset := w (blk_num blkid + blk_count blkid) in
  let cur_offset := m_commit_offset a in
  if new_offset <=? cur_offset then (SUCCESS, a)
  else
    (SUCCESS,
     {| m_last_append_offset := m_last_append_offset a;
        m_commit_offset := new_offset;
        m_freeable_nblks := m_freeable_nblks a;
        m_is_dirty := true;
        m_sb := m_sb a |}).

Definition reserve_on_cache (a : AppendBlkAllocator) (blkid : BlkId)
  : BlkAllocStatus * AppendBlkAllocator :=
  let new_offset := w (blk_num blkid + blk_count blkid) in
  let cur_offset := m_last_append_offset a in
  if new_offset <=? cur_offset then (SUCCESS, a)
  else
    (SUCCESS,
     {| m_last_append_offset := new_offset;
        m_commit_offset := m_commit_offset a;
        m_freeable_nblks := m_freeable_nblks a;
        m_is_dirty := m_is_dirty a;
        m_sb := m_sb a |}).

Definition cp_flush (a : AppendBlkAllocator) : AppendBlkAllocator :=
  if m_is_dirty a then
    {| m_last_append_offset := m_last_append_offset a;
       m_commit_offset := m_commit_offset a;
       m_freeable_nblks := m_freeable_nblks a;
       m_is_dirty := false;
       m_sb := {| magic := magic (m_sb a);
                  version := version (m_sb a);
                  allocator_id := allocator_id (m_sb a);
                  commit_offset := m_commit_offset a;
                  freeable_nblks := m_freeable_nblks a |} |}
  else a.

Definition free (a : AppendBlkAllocator) (bid : BlkId) : AppendBlkAllocator :=
  {| m_last_append_offset := m_last_append_offset a;
     m_commit_offset := m_commit_offset a;
     m_freeable_nblks := w (m_freeable_nblks a + blk_count bid);
     m_is_dirty := true;
     m_sb := m_sb a |}.

Definition reset (a : AppendBlkAllocator) : AppendBlkAllocator :=
  {| m_last_append_offset := 0;
     m_commit_offset := 0;
     m_freeable_nblks := 0;
     m_is_dirty := true;
     m_sb := m_sb a |}.

Definition is_blk_alloced_on_disk (a : AppendBlkAllocator) (bid : BlkId) : bool :=
  blk_num bid <? commit_offset (m_sb a).

(** The calls a client can make on a constructed allocator. *)
Inductive call :=
| CAlloc (nblks : Z) (hint : blk_alloc_hints)
| CReserveOnDisk (blkid : BlkId)
| CReserveOnCache (blkid : BlkId)
| CFree (bid : BlkId)
| CCpFlush
| CReset.

Definition do_call (a : AppendBlkAllocator) (c : call) : AppendBlkAllocator :=
  match c with
  | CAlloc nblks hint => snd (alloc a nblks hint)
  | CReserveOnDisk b => snd (reserve_on_disk a b)
  | CReserveOnCache b => snd (reserve_on_cache a b)
  | CFree b => free a b
  | CCpFlush => cp_flush a
  | CReset => reset a
  end.

Definition run (a : AppendBlkAllocator) (cs : list call) : AppendBlkAllocator :=
  fold_left do_call cs a.

(** The start of a run: a formatted construction, or a construction
    followed by the recovery of a persisted superblock. *)
Inductive started : AppendBlkAllocator -> Prop :=
| started_format id : started (construct_format id)
| started_recovered a0 buf a :
    on_meta_blk_found a0 buf = Some a -> started a.

(** Unsigned arguments of [alloc]. *)
Definition alloc_args_ok (nblks : Z) (hint : blk_alloc_hints) : Prop :=
  0 <= nblks /\
  match reserved_blks hint with Some r => 0 <= r | None => True end.

(** What the callers of the allocator respect: counts are unsigned, a
    block id reserved on the cache ends inside the chunk, and a block id
    reserved on disk ends at or below the cache offset. *)
Definition call_ok (a : AppendBlkAllocator) (c : call) : Prop :=
  match c with
  | CAlloc nblks hint => alloc_args_ok nblks hint
  | CReserveOnDisk b =>
      0 <= blk_num b /\ 0 <= blk_count b /\
      blk_num b + blk_count b <= m_last_append_offset a
  | CReserveOnCache b =>
      0 <= blk_num b /\ 0 <= blk_count b /\
      blk_num b + blk_count b <= total_blks cfg
  | CFree _ | CCpFlush | CReset => True
  end.

Fixpoint calls_ok (a : AppendBlkAllocator) (cs : list call) : Prop :=
  match cs with
  | [] => True
  | c :: cs' => call_ok a c /\ calls_ok (do_call a c) cs'
  end.

Definition cfg_ok : Prop :=
  0 <= blk_num_bits cfg /\ 0 <= total_blks cfg < 2 ^ blk_num_bits cfg.


(** The offsets of a well-used allocator. *)
Definition offsets_ok (a : AppendBlkAllocator) : Prop :=
  0 <= m_commit_offset a /\
  m_commit_offset a <= m_last_append_offset a /\
  m_last_append_offset a <= total_blks cfg.

(** The block ids that the successful [alloc] calls of a run write to
    [out_bid], oldest first. *)
Fixpoint allocated (a : AppendBlkAllocator) (cs : list call) : list BlkId :=
  match cs with
  | [] => []
  | c :: cs' =>
      match c with
      | CAlloc nblks hint =>
          match snd (fst (alloc a nblks hint)) with
          | Some b => b :: allocated (do_call a c) cs'
          | None => allocated (do_call a c) cs'
          end
      | _ => allocated (do_call a c) cs'
      end
  end.

(** Calls with unsigned counts that reserve on the cache inside the chunk
    and do not reset the allocator. *)
Definition call_sane (c : call) : Prop :=
  match c with
  | CAlloc nblks hint => alloc_args_ok nblks hint
  | CReserveOnCache b =>
      0 <= blk_num b /\ 0 <= blk_count b /\
      blk_num b + blk_count b <= total_blks cfg
  | CReset => False
  | CReserveOnDisk _ | CFree _ | CCpFlush => True
  end.

(** Block ids laid out one after the other from [from] on, none of them
    past the end of the chunk. *)
Fixpoint laid_out (from : Z) (l : list BlkId) : Prop :=
  match l with
  | [] => True
  | b :: rest =>
      from <= blk_num b /\ 0 <= blk_count b /\
      blk_num b + blk_count b <= total_blks cfg /\
      chunk_num b = chunk_id cfg /\
      laid_out (blk_num b + blk_count b) rest
  end.

Definition is_reset (c : call) : bool :=
  match c with CReset => true | _ => false end.

(** The superblock against the counters it persists: it carries the
    constants of this allocator, never runs ahead of [m_commit_offset], and
    agrees with the counters whenever the dirty flag is down. *)
Definition sb_ok (a : AppendBlkAllocator) : Prop :=
  magic (m_sb a) = append_blkalloc_sb_magic cfg /\
  version (m_sb a) = append_blkalloc_sb_version cfg /\
  (m_is_dirty a = false ->
     commit_offset (m_sb a) = m_commit_offset a /\
     freeable_nblks (m_sb a) = m_freeable_nblks a).

End Ops.

(** A 32-bit chunk of 100 blocks, used for the concrete runs below. *)
Definition ex_cfg : BlkAllocConfig :=
  {| blk_num_bits := 32; total_blks := 100; max_blks_per_blkid := 64;
     chunk_id := 1; append_blkalloc_sb_magic := 1; append_blkalloc_sb_version := 1 |}.

Definition no_hint : blk_alloc_hints := {| reserved_blks := None |}.

End AppendBlkAlloc.

(** ** Log records and log groups (log_dev.hpp) *)

Module LogGroupFmt.

Definition LOG_GROUP_HDR_MAGIC : Z := 0xF00D1E.
Definition LOG_GROUP_FOOTER_MAGIC : Z := 0xB00D1E.
Definition dma_address_boundary : Z := 512.
Definition initial_read_size : Z := 4096.
Definition max_log_group : Z := 2.
Definition header_version : Z := 0.

(** Conversion to [uint32_t]. *)
Definition u32 (x : Z) : Z := wrap 32 x.

(** Modelled from the spec: the value of [INVALID_CRC32_VALUE], declared in a
    header outside the sources; the first group written after a format
    carries [prev_group_crc = 0]. *)
Definition INVALID_CRC32_VALUE : Z := 0.

(** What the dynamic configuration and the packed layouts provide; the
    typedefs that fix the two sizes are declared outside the sources. The
    last two fields are the device id and the previous checksum that
    [finish] works with when it is called without arguments, as
    [prepare_flush] calls it: log_dev.hpp declares both as parameters of
    [finish], and what supplies them at that call is outside the sources. *)
Record log_config := {
  optimal_inline_data_size : Z;   (* logstore.optimal_inline_data_size *)
  sizeof_log_group_header : Z;
  sizeof_serialized_log_record : Z;
  finish_logdev_id : Z;
  finish_prev_crc : Z
}.

Record serialized_log_record := {
  size : Z;            (* uint32_t *)
  offset : Z;          (* uint32_t : 31 *)
  is_inlined : Z;      (* uint32_t : 1 *)
  store_seq_num : Z;
  store_id : Z
}.

Definition set_inlined (r : serialized_log_record) (inlined : bool)
  : serialized_log_record :=
  {| size := size r; offset := offset r;
     is_inlined := if inlined then 1 else 0;
     store_seq_num := store_seq_num r; store_id := store_id r |}.

Definition get_inlined (r : serialized_log_record) : bool := is_inlined r =? 1.

(** The in-memory record: the blob is kept as its bytes, its address and its
    alignment flag. *)
Record log_record := {
  data : list Z;
  data_addr : Z;
  data_is_aligned : bool;
  context : Z;
  rec_store_id : Z;
  seq_num : Z
}.

Definition data_size (r : log_record) : Z := Z.of_nat (length (data r)).

Record log_group_header := {
  magic : Z;
  version : Z;
  n_log_records : Z;
  start_log_idx : Z;        (* logid_t, signed 64 bits *)
  group_size : Z;
  inline_data_offset : Z;
  oob_data_offset : Z;
  footer_offset : Z;
  prev_grp_crc : Z;
  cur_grp_crc : Z;
  logdev_id : Z
}.

(** A pointer into the group image, as its distance from the header, with
    the length of the blob. *)
Record blob := { bytes_at : Z; blob_size : Z }.

Definition inline_data_size (h : log_group_header) : Z :=
  if negb (oob_data_offset h =? 0)
  then u32 (oob_data_offset h - inline_data_offset h)
  else u32 (group_size h - inline_data_offset h).

Definition inline_area (h : log_group_header) : Z := inline_data_offset h.
Definition oob_area (h : log_group_header) : Z := oob_data_offset h.

(** [nth_record]: the slot array follows the header; [n] is a [uint32_t].
    Slots past the array are not records of the group. *)
Fixpoint nth_record (slots : list serialized_log_record) (n : Z)
  : option serialized_log_record :=
  match slots with
  | [] => None
  | r :: rest => if n =? 0 then Some r else nth_record rest (n - 1)
  end.

(** [log_group_header::data]: both assertions guard the index; the slot is
    then looked up at [start_log_idx - idx] converted to [uint32_t], and the
    conditional returns [inline_area()] for an inlined record and
    [oob_area() + lr->offset] otherwise. *)
Definition data_slot (h : log_group_header) (idx : Z) : Z :=
  u32 (start_log_idx h - idx).

Definition data_of (h : log_group_header) (slots : list serialized_log_record)
  (idx : Z) : option blob :=
  if negb (start_log_idx h <=? idx) then None
  else if negb (idx - start_log_idx h <? n_log_records h) then None
  else
    match nth_record slots (data_slot h idx) with
    | None => None
    | Some lr =>
        Some {| bytes_at := if get_inlined lr then inline_area h
                            else oob_area h + offset lr;
                blob_size := size lr |}
    end.

Definition magic_word (h : log_group_header) : Z := magic h.
Definition start_idx (h : log_group_header) : Z := start_log_idx h.
Definition nrecords (h : log_group_header) : Z := n_log_records h.
Definition total_size (h : log_group_header) : Z := group_size h.
Definition this_group_crc (h : log_group_header) : Z := cur_grp_crc h.
Definition prev_group_crc (h : log_group_header) : Z := prev_grp_crc h.

Record LogGroup := {
  m_cur_buf_len : Z;
  m_record_slots : list serialized_log_record;
  m_inline_data_pos : Z;
  m_oob_data_pos : Z;
  m_nrecords : Z;
  m_max_records : Z;
  m_actual_data_size : Z;
  m_flush_log_idx_from : Z;
  m_flush_log_idx_upto : Z;
  m_log_dev_offset : Z;
  m_flush_multiple_size : Z;
  header : log_group_header
}.

Definition inline_log_buf_size : Z := 512 * 16.

Definition can_accomodate (lg : LogGroup) (record : log_record) : bool :=
  m_nrecords lg <=? m_max_records lg.

Definition actual_data_size (lg : LogGroup) : Z := m_actual_data_size lg.

Section Assembly.
Variable cfg : log_config.
(** [compute_crc]: CRC-32 of the group image past the header; the checksum
    routine and the image are outside the sources. *)
Variable compute_crc : LogGroup -> Z.

Definition is_size_inlineable (sz flush_size_multiple : Z) : bool :=
  (sz <? optimal_inline_data_size cfg) || negb (sz mod flush_size_multiple =? 0).

Definition is_inlineable (r : log_record) (flush_size_multiple : Z) : bool :=
  is_size_inlineable (data_size r) flush_size_multiple
  || negb (data_addr r mod flush_size_multiple =? 0)
  || negb (data_is_aligned r).

Definition zero_header : log_group_header :=
  {| magic := 0; version := 0; n_log_records := 0; start_log_idx := 0;
     group_size := 0; inline_data_offset := 0; oob_data_offset := 0;
     footer_offset := 0; prev_grp_crc := 0; cur_grp_crc := 0; logdev_id := 0 |}.

(** Modelled from the spec: [LogGroup::reset], whose body is outside the
    sources: zero the header, place the record-slot array, initialise the
    inline and out-of-band cursors. *)
Definition reset (lg : LogGroup) (max_records : Z) : LogGroup :=
  {| m_cur_buf_len := m_cur_buf_len lg;
     m_record_slots := [];
     m_inline_data_pos :=
       sizeof_log_group_header cfg + max_records * sizeof_serialized_log_record cfg;
     m_oob_data_pos := 0;
     m_nrecords := 0;
     m_max_records := max_records;
     m_actual_data_size := 0;
     m_flush_log_idx_from := m_flush_log_idx_from lg;
     m_flush_log_idx_upto := m_flush_log_idx_upto lg;
     m_log_dev_offset := m_log_dev_offset lg;
     m_flush_multiple_size := m_flush_multiple_size lg;
     header := zero_header |}.

(** Modelled from the spec: [LogGroup::create_overflow_buf], whose body is
    outside the sources: it grows the inline buffer to hold [min_needed]. *)
Definition create_overflow_buf (lg : LogGroup) (min_needed : Z) : LogGroup :=
  {| m_cur_buf_len := Z.max (m_cur_buf_len lg) min_needed;
     m_record_slots := m_record_slots lg;
     m_inline_data_pos := m_inline_data_pos lg;
     m_oob_data_pos := m_oob_data_pos lg;
     m_nrecords := m_nrecords lg;
     m_max_records := m_max_records lg;
     m_actual_data_size := m_actual_data_size lg;
     m_flush_log_idx_from := m_flush_log_idx_from lg;
     m_flush_log_idx_upto := m_flush_log_idx_upto lg;
     m_log_dev_offset := m_log_dev_offset lg;
     m_flush_multiple_size := m_flush_multiple_size lg;
     header := header lg |}.

(** Modelled from the spec: [LogGroup::add_record], whose body is outside the
    sources: reject when [n_records == max_records], or when the record
    would overflow the allocated buffer (the inline buffer is then grown);
    otherwise write the record slot, place the payload inline or out of
    band by the inlining rule, and move the cursors. The index of the first
    record is kept for the header that [finish] stamps. *)
Definition add_record (lg : LogGroup) (record : log_record) (log_idx : Z)
  : bool * LogGroup :=
  if m_nrecords lg =? m_max_records lg then (false, lg)
  else if m_cur_buf_len lg <? m_inline_data_pos lg + data_size record
  then (false, create_overflow_buf lg (m_inline_data_pos lg + data_size record))
  else
    let inl := is_inlineable record (m_flush_multiple_size lg) in
    let slot :=
      set_inlined
        {| size := data_size record;
           offset := if inl then m_inline_data_pos lg else m_oob_data_pos lg;
           is_inlined := 0;
           store_seq_num := seq_num record;
           store_id := rec_store_id record |} inl in
    (true,
     {| m_cur_buf_len := m_cur_buf_len lg;
        m_record_slots := m_record_slots lg ++ [slot];
        m_inline_data_pos :=
          if inl then m_inline_data_pos lg + data_size record
          else m_inline_data_pos lg;
        m_oob_data_pos :=
          if inl then m_oob_data_pos lg
          else m_oob_data_pos lg + data_size record;
        m_nrecords := m_nrecords lg + 1;
        m_max_records := m_max_records lg;
        m_actual_data_size := m_actual_data_size lg + data_size record;
        m_flush_log_idx_from :=
          if m_nrecords lg =? 0 then log_idx else m_flush_log_idx_from lg;
        m_flush_log_idx_upto := m_flush_log_idx_upto lg;
        m_log_dev_offset := m_log_dev_offset lg;
        m_flush_multiple_size := m_flush_multiple_size lg;
        header := header lg |}).

Definition with_header (lg : LogGroup) (h : log_group_header) : LogGroup :=
  {| m_cur_buf_len := m_cur_buf_len lg;
     m_record_slots := m_record_slots lg;
     m_inline_data_pos := m_inline_data_pos lg;
     m_oob_data_pos := m_oob_data_pos lg;
     m_nrecords := m_nrecords lg;
     m_max_records := m_max_records lg;
     m_actual_data_size := m_actual_data_size lg;
     m_flush_log_idx_from := m_flush_log_idx_from lg;
     m_flush_log_idx_upto := m_flush_log_idx_upto lg;
     m_log_dev_offset := m_log_dev_offset lg;
     m_flush_multiple_size := m_flush_multiple_size lg;
     header := h |}.

(** Modelled from the spec: [LogGroup::finish], whose body is outside the
    sources: stamp magic, version, the start index, the counts and offsets
    and [prev_group_crc = prev_crc]; then compute [cur_grp_crc] over the
    image past the header. *)
Definition finish (lg : LogGroup) (logdev_id' : Z) (prev_crc : Z) : LogGroup :=
  let inline_off :=
    sizeof_log_group_header cfg + m_max_records lg * sizeof_serialized_log_record cfg in
  let stamped :=
    with_header lg
      {| magic := LOG_GROUP_HDR_MAGIC;
         version := header_version;
         n_log_records := m_nrecords lg;
         start_log_idx := m_flush_log_idx_from lg;
         group_size := m_inline_data_pos lg + m_oob_data_pos lg;
         inline_data_offset := inline_off;
         oob_data_offset := m_inline_data_pos lg;
         footer_offset := m_inline_data_pos lg + m_oob_data_pos lg;
         prev_grp_crc := prev_crc;
         cur_grp_crc := 0;
         logdev_id := logdev_id' |} in
  with_header stamped
    {| magic := magic (header stamped);
       version := version (header stamped);
       n_log_records := n_log_records (header stamped);
       start_log_idx := start_log_idx (header stamped);
       group_size := group_size (header stamped);
       inline_data_offset := inline_data_offset (header stamped);
       oob_data_offset := oob_data_offset (header stamped);
       footer_offset := footer_offset (header stamped);
       prev_grp_crc := prev_grp_crc (header stamped);
       cur_grp_crc := compute_crc stamped;
       logdev_id := logdev_id (header stamped) |}.

(** Records offered one after the other to a freshly reset group, as
    [prepare_flush] does; the group stops taking records at the first
    refusal. *)
Fixpoint fill (lg : LogGroup) (recs : list (Z * log_record)) : LogGroup :=
  match recs with
  | [] => lg
  | (idx, r) :: rest =>
      let '(ok, lg') := add_record lg r idx in
      if ok then fill lg' rest else lg'
  end.

End Assembly.

Definition empty_group : LogGroup :=
  {| m_cur_buf_len := inline_log_buf_size;
     m_record_slots := [];
     m_inline_data_pos := 0; m_oob_data_pos := 0;
     m_nrecords := 0; m_max_records := 0; m_actual_data_size := 0;
     m_flush_log_idx_from := 0; m_flush_log_idx_upto := 0;
     m_log_dev_offset := 0; m_flush_multiple_size := 512;
     header := zero_header |}.

(** A group of two inlined records with log indexes 10 and 11. *)
Definition ex_slots : list serialized_log_record :=
  [ {| size := 5; offset := 88; is_inlined := 1; store_seq_num := 0; store_id := 7 |};
    {| size := 7; offset := 93; is_inlined := 1; store_seq_num := 1; store_id := 7 |} ].

Definition ex_header : log_group_header :=
  {| magic := LOG_GROUP_HDR_MAGIC; version := header_version;
     n_log_records := 2; start_log_idx := 10; group_size := 512;
     inline_data_offset := 88; oob_data_offset := 100; footer_offset := 100;
     prev_grp_crc := 0; cur_grp_crc := 0; logdev_id := 0 |}.

Definition ex_cfg : log_config :=
  {| optimal_inline_data_size := 512;
     sizeof_log_group_header := 48;
     sizeof_serialized_log_record := 20;
     finish_logdev_id := 0;
     finish_prev_crc := 0 |}.

Definition ex_record : log_record :=
  {| data := [104; 101; 108; 108; 111]; data_addr := 4096;
     data_is_aligned := true; context := 0; rec_store_id := 7; seq_num := 0 |}.

End LogGroupFmt.

(** ** The log device (log_dev.cpp) *)

Module LogDevice.
Import LogGroupFmt.

Record logdev_key := { idx : Z; dev_offset : Z }.

(** A slot of the stream tracker [m_log_records]. *)
Record tracker_slot := { slot_record : log_record; slot_completed : bool }.

(** What the device does to its surroundings, in the order it does it. *)
Inductive event :=
| EvWrite (lg : LogGroup)
    (* do_flush: the vectored write of the group at m_log_dev_offset *)
| EvAppendComp (store_id : Z) (key flush_key : logdev_key) (nremaining : Z) (ctx : Z)
    (* m_append_comp_cb *)
| EvBlockedCb (cb : Z)
    (* a flush_blocked_callback runs *)
| EvFlushUnlocked.
    (* m_is_flushing.store(false) *)

Record LogDev := {
  m_log_records : gmap Z tracker_slot;
  m_log_idx : Z;
  m_pending_flush_size : Z;
  m_is_flushing : bool;
  m_last_flush_idx : Z;
  m_last_truncate_idx : Z;
  m_last_crc : Z;
  m_last_flush_time : Z;
  m_block_flush_q : list Z;
  m_logdev_id : Z;
  store_tail : Z;          (* allocation cursor of the journal store *)
  trace : list event
}.

Definition set_log_records (d : LogDev) (v : gmap Z tracker_slot) : LogDev :=
  {| m_log_records := v;
     m_log_idx := m_log_idx d;
     m_pending_flush_size := m_pending_flush_size d;
     m_is_flushing := m_is_flushing d;
     m_last_flush_idx := m_last_flush_idx d;
     m_last_truncate_idx := m_last_truncate_idx d;
     m_last_crc := m_last_crc d;
     m_last_flush_time := m_last_flush_time d;
     m_block_flush_q := m_block_flush_q d;
     m_logdev_id := m_logdev_id d;
     store_tail := store_tail d;
     trace := trace d |}.

Definition set_log_idx (d : LogDev) (v : Z) : LogDev :=
  {| m_log_records := m_log_records d;
     m_log_idx := v;
     m_pending_flush_size := m_pending_flush_size d;
     m_is_flushing := m_is_flushing d;
     m_last_flush_idx := m_last_flush_idx d;
     m_last_truncate_idx := m_last_truncate_idx d;
     m_last_crc := m_last_crc d;
     m_last_flush_time := m_last_flush_time d;
     m_block_flush_q := m_block_flush_q d;
     m_logdev_id := m_logdev_id d;
     store_tail := store_tail d;
     trace := trace d |}.

Definition set_pending_flush_size (d : LogDev) (v : Z) : LogDev :=
  {| m_log_records := m_log_records d;
     m_log_idx := m_log_idx d;
     m_pending_flush_size := v;
     m_is_flushing := m_is_flushing d;
     m_last_flush_idx := m_last_flush_idx d;
     m_last_truncate_idx := m_last_truncate_idx d;
     m_last_crc := m_last_crc d;
     m_last_flush_time := m_last_flush_time d;
     m_block_flush_q := m_block_flush_q d;
     m_logdev_id := m_logdev_id d;
     store_tail := store_tail d;
     trace := trace d |}.

Definition set_is_flushing (d : LogDev) (v : bool) : LogDev :=
  {| m_log_records := m_log_records d;
     m_log_idx := m_log_idx d;
     m_pending_flush_size := m_pending_flush_size d;
     m_is_flushing := v;
     m_last_flush_idx := m_last_flush_idx d;
     m_last_truncate_idx := m_last_truncate_idx d;
     m_last_crc := m_last_crc d;
     m_last_flush_time := m_last_flush_time d;
     m_block_flush_q := m_block_flush_q d;
     m_logdev_id := m_logdev_id d;
     store_tail := store_tail d;
     trace := trace d |}.

Definition set_last_flush_idx (d : LogDev) (v : Z) : LogDev :=
  {| m_log_records := m_log_records d;
     m_log_idx := m_log_idx d;
     m_pending_flush_size := m_pending_flush_size d;
     m_is_flushing := m_is_flushing d;
     m_last_flush_idx := v;
     m_last_truncate_idx := m_last_truncate_idx d;
     m_last_crc := m_last_crc d;
     m_last_flush_time := m_last_flush_time d;
     m_block_flush_q := m_block_flush_q d;
     m_logdev_id := m_logdev_id d;
     store_tail := store_tail d;
     trace := trace d |}.

Definition set_last_crc (d : LogDev) (v : Z) : LogDev :=
  {| m_log_records := m_log_records d;
     m_log_idx := m_log_idx d;
     m_pending_flush_size := m_pending_flush_size d;
     m_is_flushing := m_is_flushing d;
     m_last_flush_idx := m_last_flush_idx d;
     m_last_truncate_idx := m_last_truncate_idx d;
     m_last_crc := v;
     m_last_flush_time := m_last_flush_time d;
     m_block_flush_q := m_block_flush_q d;
     m_logdev_id := m_logdev_id d;
     store_tail := store_tail d;
     trace := trace d |}.

Definition set_last_flush_time (d : LogDev) (v : Z) : LogDev :=
  {| m_log_records := m_log_records d;
     m_log_idx := m_log_idx d;
     m_pending_flush_size := m_pending_flush_size d;
     m_is_flushing := m_is_flushing d;
     m_last_flush_idx := m_last_flush_idx d;
     m_last_truncate_idx := m_last_truncate_idx d;
     m_last_crc := m_last_crc d;
     m_last_flush_time := v;
     m_block_flush_q := m_block_flush_q d;
     m_logdev_id := m_logdev_id d;
     store_tail := store_tail d;
     trace := trace d |}.

Definition set_block_flush_q (d : LogDev) (v : list Z) : LogDev :=
  {| m_log_records := m_log_records d;
     m_log_idx := m_log_idx d;
     m_pending_flush_size := m_pending_flush_size d;
     m_is_flushing := m_is_flushing d;
     m_last_flush_idx := m_last_flush_idx d;
     m_last_truncate_idx := m_last_truncate_idx d;
     m_last_crc := m_last_crc d;
     m_last_flush_time := m_last_flush_time d;
     m_block_flush_q := v;
     m_logdev_id := m_logdev_id d;
     store_tail := store_tail d;
     trace := trace d |}.

Definition set_store_tail (d : LogDev) (v : Z) : LogDev :=
  {| m_log_records := m_log_records d;
     m_log_idx := m_log_idx d;
     m_pending_flush_size := m_pending_flush_size d;
     m_is_flushing := m_is_flushing d;
     m_last_flush_idx := m_last_flush_idx d;
     m_last_truncate_idx := m_last_truncate_idx d;
     m_last_crc := m_last_crc d;
     m_last_flush_time := m_last_flush_time d;
     m_block_flush_q := m_block_flush_q d;
     m_logdev_id := m_logdev_id d;
     store_tail := v;
     trace := trace d |}.

Definition set_trace (d : LogDev) (v : list event) : LogDev :=
  {| m_log_records := m_log_records d;
     m_log_idx := m_log_idx d;
     m_pending_flush_size := m_pending_flush_size d;
     m_is_flushing := m_is_flushing d;
     m_last_flush_idx := m_last_flush_idx d;
     m_last_truncate_idx := m_last_truncate_idx d;
     m_last_crc := m_last_crc d;
     m_last_flush_time := m_last_flush_time d;
     m_block_flush_q := m_block_flush_q d;
     m_logdev_id := m_logdev_id d;
     store_tail := store_tail d;
     trace := v |}.

Definition emit (d : LogDev) (e : event) : LogDev := set_trace d (trace d ++ [e]).

(** The groups handed to the store, oldest first. *)
Fixpoint writes (tr : list event) : list LogGroup :=
  match tr with
  | [] => []
  | EvWrite lg :: rest => lg :: writes rest
  | _ :: rest => writes rest
  end.

(** The device as [start(format = true)] leaves a fresh instance. *)
Definition formatted (id : Z) : LogDev :=
  {| m_log_records := ∅;
     m_log_idx := 0;
     m_pending_flush_size := 0;
     m_is_flushing := false;
     m_last_flush_idx := -1;
     m_last_truncate_idx := -1;
     m_last_crc := INVALID_CRC32_VALUE;
     m_last_flush_time := 0;
     m_block_flush_q := [];
     m_logdev_id := id;
     store_tail := 0;
     trace := [] |}.

(** The tracker holds only log indexes that have been handed out. *)
Definition tracker_bounded (d : LogDev) : Prop :=
  0 <= m_log_idx d /\
  forall j, is_Some (m_log_records d !! j) -> 0 <= j < m_log_idx d.

Section Ops.
Variable cfg : log_config.
Variable compute_crc : LogGroup -> Z.
(** Constants of the device declared outside the sources. *)
Variable flush_data_threshold_size : Z.
Variable max_time_between_flush_us : Z.

(** [StreamTracker::create], [complete], [at] and [truncate], which drops
    the slots up to an index. *)
Definition tracker_create (tr : gmap Z tracker_slot) (i : Z) (r : log_record)
  : gmap Z tracker_slot :=
  <[i := {| slot_record := r; slot_completed := false |}]> tr.

Definition tracker_complete (tr : gmap Z tracker_slot) (from upto : Z)
  : gmap Z tracker_slot :=
  map_imap (fun i s =>
              Some (if (from <=? i) && (i <=? upto)
                    then {| slot_record := slot_record s; slot_completed := true |}
                    else s)) tr.

Definition tracker_at (tr : gmap Z tracker_slot) (i : Z) : option log_record :=
  slot_record <$> tr !! i.

Definition tracker_truncate (tr : gmap Z tracker_slot) (i : Z)
  : gmap Z tracker_slot :=
  filter (fun kv => i < fst kv) tr.

(** The body of the [foreach_active] callback of [prepare_flush], run over
    the consecutive active slots from [i] until a record is refused. *)
Fixpoint gather (fuel : nat) (tr : gmap Z tracker_slot) (i : Z)
  (lg : LogGroup) (flushing_upto_idx : Z) : LogGroup * Z :=
  match fuel with
  | O => (lg, flushing_upto_idx)
  | S fuel' =>
      match tr !! i with
      | None => (lg, flushing_upto_idx)
      | Some s =>
          let '(ok, lg') := add_record cfg lg (slot_record s) i in
          if ok then gather fuel' tr (i + 1) lg' i
          else (lg', flushing_upto_idx)
      end
  end.

Definition with_flush_info (lg : LogGroup) (from upto off : Z) : LogGroup :=
  {| m_cur_buf_len := m_cur_buf_len lg;
     m_record_slots := m_record_slots lg;
     m_inline_data_pos := m_inline_data_pos lg;
     m_oob_data_pos := m_oob_data_pos lg;
     m_nrecords := m_nrecords lg;
     m_max_records := m_max_records lg;
     m_actual_data_size := m_actual_data_size lg;
     m_flush_log_idx_from := from;
     m_flush_log_idx_upto := upto;
     m_log_dev_offset := off;
     m_flush_multiple_size := m_flush_multiple_size lg;
     header := header lg |}.

(** [prepare_flush]. The source finishes the group by [lg->finish()], with
    no argument: nothing of the device, and in particular not [m_last_crc],
    is handed to the group. The two values that [finish] stamps are the
    ones of the configuration. The store allocates [group_size] bytes at
    its cursor. *)
Definition prepare_flush (d : LogDev) (estimated_records : Z) : LogGroup * LogDev :=
  let lg0 := reset cfg empty_group estimated_records in
  let '(lg1, flushing_upto_idx) :=
    gather (Z.to_nat (m_log_idx d - (m_last_flush_idx d + 1)))
           (m_log_records d) (m_last_flush_idx d + 1) lg0 0 in
  let lg2 := finish cfg compute_crc lg1 (finish_logdev_id cfg) (finish_prev_crc cfg) in
  let lg3 := with_flush_info lg2 (m_last_flush_idx d + 1) flushing_upto_idx
                             (store_tail d) in
  (lg3, set_store_tail d (store_tail d + group_size (header lg3))).

Definition do_flush (d : LogDev) (lg : LogGroup) : LogDev := emit d (EvWrite lg).

(** The group that a winning [flush_if_needed] prepares. *)
Definition flushed_group (d : LogDev) (new_idx : Z) : LogGroup :=
  fst (prepare_flush (set_is_flushing d true)
         ((if new_idx =? -1 then m_log_idx d else new_idx) - m_last_flush_idx d + 4)).

(** The test of [flush_if_needed] on the pending size after the addition;
    [now] is the reading of the clock. *)
Definition flush_due (d : LogDev) (pending_sz now : Z) : bool :=
  (flush_data_threshold_size <=? pending_sz)
  || (negb (pending_sz =? 0)
      && (max_time_between_flush_us <? now - m_last_flush_time d)).

Definition flush_if_needed (d : LogDev) (new_record_size new_idx now : Z) : LogDev :=
  let pending_sz := m_pending_flush_size d + new_record_size in
  let d1 := set_pending_flush_size d pending_sz in
  if flush_due d pending_sz now then
    if negb (m_is_flushing d1) then
      let d2 := set_is_flushing d1 true in
      let new_idx' := if new_idx =? -1 then m_log_idx d2 else new_idx in
      let '(lg, d3) := prepare_flush d2 (new_idx' - m_last_flush_idx d2 + 4) in
      let d4 := set_pending_flush_size d3
                  (m_pending_flush_size d3 - actual_data_size lg) in
      let d5 := set_last_flush_time d4 now in
      do_flush d5 lg
    else d1
  else d1.

(** [append_async]; the blob is given by its bytes, its address and its
    alignment flag. *)
Definition append_async (d : LogDev) (store_id' seq_num' : Z)
  (data' : list Z) (data_addr' : Z) (aligned : bool) (cb_context : Z)
  (now : Z) : Z * LogDev :=
  let i := m_log_idx d in
  let d1 := set_log_idx d (i + 1) in
  let r := {| data := data'; data_addr := data_addr'; data_is_aligned := aligned;
              context := cb_context; rec_store_id := store_id';
              seq_num := seq_num' |} in
  let d2 := set_log_records d1 (tracker_create (m_log_records d1) i r) in
  (i, flush_if_needed d2 (data_size r) i now).

(** [unlock_flush]: the blocked callbacks run and the queue is cleared,
    then the flag is stored, then a chained flush is tried. *)
Definition run_blocked (d : LogDev) : LogDev :=
  if 0 <? Z.of_nat (length (m_block_flush_q d)) then
    set_block_flush_q
      (set_trace d (trace d ++ map EvBlockedCb (m_block_flush_q d))) []
  else d.

Definition release_flush (d : LogDev) : LogDev :=
  emit (set_is_flushing (run_blocked d) false) EvFlushUnlocked.

Definition unlock_flush (d : LogDev) (now : Z) : LogDev :=
  flush_if_needed (release_flush d) 0 (-1) now.

(** The loop of [on_flush_completion]; [at] fails on a log index the
    tracker does not hold. *)
Fixpoint append_comp_loop (fuel : nat) (d : LogDev) (lg : LogGroup)
  (flush_ld_key : logdev_key) (i : Z) : option LogDev :=
  match fuel with
  | O => Some d
  | S fuel' =>
      match tracker_at (m_log_records d) i with
      | None => None
      | Some record =>
          append_comp_loop fuel'
            (emit d (EvAppendComp (rec_store_id record)
                       {| idx := i; dev_offset := m_log_dev_offset lg |}
                       flush_ld_key
                       (m_flush_log_idx_upto lg - i)
                       (context record)))
            lg flush_ld_key (i + 1)
      end
  end.

Definition on_flush_completion (d : LogDev) (lg : LogGroup) (now : Z)
  : option LogDev :=
  let d1 := set_log_records d
              (tracker_complete (m_log_records d)
                 (m_flush_log_idx_from lg) (m_flush_log_idx_upto lg)) in
  let d2 := set_last_flush_idx d1 (m_flush_log_idx_upto lg) in
  let flush_ld_key :=
    {| idx := m_last_flush_idx d2; dev_offset := m_log_dev_offset lg |} in
  match append_comp_loop
          (Z.to_nat (m_flush_log_idx_upto lg - m_flush_log_idx_from lg + 1))
          d2 lg flush_ld_key (m_flush_log_idx_from lg) with
  | None => None
  | Some d3 =>
      let d4 := set_last_crc d3 (cur_grp_crc (header lg)) in
      Some (unlock_flush d4 now)
  end.

Definition try_lock_flush (d : LogDev) (cb : Z) : bool * LogDev :=
  if negb (m_is_flushing d) then
    (true, emit (set_is_flushing d true) (EvBlockedCb cb))
  else
    (false, set_block_flush_q d (m_block_flush_q d ++ [cb])).

(** [LogDev::read]. The store is a map from device offsets to bytes and
    [pread] copies a run of them; [decode] stands for reading the packed
    header and its slot array through the cast of the read buffer;
    [crc32_ieee] and its seed come from outside the sources. *)
Definition pread (store : Z -> Z) (size off : Z) : list Z :=
  (fun i => store (off + i)) <$> seqZ 0 size.

Definition round_down (x a : Z) : Z := (x / a) * a.
Definition round_up (x a : Z) : Z := ((x + a - 1) / a) * a.

Definition slice (buf : list Z) (from len : Z) : list Z :=
  take (Z.to_nat len) (drop (Z.to_nat from) buf).

Variable decode : list Z -> log_group_header * list serialized_log_record.
Variable crc32_ieee : Z -> list Z -> Z.
Variable init_crc32 : Z.

Definition read_slot (h : log_group_header) (key : logdev_key) : Z :=
  u32 (idx key - start_log_idx h).

Definition read_data_offset (h : log_group_header) (r : serialized_log_record) : Z :=
  u32 (offset r + (if negb (is_inlined r =? 0) then 0 else oob_data_offset h)).

Definition read (store : Z -> Z) (key : logdev_key) : option (list Z) :=
  let rbuf := pread store initial_read_size (dev_offset key) in
  let '(h, slots) := decode rbuf in
  if negb (magic_word h =? LOG_GROUP_HDR_MAGIC) then None
  else if negb (start_idx h <=? idx key) then None
  else if negb (idx key <? start_idx h + nrecords h) then None
  else if (total_size h <=? initial_read_size)
          && negb (this_group_crc h
                   =? crc32_ieee init_crc32
                        (slice rbuf (sizeof_log_group_header cfg)
                           (total_size h - sizeof_log_group_header cfg)))
  then None
  else
    match nth_record slots (read_slot h key) with
    | None => None
    | Some r =>
        let data_offset := read_data_offset h r in
        if data_offset + size r <? initial_read_size then
          Some (slice rbuf data_offset (size r))
        else
          let rounded_data_offset := round_down data_offset dma_address_boundary in
          let rounded_size :=
            round_up (size r + data_offset - rounded_data_offset)
                     dma_address_boundary in
          let rbuf2 := pread store rounded_size
                         (dev_offset key + rounded_data_offset) in
          Some (slice rbuf2 (data_offset - rounded_data_offset) (size r))
    end.

(** [truncate(key)]: the tracker is truncated up to [key.idx]. The
    truncation of the store moves the start of the journal, of which the
    device keeps nothing. *)
Definition truncate (d : LogDev) (key : logdev_key) : LogDev :=
  set_log_records d (tracker_truncate (m_log_records d) (idx key)).

(** The device together with its surroundings: how many of the written
    groups the store has completed, and whether a client holds the flush
    lock it won through [try_lock_flush]. *)
Record world := {
  dev : LogDev;
  ncompleted : nat;
  client_locked : bool
}.

Definition started_world (id : Z) : world :=
  {| dev := formatted id; ncompleted := 0; client_locked := false |}.

(** What can happen to a started device up to its [stop]: an append, a tick
    of the flush timer, the completion by the store of the oldest group in
    flight, a client that asks for the flush lock or gives it back, a
    truncation. *)
Inductive step : world -> world -> Prop :=
| step_append w store_id' seq_num' data' data_addr' aligned cb_context now :
    step w {| dev := snd (append_async (dev w) store_id' seq_num' data'
                            data_addr' aligned cb_context now);
              ncompleted := ncompleted w; client_locked := client_locked w |}
| step_timer w now :
    step w {| dev := flush_if_needed (dev w) 0 (-1) now;
              ncompleted := ncompleted w; client_locked := client_locked w |}
| step_completion w lg now d' :
    writes (trace (dev w)) !! ncompleted w = Some lg ->
    on_flush_completion (dev w) lg now = Some d' ->
    step w {| dev := d'; ncompleted := S (ncompleted w);
              client_locked := client_locked w |}
| step_try_lock w cb :
    step w {| dev := snd (try_lock_flush (dev w) cb);
              ncompleted := ncompleted w;
              client_locked := client_locked w || fst (try_lock_flush (dev w) cb) |}
| step_client_unlock w now :
    client_locked w = true ->
    step w {| dev := unlock_flush (dev w) now;
              ncompleted := ncompleted w; client_locked := false |}
| step_truncate w key :
    step w {| dev := truncate (dev w) key;
              ncompleted := ncompleted w; client_locked := client_locked w |}.

Inductive reachable (id : Z) : world -> Prop :=
| reachable_start : reachable id (started_world id)
| reachable_step w w' : reachable id w -> step w w' -> reachable id w'.



Fixpoint tip (c0 : Z) (ws : list LogGroup) : Z :=
  match ws with
  | [] => c0
  | g :: rest => tip (cur_grp_crc (header g)) rest
  end.

(** The groups written and not yet completed. *)
Definition in_flight (w : world) : list LogGroup :=
  drop (ncompleted w) (writes (trace (dev w))).

(** What holds of the device and its surroundings between two steps. *)
Definition world_inv (w : world) : Prop :=
  let ws := writes (trace (dev w)) in
  (ncompleted w <= length ws <= S (ncompleted w))%nat /\
  (m_is_flushing (dev w) = false ->
     length ws = ncompleted w /\ client_locked w = false) /\
  (client_locked w = true -> length ws = ncompleted w) /\
  Forall (fun g => prev_grp_crc (header g) = finish_prev_crc cfg) ws /\
  m_last_crc (dev w) = tip INVALID_CRC32_VALUE (take (ncompleted w) ws).

End Ops.

(** A device that flushes as soon as one byte is pending, used for the
    concrete runs below. *)
Definition ex_crc (lg : LogGroup) : Z :=
  1000 + 10 * m_nrecords lg + m_flush_log_idx_from lg.

Definition ex_append (d : LogDev) (seq : Z) (now : Z) : LogDev :=
  snd (append_async ex_cfg ex_crc 1 1000 d 7 seq [104; 101; 108; 108; 111]
         4096 true 0 now).

Definition ex_d1 : LogDev := ex_append (formatted 1) 0 10.

Definition ex_lg1 : LogGroup :=
  default empty_group (head (writes (trace ex_d1))).

Definition ex_d2 : LogDev :=
  default ex_d1 (on_flush_completion ex_cfg ex_crc 1 1000 ex_d1 ex_lg1 20).

Definition ex_d3 : LogDev := ex_append ex_d2 1 30.

Definition ex_w (d : LogDev) (n : nat) : world :=
  {| dev := d; ncompleted := n; client_locked := false |}.

(** A fresh device whose flush lock a client has taken. *)
Definition ex_locked : world :=
  {| dev := snd (try_lock_flush (formatted 1) 9);
     ncompleted := 0; client_locked := true |}.



(** The device after two appends, truncated up to log index 0. *)
Definition ex_truncated : world :=
  ex_w (truncate ex_d3 {| idx := 0; dev_offset := 0 |}) 1.

End LogDevice.

(** ** The write-back cache (writeBack_cache.hpp) *)

Module WBCache.

Definition MAX_CP_CNT : Z := 2.

Inductive writeback_req_state :=
| WB_REQ_INIT | WB_REQ_WAITING | WB_REQ_SENT | WB_REQ_COMPL.

Inductive btree_status_t := success | cp_mismatch.

(** Modelled from the spec: [btree_cp], declared outside the sources, of
    which the cache reads the 64-bit unsigned [cp_id]. *)
Record btree_cp := { cp_id : Z }.

(** Requests and memory vectors are reference-counted heap objects; they are
    named by their position in [reqs] and [mems], and the intrusive
    pointers of the source are these names. *)
Record writeback_req := {
  state : writeback_req_state;
  bid : Z;
  bcp : btree_cp;
  bn : Z;
  req_q : list nat;
  dependent_cnt : Z;
  m_mem : nat
}.

Record node_buf := {
  node_bcp : option btree_cp;      (* WriteBackCacheBuffer::bcp *)
  req : Z -> option nat;           (* WriteBackCacheBuffer::req[MAX_CP_CNT] *)
  memvec : nat                     (* the node's memory vector *)
}.

Inductive event :=
| EvBlkWrite (r : nat) (mem : nat)   (* m_blkstore->write(bid, m_mem, 0, req) *)
| EvCpComp (cp : btree_cp).          (* m_cp_comp_cb(bcp) *)

Record WriteBackCache := {
  m_req_list : Z -> list nat;
  m_dirty_buf_cnt : Z -> Z;
  reqs : list writeback_req;
  nodes : Z -> node_buf;
  mems : list (list Z);
  events : list event
}.

Definition upd {A} (f : Z -> A) (i : Z) (v : A) : Z -> A :=
  fun j => if j =? i then v else f j.

Definition dummy_req : writeback_req :=
  {| state := WB_REQ_INIT; bid := 0; bcp := {| cp_id := 0 |}; bn := 0;
     req_q := []; dependent_cnt := 1; m_mem := 0%nat |}.

Definition get_req (c : WriteBackCache) (r : nat) : writeback_req :=
  default dummy_req (reqs c !! r).

Definition set_reqs (c : WriteBackCache) (v : list writeback_req) : WriteBackCache :=
  {| m_req_list := m_req_list c; m_dirty_buf_cnt := m_dirty_buf_cnt c;
     reqs := v; nodes := nodes c; mems := mems c; events := events c |}.

Definition set_req (c : WriteBackCache) (r : nat) (v : writeback_req) : WriteBackCache :=
  set_reqs c (<[r := v]> (reqs c)).

Definition set_nodes (c : WriteBackCache) (v : Z -> node_buf) : WriteBackCache :=
  {| m_req_list := m_req_list c; m_dirty_buf_cnt := m_dirty_buf_cnt c;
     reqs := reqs c; nodes := v; mems := mems c; events := events c |}.

Definition set_req_list (c : WriteBackCache) (v : Z -> list nat) : WriteBackCache :=
  {| m_req_list := v; m_dirty_buf_cnt := m_dirty_buf_cnt c;
     reqs := reqs c; nodes := nodes c; mems := mems c; events := events c |}.

Definition set_dirty_buf_cnt (c : WriteBackCache) (v : Z -> Z) : WriteBackCache :=
  {| m_req_list := m_req_list c; m_dirty_buf_cnt := v;
     reqs := reqs c; nodes := nodes c; mems := mems c; events := events c |}.

Definition set_mems (c : WriteBackCache) (v : list (list Z)) : WriteBackCache :=
  {| m_req_list := m_req_list c; m_dirty_buf_cnt := m_dirty_buf_cnt c;
     reqs := reqs c; nodes := nodes c; mems := v; events := events c |}.

Definition emit (c : WriteBackCache) (e : event) : WriteBackCache :=
  {| m_req_list := m_req_list c; m_dirty_buf_cnt := m_dirty_buf_cnt c;
     reqs := reqs c; nodes := nodes c; mems := mems c;
     events := events c ++ [e] |}.

Definition with_state (r : writeback_req) (s : writeback_req_state) : writeback_req :=
  {| state := s; bid := bid r; bcp := bcp r; bn := bn r; req_q := req_q r;
     dependent_cnt := dependent_cnt r; m_mem := m_mem r |}.

Definition with_req_q (r : writeback_req) (q : list nat) : writeback_req :=
  {| state := state r; bid := bid r; bcp := bcp r; bn := bn r; req_q := q;
     dependent_cnt := dependent_cnt r; m_mem := m_mem r |}.

Definition with_dependent_cnt (r : writeback_req) (n : Z) : writeback_req :=
  {| state := state r; bid := bid r; bcp := bcp r; bn := bn r; req_q := req_q r;
     dependent_cnt := n; m_mem := m_mem r |}.

Definition with_mem (r : writeback_req) (m : nat) : writeback_req :=
  {| state := state r; bid := bid r; bcp := bcp r; bn := bn r; req_q := req_q r;
     dependent_cnt := dependent_cnt r; m_mem := m |}.

Definition is_compl (s : writeback_req_state) : bool :=
  match s with WB_REQ_COMPL => true | _ => false end.

Definition is_waiting (s : writeback_req_state) : bool :=
  match s with WB_REQ_WAITING => true | _ => false end.

Definition is_sent (s : writeback_req_state) : bool :=
  match s with WB_REQ_SENT => true | _ => false end.

(** [cp_id % MAX_CP_CNT]. *)
Definition slot (cp : btree_cp) : Z := cp_id cp mod MAX_CP_CNT.

(** The cache as its constructor leaves it. *)
Definition empty_cache : WriteBackCache :=
  {| m_req_list := fun _ => [];
     m_dirty_buf_cnt := fun _ => 0;
     reqs := [];
     nodes := fun _ => {| node_bcp := None; req := fun _ => None; memvec := 0%nat |};
     mems := [];
     events := [] |}.

(** [write(bn, dependent_bn, bcp)]: the request of the node for the slot is
    created, or its memory vector refreshed; then it is queued behind the
    request of the node it depends on. *)
Definition create_req (c : WriteBackCache) (bn' : Z) (bcp' : btree_cp)
  : WriteBackCache :=
  let cp := slot bcp' in
  let id := length (reqs c) in
  let wb_req :=
    {| state := WB_REQ_WAITING; bid := bn'; bcp := bcp'; bn := bn';
       req_q := []; dependent_cnt := 1; m_mem := memvec (nodes c bn') |} in
  let node' :=
    {| node_bcp := Some bcp';
       req := upd (req (nodes c bn')) cp (Some id);
       memvec := memvec (nodes c bn') |} in
  {| m_req_list := upd (m_req_list c) cp (m_req_list c cp ++ [id]);
     m_dirty_buf_cnt := upd (m_dirty_buf_cnt c) cp (m_dirty_buf_cnt c cp + 1);
     reqs := reqs c ++ [wb_req];
     nodes := upd (nodes c) bn' node';
     mems := mems c;
     events := events c |}.

Definition update_mem (c : WriteBackCache) (r : nat) (bn' : Z) : WriteBackCache :=
  if negb (Nat.eqb (m_mem (get_req c r)) (memvec (nodes c bn')))
  then set_req c r (with_mem (get_req c r) (memvec (nodes c bn')))
  else c.

Definition add_dependency (c : WriteBackCache) (d wb_req : nat) : WriteBackCache :=
  let c2 := set_req c d
              (with_req_q (get_req c d) (req_q (get_req c d) ++ [wb_req])) in
  set_req c2 wb_req
    (with_dependent_cnt (get_req c2 wb_req)
       (dependent_cnt (get_req c2 wb_req) + 1)).

Definition write (c : WriteBackCache) (bn' : Z) (dependent_bn : option Z)
  (bcp' : btree_cp) : WriteBackCache :=
  let cp := slot bcp' in
  let wbd_req :=
    match dependent_bn with
    | Some dn => req (nodes c dn) cp
    | None => None
    end in
  let c1 :=
    match req (nodes c bn') cp with
    | None => create_req c bn' bcp'
    | Some r => update_mem c r bn'
    end in
  match req (nodes c1 bn') cp, wbd_req with
  | Some wb_req, Some d => add_dependency c1 d wb_req
  | _, _ => c1
  end.

(** [dependent_cnt.decrement_testz(1)] followed, when it reaches zero, by
    the submission of the request to the block store. *)
Definition decremented (rq : writeback_req) : writeback_req :=
  let rq1 := with_dependent_cnt rq (dependent_cnt rq - 1) in
  if dependent_cnt rq1 =? 0 then with_state rq1 WB_REQ_SENT else rq1.

Definition release (c : WriteBackCache) (r : nat) : WriteBackCache :=
  let rq := get_req c r in
  let c1 := set_req c r (decremented rq) in
  if dependent_cnt rq - 1 =? 0 then emit c1 (EvBlkWrite r (m_mem rq)) else c1.

(** [refresh_buf(bn, is_write_modifiable, bcp)]. *)
Definition prev_slot (bcp' : btree_cp) : Z := wrap 64 (cp_id bcp' - 1) mod MAX_CP_CNT.

Definition copy_memvec (c : WriteBackCache) (bn' : Z) : WriteBackCache :=
  let old := memvec (nodes c bn') in
  let fresh := length (mems c) in
  let c1 := set_mems c (mems c ++ [default [] (mems c !! old)]) in
  set_nodes c1
    (upd (nodes c1) bn'
       {| node_bcp := node_bcp (nodes c1 bn');
          req := req (nodes c1 bn');
          memvec := fresh |}).

Definition refresh_buf (c : WriteBackCache) (bn' : Z) (is_write_modifiable : bool)
  (bcp' : option btree_cp) : btree_status_t * WriteBackCache :=
  match bcp', node_bcp (nodes c bn') with
  | None, _ | _, None => (success, c)
  | Some cp, Some ncp =>
      if negb is_write_modifiable then
        if cp_id cp <? cp_id ncp then (cp_mismatch, c) else (success, c)
      else if cp_id ncp =? cp_id cp then (success, c)
      else if cp_id cp <? cp_id ncp then (cp_mismatch, c)
      else
        match req (nodes c bn') (prev_slot cp) with
        | None => (success, c)
        | Some r =>
            if is_compl (state (get_req c r)) then (success, c)
            else (success, copy_memvec c bn')
        end
  end.

(** [flush_buffers(bcp)] in its three parts: the pseudo-request is taken,
    each request of the list is visited, the list is cleared and the
    pseudo-request dropped. *)
Definition flush_begin (c : WriteBackCache) (bcp' : btree_cp) : WriteBackCache :=
  set_dirty_buf_cnt c
    (upd (m_dirty_buf_cnt c) (slot bcp') (m_dirty_buf_cnt c (slot bcp') + 1)).

Definition flush_visit (c : WriteBackCache) (r : nat) : WriteBackCache := release c r.

Definition flush_end (c : WriteBackCache) (bcp' : btree_cp) : WriteBackCache :=
  let cp := slot bcp' in
  let c1 := set_req_list c (upd (m_req_list c) cp []) in
  let n := m_dirty_buf_cnt c1 cp - 1 in
  let c2 := set_dirty_buf_cnt c1 (upd (m_dirty_buf_cnt c1) cp n) in
  if n =? 0 then emit c2 (EvCpComp bcp') else c2.

Definition flush_buffers (c : WriteBackCache) (bcp' : btree_cp) : WriteBackCache :=
  flush_end
    (fold_left flush_visit (m_req_list c (slot bcp')) (flush_begin c bcp'))
    bcp'.

(** The loop of [writeBack_completion_internal] over the queue of the
    completed request, popped from the back. *)
Fixpoint drain (fuel : nat) (c : WriteBackCache) (r : nat) : WriteBackCache :=
  match fuel with
  | O => c
  | S fuel' =>
      match last (req_q (get_req c r)) with
      | None => c
      | Some depend_req =>
          let c1 := set_req c r
                      (with_req_q (get_req c r) (removelast (req_q (get_req c r)))) in
          drain fuel' (release c1 depend_req) r
      end
  end.

Definition writeBack_completion_internal (c : WriteBackCache) (r : nat)
  : WriteBackCache :=
  let cp := slot (bcp (get_req c r)) in
  let c1 := set_req c r (with_state (get_req c r) WB_REQ_COMPL) in
  let c2 := drain (length (req_q (get_req c1 r))) c1 r in
  let node := nodes c2 (bn (get_req c2 r)) in
  let c3 := set_nodes c2
              (upd (nodes c2) (bn (get_req c2 r))
                 {| node_bcp := node_bcp node;
                    req := upd (req node) cp None;
                    memvec := memvec node |}) in
  let n := m_dirty_buf_cnt c3 cp - 1 in
  let c4 := set_dirty_buf_cnt c3 (upd (m_dirty_buf_cnt c3) cp n) in
  if n =? 0 then emit c4 (EvCpComp (bcp (get_req c4 r))) else c4.

(** How often the completion callback has run for a checkpoint. *)
Fixpoint cp_comp_count (cp : btree_cp) (evs : list event) : Z :=
  match evs with
  | [] => 0
  | EvCpComp cp' :: rest =>
      (if cp_id cp' =? cp_id cp then 1 else 0) + cp_comp_count cp rest
  | _ :: rest => cp_comp_count cp rest
  end.

(** The life of the two checkpoint slots. A slot is open while the tree
    registers writes for its checkpoint, flushing while [flush_buffers]
    walks the list ([rest] is what it has still to visit), and drained
    once [flush_buffers] has returned. *)
Inductive phase := Open | Flushing (rest : list nat) | Drained.

Record world := {
  cache : WriteBackCache;
  cps : Z -> btree_cp;       (* the checkpoint that owns each slot *)
  phases : Z -> phase;
  closed : list btree_cp     (* the earlier owners of the slots *)
}.

Definition is_slot (i : Z) : Prop := i = 0 \/ i = 1.

Inductive step : world -> world -> Prop :=
| step_write w i bn' dependent_bn :
    is_slot i -> phases w i = Open ->
    (forall dn, dependent_bn = Some dn ->
       req (nodes (cache w) dn) (slot (cps w i)) <> None) ->
    step w {| cache := write (cache w) bn' dependent_bn (cps w i);
              cps := cps w; closed := closed w; phases := phases w |}
| step_flush_begin w i :
    is_slot i -> phases w i = Open ->
    step w {| cache := flush_begin (cache w) (cps w i);
              cps := cps w; closed := closed w;
              phases := upd (phases w) i
                          (Flushing (m_req_list (cache w) (slot (cps w i)))) |}
| step_flush_visit w i r rest :
    is_slot i -> phases w i = Flushing (r :: rest) ->
    step w {| cache := flush_visit (cache w) r;
              cps := cps w; closed := closed w;
              phases := upd (phases w) i (Flushing rest) |}
| step_flush_end w i :
    is_slot i -> phases w i = Flushing [] ->
    step w {| cache := flush_end (cache w) (cps w i);
              cps := cps w; closed := closed w;
              phases := upd (phases w) i Drained |}
| step_completion w r :
    (r < length (reqs (cache w)))%nat ->
    state (get_req (cache w) r) = WB_REQ_SENT ->
    step w {| cache := writeBack_completion_internal (cache w) r;
              cps := cps w; closed := closed w; phases := phases w |}
| step_prepare_cp w i new_bcp :
    (* prepare_cp hands a drained slot to the next checkpoint; of the cache
       it reads the two fields that it asserts to be empty and writes the
       free lists, which are not modelled *)
    is_slot i -> slot new_bcp = i -> cp_id (cps w i) < cp_id new_bcp ->
    phases w i = Drained ->
    m_dirty_buf_cnt (cache w) i = 0 ->
    m_req_list (cache w) i = [] ->
    step w {| cache := cache w;
              cps := upd (cps w) i new_bcp;
              phases := upd (phases w) i Open;
              closed := cps w i :: closed w |}.

Definition started (w : world) : Prop :=
  cache w = empty_cache /\
  slot (cps w 0) = 0 /\ slot (cps w 1) = 1 /\
  phases w 0 = Open /\ phases w 1 = Open /\
  closed w = [].

Inductive reachable : world -> Prop :=
| reachable_start w : started w -> reachable w
| reachable_step w w' : reachable w -> step w w' -> reachable w'.

(** The requests of a slot that are not yet complete. *)
Definition sumZ {A} (f : A -> Z) (l : list A) : Z :=
  fold_right (fun x acc => f x + acc) 0 l.

Definition live (i : Z) (heap : list writeback_req) : Z :=
  sumZ (fun r => if (slot (bcp r) =? i) && negb (is_compl (state r))
                 then 1 else 0) heap.

(** References to a request: from the flush list that has still to visit
    it, and from the queues of the requests it waits for. *)
Definition countZ (x : nat) (l : list nat) : Z :=
  sumZ (fun y => if Nat.eqb y x then 1 else 0) l.

Definition occ (x : nat) (heap : list writeback_req) : Z :=
  sumZ (fun q => countZ x (req_q q)) heap.

Definition to_visit (w : world) (i : Z) : list nat :=
  match phases w i with
  | Open => m_req_list (cache w) i
  | Flushing rest => rest
  | Drained => []
  end.

Definition flushing (p : phase) : Z :=
  match p with Flushing _ => 1 | _ => 0 end.

Definition drained (p : phase) : bool :=
  match p with Drained => true | _ => false end.

(** What holds of each request: its counter is the number of references
    that will still decrement it, and it waits exactly while the counter
    is positive. *)
Definition req_ok (tv : Z -> list nat) (heap : list writeback_req)
  (x : nat) (r : writeback_req) : Prop :=
  is_slot (slot (bcp r)) /\
  dependent_cnt r = countZ x (tv (slot (bcp r))) + occ x heap /\
  (state r = WB_REQ_WAITING <-> 0 < dependent_cnt r) /\
  state r <> WB_REQ_INIT.

(** The request heap against the lists [tv] that the flushers have still
    to visit. *)
Definition heap_inv (tv : Z -> list nat) (heap : list writeback_req) : Prop :=
  (forall x r, heap !! x = Some r -> req_ok tv heap x r) /\
  (forall q rq x, heap !! q = Some rq -> x ∈ req_q rq -> (x < length heap)%nat) /\
  (forall i x, is_slot i -> x ∈ tv i ->
     exists r, heap !! x = Some r /\ slot (bcp r) = i).

(** Two heaps with the same requests, checkpoint for checkpoint, of which
    the same ones are complete. *)
Definition same_shape (heap heap' : list writeback_req) : Prop :=
  length heap' = length heap /\
  forall y r r', heap !! y = Some r -> heap' !! y = Some r' ->
    bcp r' = bcp r /\ bn r' = bn r /\
    is_compl (state r') = is_compl (state r).

(** One request before and after a step that takes away one of the
    references to request [hit]. *)
Definition dec_rel (hit : bool) (r r' : writeback_req) : Prop :=
  bcp r' = bcp r /\ bn r' = bn r /\
  (forall z, z ∈ req_q r' -> z ∈ req_q r) /\
  if hit then
    dependent_cnt r' = dependent_cnt r - 1 /\
    state r' = (if dependent_cnt r - 1 =? 0 then WB_REQ_SENT else state r)
  else dependent_cnt r' = dependent_cnt r /\ state r' = state r.

(** What a step on the requests alone leaves as it was. *)
Definition frame (c c' : WriteBackCache) : Prop :=
  m_req_list c' = m_req_list c /\
  m_dirty_buf_cnt c' = m_dirty_buf_cnt c /\
  nodes c' = nodes c /\
  mems c' = mems c /\
  (forall cp, cp_comp_count cp (events c') = cp_comp_count cp (events c)) /\
  same_shape (reqs c) (reqs c').

Record world_inv (w : world) : Prop := {
  inv_slots : slot (cps w 0) = 0 /\ slot (cps w 1) = 1;
  inv_dirty : forall i, is_slot i ->
    m_dirty_buf_cnt (cache w) i
    = live i (reqs (cache w)) + flushing (phases w i);
  inv_heap : heap_inv (to_visit w) (reqs (cache w));
  inv_cps : forall x r, reqs (cache w) !! x = Some r ->
    is_compl (state r) = false ->
    bcp r = cps w (slot (bcp r));
  inv_open : forall i x r, is_slot i -> phases w i = Open ->
    reqs (cache w) !! x = Some r -> slot (bcp r) = i ->
    is_compl (state r) = false ->
    x ∈ m_req_list (cache w) i;
  inv_node : forall n i x, is_slot i -> req (nodes (cache w) n) i = Some x ->
    exists r, reqs (cache w) !! x = Some r /\ slot (bcp r) = i /\
              is_compl (state r) = false /\ bn r = n;
  inv_fired : forall i, is_slot i ->
    cp_comp_count (cps w i) (events (cache w))
    = if drained (phases w i) && (live i (reqs (cache w)) =? 0) then 1 else 0;
  inv_closed : forall cp, cp ∈ closed w ->
    cp_comp_count cp (events (cache w)) = 1 /\
    is_slot (slot cp) /\ cp_id cp < cp_id (cps w (slot cp));
  inv_future : forall cp, is_slot (slot cp) ->
    cp_id (cps w (slot cp)) < cp_id cp ->
    cp_comp_count cp (events (cache w)) = 0
}.

(** How often a request has been handed to the block store. *)
Fixpoint blk_write_count (x : nat) (evs : list event) : Z :=
  match evs with
  | [] => 0
  | EvBlkWrite r _ :: rest =>
      (if Nat.eqb r x then 1 else 0) + blk_write_count x rest
  | _ :: rest => blk_write_count x rest
  end.

Definition submitted (s : writeback_req_state) : bool := is_sent s || is_compl s.

(** The queues name requests of the heap. *)
Definition closed_q (heap : list writeback_req) : Prop :=
  forall q rq x, heap !! q = Some rq -> x ∈ req_q rq -> (x < length heap)%nat.

(** A complete request has handed on everything that waited for it. *)
Definition compl_inv (heap : list writeback_req) : Prop :=
  forall q rq, heap !! q = Some rq -> is_compl (state rq) = true -> req_q rq = [].

(** The writes issued against the states of the requests: a request has
    been handed to the block store once if it is sent or complete and not
    at all otherwise, and a request that has been handed over is not
    waiting for a decrement. *)
Definition sent_inv (c : WriteBackCache) : Prop :=
  (forall x r, reqs c !! x = Some r ->
     blk_write_count x (events c) = (if submitted (state r) then 1 else 0) /\
     (submitted (state r) = true -> dependent_cnt r <= 0)) /\
  (forall x, (length (reqs c) <= x)%nat -> blk_write_count x (events c) = 0).

(** Three nodes written in checkpoint 4, the second after the first and the
    third after the second. *)
Definition ex_cp : btree_cp := {| cp_id := 4 |}.

Definition ex_written : WriteBackCache :=
  write (write (write empty_cache 1 None ex_cp) 2 (Some 1) ex_cp) 3 (Some 2) ex_cp.

Definition ex_done : WriteBackCache :=
  writeBack_completion_internal
    (writeBack_completion_internal
       (writeBack_completion_internal (flush_buffers ex_written ex_cp) 0) 1) 2.

(** A start with checkpoints 4 and 5 in the two slots, and the world two
    generations later in slot 0: checkpoint 4 flushed without dirty nodes
    and the slot handed to checkpoint 6. *)
Definition ex_world : world :=
  {| cache := empty_cache;
     cps := fun i => if i =? 0 then ex_cp else {| cp_id := 5 |};
     phases := fun _ => Open;
     closed := [] |}.

Definition ex_world_flushing : world :=
  {| cache := flush_begin empty_cache ex_cp;
     cps := cps ex_world;
     closed := [];
     phases := upd (phases ex_world) 0 (Flushing []) |}.

Definition ex_world_flushed : world :=
  {| cache := flush_end (flush_begin empty_cache ex_cp) ex_cp;
     cps := cps ex_world;
     closed := [];
     phases := upd (upd (phases ex_world) 0 (Flushing [])) 0 Drained |}.

Definition ex_world_next : world :=
  {| cache := cache ex_world_flushed;
     cps := upd (cps ex_world_flushed) 0 {| cp_id := 6 |};
     phases := upd (phases ex_world_flushed) 0 Open;
     closed := [ex_cp] |}.

(** Node 1 written in checkpoint 4, node 2 written after it, and the flush
    of the checkpoint begun and past the request of node 1. *)
Definition ex_world_w1 : world :=
  {| cache := write empty_cache 1 None ex_cp;
     cps := cps ex_world; closed := []; phases := phases ex_world |}.

Definition ex_world_w2 : world :=
  {| cache := write (cache ex_world_w1) 2 (Some 1) ex_cp;
     cps := cps ex_world; closed := []; phases := phases ex_world |}.

Definition ex_world_w3 : world :=
  {| cache := flush_begin (cache ex_world_w2) ex_cp;
     cps := cps ex_world; closed := [];
     phases := upd (phases ex_world) 0 (Flushing [0%nat; 1%nat]) |}.

Definition ex_world_w4 : world :=
  {| cache := flush_visit (cache ex_world_w3) 0;
     cps := cps ex_world; closed := [];
     phases := upd (phases ex_world_w3) 0 (Flushing [1%nat]) |}.

(** Node 1 written in checkpoint 4 and the checkpoint flushed: the flush
    begun, the request of the node visited and sent, the flush ended. The
    write is still to complete. *)
Definition ex_world_f1 : world :=
  {| cache := flush_begin (cache ex_world_w1) ex_cp;
     cps := cps ex_world; closed := [];
     phases := upd (phases ex_world) 0 (Flushing [0%nat]) |}.

Definition ex_world_f2 : world :=
  {| cache := flush_visit (cache ex_world_f1) 0;
     cps := cps ex_world; closed := [];
     phases := upd (phases ex_world_f1) 0 (Flushing []) |}.

Definition ex_world_f3 : world :=
  {| cache := flush_end (cache ex_world_f2) ex_cp;
     cps := cps ex_world; closed := [];
     phases := upd (phases ex_world_f2) 0 Drained |}.

End WBCache.

(** ** The rollback superblock (log_dev.hpp) *)

Module RollbackSb.
Import LogGroupFmt.

Record rollback_record := {
  rb_store_id : Z;
  idx_range : Z * Z       (* logid_range_t *)
}.

(** The packed superblock together with the record array that follows it
    in the same allocation; [slots] has one entry for every record the
    allocation has room for, of which the first [num_records] are in use. *)
Record rollback_superblk := {
  magic : Z;
  version : Z;
  logdev_id : Z;
  num_records : Z;
  slots : list rollback_record
}.

Definition ROLLBACK_SB_MAGIC : Z := 0xDABAF00D.
Definition ROLLBACK_SB_VERSION : Z := 1.
Definition num_record_increment : Z := 8.

Definition at_ (sb : rollback_superblk) (idx : Z) : option rollback_record :=
  if idx <? 0 then None else slots sb !! Z.to_nat idx.

(** The records in use. *)
Definition records (sb : rollback_superblk) : list rollback_record :=
  take (Z.to_nat (num_records sb)) (slots sb).

(** [remove_ith_record]: the [num_records - i - 1] records after slot [i]
    are moved down by one slot and the count is decremented; the slot that
    the last record came from keeps its bytes. With [i] outside the records
    in use the byte count of the [memmove] wraps around and the copy leaves
    the allocation: [None]. *)
Definition remove_ith_record (sb : rollback_superblk) (i : Z)
  : option rollback_superblk :=
  let n := num_records sb in
  if (0 <=? i) && (i <? n) && (n <=? Z.of_nat (length (slots sb))) then
    let moved := take (Z.to_nat (n - i - 1)) (drop (Z.to_nat (i + 1)) (slots sb)) in
    Some {| magic := magic sb; version := version sb; logdev_id := logdev_id sb;
            num_records := u32 (n - 1);
            slots := take (Z.to_nat i) (slots sb) ++ moved
                     ++ drop (Z.to_nat (n - 1)) (slots sb) |}
  else None.

(** [add_record]: the record is written to slot [num_records], which is
    then incremented; a slot past the allocation is [None]. *)
Definition add_record (sb : rollback_superblk) (store_id' : Z) (idx_range' : Z * Z)
  : option rollback_superblk :=
  let n := num_records sb in
  if (0 <=? n) && (n <? Z.of_nat (length (slots sb))) then
    Some {| magic := magic sb; version := version sb; logdev_id := logdev_id sb;
            num_records := u32 (n + 1);
            slots := <[Z.to_nat n := {| rb_store_id := store_id';
                                         idx_range := idx_range' |}]> (slots sb) |}
  else None.

(** An allocation with room for four records, three of them in use. *)
Definition ex_sb : rollback_superblk :=
  {| magic := ROLLBACK_SB_MAGIC; version := ROLLBACK_SB_VERSION; logdev_id := 0;
     num_records := 3;
     slots := [ {| rb_store_id := 1; idx_range := (10, 12) |};
                {| rb_store_id := 2; idx_range := (20, 20) |};
                {| rb_store_id := 1; idx_range := (30, 35) |};
                {| rb_store_id := 0; idx_range := (0, 0) |} ] |}.

End RollbackSb.

(** ** Loading the log at start (log_dev.cpp) *)

Module LogRecovery.
Import LogGroupFmt LogDevice.

(** What recovery tells its surroundings: a reserved store id
    ([m_store_found_cb]) or a log entry ([m_logfound_cb], with the store
    id, the sequence number, the key and the bytes of the payload). *)
Inductive found :=
| StoreFound (store_id : Z)
| LogFound (store_id seq_num : Z) (key : logdev_key) (buf : list Z).

Section Load.
(** Reading the packed header and its slot array through the cast of the
    buffer, as in [LogDev::read]. *)
Variable decode : list Z -> log_group_header * list serialized_log_record.
(** [max_blks_read_for_additional_check], declared outside the sources. *)
Variable max_blks_read_for_additional_check : Z.

Definition load_data_offset (h : log_group_header) (r : serialized_log_record) : Z :=
  u32 (offset r + (if negb (is_inlined r =? 0) then 0 else oob_data_offset h)).

(** The callback for record [i] of a group; a slot index past the decoded
    array stands for a read outside the group image. *)
Definition found_record (h : log_group_header) (slots : list serialized_log_record)
  (group_dev_offset : Z) (buf : list Z) (i : Z) : option found :=
  match nth_record slots i with
  | None => None
  | Some r =>
      Some (LogFound (store_id r) (store_seq_num r)
              {| idx := start_idx h + i; dev_offset := group_dev_offset |}
              (slice buf (load_data_offset h r) (size r)))
  end.

(** The inner loop of [do_load]: [while (i < header->nrecords())]. *)
Fixpoint replay_records (fuel : nat) (h : log_group_header)
  (slots : list serialized_log_record) (group_dev_offset : Z) (buf : list Z)
  (i : Z) : option (list found) :=
  match fuel with
  | O => Some []
  | S fuel' =>
      match found_record h slots group_dev_offset buf i with
      | None => None
      | Some f =>
          match replay_records fuel' h slots group_dev_offset buf (i + 1) with
          | None => None
          | Some rest => Some (f :: rest)
          end
      end
  end.

(** The outer loop of [do_load]. The stream reader is the list of the
    groups that [next_group] yields, each with its device offset; past the
    list, and on an element without bytes, it yields the empty buffer. The
    result is the device, the callbacks made, and what is left of the
    stream. *)
Fixpoint load_groups (stream : list (Z * list Z)) (d : LogDev) (cbs : list found)
  : option (LogDev * list found) :=
  match stream with
  | [] => Some (d, cbs)
  | (group_dev_offset, buf) :: rest =>
      if Z.of_nat (length buf) =? 0 then Some (d, cbs)
      else
        let '(h, slots) := decode buf in
        match replay_records (Z.to_nat (nrecords h)) h slots group_dev_offset buf 0 with
        | None => None
        | Some fs =>
            load_groups rest (set_log_idx d (start_idx h + nrecords h)) (cbs ++ fs)
        end
  end.

(** [assert_next_pages]: of the pages that [group_in_next_page] yields, at
    most [max_blks_read_for_additional_check] are looked at; a page that
    holds a header must start below the loaded log index. *)
Definition assert_next_pages (d : LogDev) (pages : list (list Z)) : bool :=
  forallb (fun buf =>
             if negb (Z.of_nat (length buf) =? 0)
             then start_idx (fst (decode buf)) <? m_log_idx d
             else true)
          (take (Z.to_nat max_blks_read_for_additional_check) pages).

(** [do_load]; [seeked_pos] is where the store's cursor stands after the
    reads. *)
Definition do_load (d : LogDev) (stream : list (Z * list Z))
  (pages : list (list Z)) (seeked_pos : Z) : option (LogDev * list found) :=
  match load_groups stream d [] with
  | None => None
  | Some (d1, cbs) =>
      if assert_next_pages d1 pages then Some (set_store_tail d1 seeked_pos, cbs)
      else None
  end.

(** [start(format = false)] on a fresh instance: the reserved store ids are
    announced, the log is loaded, the tracker restarts at the loaded index
    and the last flushed index is the one before it. *)
Definition start_recover (id : Z) (reserved : list Z) (stream : list (Z * list Z))
  (pages : list (list Z)) (seeked_pos : Z) : option (LogDev * list found) :=
  match do_load (formatted id) stream pages seeked_pos with
  | None => None
  | Some (d1, cbs) =>
      let d2 := set_log_records d1 ∅ in
      Some (set_last_flush_idx d2 (m_log_idx d2 - 1), map StoreFound reserved ++ cbs)
  end.

(** The callbacks for the records of a group, in closed form, and for a
    whole stream. *)
Definition group_callbacks (g : Z * list Z) : list found :=
  let '(h, slots) := decode (snd g) in
  omap (found_record h slots (fst g) (snd g)) (seqZ 0 (nrecords h)).

Definition stream_callbacks (stream : list (Z * list Z)) : list found :=
  concat (map group_callbacks stream).

(** The log index after the last group of a stream. *)
Definition loaded_idx (d : LogDev) (stream : list (Z * list Z)) : Z :=
  match last stream with
  | None => m_log_idx d
  | Some g => start_idx (fst (decode (snd g))) + nrecords (fst (decode (snd g)))
  end.

(** A group with bytes whose header does not count more records than the
    slot array holds. *)
Definition group_ok (g : Z * list Z) : Prop :=
  snd g <> [] /\
  0 <= nrecords (fst (decode (snd g)))
    <= Z.of_nat (length (snd (decode (snd g)))).

End Load.

(** A store that holds at offset 4096 a group of the two records of
    [ex_slots], and a reader of its header. *)
Definition ex_store (off : Z) : Z := off mod 251.

Definition ex_decode (buf : list Z) : log_group_header * list serialized_log_record :=
  (ex_header, ex_slots).

Definition ex_stream : list (Z * list Z) := [(4096, pread ex_store 512 4096)].

End LogRecovery.

(** ** The virtual device over its chunks (virtual_dev.cpp) *)

Module VDev.

Definition BlkId := AppendBlkAlloc.BlkId.
Definition chunk_num := AppendBlkAlloc.chunk_num.

(** The statuses that the file names, and any other value of the enum,
    which is declared outside the sources. *)
Inductive BlkAllocStatus :=
| SUCCESS | FAILED | PARTIAL | SPACE_FULL | OTHER (code : Z).

Definition is_success (s : BlkAllocStatus) : bool :=
  match s with SUCCESS => true | _ => false end.

(** The block allocator of a chunk, as far as the virtual device calls it:
    [alloc] into a vector, [free] of one block id and of a vector. *)
Class BlkAllocator (A Hints : Type) := {
  ba_alloc : A -> Z -> Hints -> BlkAllocStatus * list BlkId * A;
  ba_free : A -> BlkId -> A;
  ba_free_vec : A -> list BlkId -> A;
  ba_is_blk_alloced : A -> BlkId -> bool;
  ba_available_blks : A -> Z;
  ba_get_used_blks : A -> Z
}.

(** The chunk selector: [select] yields a chunk number or the null pointer
    and moves the selector on; [foreach_chunks] visits the chunks in some
    order. *)
Class ChunkSelector (S Hints : Type) := {
  select : S -> Hints -> option Z * S;
  foreach_chunks : S -> list Z
}.

(** A call returns, or dereferences a null chunk pointer or fails a release
    assertion, or is still running when the fuel is spent. *)
Inductive res (T : Type) :=
| Ret (x : T) | Abort | NoFuel.
Arguments Ret {T} x.
Arguments Abort {T}.
Arguments NoFuel {T}.

Section Dev.
Context {A S Hints : Type} `{!BlkAllocator A Hints} `{!ChunkSelector S Hints}.
(** Fields of the hints and constants declared outside the sources. *)
Variable can_look_for_other_chunk : Hints -> bool.
Variable max_blks_in_op : Z.          (* BlkId::max_blks_in_op() *)
Variable blk_count_bits : Z.          (* width of blk_count_t *)
Variable block_size : Z.

(** The device: the block allocators of its chunks by chunk number, the
    selector and the failure counter of the metrics. Three lists record,
    oldest first, what passes between the device and the allocators of its
    chunks: [answers] holds every answer of a chunk allocator's [alloc] to
    [alloc_blk_from_chunk], the status with the block ids it put into the
    vector; [vec_frees] the block ids that [alloc_blk_from_chunk] has given
    back through the allocator's [free] of a vector; [frees] the block ids
    that [free_blk] has been called on. *)
Record VirtualDev := {
  chunks : gmap Z A;
  m_chunk_selector : S;
  vdev_num_alloc_failure : Z;
  answers : list (BlkAllocStatus * list BlkId);
  vec_frees : list BlkId;
  frees : list BlkId
}.

Definition set_chunk (v : VirtualDev) (n : Z) (a : A) : VirtualDev :=
  {| chunks := <[n := a]> (chunks v);
     m_chunk_selector := m_chunk_selector v;
     vdev_num_alloc_failure := vdev_num_alloc_failure v;
     answers := answers v; vec_frees := vec_frees v; frees := frees v |}.

Definition answered (v : VirtualDev) (status : BlkAllocStatus)
  (chunk_blkid : list BlkId) : VirtualDev :=
  {| chunks := chunks v;
     m_chunk_selector := m_chunk_selector v;
     vdev_num_alloc_failure := vdev_num_alloc_failure v;
     answers := answers v ++ [(status, chunk_blkid)];
     vec_frees := vec_frees v; frees := frees v |}.

Definition given_back (v : VirtualDev) (chunk_blkid : list BlkId) : VirtualDev :=
  {| chunks := chunks v;
     m_chunk_selector := m_chunk_selector v;
     vdev_num_alloc_failure := vdev_num_alloc_failure v;
     answers := answers v;
     vec_frees := vec_frees v ++ chunk_blkid; frees := frees v |}.

Definition is_blk_alloced (v : VirtualDev) (blkid : BlkId) : option bool :=
  (fun a => ba_is_blk_alloced a blkid) <$> chunks v !! chunk_num blkid.

(** [alloc_blk_from_chunk]: a partial allocation is given back to the chunk
    and reported as a failure; only a success adds to [out_blkid]; block
    ids that come with any other status are left in the vector. The fault
    injection of pre-release builds is left out. *)
Definition alloc_blk_from_chunk (v : VirtualDev) (nblks : Z) (hints : Hints)
  (out_blkid : list BlkId) (chunk : Z)
  : option (BlkAllocStatus * list BlkId * VirtualDev) :=
  match chunks v !! chunk with
  | None => None
  | Some a =>
      let '(status, chunk_blkid, a1) := ba_alloc a nblks hints in
      let v1 := answered (set_chunk v chunk a1) status chunk_blkid in
      match status with
      | PARTIAL =>
          Some (FAILED, out_blkid,
                given_back (set_chunk v1 chunk (ba_free_vec a1 chunk_blkid))
                  chunk_blkid)
      | SUCCESS => Some (SUCCESS, out_blkid ++ chunk_blkid, v1)
      | _ => Some (status, out_blkid, v1)
      end
  end.

Definition with_selector (v : VirtualDev) (s : S) : VirtualDev :=
  {| chunks := chunks v; m_chunk_selector := s;
     vdev_num_alloc_failure := vdev_num_alloc_failure v;
     answers := answers v; vec_frees := vec_frees v; frees := frees v |}.

Definition count_failure (v : VirtualDev) : VirtualDev :=
  {| chunks := chunks v; m_chunk_selector := m_chunk_selector v;
     vdev_num_alloc_failure := vdev_num_alloc_failure v + 1;
     answers := answers v; vec_frees := vec_frees v; frees := frees v |}.

(** [do_alloc_blk]: chunks are selected and tried until one succeeds or the
    hints forbid another try; [first_failed_chunk] is never set, so the
    condition of the loop only compares the chunk with the null pointer. *)
Fixpoint do_alloc_blk (fuel : nat) (v : VirtualDev) (nblks : Z) (hints : Hints)
  (out_blkid : list BlkId) : res (BlkAllocStatus * list BlkId * VirtualDev) :=
  match fuel with
  | O => NoFuel
  | Datatypes.S fuel' =>
      let '(chunk, s1) := select (m_chunk_selector v) hints in
      match chunk with
      | None => Abort
      | Some c =>
          match alloc_blk_from_chunk (with_selector v s1) nblks hints out_blkid c with
          | None => Abort
          | Some (status, out1, v1) =>
              if is_success status || negb (can_look_for_other_chunk hints) then
                Ret (status, out1,
                     if is_success status then v1 else count_failure v1)
              else do_alloc_blk fuel' v1 nblks hints out1
          end
      end
  end.

(** [free_blk]. *)
Definition free_blk (v : VirtualDev) (b : BlkId) : option VirtualDev :=
  match chunks v !! chunk_num b with
  | None => None
  | Some a =>
      let v1 := set_chunk v (chunk_num b) (ba_free a b) in
      Some {| chunks := chunks v1; m_chunk_selector := m_chunk_selector v1;
              vdev_num_alloc_failure := vdev_num_alloc_failure v1;
              answers := answers v1; vec_frees := vec_frees v1;
              frees := frees v1 ++ [b] |}
  end.

(** The loop that [alloc_blk] runs after a failed operation: for [i] from
    [start_idx] while [i < out_blkid.size()], free [out_blkid[i]] and erase
    the vector from [start_idx] to its end. *)
Fixpoint undo_loop (fuel : nat) (v : VirtualDev) (out_blkid : list BlkId)
  (start_idx i : nat) : res (list BlkId * VirtualDev) :=
  if (i <? length out_blkid)%nat then
    match fuel with
    | O => NoFuel
    | Datatypes.S fuel' =>
        match out_blkid !! i with
        | None => Abort
        | Some b =>
            match free_blk v b with
            | None => Abort
            | Some v1 => undo_loop fuel' v1 (take start_idx out_blkid) start_idx
                           (Datatypes.S i)
            end
        end
    end
  else Ret (out_blkid, v).

(** [alloc_blk]: the request is served in operations of at most
    [max_blks_in_op] blocks; the first operation that fails ends it. *)
Fixpoint alloc_blk_loop (fuel : nat) (v : VirtualDev) (nblks : Z) (hints : Hints)
  (out_blkid : list BlkId) (start_idx : nat)
  : res (BlkAllocStatus * list BlkId * VirtualDev) :=
  if nblks =? 0 then Ret (SUCCESS, out_blkid, v)
  else
    match fuel with
    | O => NoFuel
    | Datatypes.S fuel' =>
        let nblks_op := Z.min max_blks_in_op (wrap blk_count_bits nblks) in
        match do_alloc_blk fuel v nblks_op hints out_blkid with
        | Ret (ret, out1, v1) =>
            if is_success ret then
              alloc_blk_loop fuel' v1 (wrap 32 (nblks - nblks_op)) hints out1 start_idx
            else
              match undo_loop fuel v1 out1 start_idx start_idx with
              | Ret (out2, v2) => Ret (ret, out2, v2)
              | Abort => Abort
              | NoFuel => NoFuel
              end
        | Abort => Abort
        | NoFuel => NoFuel
        end
    end.

Definition alloc_blk (fuel : nat) (v : VirtualDev) (nblks : Z) (hints : Hints)
  (out_blkid : list BlkId) : res (BlkAllocStatus * list BlkId * VirtualDev) :=
  alloc_blk_loop fuel v nblks hints out_blkid (length out_blkid).

(** [alloc_contiguous_blk]: the release assertion demands exactly one
    block id after a success. *)
Definition alloc_contiguous_blk (fuel : nat) (v : VirtualDev) (nblks : Z)
  (hints : Hints) : res (BlkAllocStatus * option BlkId * VirtualDev) :=
  match alloc_blk fuel v nblks hints [] with
  | Ret (ret, blkid, v1) =>
      if is_success ret then
        match blkid with
        | [b] => Ret (ret, Some b, v1)
        | _ => Abort
        end
      else Ret (ret, None, v1)
  | Abort => Abort
  | NoFuel => NoFuel
  end.

(** [available_blks] and [used_size] add up over the chunks in 64 bits. *)
Definition sum_chunks (f : A -> Z) (v : VirtualDev) : Z :=
  fold_left (fun acc c => wrap 64 (acc + default 0 (f <$> chunks v !! c)))
            (foreach_chunks (m_chunk_selector v)) 0.

Definition available_blks (v : VirtualDev) : Z := sum_chunks ba_available_blks v.

Definition used_size (v : VirtualDev) : Z :=
  wrap 64 (sum_chunks ba_get_used_blks v * block_size).

End Dev.

(** [get_len]: the lengths of the vector entries added up in 64 bits. *)
Definition get_len (iov : list Z) : Z :=
  fold_left (fun len l => wrap 64 (len + l)) iov 0.

(** Of a sequence of answers, the block ids that [alloc_blk_from_chunk]
    appends to [out_blkid], those of the SUCCESS answers, and the block ids
    that it gives back at once, those of the PARTIAL answers. *)
Fixpoint appended (ans : list (BlkAllocStatus * list BlkId)) : list BlkId :=
  match ans with
  | [] => []
  | (SUCCESS, ids) :: rest => ids ++ appended rest
  | _ :: rest => appended rest
  end.

Fixpoint returned (ans : list (BlkAllocStatus * list BlkId)) : list BlkId :=
  match ans with
  | [] => []
  | (PARTIAL, ids) :: rest => ids ++ returned rest
  | _ :: rest => returned rest
  end.

(** The status that [alloc_blk_from_chunk] makes of an answer. *)
Definition reported (status : BlkAllocStatus) : BlkAllocStatus :=
  match status with PARTIAL => FAILED | s => s end.

(** Instances for the concrete runs. The allocator of a chunk holds the
    number of the chunk, the block number it allocates next and the count
    of its free blocks; it answers a request it can serve with one block
    id, a request above what is left, when something is left, with a
    partial block id of what is left, and otherwise with SPACE_FULL. The
    selector is the list of the chunks it will pick, in turn. *)
Record ex_chunk := { ex_id : Z; ex_next : Z; ex_free : Z }.

#[export] Instance ex_allocator : BlkAllocator ex_chunk bool :=
  {| ba_alloc := fun a nblks _ =>
       if nblks <=? ex_free a
       then (SUCCESS,
             [ {| AppendBlkAlloc.blk_num := ex_next a;
                  AppendBlkAlloc.blk_count := nblks;
                  AppendBlkAlloc.chunk_num := ex_id a |} ],
             {| ex_id := ex_id a; ex_next := ex_next a + nblks;
                ex_free := ex_free a - nblks |})
       else if 0 <? ex_free a
       then (PARTIAL,
             [ {| AppendBlkAlloc.blk_num := ex_next a;
                  AppendBlkAlloc.blk_count := ex_free a;
                  AppendBlkAlloc.chunk_num := ex_id a |} ],
             {| ex_id := ex_id a; ex_next := ex_next a + ex_free a;
                ex_free := 0 |})
       else (SPACE_FULL, [], a);
     ba_free := fun a b =>
       {| ex_id := ex_id a; ex_next := ex_next a;
          ex_free := ex_free a + AppendBlkAlloc.blk_count b |};
     ba_free_vec := fun a bs =>
       {| ex_id := ex_id a; ex_next := ex_next a;
          ex_free := ex_free a
                     + fold_right (fun b n => AppendBlkAlloc.blk_count b + n) 0 bs |};
     ba_is_blk_alloced := fun a b => AppendBlkAlloc.blk_num b <? ex_next a;
     ba_available_blks := fun a => ex_free a;
     ba_get_used_blks := fun a => ex_next a |}.

#[export] Instance ex_selector : ChunkSelector (list Z) bool :=
  {| select := fun s _ =>
       match s with
       | [] => (None, [])
       | c :: rest => (Some c, rest ++ [c])
       end;
     foreach_chunks := fun _ => [0; 1] |}.

(** Chunk 0 with two free blocks and chunk 1 with ten; the selector starts
    with chunk 0 and alternates. *)
Definition ex_vdev : VirtualDev (A := ex_chunk) (S := list Z) :=
  {| chunks := {[ 0 := {| ex_id := 0; ex_next := 0; ex_free := 2 |};
                  1 := {| ex_id := 1; ex_next := 0; ex_free := 10 |} ]};
     m_chunk_selector := [0; 1];
     vdev_num_alloc_failure := 0; answers := []; vec_frees := []; frees := [] |}.

(** The same chunks with a selector that picks chunk 1 twice before
    chunk 0. *)
Definition ex_vdev2 : VirtualDev (A := ex_chunk) (S := list Z) :=
  {| chunks := chunks ex_vdev;
     m_chunk_selector := [1; 1; 0];
     vdev_num_alloc_failure := 0; answers := []; vec_frees := []; frees := [] |}.

End VDev.

(** ** Volume interface requests (vol_interface.hpp) *)

Module VolReq.

Section Req.
(** [std::error_condition] and its value [no_error], declared outside the
    sources. *)
Context {E : Type}.
Variable no_error : E.

Record vol_interface_req := {
  outstanding_io_cnt : Z;
  refcount : Z;
  err : E;
  is_fail_completed : bool;
  request_id : Z
}.

(** [_counter_generator::next_request_id]: a fetch-and-add on a 64-bit
    counter. *)
Definition next_request_id (request_id_counter : Z) : Z * Z :=
  (request_id_counter, wrap 64 (request_id_counter + 1)).

(** [set_error]: the compare-and-swap on [is_fail_completed] lets the first
    caller store its error. *)
Definition set_error (r : vol_interface_req) (ec : E) : bool * vol_interface_req :=
  if negb (is_fail_completed r) then
    (true, {| outstanding_io_cnt := outstanding_io_cnt r; refcount := refcount r;
              err := ec; is_fail_completed := true; request_id := request_id r |})
  else (false, r).

Definition get_status (r : vol_interface_req) : E := err r.

Definition init (r : vol_interface_req) (request_id_counter : Z)
  : vol_interface_req * Z :=
  let '(id, counter') := next_request_id request_id_counter in
  ({| outstanding_io_cnt := 0; refcount := refcount r; err := no_error;
      is_fail_completed := false; request_id := id |}, counter').

(** Several [set_error] calls one after the other, with their results. *)
Fixpoint set_errors (r : vol_interface_req) (ecs : list E)
  : list bool * vol_interface_req :=
  match ecs with
  | [] => ([], r)
  | ec :: rest =>
      let '(b, r1) := set_error r ec in
      let '(bs, r2) := set_errors r1 rest in
      (b :: bs, r2)
  end.

End Req.

End VolReq.

(** ** Replication requests (repl_dev/common.cpp) *)

Module ReplReq.

Definition BlkId := AppendBlkAlloc.BlkId.

(** [repl_key] and the journal entry that heads the journal buffer; of the
    entry the fields that [create_journal_entry] stores are kept. *)
Record repl_key := { server_id_k : Z; term : Z; dsn : Z; traceID : Z }.

Record repl_journal_entry := {
  code : Z;
  je_traceID : Z;
  je_server_id : Z;
  je_dsn : Z;
  user_header_size : Z;
  key_size : Z;
  value_size : Z
}.

(** A journal buffer: the entry at its start and the bytes that follow it
    in the same allocation. *)
Record journal_buf := {
  is_raft_buf : bool;
  entry : repl_journal_entry;
  tail : list Z
}.

(** What the request does to its surroundings. *)
Inductive event :=
| EvDataReceived            (* m_data_received_promise.setValue() *)
| EvSendResponse (h : Z).   (* m_pushed_data->send_response() *)

Record repl_req_ctx := {
  m_rkey : repl_key;
  m_op_code : Z;
  m_is_proposer : bool;
  m_header : list Z;
  m_key : list Z;
  m_is_jentry_localize_pending : bool;
  m_local_blkids : list BlkId;
  m_state : Z;
  m_journal_buf : option journal_buf;
  m_pushed_data : option Z;      (* the rpc data it keeps alive *)
  m_fetched_data : option Z;
  m_buf_for_unaligned_data : option (list Z);
  m_data : option (list Z);      (* the bytes that [m_data] points to *)
  trace : list event
}.

Section Req.
(** Declared in headers outside the sources: the value of
    [repl_req_state_t::DATA_RECEIVED], [has_linked_data] as a test on the
    operation code, the size of the packed journal entry, the width of its
    three size fields, the serialisation of a block id and the alignment of
    the data service. *)
Variable DATA_RECEIVED : Z.
Variable has_linked_data : Z -> bool.
Variable sizeof_repl_journal_entry : Z.
Variable size_field_bits : Z.
Variable serialize : BlkId -> list Z.
Variable serialized_size : BlkId -> Z.
Variable align_size : Z.

Definition u32 (x : Z) : Z := wrap 32 x.

Definition with_state (r : repl_req_ctx) (st : Z) : repl_req_ctx :=
  {| m_rkey := m_rkey r; m_op_code := m_op_code r; m_is_proposer := m_is_proposer r;
     m_header := m_header r; m_key := m_key r;
     m_is_jentry_localize_pending := m_is_jentry_localize_pending r;
     m_local_blkids := m_local_blkids r; m_state := st;
     m_journal_buf := m_journal_buf r; m_pushed_data := m_pushed_data r;
     m_fetched_data := m_fetched_data r;
     m_buf_for_unaligned_data := m_buf_for_unaligned_data r;
     m_data := m_data r; trace := trace r |}.

(** [add_state]: a fetch-or. *)
Definition add_state (r : repl_req_ctx) (s : Z) : repl_req_ctx :=
  with_state r (Z.lor (m_state r) s).

(** [add_state_if_not_already]: the compare-and-swap loop stores the state
    with the bits of [s] added unless one of them is set already. *)
Definition add_state_if_not_already (r : repl_req_ctx) (s : Z)
  : bool * repl_req_ctx :=
  if Z.land (m_state r) s =? 0
  then (true, with_state r (Z.lor (m_state r) s))
  else (false, r).

(** [save_pushed_data] and [save_fetched_data]; [data] is the address of
    the bytes [bytes]. An unaligned buffer is copied into a buffer of the
    request. *)
Definition save_data (r : repl_req_ctx) (pushed : bool) (handle : Z)
  (data : Z) (bytes : list Z) : bool * repl_req_ctx :=
  let '(changed, r1) := add_state_if_not_already r DATA_RECEIVED in
  if negb changed then (false, r1)
  else
    let unaligned := negb (data mod align_size =? 0) in
    (true,
     {| m_rkey := m_rkey r1; m_op_code := m_op_code r1;
        m_is_proposer := m_is_proposer r1;
        m_header := m_header r1; m_key := m_key r1;
        m_is_jentry_localize_pending := m_is_jentry_localize_pending r1;
        m_local_blkids := m_local_blkids r1; m_state := m_state r1;
        m_journal_buf := m_journal_buf r1;
        m_pushed_data := if pushed then Some handle else m_pushed_data r1;
        m_fetched_data := if pushed then m_fetched_data r1 else Some handle;
        m_buf_for_unaligned_data :=
          if unaligned then Some bytes else m_buf_for_unaligned_data r1;
        m_data := Some bytes;
        trace := trace r1 ++ [EvDataReceived] |}).

Definition save_pushed_data (r : repl_req_ctx) (pushed_data data : Z)
  (bytes : list Z) : bool * repl_req_ctx :=
  save_data r true pushed_data data bytes.

Definition save_fetched_data (r : repl_req_ctx) (fetched_data data : Z)
  (bytes : list Z) : bool * repl_req_ctx :=
  save_data r false fetched_data data bytes.

(** [release_data]. *)
Definition release_data (r : repl_req_ctx) : repl_req_ctx :=
  {| m_rkey := m_rkey r; m_op_code := m_op_code r; m_is_proposer := m_is_proposer r;
     m_header := m_header r; m_key := m_key r;
     m_is_jentry_localize_pending := m_is_jentry_localize_pending r;
     m_local_blkids := m_local_blkids r; m_state := m_state r;
     m_journal_buf := m_journal_buf r;
     m_pushed_data := None;
     m_fetched_data := None;
     m_buf_for_unaligned_data := None;
     m_data := None;
     trace := match m_pushed_data r with
              | Some h => trace r ++ [EvSendResponse h]
              | None => trace r
              end |}.

(** A delivery of the data of a request, by push or by fetch. *)
Record delivery := {
  by_push : bool; handle : Z; data_addr : Z; data_bytes : list Z
}.

Fixpoint deliver (r : repl_req_ctx) (ds : list delivery)
  : list bool * repl_req_ctx :=
  match ds with
  | [] => ([], r)
  | d :: rest =>
      let '(b, r1) := save_data r (by_push d) (handle d) (data_addr d) (data_bytes d) in
      let '(bs, r2) := deliver r1 rest in
      (b :: bs, r2)
  end.

(** How often the data-received promise has been set. *)
Fixpoint count_received (tr : list event) : Z :=
  match tr with
  | [] => 0
  | EvDataReceived :: rest => 1 + count_received rest
  | _ :: rest => count_received rest
  end.

(** [blkids_serialized_size] and [journal_entry_size], in 32 bits. *)
Definition blkids_serialized_size (r : repl_req_ctx) : Z :=
  fold_left (fun acc b => u32 (acc + serialized_size b)) (m_local_blkids r) 0.

Definition journal_entry_size (r : repl_req_ctx) : Z :=
  u32 (sizeof_repl_journal_entry + Z.of_nat (length (m_header r))
       + Z.of_nat (length (m_key r))
       + (if has_linked_data (m_op_code r) then blkids_serialized_size r else 0)).

(** [memcpy] of [bytes] to offset [off] of [buf]; a copy past the end of
    the allocation is [None]. *)
Definition memcpy_at (buf : list Z) (off : Z) (bytes : list Z) : option (list Z) :=
  if (0 <=? off) && (off + Z.of_nat (length bytes) <=? Z.of_nat (length buf)) then
    Some (take (Z.to_nat off) buf ++ bytes
          ++ drop (Z.to_nat off + length bytes) buf)
  else None.

Fixpoint copy_blkids (buf : list Z) (raw_ptr : Z) (bs : list BlkId)
  : option (list Z * Z) :=
  match bs with
  | [] => Some (buf, raw_ptr)
  | b :: rest =>
      match memcpy_at buf raw_ptr (serialize b) with
      | None => None
      | Some buf1 =>
          copy_blkids buf1 (raw_ptr + Z.of_nat (length (serialize b))) rest
      end
  end.

Definition with_journal_buf (r : repl_req_ctx) (jb : journal_buf) : repl_req_ctx :=
  {| m_rkey := m_rkey r; m_op_code := m_op_code r; m_is_proposer := m_is_proposer r;
     m_header := m_header r; m_key := m_key r;
     m_is_jentry_localize_pending := m_is_jentry_localize_pending r;
     m_local_blkids := m_local_blkids r; m_state := m_state r;
     m_journal_buf := Some jb; m_pushed_data := m_pushed_data r;
     m_fetched_data := m_fetched_data r;
     m_buf_for_unaligned_data := m_buf_for_unaligned_data r;
     m_data := m_data r; trace := trace r |}.

(** [create_journal_entry]: a buffer of [entry_size] bytes is allocated,
    whose bytes after the entry are [fresh]; the entry is filled in and
    the header, the key and the serialised block ids are copied behind
    it, each copy moving [raw_ptr] on; offsets count from the end of the
    entry. *)
Definition create_journal_entry (r : repl_req_ctx) (is_raft_buf' : bool)
  (server_id : Z) (fresh : list Z) : option repl_req_ctx :=
  let val_size := if has_linked_data (m_op_code r) then blkids_serialized_size r else 0 in
  let entry_size :=
    u32 (sizeof_repl_journal_entry + Z.of_nat (length (m_header r))
         + Z.of_nat (length (m_key r)) + val_size) in
  if negb (Z.of_nat (length fresh) =? entry_size - sizeof_repl_journal_entry)
  then None
  else
    let e := {| code := m_op_code r;
                je_traceID := traceID (m_rkey r);
                je_server_id := server_id;
                je_dsn := dsn (m_rkey r);
                user_header_size := wrap size_field_bits (Z.of_nat (length (m_header r)));
                key_size := wrap size_field_bits (Z.of_nat (length (m_key r)));
                value_size := wrap size_field_bits val_size |} in
    let raw_ptr := 0 in
    match (if negb (Z.of_nat (length (m_header r)) =? 0)
           then (fun b => (b, raw_ptr + Z.of_nat (length (m_header r))))
                <$> memcpy_at fresh raw_ptr (m_header r)
           else Some (fresh, raw_ptr)) with
    | None => None
    | Some (buf1, raw_ptr1) =>
        match (if negb (Z.of_nat (length (m_key r)) =? 0)
               then (fun b => (b, raw_ptr1 + Z.of_nat (length (m_key r))))
                    <$> memcpy_at buf1 raw_ptr1 (m_key r)
               else Some (buf1, raw_ptr1)) with
        | None => None
        | Some (buf2, raw_ptr2) =>
            match (if has_linked_data (m_op_code r)
                   then copy_blkids buf2 raw_ptr2 (m_local_blkids r)
                   else Some (buf2, raw_ptr2)) with
            | None => None
            | Some (buf3, _) =>
                Some (with_journal_buf r
                        {| is_raft_buf := is_raft_buf'; entry := e; tail := buf3 |})
            end
        end
    end.

Definition slice (buf : list Z) (from len : Z) : list Z :=
  take (Z.to_nat len) (drop (Z.to_nat from) buf).

(** [change_raft_journal_buf]: the request takes over [new_buf]; with
    [adjust_hdr_key] the header and the key are taken from behind the
    entry of the new buffer. *)
Definition change_raft_journal_buf (r : repl_req_ctx) (new_buf : journal_buf)
  (adjust_hdr_key : bool) : repl_req_ctx :=
  {| m_rkey := m_rkey r; m_op_code := m_op_code r; m_is_proposer := m_is_proposer r;
     m_header := if adjust_hdr_key
                 then slice (tail new_buf) 0 (user_header_size (entry new_buf))
                 else m_header r;
     m_key := if adjust_hdr_key
              then slice (tail new_buf) (user_header_size (entry new_buf))
                     (key_size (entry new_buf))
              else m_key r;
     m_is_jentry_localize_pending := false;
     m_local_blkids := m_local_blkids r; m_state := m_state r;
     m_journal_buf := Some new_buf; m_pushed_data := m_pushed_data r;
     m_fetched_data := m_fetched_data r;
     m_buf_for_unaligned_data := m_buf_for_unaligned_data r;
     m_data := m_data r; trace := trace r |}.

End Req.

(** A request with a header of three bytes, a key of two and one block id,
    in its initial state. *)
Definition ex_req : repl_req_ctx :=
  {| m_rkey := {| server_id_k := 1; term := 1; dsn := 42; traceID := 7 |};
     m_op_code := 1; m_is_proposer := false;
     m_header := [1; 2; 3]; m_key := [9; 8];
     m_is_jentry_localize_pending := true;
     m_local_blkids := [ {| AppendBlkAlloc.blk_num := 5;
                            AppendBlkAlloc.blk_count := 2;
                            AppendBlkAlloc.chunk_num := 0 |} ];
     m_state := 1; m_journal_buf := None; m_pushed_data := None;
     m_fetched_data := None; m_buf_for_unaligned_data := None; m_data := None;
     trace := [] |}.

Definition ex_serialize (b : BlkId) : list Z :=
  [AppendBlkAlloc.blk_num b; AppendBlkAlloc.blk_count b; AppendBlkAlloc.chunk_num b].

End ReplReq.

(** * Properties *)

(** ** Machine arithmetic *)

Lemma wrap_small bits x : 0 <= x < 2 ^ bits -> wrap bits x = x.
Proof. intros H. unfold wrap. apply Z.mod_small. exact H. Qed.

Lemma wrap_range bits x : 0 <= bits -> 0 <= wrap bits x < 2 ^ bits.
Proof.
  intros Hb. unfold wrap. apply Z.mod_pos_bound.
  apply Z.pow_pos_nonneg; lia.
Qed.


(** ** Append block allocator *)

Section AppendBlkAllocFacts.
Import AppendBlkAlloc.
Variable cfg : BlkAllocConfig.
Hypothesis Hcfg : cfg_ok cfg.

Lemma available_blks_exact a :
  0 <= m_last_append_offset a <= total_blks cfg ->
  available_blks cfg a = total_blks cfg - m_last_append_offset a.
Proof.
  intros Ha. destruct Hcfg as [Hb Ht].
  unfold available_blks, get_used_blks. apply wrap_small. lia.
Qed.

Lemma avail_after_hint_saturates a hint :
  avail_after_hint cfg a hint =
  match reserved_blks hint with
  | Some r => Z.max 0 (available_blks cfg a - r)
  | None => available_blks cfg a
  end.
Proof.
  unfold avail_after_hint. destruct (reserved_blks hint) as [r|]; [|reflexivity].
  destruct (Z.ltb_spec r (available_blks cfg a)); lia.
Qed.

Lemma avail_after_hint_le a nblks hint :
  alloc_args_ok nblks hint ->
  0 <= m_last_append_offset a <= total_blks cfg ->
  avail_after_hint cfg a hint <= total_blks cfg - m_last_append_offset a.
Proof.
  intros [_ Hh] Ha. rewrite avail_after_hint_saturates, available_blks_exact by assumption.
  destruct (reserved_blks hint); lia.
Qed.

Lemma alloc_space_full a nblks hint :
  avail_after_hint cfg a hint < nblks ->
  alloc cfg a nblks hint = (SPACE_FULL, None, a).
Proof.
  intros H. unfold alloc.
  destruct (Z.ltb_spec (avail_after_hint cfg a hint) nblks); [reflexivity | lia].
Qed.

Lemma alloc_failed a nblks hint :
  nblks <= avail_after_hint cfg a hint ->
  max_blks_per_blkid cfg < nblks ->
  alloc cfg a nblks hint = (FAILED, None, a).
Proof.
  intros H1 H2. unfold alloc.
  destruct (Z.ltb_spec (avail_after_hint cfg a hint) nblks); [lia|].
  destruct (Z.ltb_spec (max_blks_per_blkid cfg) nblks); [reflexivity | lia].
Qed.

Lemma alloc_success a nblks hint :
  alloc_args_ok nblks hint ->
  0 <= m_last_append_offset a <= total_blks cfg ->
  nblks <= avail_after_hint cfg a hint ->
  nblks <= max_blks_per_blkid cfg ->
  alloc cfg a nblks hint =
    (SUCCESS,
     Some {| blk_num := m_last_append_offset a; blk_count := nblks;
             chunk_num := chunk_id cfg |},
     {| m_last_append_offset := m_last_append_offset a + nblks;
        m_commit_offset := m_commit_offset a;
        m_freeable_nblks := m_freeable_nblks a;
        m_is_dirty := m_is_dirty a;
        m_sb := m_sb a |}).
Proof.
  intros Hargs Ha H1 H2. unfold alloc.
  destruct (Z.ltb_spec (avail_after_hint cfg a hint) nblks); [lia|].
  destruct (Z.ltb_spec (max_blks_per_blkid cfg) nblks); [lia|].
  pose proof (avail_after_hint_le a nblks hint Hargs Ha) as Hle.
  destruct Hargs as [Hn _]. destruct Hcfg as [Hb Ht].
  rewrite wrap_small by lia. reflexivity.
Qed.

(** C5 (amended). On an allocator whose last_append_offset has not been
    taken past the end of the chunk, [alloc] has three outcomes, tried in
    the order of the source: with fewer available blocks (total less used,
    less the reserved hint, saturating at zero) than requested it answers
    SPACE_FULL and changes nothing; else with a request above
    [max_blks_per_blkid] it answers FAILED and changes nothing; otherwise
    it answers SUCCESS with the block id (old last_append_offset, nblks)
    and last_append_offset has advanced by exactly nblks. *)
Theorem alloc_outcomes a nblks hint :
  alloc_args_ok nblks hint ->
  0 <= m_last_append_offset a <= total_blks cfg ->
  avail_after_hint cfg a hint =
    match reserved_blks hint with
    | Some r => Z.max 0 (total_blks cfg - m_last_append_offset a - r)
    | None => total_blks cfg - m_last_append_offset a
    end /\
  (avail_after_hint cfg a hint < nblks ->
     alloc cfg a nblks hint = (SPACE_FULL, None, a)) /\
  (nblks <= avail_after_hint cfg a hint -> max_blks_per_blkid cfg < nblks ->
     alloc cfg a nblks hint = (FAILED, None, a)) /\
  (nblks <= avail_after_hint cfg a hint -> nblks <= max_blks_per_blkid cfg ->
     exists a',
       alloc cfg a nblks hint =
         (SUCCESS,
          Some {| blk_num := m_last_append_offset a; blk_count := nblks;
                  chunk_num := chunk_id cfg |}, a') /\
       m_last_append_offset a' = m_last_append_offset a + nblks /\
       m_commit_offset a' = m_commit_offset a).
Proof.
  intros Hargs Ha. repeat split.
  - rewrite avail_after_hint_saturates, available_blks_exact by assumption.
    reflexivity.
  - apply alloc_space_full.
  - apply alloc_failed.
  - intros H1 H2. eexists. split; [apply alloc_success; assumption|].
    split; reflexivity.
Qed.

(** C10. When the request is both larger than what is available and larger
    than [max_blks_per_blkid], [alloc] answers SPACE_FULL: the capacity test
    comes first. *)
Theorem alloc_space_full_first a nblks hint :
  avail_after_hint cfg a hint < nblks ->
  max_blks_per_blkid cfg < nblks ->
  fst (fst (alloc cfg a nblks hint)) = SPACE_FULL /\
  fst (fst (alloc cfg a nblks hint)) <> FAILED /\
  snd (alloc cfg a nblks hint) = a.
Proof.
  intros H1 _. rewrite alloc_space_full by assumption. simpl.
  repeat split. discriminate.
Qed.

Lemma do_call_offsets_ok a c :
  offsets_ok cfg a -> call_ok cfg a c -> offsets_ok cfg (do_call cfg a c).
Proof.
  intros (H0 & H1 & H2) Hc. destruct Hcfg as [Hb Ht].
  destruct c as [nblks hint | b | b | b | | ]; simpl in *.
  - unfold alloc.
    destruct (Z.ltb_spec (avail_after_hint cfg a hint) nblks) as [|Hge];
      [repeat split; assumption|].
    destruct (Z.ltb_spec (max_blks_per_blkid cfg) nblks);
      [repeat split; assumption|].
    assert (Ha : 0 <= m_last_append_offset a <= total_blks cfg) by lia.
    pose proof (avail_after_hint_le a nblks hint Hc Ha) as Hle.
    destruct Hc as [Hn _]. unfold offsets_ok; simpl.
    rewrite wrap_small by lia. lia.
  - destruct Hc as (Hn & Hk & Hle). unfold reserve_on_disk.
    rewrite wrap_small by lia.
    destruct (Z.leb_spec (blk_num b + blk_count b) (m_commit_offset a));
      unfold offsets_ok; simpl; lia.
  - destruct Hc as (Hn & Hk & Hle). unfold reserve_on_cache.
    rewrite wrap_small by lia.
    destruct (Z.leb_spec (blk_num b + blk_count b) (m_last_append_offset a));
      unfold offsets_ok; simpl; lia.
  - unfold offsets_ok; simpl; lia.
  - unfold cp_flush, offsets_ok. destruct (m_is_dirty a); simpl; lia.
  - unfold offsets_ok; simpl; lia.
Qed.

Lemma run_offsets_ok cs : forall a,
  offsets_ok cfg a -> calls_ok cfg a cs -> offsets_ok cfg (run cfg a cs).
Proof.
  induction cs as [|c cs IH]; intros a Ha Hcs; simpl in *.
  - exact Ha.
  - destruct Hcs as [Hc Hcs]. apply IH; [|exact Hcs].
    apply do_call_offsets_ok; assumption.
Qed.

Lemma started_offsets_equal a :
  started cfg a -> m_commit_offset a = m_last_append_offset a.
Proof.
  intros [id | a0 buf a' Hrec]; [reflexivity|].
  unfold on_meta_blk_found in Hrec.
  destruct (negb _); [discriminate|]. destruct (negb _); [discriminate|].
  injection Hrec as <-. reflexivity.
Qed.

(** C4 (amended). From a formatted construction, or a recovery whose
    persisted commit offset lies inside the chunk, and through calls that
    reserve on the cache only block ids ending inside the chunk and reserve
    on disk only block ids ending at or below the cache offset, the cache
    offset last_append_offset never falls below commit_offset. *)
Theorem commit_offset_le_last_append_offset a cs :
  started cfg a ->
  0 <= m_last_append_offset a <= total_blks cfg ->
  calls_ok cfg a cs ->
  m_commit_offset (run cfg a cs) <= m_last_append_offset (run cfg a cs).
Proof.
  intros Hs Ha Hcs.
  pose proof (started_offsets_equal a Hs) as Heq.
  assert (Hok : offsets_ok cfg a) by (unfold offsets_ok; lia).
  destruct (run_offsets_ok cs a Hok Hcs) as (_ & H & _). exact H.
Qed.

End AppendBlkAllocFacts.

Lemma ex_cfg_ok : AppendBlkAlloc.cfg_ok AppendBlkAlloc.ex_cfg.
Proof. unfold AppendBlkAlloc.cfg_ok; simpl. lia. Defined.

(** C5 as stated fails: [reserve_on_cache] of block id (98, 5) takes
    last_append_offset of a chunk of 100 blocks to 103, past its end. The
    unsigned difference that [available_blks] computes wraps to 2^32 - 3,
    so [alloc] of 5 blocks, where total less used is below the request,
    answers SUCCESS with a block id at 103 and not SPACE_FULL. *)
Lemma alloc_past_chunk_succeeds :
  let cfg := AppendBlkAlloc.ex_cfg in
  let a0 := AppendBlkAlloc.construct_format cfg 0 in
  let a1 := AppendBlkAlloc.run cfg a0
              [AppendBlkAlloc.CReserveOnCache
                 {| AppendBlkAlloc.blk_num := 98; AppendBlkAlloc.blk_count := 5;
                    AppendBlkAlloc.chunk_num := 1 |}] in
  AppendBlkAlloc.started cfg a0 /\
  AppendBlkAlloc.m_last_append_offset a1 = 103 /\
  AppendBlkAlloc.total_blks cfg - AppendBlkAlloc.m_last_append_offset a1 < 5 /\
  AppendBlkAlloc.available_blks cfg a1 = 2 ^ 32 - 3 /\
  fst (AppendBlkAlloc.alloc cfg a1 5 AppendBlkAlloc.no_hint)
  = (AppendBlkAlloc.SUCCESS,
     Some {| AppendBlkAlloc.blk_num := 103; AppendBlkAlloc.blk_count := 5;
             AppendBlkAlloc.chunk_num := 1 |}) /\
  fst (fst (AppendBlkAlloc.alloc cfg a1 5 AppendBlkAlloc.no_hint))
  <> AppendBlkAlloc.SPACE_FULL.
Proof.
  cbv zeta. split; [constructor|].
  split; [reflexivity|]. split; [vm_compute; reflexivity|].
  split; [reflexivity|]. split; [reflexivity|].
  vm_compute. discriminate.
Qed.

(** Witness of C5 (amended): on a formatted chunk of 100 blocks whose block
    ids hold at most 64, five blocks are allocated at offset 0, 70 blocks
    are refused as FAILED, and 101 blocks as SPACE_FULL. *)
Lemma alloc_outcomes_witness :
  let a := AppendBlkAlloc.construct_format AppendBlkAlloc.ex_cfg 0 in
  (exists a',
     AppendBlkAlloc.alloc AppendBlkAlloc.ex_cfg a 5 AppendBlkAlloc.no_hint =
       (AppendBlkAlloc.SUCCESS,
        Some {| AppendBlkAlloc.blk_num := 0; AppendBlkAlloc.blk_count := 5;
                AppendBlkAlloc.chunk_num := 1 |}, a') /\
     AppendBlkAlloc.m_last_append_offset a' = 5) /\
  AppendBlkAlloc.alloc AppendBlkAlloc.ex_cfg a 70 AppendBlkAlloc.no_hint
  = (AppendBlkAlloc.FAILED, None, a) /\
  AppendBlkAlloc.alloc AppendBlkAlloc.ex_cfg a 101 AppendBlkAlloc.no_hint
  = (AppendBlkAlloc.SPACE_FULL, None, a).
Proof.
  intros a.
  assert (Ha : 0 <= AppendBlkAlloc.m_last_append_offset a
               <= AppendBlkAlloc.total_blks AppendBlkAlloc.ex_cfg)
    by (simpl; lia).
  split; [|split].
  - assert (Hargs : AppendBlkAlloc.alloc_args_ok 5 AppendBlkAlloc.no_hint)
      by (unfold AppendBlkAlloc.alloc_args_ok; simpl; lia).
    destruct (alloc_outcomes AppendBlkAlloc.ex_cfg ex_cfg_ok a 5
                AppendBlkAlloc.no_hint Hargs Ha) as (_ & _ & _ & Hsucc).
    destruct Hsucc as (a' & He & Hl & _).
    + vm_compute. discriminate.
    + simpl. lia.
    + exists a'. split; [exact He | exact Hl].
  - assert (Hargs : AppendBlkAlloc.alloc_args_ok 70 AppendBlkAlloc.no_hint)
      by (unfold AppendBlkAlloc.alloc_args_ok; simpl; lia).
    destruct (alloc_outcomes AppendBlkAlloc.ex_cfg ex_cfg_ok a 70
                AppendBlkAlloc.no_hint Hargs Ha) as (_ & _ & Hfail & _).
    apply Hfail.
    + vm_compute. discriminate.
    + simpl. lia.
  - assert (Hargs : AppendBlkAlloc.alloc_args_ok 101 AppendBlkAlloc.no_hint)
      by (unfold AppendBlkAlloc.alloc_args_ok; simpl; lia).
    destruct (alloc_outcomes AppendBlkAlloc.ex_cfg ex_cfg_ok a 101
                AppendBlkAlloc.no_hint Hargs Ha) as (_ & Hfull & _).
    apply Hfull. vm_compute. reflexivity.
Defined.

(** Witness of C10: 200 blocks asked of a chunk of 100 whose block ids hold
    at most 64. *)
Lemma alloc_space_full_first_witness :
  fst (fst (AppendBlkAlloc.alloc AppendBlkAlloc.ex_cfg
              (AppendBlkAlloc.construct_format AppendBlkAlloc.ex_cfg 0)
              200 AppendBlkAlloc.no_hint)) = AppendBlkAlloc.SPACE_FULL.
Proof.
  apply (alloc_space_full_first AppendBlkAlloc.ex_cfg
           (AppendBlkAlloc.construct_format AppendBlkAlloc.ex_cfg 0)
           200 AppendBlkAlloc.no_hint).
  - vm_compute. reflexivity.
  - simpl. lia.
Defined.

(** C4 as stated fails: after [alloc 5] on a formatted chunk, block id
    (4, 10) starts below the cache offset, so the debug assertion of
    [reserve_on_disk] holds, yet the call raises commit_offset to 14 while
    last_append_offset stays 5. *)
Lemma reserve_on_disk_overtakes_cache :
  let cfg := AppendBlkAlloc.ex_cfg in
  let a0 := AppendBlkAlloc.construct_format cfg 0 in
  let bid := {| AppendBlkAlloc.blk_num := 4; AppendBlkAlloc.blk_count := 10;
                AppendBlkAlloc.chunk_num := 1 |} in
  let a1 := AppendBlkAlloc.run cfg a0 [AppendBlkAlloc.CAlloc 5 AppendBlkAlloc.no_hint] in
  let a2 := AppendBlkAlloc.run cfg a0
              [AppendBlkAlloc.CAlloc 5 AppendBlkAlloc.no_hint;
               AppendBlkAlloc.CReserveOnDisk bid] in
  AppendBlkAlloc.started cfg a0 /\
  AppendBlkAlloc.is_blk_alloced a1 bid = true /\
  AppendBlkAlloc.m_last_append_offset a2 = 5 /\
  AppendBlkAlloc.m_commit_offset a2 = 14 /\
  ~ (AppendBlkAlloc.m_last_append_offset a2 >= AppendBlkAlloc.m_commit_offset a2).
Proof.
  cbv zeta. split; [constructor|].
  split; [reflexivity|]. split; [reflexivity|]. split; [reflexivity|].
  vm_compute. intros H. apply H. reflexivity.
Qed.

(** Witness of C4 (amended): allocate, reserve the same extent on disk,
    flush. *)
Lemma commit_offset_le_last_append_offset_witness :
  let cfg := AppendBlkAlloc.ex_cfg in
  let a0 := AppendBlkAlloc.construct_format cfg 0 in
  let cs := [AppendBlkAlloc.CAlloc 5 AppendBlkAlloc.no_hint;
             AppendBlkAlloc.CReserveOnDisk
               {| AppendBlkAlloc.blk_num := 0; AppendBlkAlloc.blk_count := 5;
                  AppendBlkAlloc.chunk_num := 1 |};
             AppendBlkAlloc.CCpFlush] in
  AppendBlkAlloc.m_commit_offset (AppendBlkAlloc.run cfg a0 cs) <=
  AppendBlkAlloc.m_last_append_offset (AppendBlkAlloc.run cfg a0 cs).
Proof.
  cbv zeta.
  apply (commit_offset_le_last_append_offset AppendBlkAlloc.ex_cfg ex_cfg_ok).
  - constructor.
  - simpl. lia.
  - vm_compute. repeat split; discriminate.
Defined.

(** ** Log groups *)

Section LogGroupFacts.
Import LogGroupFmt.
Variable cfg : log_config.

Lemma add_record_full lg record log_idx :
  m_nrecords lg = m_max_records lg ->
  add_record cfg lg record log_idx = (false, lg).
Proof.
  intros H. unfold add_record. rewrite H, Z.eqb_refl. reflexivity.
Qed.

Lemma add_record_bounds lg record log_idx :
  m_nrecords lg <= m_max_records lg ->
  m_max_records (snd (add_record cfg lg record log_idx)) = m_max_records lg /\
  m_nrecords (snd (add_record cfg lg record log_idx)) <= m_max_records lg.
Proof.
  intros Hle. unfold add_record.
  destruct (Z.eqb_spec (m_nrecords lg) (m_max_records lg)) as [|Hne]; simpl.
  - split; [reflexivity | assumption].
  - destruct (m_cur_buf_len lg <? _); simpl; split; try reflexivity; lia.
Qed.

Lemma fill_bounds recs : forall lg,
  m_nrecords lg <= m_max_records lg ->
  m_max_records (fill cfg lg recs) = m_max_records lg /\
  m_nrecords (fill cfg lg recs) <= m_max_records lg.
Proof.
  induction recs as [|[idx r] rest IH]; intros lg Hle; simpl.
  - split; [reflexivity | assumption].
  - pose proof (add_record_bounds lg r idx Hle) as [Hm Hn].
    destruct (add_record cfg lg r idx) as [ok lg'] eqn:E. simpl in Hm, Hn.
    destruct ok.
    + destruct (IH lg') as [Hm' Hn']; [lia|]. split; [congruence | lia].
    + split; assumption.
Qed.

Lemma add_record_accepts_below lg record log_idx :
  m_nrecords lg <= m_max_records lg ->
  fst (add_record cfg lg record log_idx) = true ->
  m_nrecords lg < m_max_records lg.
Proof.
  intros Hle. unfold add_record.
  destruct (Z.eqb_spec (m_nrecords lg) (m_max_records lg)) as [|Hne]; simpl.
  - discriminate.
  - intros _. lia.
Qed.

(** C3. A group that holds [max_records] records refuses the next record
    and stays as it is; and a group filled from a reset accepts a record
    only while it holds fewer than [max_records]. *)
Theorem add_record_capacity lg0 max_records recs lg record log_idx :
  (m_nrecords lg = m_max_records lg ->
     add_record cfg lg record log_idx = (false, lg)) /\
  (0 <= max_records ->
   fst (add_record cfg (fill cfg (reset cfg lg0 max_records) recs) record log_idx) = true ->
   m_nrecords (fill cfg (reset cfg lg0 max_records) recs)
     < m_max_records (fill cfg (reset cfg lg0 max_records) recs)).
Proof.
  split; [apply add_record_full|].
  intros Hmax Hacc.
  assert (H0 : m_nrecords (reset cfg lg0 max_records)
               <= m_max_records (reset cfg lg0 max_records)) by (simpl; lia).
  destruct (fill_bounds recs _ H0) as [Hm Hn].
  apply add_record_accepts_below with (record := record) (log_idx := log_idx);
    [lia | exact Hacc].
Qed.

(** The capacity predicate declared next to [add_record] still answers yes
    for a full group. *)
Lemma can_accomodate_when_full lg record :
  m_nrecords lg = m_max_records lg -> can_accomodate lg record = true.
Proof. intros H. unfold can_accomodate. apply Z.leb_le. lia. Qed.

(** The slot that [data] consults for a later record of the group is not
    the record's own slot. *)
Lemma data_slot_reversed h idx :
  start_log_idx h < idx -> idx - start_log_idx h < 2 ^ 31 ->
  data_slot h idx = 2 ^ 32 - (idx - start_log_idx h) /\
  data_slot h idx <> idx - start_log_idx h.
Proof.
  intros H1 H2. unfold data_slot, u32, wrap.
  assert (E : (start_log_idx h - idx) mod 2 ^ 32
              = 2 ^ 32 - (idx - start_log_idx h)).
  { symmetry. apply Z.mod_unique with (q := -1); lia. }
  rewrite E. lia.
Qed.

Lemma data_slot_first h : data_slot h (start_log_idx h) = 0.
Proof. unfold data_slot. rewrite Z.sub_diag. reflexivity. Qed.

End LogGroupFacts.

(** Witness of C3: a group reset for two records and offered two. *)
Lemma add_record_capacity_witness :
  let g := LogGroupFmt.fill LogGroupFmt.ex_cfg
             (LogGroupFmt.reset LogGroupFmt.ex_cfg LogGroupFmt.empty_group 2)
             [(0, LogGroupFmt.ex_record); (1, LogGroupFmt.ex_record)] in
  LogGroupFmt.m_nrecords g = 2 /\
  LogGroupFmt.add_record LogGroupFmt.ex_cfg g LogGroupFmt.ex_record 2 = (false, g).
Proof.
  cbv zeta. split; [reflexivity|].
  apply (add_record_capacity LogGroupFmt.ex_cfg LogGroupFmt.empty_group 2
           [(0, LogGroupFmt.ex_record); (1, LogGroupFmt.ex_record)]).
  reflexivity.
Defined.

(** C2, on the header accessor: in a group that starts at log index 10 and
    holds two inlined records, [data(11)] passes both assertions, looks up
    slot 4294967295 instead of slot 1, and so does not deliver the payload
    of the second record, which lies at offset 93. *)
Theorem data_of_second_record_misses :
  LogGroupFmt.data_slot LogGroupFmt.ex_header 11 = 4294967295 /\
  LogGroupFmt.nth_record LogGroupFmt.ex_slots (11 - 10)
    = Some {| LogGroupFmt.size := 7; LogGroupFmt.offset := 93;
              LogGroupFmt.is_inlined := 1; LogGroupFmt.store_seq_num := 1;
              LogGroupFmt.store_id := 7 |} /\
  LogGroupFmt.data_of LogGroupFmt.ex_header LogGroupFmt.ex_slots 11
    <> Some {| LogGroupFmt.bytes_at := 93; LogGroupFmt.blob_size := 7 |}.
Proof.
  split; [reflexivity|]. split; [reflexivity|].
  vm_compute. discriminate.
Qed.

(** ** Log device *)

Section LogDeviceFacts.
Import LogGroupFmt LogDevice.
Variable cfg : log_config.
Variable compute_crc : LogGroup -> Z.
Variable flush_data_threshold_size : Z.
Variable max_time_between_flush_us : Z.

Local Abbreviation flush_if_needed' :=
  (flush_if_needed cfg compute_crc flush_data_threshold_size max_time_between_flush_us).
Local Abbreviation flush_due' :=
  (flush_due flush_data_threshold_size max_time_between_flush_us).
Local Abbreviation unlock_flush' :=
  (unlock_flush cfg compute_crc flush_data_threshold_size max_time_between_flush_us).
Local Abbreviation on_flush_completion' :=
  (on_flush_completion cfg compute_crc flush_data_threshold_size max_time_between_flush_us).
Local Abbreviation prepare_flush' := (prepare_flush cfg compute_crc).

Lemma writes_app tr1 tr2 : writes (tr1 ++ tr2) = writes tr1 ++ writes tr2.
Proof.
  induction tr1 as [|e tr1 IH]; simpl; [reflexivity|].
  destruct e; simpl; rewrite IH; reflexivity.
Qed.

Lemma writes_blocked_cbs q : writes (map EvBlockedCb q) = [].
Proof. induction q; simpl; auto. Qed.

Lemma prepare_flush_dev d n :
  snd (prepare_flush' d n)
  = set_store_tail d (store_tail d + group_size (header (fst (prepare_flush' d n)))).
Proof.
  unfold prepare_flush. destruct (gather _ _ _ _ _ _) as [lg1 upto]. reflexivity.
Qed.

Lemma prepare_flush_prev_crc d n :
  prev_grp_crc (header (fst (prepare_flush' d n))) = finish_prev_crc cfg.
Proof.
  unfold prepare_flush. destruct (gather _ _ _ _ _ _) as [lg1 upto]. reflexivity.
Qed.

Lemma flush_if_needed_idle d sz new_idx now :
  flush_due' d (m_pending_flush_size d + sz) now && negb (m_is_flushing d) = false ->
  flush_if_needed' d sz new_idx now
  = set_pending_flush_size d (m_pending_flush_size d + sz).
Proof.
  intros H. unfold flush_if_needed.
  destruct (flush_due' d _ now); [|reflexivity].
  simpl in H. cbn [m_is_flushing set_pending_flush_size].
  rewrite H. reflexivity.
Qed.

Lemma flush_if_needed_starts d sz new_idx now :
  flush_due' d (m_pending_flush_size d + sz) now = true ->
  m_is_flushing d = false ->
  let lg := flushed_group cfg compute_crc d new_idx in
  let d' := flush_if_needed' d sz new_idx now in
  trace d' = trace d ++ [EvWrite lg] /\
  m_is_flushing d' = true /\
  m_pending_flush_size d' = m_pending_flush_size d + sz - actual_data_size lg /\
  m_last_flush_time d' = now /\
  m_last_crc d' = m_last_crc d /\
  m_last_flush_idx d' = m_last_flush_idx d /\
  m_log_records d' = m_log_records d /\
  m_log_idx d' = m_log_idx d /\
  m_block_flush_q d' = m_block_flush_q d.
Proof.
  intros Hdue Hfl. cbv zeta. unfold flush_if_needed, flushed_group.
  rewrite Hdue. cbn [m_is_flushing set_pending_flush_size]. rewrite Hfl.
  cbn [negb m_log_idx m_last_flush_idx set_is_flushing].
  unfold prepare_flush.
  cbn [m_log_idx m_last_flush_idx m_log_records m_logdev_id m_last_crc store_tail].
  destruct (gather _ _ _ _ _ _) as [lg1 upto].
  cbn. repeat split; reflexivity.
Qed.

Lemma set_pending_same d :
  set_pending_flush_size d (m_pending_flush_size d + 0) = d.
Proof. destruct d. unfold set_pending_flush_size. cbn. rewrite Z.add_0_r. reflexivity. Qed.

Lemma flush_due_spec d p now :
  flush_due' d p now = true <->
  (flush_data_threshold_size <= p \/
   (p <> 0 /\ max_time_between_flush_us < now - m_last_flush_time d)).
Proof.
  unfold flush_due. rewrite orb_true_iff, andb_true_iff, negb_true_iff.
  rewrite Z.leb_le, Z.ltb_lt, Z.eqb_neq. reflexivity.
Qed.

Lemma flush_if_needed_writes d sz new_idx now :
  writes (trace (flush_if_needed' d sz new_idx now))
  = writes (trace d)
    ++ (if flush_due' d (m_pending_flush_size d + sz) now && negb (m_is_flushing d)
        then [flushed_group cfg compute_crc d new_idx] else []).
Proof.
  destruct (flush_due' d (m_pending_flush_size d + sz) now && negb (m_is_flushing d)) eqn:E.
  - apply andb_true_iff in E as [Hd Hf]. apply negb_true_iff in Hf.
    destruct (flush_if_needed_starts d sz new_idx now Hd Hf) as (Ht & _).
    rewrite Ht, writes_app. reflexivity.
  - rewrite flush_if_needed_idle by exact E. rewrite app_nil_r. reflexivity.
Qed.

Lemma flush_if_needed_flag d sz new_idx now :
  m_is_flushing (flush_if_needed' d sz new_idx now)
  = m_is_flushing d || flush_due' d (m_pending_flush_size d + sz) now.
Proof.
  destruct (flush_due' d (m_pending_flush_size d + sz) now && negb (m_is_flushing d)) eqn:E.
  - apply andb_true_iff in E as [Hd Hf]. apply negb_true_iff in Hf.
    destruct (flush_if_needed_starts d sz new_idx now Hd Hf) as (_ & Hfl & _).
    rewrite Hfl, Hd, orb_true_r. reflexivity.
  - rewrite flush_if_needed_idle by exact E. cbn.
    destruct (m_is_flushing d), (flush_due' d (m_pending_flush_size d + sz) now); simpl in *;
      try reflexivity; discriminate.
Qed.

Lemma flush_if_needed_last_crc d sz new_idx now :
  m_last_crc (flush_if_needed' d sz new_idx now) = m_last_crc d.
Proof.
  destruct (flush_due' d (m_pending_flush_size d + sz) now && negb (m_is_flushing d)) eqn:E.
  - apply andb_true_iff in E as [Hd Hf]. apply negb_true_iff in Hf.
    destruct (flush_if_needed_starts d sz new_idx now Hd Hf)
      as (_ & _ & _ & _ & H & _). exact H.
  - rewrite flush_if_needed_idle by exact E. reflexivity.
Qed.

Lemma flush_if_needed_frame d sz new_idx now :
  m_last_flush_idx (flush_if_needed' d sz new_idx now) = m_last_flush_idx d /\
  m_log_records (flush_if_needed' d sz new_idx now) = m_log_records d /\
  m_block_flush_q (flush_if_needed' d sz new_idx now) = m_block_flush_q d.
Proof.
  destruct (flush_due' d (m_pending_flush_size d + sz) now && negb (m_is_flushing d)) eqn:E.
  - apply andb_true_iff in E as [Hd Hf]. apply negb_true_iff in Hf.
    destruct (flush_if_needed_starts d sz new_idx now Hd Hf)
      as (_ & _ & _ & _ & _ & H1 & H2 & _ & H3). auto.
  - rewrite flush_if_needed_idle by exact E. auto.
Qed.

Lemma tip_snoc ws : forall c0 g, tip c0 (ws ++ [g]) = cur_grp_crc (header g).
Proof. induction ws as [|g0 ws IH]; intros c0 g; simpl; auto. Qed.

Lemma world_inv_flush_if_needed d n c sz new_idx now :
  world_inv cfg {| dev := d; ncompleted := n; client_locked := c |} ->
  world_inv cfg {| dev := flush_if_needed' d sz new_idx now;
               ncompleted := n; client_locked := c |}.
Proof.
  unfold world_inv; cbn [dev ncompleted client_locked].
  intros (Hlen & Hidle & Hcl & Hch & Hcrc).
  rewrite flush_if_needed_writes, flush_if_needed_flag, flush_if_needed_last_crc.
  destruct (flush_due' d (m_pending_flush_size d + sz) now && negb (m_is_flushing d)) eqn:E.
  - apply andb_true_iff in E as [Hd Hf]. apply negb_true_iff in Hf.
    destruct (Hidle Hf) as [Hn Hc]. rewrite Hf, Hd. simpl.
    rewrite length_app; simpl.
    split; [lia|]. split; [discriminate|].
    split; [intros Hc'; congruence|].
    split.
    + apply Forall_app. split; [exact Hch|].
      constructor; [|constructor].
      unfold flushed_group. apply prepare_flush_prev_crc.
    + rewrite Hcrc. rewrite take_app_le by lia. reflexivity.
  - rewrite app_nil_r. split; [exact Hlen|]. split; [|auto].
    intros H. apply orb_false_iff in H as [H _]. auto.
Qed.

Lemma tracker_complete_lookup (tr : gmap Z tracker_slot) from upto i :
  tracker_complete tr from upto !! i
  = (fun s => if (from <=? i) && (i <=? upto)
              then {| slot_record := slot_record s; slot_completed := true |}
              else s) <$> tr !! i.
Proof.
  unfold tracker_complete. rewrite map_lookup_imap.
  destruct (tr !! i); reflexivity.
Qed.



Lemma flush_if_needed_trace d sz new_idx now :
  trace (flush_if_needed' d sz new_idx now)
  = trace d
    ++ map EvWrite
         (if flush_due' d (m_pending_flush_size d + sz) now && negb (m_is_flushing d)
          then [flushed_group cfg compute_crc d new_idx] else []).
Proof.
  destruct (flush_due' d (m_pending_flush_size d + sz) now && negb (m_is_flushing d)) eqn:E.
  - apply andb_true_iff in E as [Hd Hf]. apply negb_true_iff in Hf.
    destruct (flush_if_needed_starts d sz new_idx now Hd Hf) as (Ht & _).
    exact Ht.
  - rewrite flush_if_needed_idle by exact E. simpl. rewrite app_nil_r. reflexivity.
Qed.

Lemma run_blocked_trace d :
  trace (run_blocked d) = trace d ++ map EvBlockedCb (m_block_flush_q d).
Proof.
  unfold run_blocked. destruct (m_block_flush_q d) as [|cb q] eqn:Eq; simpl.
  - rewrite app_nil_r. reflexivity.
  - reflexivity.
Qed.

Lemma run_blocked_frame d :
  m_last_crc (run_blocked d) = m_last_crc d /\
  m_last_flush_idx (run_blocked d) = m_last_flush_idx d /\
  m_log_records (run_blocked d) = m_log_records d /\
  m_is_flushing (run_blocked d) = m_is_flushing d.
Proof.
  unfold run_blocked. destruct (0 <? _); auto.
Qed.

Lemma release_flush_facts d :
  trace (release_flush d)
    = trace d ++ map EvBlockedCb (m_block_flush_q d) ++ [EvFlushUnlocked] /\
  m_is_flushing (release_flush d) = false /\
  m_last_crc (release_flush d) = m_last_crc d /\
  m_last_flush_idx (release_flush d) = m_last_flush_idx d /\
  m_log_records (release_flush d) = m_log_records d.
Proof.
  destruct (run_blocked_frame d) as (H1 & H2 & H3 & _).
  unfold release_flush, emit. cbn.
  rewrite run_blocked_trace, <- app_assoc. auto.
Qed.

Lemma unlock_flush_facts d now :
  exists rest,
    trace (unlock_flush' d now)
      = trace d ++ map EvBlockedCb (m_block_flush_q d)
                ++ EvFlushUnlocked :: map EvWrite rest /\
    m_last_crc (unlock_flush' d now) = m_last_crc d /\
    m_last_flush_idx (unlock_flush' d now) = m_last_flush_idx d /\
    m_log_records (unlock_flush' d now) = m_log_records d.
Proof.
  destruct (release_flush_facts d) as (Ht & _ & Hc & Hi & Hr).
  destruct (flush_if_needed_frame (release_flush d) 0 (-1) now) as (Fi & Fr & _).
  unfold unlock_flush. eexists.
  rewrite flush_if_needed_trace, flush_if_needed_last_crc, Ht, Fi, Fr.
  rewrite <- !app_assoc. cbn [app].
  split; [reflexivity|]. auto.
Qed.

Lemma world_inv_release d n c :
  world_inv cfg {| dev := d; ncompleted := n; client_locked := c |} ->
  length (writes (trace d)) = n ->
  world_inv cfg {| dev := release_flush d; ncompleted := n; client_locked := false |}.
Proof.
  unfold world_inv; cbn [dev ncompleted client_locked].
  intros (Hlen & _ & _ & Hch & Hcrc) Hn.
  destruct (release_flush_facts d) as (Ht & Hf & Hc & _).
  rewrite Ht, Hc, !writes_app, writes_blocked_cbs. simpl. rewrite app_nil_r.
  repeat split; auto; lia.
Qed.

Lemma append_comp_loop_frame lg k fuel : forall d i d',
  append_comp_loop fuel d lg k i = Some d' ->
  writes (trace d') = writes (trace d) /\
  m_is_flushing d' = m_is_flushing d /\
  m_last_crc d' = m_last_crc d.
Proof.
  induction fuel as [|fuel IH]; intros d i d' H; simpl in H.
  - injection H as <-. auto.
  - destruct (tracker_at (m_log_records d) i) as [r|]; [|discriminate].
    apply IH in H as (Hw & Hf & Hc).
    rewrite Hw, Hf, Hc. unfold emit. cbn.
    rewrite writes_app. simpl. rewrite app_nil_r. auto.
Qed.

Lemma take_succ_last (ws : list LogGroup) n g :
  ws !! n = Some g -> length ws = S n -> ws = take n ws ++ [g].
Proof.
  intros Hg Hlen. rewrite <- (take_drop n ws) at 1. f_equal.
  rewrite (drop_S _ _ _ Hg). rewrite drop_ge by lia. reflexivity.
Qed.

Lemma world_inv_step w w' :
  world_inv cfg w ->
  step cfg compute_crc flush_data_threshold_size max_time_between_flush_us w w' ->
  world_inv cfg w'.
Proof.
  intros Hinv Hstep. destruct Hstep as
    [w sid sq dt da al ctx now | w now | w lg now d' Hlg Hcomp | w cb | w now Hcl
    | w key].
  - unfold append_async. cbn [snd]. apply world_inv_flush_if_needed.
    destruct w as [d n c]. exact Hinv.
  - apply world_inv_flush_if_needed. destruct w as [d n c]. exact Hinv.
  - destruct w as [d n c]. cbn [dev ncompleted client_locked] in *.
    unfold on_flush_completion in Hcomp.
    destruct (append_comp_loop _ _ _ _ _) as [d3|] eqn:Eloop; [|discriminate].
    injection Hcomp as <-.
    apply append_comp_loop_frame in Eloop as (Hw & Hf & Hc). cbn in Hw, Hf, Hc.
    destruct Hinv as (Hlen & Hidle & Hclk & Hch & Hcrc).
    cbn [dev ncompleted client_locked] in *.
    assert (Hl : length (writes (trace d)) = S n).
    { apply lookup_lt_Some in Hlg. lia. }
    assert (Hc0 : c = false).
    { destruct c; [|reflexivity]. specialize (Hclk eq_refl). lia. }
    subst c.
    unfold unlock_flush. apply world_inv_flush_if_needed.
    apply world_inv_release with (c := false).
    + unfold world_inv; cbn [dev ncompleted client_locked].
      cbn [trace set_last_crc m_is_flushing m_last_crc]. rewrite Hw.
      split; [lia|]. split.
      { rewrite Hf. intros H. destruct (Hidle H). lia. }
      split.
      { intros H. apply Hclk in H. lia. }
      split; [exact Hch|].
      rewrite <- Hl, firstn_all.
      rewrite (take_succ_last _ _ _ Hlg Hl), tip_snoc. reflexivity.
    + cbn. rewrite Hw. exact Hl.
  - destruct w as [d n c]. cbn [dev ncompleted client_locked].
    destruct Hinv as (Hlen & Hidle & Hclk & Hch & Hcrc).
    cbn [dev ncompleted client_locked] in *.
    unfold try_lock_flush. destruct (m_is_flushing d) eqn:Hf; cbn [negb fst snd].
    + rewrite orb_false_r. unfold world_inv; cbn. rewrite Hf.
      repeat split; auto; try discriminate; lia.
    + destruct (Hidle eq_refl) as [Hn Hc]. rewrite orb_true_r.
      unfold world_inv, emit; cbn. rewrite writes_app. simpl. rewrite app_nil_r.
      repeat split; auto; try discriminate; lia.
  - destruct w as [d n c]. cbn [dev ncompleted client_locked] in *.
    unfold unlock_flush. apply world_inv_flush_if_needed.
    apply world_inv_release with (c := c); [exact Hinv|].
    destruct Hinv as (_ & _ & Hclk & _). cbn in Hclk. auto.
  - destruct w as [d n c]. exact Hinv.
Qed.

Lemma world_inv_reachable id w :
  reachable cfg compute_crc flush_data_threshold_size max_time_between_flush_us id w ->
  world_inv cfg w.
Proof.
  induction 1 as [|w w' _ IH Hstep].
  - unfold world_inv; cbn. repeat split; auto; lia.
  - eapply world_inv_step; eassumption.
Qed.

End LogDeviceFacts.

Section LogDeviceClaims.
Import LogGroupFmt LogDevice.
Variable cfg : log_config.
Variable compute_crc : LogGroup -> Z.
Variable flush_data_threshold_size : Z.
Variable max_time_between_flush_us : Z.

Local Abbreviation flush_if_needed' :=
  (flush_if_needed cfg compute_crc flush_data_threshold_size max_time_between_flush_us).
Local Abbreviation unlock_flush' :=
  (unlock_flush cfg compute_crc flush_data_threshold_size max_time_between_flush_us).
Local Abbreviation on_flush_completion' :=
  (on_flush_completion cfg compute_crc flush_data_threshold_size max_time_between_flush_us).
Local Abbreviation reachable' :=
  (reachable cfg compute_crc flush_data_threshold_size max_time_between_flush_us).


(** C6. [flush_if_needed] hands a group to the store exactly when, with the
    new record size added, the pending size reaches the threshold or is
    nonzero with the last flush older than the maximum delay, and the
    flushing flag was clear. It then holds the flag; a caller that finds
    the flag set only adds to the pending counter; a repeated call with
    nothing newly pending changes nothing, also when nothing is pending
    at all; and no run has more than one group in flight. *)
Theorem flush_if_needed_gate d sz new_idx now :
  let p := m_pending_flush_size d + sz in
  let d' := flush_if_needed' d sz new_idx now in
  ((exists lg, writes (trace d') = writes (trace d) ++ [lg]) <->
   (flush_data_threshold_size <= p \/
    (p <> 0 /\ max_time_between_flush_us < now - m_last_flush_time d)) /\
   m_is_flushing d = false) /\
  (writes (trace d') = writes (trace d) \/
   exists lg, writes (trace d') = writes (trace d) ++ [lg]) /\
  ((exists lg, writes (trace d') = writes (trace d) ++ [lg]) ->
   m_is_flushing d' = true) /\
  (m_is_flushing d = true -> d' = set_pending_flush_size d p) /\
  (m_is_flushing d' = true ->
   forall new_idx2 now2, flush_if_needed' d' 0 new_idx2 now2 = d') /\
  (0 < flush_data_threshold_size -> m_pending_flush_size d = 0 ->
   forall new_idx2 now2, flush_if_needed' d 0 new_idx2 now2 = d) /\
  (forall id w, reachable' id w -> (length (in_flight w) <= 1)%nat).
Proof.
  cbv zeta.
  pose proof (flush_if_needed_writes cfg compute_crc flush_data_threshold_size
                max_time_between_flush_us d sz new_idx now) as Hw.
  pose proof (flush_if_needed_flag cfg compute_crc flush_data_threshold_size
                max_time_between_flush_us d sz new_idx now) as Hfl.
  destruct (flush_due flush_data_threshold_size max_time_between_flush_us d
              (m_pending_flush_size d + sz) now) eqn:Hdue.
  - assert (Hspec := proj1 (flush_due_spec _ _ d _ now) Hdue).
    destruct (m_is_flushing d) eqn:Hf; simpl in Hw, Hfl.
    + rewrite app_nil_r in Hw.
      assert (Hno : ~ exists lg, writes (trace (flush_if_needed' d sz new_idx now))
                                 = writes (trace d) ++ [lg]).
      { intros [lg Hlg]. rewrite Hw in Hlg.
        rewrite <- (app_nil_r (writes (trace d))) in Hlg at 1.
        apply app_inv_head in Hlg. discriminate. }
      split; [split; [intros H; contradiction | intros [_ H]; discriminate]|].
      split; [left; exact Hw|].
      split; [intros H; contradiction|].
      split.
      { intros _. apply flush_if_needed_idle. rewrite Hf, andb_false_r. reflexivity. }
      split.
      { intros _ i2 n2. rewrite flush_if_needed_idle.
        - apply set_pending_same.
        - rewrite Hfl, andb_false_r. reflexivity. }
      split.
      { intros Ht Hp i2 n2. rewrite flush_if_needed_idle.
        - apply set_pending_same.
        - rewrite Hf, andb_false_r. reflexivity. }
      intros id w Hr.
      destruct (world_inv_reachable cfg compute_crc _ _ id w Hr) as (Hl & _).
      unfold in_flight. rewrite length_drop. lia.
    + split; [split; [intros _; split; [exact Hspec | reflexivity] | intros _; eauto]|].
      split; [right; eauto|].
      split; [intros _; exact Hfl|].
      split; [discriminate|].
      split.
      { intros _ i2 n2. rewrite flush_if_needed_idle.
        - apply set_pending_same.
        - rewrite Hfl, andb_false_r. reflexivity. }
      split.
      { intros Ht Hp i2 n2. rewrite flush_if_needed_idle.
        - apply set_pending_same.
        - apply andb_false_iff. left.
          destruct (flush_due _ _ d (m_pending_flush_size d + 0) n2) eqn:E;
            [|reflexivity].
          apply flush_due_spec in E. lia. }
      intros id w Hr.
      destruct (world_inv_reachable cfg compute_crc _ _ id w Hr) as (Hl & _).
      unfold in_flight. rewrite length_drop. lia.
  - simpl in Hw. rewrite app_nil_r in Hw.
    assert (Hno : ~ exists lg, writes (trace (flush_if_needed' d sz new_idx now))
                               = writes (trace d) ++ [lg]).
    { intros [lg Hlg]. rewrite Hw in Hlg.
      rewrite <- (app_nil_r (writes (trace d))) in Hlg at 1.
      apply app_inv_head in Hlg. discriminate. }
    assert (Hnspec : ~ (flush_data_threshold_size <= m_pending_flush_size d + sz \/
                        (m_pending_flush_size d + sz <> 0 /\
                         max_time_between_flush_us < now - m_last_flush_time d))).
    { intros H. apply (flush_due_spec _ _ d _ now) in H. congruence. }
    split; [split; [intros H; contradiction | intros [H _]; contradiction]|].
    split; [left; exact Hw|].
    split; [intros H; contradiction|].
    split.
    { intros _. apply flush_if_needed_idle. rewrite Hdue. reflexivity. }
    split.
    { intros Hf' i2 n2. rewrite flush_if_needed_idle.
      - apply set_pending_same.
      - rewrite Hf', andb_false_r. reflexivity. }
    split.
    { intros Ht Hp i2 n2. rewrite flush_if_needed_idle.
      - apply set_pending_same.
      - apply andb_false_iff. left.
        destruct (flush_due _ _ d (m_pending_flush_size d + 0) n2) eqn:E;
          [|reflexivity].
        apply flush_due_spec in E. lia. }
    intros id w Hr.
    destruct (world_inv_reachable cfg compute_crc _ _ id w Hr) as (Hl & _).
    unfold in_flight. rewrite length_drop. lia.
Qed.


End LogDeviceClaims.

Section LogDeviceRuns.
Import LogGroupFmt LogDevice.

Lemma ex_reachable : reachable ex_cfg ex_crc 1 1000 1 (ex_w ex_d3 1).
Proof.
  eapply reachable_step with (w := ex_w ex_d2 1).
  - eapply reachable_step with (w := ex_w ex_d1 0).
    + eapply reachable_step with (w := started_world 1).
      * constructor.
      * apply (step_append ex_cfg ex_crc 1 1000 (started_world 1) 7 0
                 [104; 101; 108; 108; 111] 4096 true 0 10).
    + apply (step_completion ex_cfg ex_crc 1 1000 (ex_w ex_d1 0) ex_lg1 20 ex_d2).
      * vm_compute. reflexivity.
      * vm_compute. reflexivity.
  - apply (step_append ex_cfg ex_crc 1 1000 (ex_w ex_d2 1) 7 1
             [104; 101; 108; 108; 111] 4096 true 0 30).
Defined.



End LogDeviceRuns.

(** ** Reading a record back *)

Section ReadFacts.
Import LogGroupFmt LogDevice.
Variable cfg : log_config.
Variable decode : list Z -> log_group_header * list serialized_log_record.
Variable crc32_ieee : Z -> list Z -> Z.
Variable init_crc32 : Z.

Lemma length_pread store n off : length (pread store n off) = Z.to_nat n.
Proof. unfold pread. rewrite length_fmap, length_seqZ. reflexivity. Qed.

Lemma pread_app store n1 n2 off :
  0 <= n1 -> 0 <= n2 ->
  pread store (n1 + n2) off = pread store n1 off ++ pread store n2 (off + n1).
Proof.
  intros H1 H2. unfold pread. rewrite seqZ_app by assumption.
  rewrite fmap_app. f_equal.
  replace (0 + n1) with (n1 + 0) by lia.
  rewrite <- (fmap_add_seqZ n1 0 n2), <- list_fmap_compose.
  apply list_fmap_ext. intros _ i _. simpl. f_equal. lia.
Qed.

Lemma slice_pread store n off from len :
  0 <= from -> 0 <= len -> from + len <= n ->
  slice (pread store n off) from len = pread store len (off + from).
Proof.
  intros Hf Hl Hn. unfold slice.
  replace n with (from + (len + (n - from - len))) by lia.
  rewrite pread_app by lia.
  rewrite drop_app_length' by (rewrite length_pread; reflexivity).
  rewrite pread_app by lia.
  apply take_app_length'. rewrite length_pread. reflexivity.
Qed.

Lemma round_down_bounds x a : 0 < a -> 0 <= x -> 0 <= round_down x a <= x.
Proof.
  intros Ha Hx. unfold round_down.
  pose proof (Z.mul_div_le x a Ha). pose proof (Z.div_pos x a Hx Ha).
  rewrite (Z.mul_comm (x / a) a). nia.
Qed.

Lemma round_up_ge x a : 0 < a -> x <= round_up x a.
Proof.
  intros Ha. unfold round_up.
  pose proof (Z.div_mod (x + a - 1) a ltac:(lia)) as Hdm.
  pose proof (Z.mod_pos_bound (x + a - 1) a Ha) as Hb.
  nia.
Qed.

(** [LogDev::read] consults the slot of index [key.idx - start_log_idx] and
    returns the [size] bytes that lie [offset + (inlined ? 0 : oob offset)]
    bytes past the start of the group. *)
Lemma read_payload_location store key h slots r :
  decode (pread store initial_read_size (dev_offset key)) = (h, slots) ->
  magic h = LOG_GROUP_HDR_MAGIC ->
  start_log_idx h <= idx key < start_log_idx h + n_log_records h ->
  n_log_records h <= 2 ^ 32 ->
  (group_size h <= initial_read_size ->
   cur_grp_crc h
   = crc32_ieee init_crc32
       (slice (pread store initial_read_size (dev_offset key))
          (sizeof_log_group_header cfg)
          (group_size h - sizeof_log_group_header cfg))) ->
  nth_record slots (idx key - start_log_idx h) = Some r ->
  0 <= size r -> 0 <= offset r -> 0 <= oob_data_offset h ->
  offset r + oob_data_offset h < 2 ^ 32 ->
  read cfg decode crc32_ieee init_crc32 store key
  = Some (pread store (size r)
            (dev_offset key
             + (offset r + (if negb (is_inlined r =? 0) then 0
                            else oob_data_offset h)))).
Proof.
  intros Hdec Hmagic Hidx Hn Hcrc Hslot Hsz Hoff Hoob Hsum.
  unfold read. rewrite Hdec.
  unfold magic_word, start_idx, nrecords, total_size, this_group_crc.
  rewrite Hmagic, Z.eqb_refl. cbn [negb].
  destruct (Z.leb_spec (start_log_idx h) (idx key)); [|lia]. cbn [negb].
  destruct (Z.ltb_spec (idx key) (start_log_idx h + n_log_records h)); [|lia].
  cbn [negb].
  assert (Hc : (group_size h <=? initial_read_size)
               && negb (cur_grp_crc h
                        =? crc32_ieee init_crc32
                             (slice (pread store initial_read_size (dev_offset key))
                                (sizeof_log_group_header cfg)
                                (group_size h - sizeof_log_group_header cfg)))
               = false).
  { destruct (Z.leb_spec (group_size h) initial_read_size) as [Hle|]; [|reflexivity].
    rewrite <- (Hcrc Hle), Z.eqb_refl. reflexivity. }
  rewrite Hc.
  assert (Hs : read_slot h key = idx key - start_log_idx h).
  { unfold read_slot, u32. apply wrap_small. lia. }
  rewrite Hs, Hslot.
  assert (Hd : read_data_offset h r
               = offset r + (if negb (is_inlined r =? 0) then 0
                             else oob_data_offset h)).
  { unfold read_data_offset, u32. apply wrap_small.
    destruct (negb (is_inlined r =? 0)); lia. }
  rewrite Hd.
  set (data_offset := offset r + (if negb (is_inlined r =? 0) then 0
                                  else oob_data_offset h)).
  assert (Hdo : 0 <= data_offset).
  { unfold data_offset. destruct (negb (is_inlined r =? 0)); lia. }
  destruct (Z.ltb_spec (data_offset + size r) initial_read_size) as [Hin|Hout].
  - f_equal. apply slice_pread; lia.
  - f_equal.
    assert (Ha : 0 < dma_address_boundary) by reflexivity.
    pose proof (round_down_bounds data_offset dma_address_boundary Ha Hdo) as Hrd.
    pose proof (round_up_ge
                  (size r + data_offset
                   - round_down data_offset dma_address_boundary)
                  dma_address_boundary Ha) as Hru.
    rewrite slice_pread by lia. f_equal. lia.
Qed.

End ReadFacts.

(** ** Write-back cache *)

Section WBCacheFacts.
Import WBCache.

Lemma upd_eq {A} (f : Z -> A) i v : upd f i v i = v.
Proof. unfold upd. rewrite Z.eqb_refl. reflexivity. Qed.

Lemma upd_ne {A} (f : Z -> A) i j v : j <> i -> upd f i v j = f j.
Proof. intros H. unfold upd. destruct (Z.eqb_spec j i); [contradiction | reflexivity]. Qed.

Lemma sumZ_app {A} (f : A -> Z) l1 l2 : sumZ f (l1 ++ l2) = sumZ f l1 + sumZ f l2.
Proof. induction l1 as [|a l1 IH]; simpl; [reflexivity|]. rewrite IH. lia. Qed.

Lemma sumZ_nonneg {A} (f : A -> Z) l : (forall a, 0 <= f a) -> 0 <= sumZ f l.
Proof.
  intros Hf. induction l as [|a l IH]; simpl; [lia|]. specialize (Hf a). lia.
Qed.

Lemma sumZ_insert {A} (f : A -> Z) l : forall x r r',
  l !! x = Some r -> sumZ f (<[x := r']> l) = sumZ f l - f r + f r'.
Proof.
  induction l as [|a l IH]; intros x r r' Hx; [discriminate|].
  destruct x as [|x]; simpl in *.
  - injection Hx as ->. lia.
  - rewrite (IH x r r' Hx). lia.
Qed.

Lemma sumZ_ext {A} (f g : A -> Z) l : (forall a, f a = g a) -> sumZ f l = sumZ g l.
Proof. intros H. induction l as [|a l IH]; simpl; [reflexivity|]. rewrite H, IH. reflexivity. Qed.

Lemma countZ_nonneg x l : 0 <= countZ x l.
Proof. apply sumZ_nonneg. intros y. destruct (Nat.eqb y x); lia. Qed.

Lemma occ_nonneg x heap : 0 <= occ x heap.
Proof. apply sumZ_nonneg. intros q. apply countZ_nonneg. Qed.

Lemma countZ_app x l1 l2 : countZ x (l1 ++ l2) = countZ x l1 + countZ x l2.
Proof. apply sumZ_app. Qed.

Lemma countZ_cons x y l :
  countZ x (y :: l) = (if Nat.eqb y x then 1 else 0) + countZ x l.
Proof. reflexivity. Qed.

Lemma countZ_not_in x l : x ∉ l -> countZ x l = 0.
Proof.
  induction l as [|y l IH]; intros H; [reflexivity|].
  rewrite countZ_cons. rewrite not_elem_of_cons in H. destruct H as [Hne Hn].
  rewrite (IH Hn). destruct (Nat.eqb_spec y x); [congruence | reflexivity].
Qed.

Lemma countZ_in x l : x ∈ l -> 0 < countZ x l.
Proof.
  induction l as [|y l IH]; intros H; [inversion H|].
  rewrite countZ_cons. pose proof (countZ_nonneg x l).
  apply elem_of_cons in H as [->|H].
  - rewrite Nat.eqb_refl. lia.
  - specialize (IH H). destruct (Nat.eqb y x); lia.
Qed.

Lemma last_removelast (l : list nat) y :
  last l = Some y -> l = removelast l ++ [y].
Proof.
  intros H. destruct (decide (l = [])) as [->|Hne]; [discriminate|].
  rewrite (app_removelast_last 0%nat) at 1 by exact Hne.
  f_equal. f_equal. rewrite last_lookup in H.
  destruct l as [|a l]; [contradiction|].
  clear Hne. revert a H. induction l as [|b l IH]; intros a H; simpl in *.
  - congruence.
  - apply (IH b). exact H.
Qed.

Lemma countZ_removelast x l y :
  last l = Some y ->
  countZ x (removelast l) = countZ x l - (if Nat.eqb y x then 1 else 0).
Proof.
  intros H. rewrite (last_removelast l y H) at 2.
  rewrite countZ_app, countZ_cons.
  change (countZ x []) with 0. lia.
Qed.

Lemma prev_slot_in_range cp :
  1 <= cp_id cp < 2 ^ 64 -> prev_slot cp = (cp_id cp - 1) mod 2.
Proof. intros H. unfold prev_slot. rewrite wrap_small by lia. reflexivity. Qed.

Lemma copy_memvec_facts c n :
  let c' := copy_memvec c n in
  memvec (nodes c' n) = length (mems c) /\
  mems c' !! memvec (nodes c' n)
    = Some (default [] (mems c !! memvec (nodes c n))) /\
  (forall h, (h < length (mems c))%nat -> mems c' !! h = mems c !! h) /\
  reqs c' = reqs c /\
  node_bcp (nodes c' n) = node_bcp (nodes c n) /\
  req (nodes c' n) = req (nodes c n) /\
  (forall n', n' <> n -> nodes c' n' = nodes c n') /\
  m_dirty_buf_cnt c' = m_dirty_buf_cnt c /\
  events c' = events c.
Proof.
  cbv zeta. unfold copy_memvec. cbn. rewrite upd_eq. cbn.
  split; [reflexivity|]. split.
  { rewrite lookup_app_r by lia. rewrite Nat.sub_diag. reflexivity. }
  split.
  { intros h Hh. apply lookup_app_l. exact Hh. }
  repeat split; try reflexivity.
  intros n' Hn. apply upd_ne. exact Hn.
Qed.

(** C8. [refresh_buf] with [is_write_modifiable = true], a checkpoint and a
    node that has a last-writer checkpoint: equal ids give success with
    nothing changed; a newer node gives cp_mismatch with nothing changed;
    an older node gives success, and the node's buffer is copied into a
    fresh memory vector exactly when the request in the node's
    previous slot exists and is not in state COMPL; otherwise nothing is
    changed. *)
Theorem refresh_buf_write_modifiable c n cp ncp :
  node_bcp (nodes c n) = Some ncp ->
  (cp_id ncp = cp_id cp -> refresh_buf c n true (Some cp) = (success, c)) /\
  (cp_id cp < cp_id ncp -> refresh_buf c n true (Some cp) = (cp_mismatch, c)) /\
  (cp_id ncp < cp_id cp ->
   (forall r, req (nodes c n) (prev_slot cp) = Some r ->
      state (get_req c r) <> WB_REQ_COMPL ->
      exists c',
        refresh_buf c n true (Some cp) = (success, c') /\
        memvec (nodes c' n) = length (mems c) /\
        mems c' !! memvec (nodes c' n)
          = Some (default [] (mems c !! memvec (nodes c n))) /\
        (forall h, (h < length (mems c))%nat -> mems c' !! h = mems c !! h) /\
        reqs c' = reqs c /\
        node_bcp (nodes c' n) = node_bcp (nodes c n) /\
        req (nodes c' n) = req (nodes c n) /\
        (forall n', n' <> n -> nodes c' n' = nodes c n')) /\
   (req (nodes c n) (prev_slot cp) = None \/
    (exists r, req (nodes c n) (prev_slot cp) = Some r /\
               state (get_req c r) = WB_REQ_COMPL) ->
    refresh_buf c n true (Some cp) = (success, c))) /\
  (0 <= cp_id ncp -> cp_id ncp < cp_id cp -> cp_id cp < 2 ^ 64 ->
   prev_slot cp = (cp_id cp - 1) mod 2).
Proof.
  intros Hn. unfold refresh_buf. rewrite Hn. cbn [negb].
  split.
  { intros Heq. rewrite Heq, Z.eqb_refl. reflexivity. }
  split.
  { intros Hlt. destruct (Z.eqb_spec (cp_id ncp) (cp_id cp)); [lia|].
    destruct (Z.ltb_spec (cp_id cp) (cp_id ncp)); [reflexivity | lia]. }
  split.
  { intros Hlt. destruct (Z.eqb_spec (cp_id ncp) (cp_id cp)); [lia|].
    destruct (Z.ltb_spec (cp_id cp) (cp_id ncp)); [lia|].
    split.
    - intros r Hr Hst. rewrite Hr.
      assert (Hc : is_compl (state (get_req c r)) = false)
        by (destruct (state (get_req c r)); try reflexivity; congruence).
      rewrite Hc. eexists. split; [reflexivity|].
      destruct (copy_memvec_facts c n) as (H1 & H2 & H3 & H4 & H5 & H6 & H7 & _).
      rewrite Hn in H5.
      exact (conj H1 (conj H2 (conj H3 (conj H4 (conj H5 (conj H6 H7)))))).
    - intros [Hnone | (r & Hr & Hst)].
      + rewrite Hnone. reflexivity.
      + rewrite Hr, Hst. reflexivity. }
  intros H0 Hlt Hmax. apply prev_slot_in_range. lia.
Qed.

End WBCacheFacts.

Section WBCacheInvariant.
Import WBCache.

Lemma get_req_some c x r : reqs c !! x = Some r -> get_req c x = r.
Proof. intros H. unfold get_req. rewrite H. reflexivity. Qed.

Lemma sumZ_pointwise {A} (f : A -> Z) l : forall l',
  length l' = length l ->
  (forall y a b, l !! y = Some a -> l' !! y = Some b -> f b = f a) ->
  sumZ f l' = sumZ f l.
Proof.
  induction l as [|a l IH]; intros [|b l'] Hlen Hp; simpl in *;
    try discriminate; [reflexivity|].
  rewrite (Hp 0%nat a b eq_refl eq_refl). f_equal.
  apply IH; [lia|]. intros y a' b' Ha Hb. apply (Hp (S y)); assumption.
Qed.

Lemma same_shape_live heap heap' i :
  same_shape heap heap' -> live i heap' = live i heap.
Proof.
  intros [Hlen Hp]. apply sumZ_pointwise; [exact Hlen|].
  intros y a b Ha Hb. destruct (Hp y a b Ha Hb) as (Hb1 & _ & Hb2).
  rewrite Hb1, Hb2. reflexivity.
Qed.

Lemma same_shape_refl heap : same_shape heap heap.
Proof. split; [reflexivity|]. intros y r r' H1 H2. rewrite H1 in H2. injection H2 as <-. auto. Qed.

Lemma same_shape_trans h1 h2 h3 :
  same_shape h1 h2 -> same_shape h2 h3 -> same_shape h1 h3.
Proof.
  intros [L1 P1] [L2 P2]. split; [congruence|].
  intros y r r' Hr Hr'.
  assert (Hy : (y < length h2)%nat).
  { apply lookup_lt_Some in Hr. lia. }
  apply lookup_lt_is_Some_2 in Hy as [r2 Hr2].
  destruct (P1 y r r2 Hr Hr2) as (A1 & A2 & A3).
  destruct (P2 y r2 r' Hr2 Hr') as (B1 & B2 & B3).
  repeat split; congruence.
Qed.

Lemma frame_refl c : frame c c.
Proof.
  unfold frame. do 5 (split; [reflexivity|]). apply same_shape_refl.
Qed.

Lemma frame_trans c1 c2 c3 : frame c1 c2 -> frame c2 c3 -> frame c1 c3.
Proof.
  intros (A1 & A2 & A3 & A4 & A5 & A6) (B1 & B2 & B3 & B4 & B5 & B6).
  unfold frame. do 4 (split; [congruence|]).
  split; [intros cp; rewrite B5; apply A5|].
  eapply same_shape_trans; eassumption.
Qed.

Lemma cp_comp_count_app cp l1 l2 :
  cp_comp_count cp (l1 ++ l2) = cp_comp_count cp l1 + cp_comp_count cp l2.
Proof.
  induction l1 as [|e l1 IH]; simpl; [reflexivity|].
  destruct e; rewrite IH; lia.
Qed.

Lemma occ_insert y heap k r r' :
  heap !! k = Some r ->
  occ y (<[k := r']> heap)
  = occ y heap - countZ y (req_q r) + countZ y (req_q r').
Proof. intros H. unfold occ. rewrite (sumZ_insert _ heap k r r' H). reflexivity. Qed.

Lemma elem_of_removelast (q : list nat) x z :
  last q = Some x -> z ∈ removelast q -> z ∈ q.
Proof.
  intros Hl Hz. rewrite (last_removelast q x Hl). apply elem_of_app. left. exact Hz.
Qed.

Lemma elem_of_last (q : list nat) x : last q = Some x -> x ∈ q.
Proof.
  intros Hl. rewrite (last_removelast q x Hl). apply elem_of_app. right.
  apply list_elem_of_singleton. reflexivity.
Qed.

Lemma heap_inv_decrement tv tv' heap heap' x :
  heap_inv tv heap ->
  length heap' = length heap ->
  (forall y r r', heap !! y = Some r -> heap' !! y = Some r' ->
     dec_rel (Nat.eqb y x) r r') ->
  (forall y r, heap !! y = Some r ->
     countZ y (tv' (slot (bcp r))) + occ y heap'
     = countZ y (tv (slot (bcp r))) + occ y heap
       - (if Nat.eqb y x then 1 else 0)) ->
  (forall i z, z ∈ tv' i -> z ∈ tv i) ->
  heap_inv tv' heap' /\ same_shape heap heap'.
Proof.
  intros (Hok & Hq & Hv) Hlen Hrel Hsum Hsub.
  assert (Hback : forall y r', heap' !! y = Some r' -> exists r, heap !! y = Some r).
  { intros y r' Hy. apply lookup_lt_Some in Hy. rewrite Hlen in Hy.
    apply lookup_lt_is_Some_2 in Hy. exact Hy. }
  split; [split; [|split]|].
  - intros y r' Hy. destruct (Hback y r' Hy) as [r Hr].
    destruct (Hok y r Hr) as (Hs & Hc & Hst & Hni).
    destruct (Hrel y r r' Hr Hy) as (Hb & _ & _ & Hd).
    specialize (Hsum y r Hr).
    pose proof (countZ_nonneg y (tv' (slot (bcp r)))).
    pose proof (occ_nonneg y heap').
    unfold req_ok. rewrite Hb.
    destruct (Nat.eqb y x).
    + destruct Hd as [Hd1 Hd2]. rewrite Hd1, Hd2.
      split; [exact Hs|]. split; [lia|].
      destruct (Z.eqb_spec (dependent_cnt r - 1) 0) as [E|E].
      * split; [|discriminate]. split; [discriminate | lia].
      * split; [|exact Hni]. rewrite Hst. lia.
    + destruct Hd as [Hd1 Hd2]. rewrite Hd1, Hd2.
      split; [exact Hs|]. split; [lia|]. split; assumption.
  - intros q rq' z Hq' Hz. destruct (Hback q rq' Hq') as [rq Hrq].
    destruct (Hrel q rq rq' Hrq Hq') as (_ & _ & Hsubq & _).
    rewrite Hlen. eapply Hq; [exact Hrq|]. apply Hsubq. exact Hz.
  - intros i z Hi Hz. destruct (Hv i z Hi (Hsub i z Hz)) as (r & Hr & Hsl).
    assert (Hz' : (z < length heap')%nat).
    { apply lookup_lt_Some in Hr. lia. }
    apply lookup_lt_is_Some_2 in Hz' as [r' Hr'].
    exists r'. split; [exact Hr'|].
    destruct (Hrel z r r' Hr Hr') as (Hb & _). rewrite Hb. exact Hsl.
  - split; [exact Hlen|]. intros y r r' Hr Hy.
    destruct (Hok y r Hr) as (Hs & Hc & Hst & Hni).
    destruct (Hrel y r r' Hr Hy) as (Hb & Hbn & _ & Hd).
    split; [exact Hb|]. split; [exact Hbn|].
    destruct (Nat.eqb y x); destruct Hd as [Hd1 Hd2]; rewrite Hd2; [|reflexivity].
    destruct (Z.eqb_spec (dependent_cnt r - 1) 0) as [E|E]; [|reflexivity].
    assert (Hw : state r = WB_REQ_WAITING) by (apply Hst; lia).
    rewrite Hw. reflexivity.
Qed.

Lemma dec_rel_decremented rq : dec_rel true rq (decremented rq).
Proof.
  unfold dec_rel, decremented. cbn.
  destruct (dependent_cnt rq - 1 =? 0); cbn; auto.
Qed.

Lemma dec_rel_same rq : dec_rel false rq rq.
Proof. unfold dec_rel. auto. Qed.

Lemma release_reqs c x :
  reqs (release c x) = <[x := decremented (get_req c x)]> (reqs c).
Proof. unfold release. destruct (_ =? 0); reflexivity. Qed.

Lemma release_frame_fields c x :
  m_req_list (release c x) = m_req_list c /\
  m_dirty_buf_cnt (release c x) = m_dirty_buf_cnt c /\
  nodes (release c x) = nodes c /\
  mems (release c x) = mems c /\
  (forall cp, cp_comp_count cp (events (release c x)) = cp_comp_count cp (events c)).
Proof.
  unfold release. destruct (_ =? 0); cbn; repeat split; auto.
  intros cp. rewrite cp_comp_count_app. simpl. lia.
Qed.

Lemma release_visit c tv i x rest rq :
  heap_inv tv (reqs c) ->
  tv i = x :: rest ->
  reqs c !! x = Some rq -> slot (bcp rq) = i ->
  heap_inv (upd tv i rest) (reqs (release c x)) /\ frame c (release c x).
Proof.
  intros Hinv Htv Hx Hsl.
  assert (Hlt : (x < length (reqs c))%nat) by (apply lookup_lt_Some in Hx; exact Hx).
  destruct (heap_inv_decrement tv (upd tv i rest) (reqs c) (reqs (release c x)) x)
    as [H1 H2]; try assumption.
  - rewrite release_reqs. apply length_insert.
  - intros y r r' Hr Hr'. rewrite release_reqs in Hr'.
    destruct (Nat.eqb_spec y x) as [->|Hne].
    + rewrite list_lookup_insert_eq in Hr' by exact Hlt. injection Hr' as <-.
      rewrite (get_req_some c x rq Hx). rewrite Hx in Hr. injection Hr as <-.
      apply dec_rel_decremented.
    + rewrite list_lookup_insert_ne in Hr' by congruence.
      rewrite Hr in Hr'. injection Hr' as <-. apply dec_rel_same.
  - intros y r Hr. rewrite release_reqs, (occ_insert y _ x rq _ Hx).
    rewrite (get_req_some c x rq Hx).
    assert (Eq : req_q (decremented rq) = req_q rq).
    { unfold decremented. cbn. destruct (_ =? 0); reflexivity. }
    rewrite Eq.
    destruct (Z.eq_dec (slot (bcp r)) i) as [E|E].
    + rewrite E, upd_eq, Htv, countZ_cons.
      rewrite (Nat.eqb_sym x y). lia.
    + rewrite upd_ne by exact E.
      destruct (Nat.eqb_spec y x) as [->|Hne]; [|lia].
      rewrite Hx in Hr. injection Hr as <-. contradiction.
  - intros j z Hz. destruct (Z.eq_dec j i) as [->|E].
    + rewrite upd_eq in Hz. rewrite Htv. apply elem_of_cons. right. exact Hz.
    + rewrite upd_ne in Hz by exact E. exact Hz.
  - split; [exact H1|].
    destruct (release_frame_fields c x) as (F1 & F2 & F3 & F4 & F5).
    unfold frame. auto 10.
Qed.

Lemma drain_iter c tv r x rr :
  heap_inv tv (reqs c) ->
  reqs c !! r = Some rr -> last (req_q rr) = Some x ->
  heap_inv tv
    (reqs (release (set_req c r (with_req_q rr (removelast (req_q rr)))) x)) /\
  frame c (release (set_req c r (with_req_q rr (removelast (req_q rr)))) x).
Proof.
  intros Hinv Hr Hl.
  set (rr1 := with_req_q rr (removelast (req_q rr))).
  set (c1 := set_req c r rr1).
  assert (Hrl : (r < length (reqs c))%nat) by (apply lookup_lt_Some in Hr; exact Hr).
  assert (Hxl : (x < length (reqs c))%nat).
  { destruct Hinv as (_ & Hq & _). eapply Hq; [exact Hr|]. apply elem_of_last. exact Hl. }
  assert (Hlen1 : length (reqs c1) = length (reqs c)) by (cbn; apply length_insert).
  assert (H1r : reqs c1 !! r = Some rr1) by (cbn; apply list_lookup_insert_eq; exact Hrl).
  destruct (lookup_lt_is_Some_2 (reqs c1) x) as [rx1 Hx1]; [lia|].
  assert (Hq1 : forall y, occ y (reqs c1)
                = occ y (reqs c) - (if Nat.eqb x y then 1 else 0)).
  { intros y. change (reqs c1) with (<[r := rr1]> (reqs c)).
    rewrite (occ_insert y _ r rr _ Hr).
    change (req_q rr1) with (removelast (req_q rr)).
    rewrite (countZ_removelast y _ x Hl). lia. }
  destruct (heap_inv_decrement tv tv (reqs c) (reqs (release c1 x)) x)
    as [H1 H2]; try assumption.
  - rewrite release_reqs, length_insert. exact Hlen1.
  - intros y r0 r0' Hr0 Hr0'. rewrite release_reqs in Hr0'.
    rewrite (get_req_some c1 x rx1 Hx1) in Hr0'.
    destruct (Nat.eqb_spec y x) as [->|Hne].
    + rewrite list_lookup_insert_eq in Hr0' by lia. injection Hr0' as <-.
      destruct (Nat.eq_dec x r) as [->|Hxr].
      * rewrite H1r in Hx1. injection Hx1 as <-.
        rewrite Hr in Hr0. injection Hr0 as <-.
        destruct (dec_rel_decremented rr1) as (A & B & C & D).
        unfold dec_rel. split; [exact A|]. split; [exact B|]. split.
        { intros z Hz. apply C in Hz. cbn in Hz.
          eapply elem_of_removelast; eassumption. }
        exact D.
      * cbn in Hx1. rewrite list_lookup_insert_ne in Hx1 by congruence.
        rewrite Hr0 in Hx1. injection Hx1 as <-. apply dec_rel_decremented.
    + rewrite list_lookup_insert_ne in Hr0' by congruence.
      destruct (Nat.eq_dec y r) as [->|Hyr].
      * rewrite H1r in Hr0'. injection Hr0' as <-.
        rewrite Hr in Hr0. injection Hr0 as <-.
        unfold dec_rel, rr1. cbn. repeat split; auto.
        intros z Hz. eapply elem_of_removelast; eassumption.
      * cbn in Hr0'. rewrite list_lookup_insert_ne in Hr0' by congruence.
        rewrite Hr0 in Hr0'. injection Hr0' as <-. apply dec_rel_same.
  - intros y r0 Hr0. rewrite release_reqs, (occ_insert y _ x rx1 _ Hx1).
    rewrite (get_req_some c1 x rx1 Hx1).
    assert (Eq : req_q (decremented rx1) = req_q rx1).
    { unfold decremented. cbn. destruct (_ =? 0); reflexivity. }
    rewrite Eq, Hq1, (Nat.eqb_sym x y). lia.
  - auto.
  - split; [exact H1|].
    destruct (release_frame_fields c1 x) as (F1 & F2 & F3 & F4 & F5).
    unfold frame. auto 10.
Qed.

Lemma drain_ok tv r fuel : forall c,
  heap_inv tv (reqs c) -> (r < length (reqs c))%nat ->
  heap_inv tv (reqs (drain fuel c r)) /\ frame c (drain fuel c r).
Proof.
  induction fuel as [|fuel IH]; intros c Hinv Hr; simpl.
  - split; [exact Hinv | apply frame_refl].
  - destruct (lookup_lt_is_Some_2 _ _ Hr) as [rr Hrr].
    rewrite (get_req_some c r rr Hrr).
    destruct (last (req_q rr)) as [x|] eqn:Hl.
    + destruct (drain_iter c tv r x rr Hinv Hrr Hl) as [H1 H2].
      destruct (IH _ H1) as [H3 H4].
      { destruct H2 as (_ & _ & _ & _ & _ & [Hlen _]). lia. }
      split; [exact H3|]. eapply frame_trans; eassumption.
    + split; [exact Hinv | apply frame_refl].
Qed.

Lemma heap_inv_ext tv tv' heap :
  (forall j, tv' j = tv j) -> heap_inv tv heap -> heap_inv tv' heap.
Proof.
  intros He (Hok & Hq & Hv). split; [|split].
  - intros x r Hr. destruct (Hok x r Hr) as (A & B & C & D).
    unfold req_ok. rewrite He. auto.
  - exact Hq.
  - intros i x Hi Hx. rewrite He in Hx. auto.
Qed.

Lemma live_nonneg i heap : 0 <= live i heap.
Proof. apply sumZ_nonneg. intros r. destruct (_ && _); lia. Qed.

Lemma is_slot_cases i : is_slot i -> forall j, is_slot j -> i = j \/ i <> j.
Proof. intros _ j _. lia. Qed.

Lemma cps_slot w i : world_inv w -> is_slot i -> slot (cps w i) = i.
Proof. intros Hw [->| ->]; apply (inv_slots w Hw). Qed.

Lemma cps_distinct w i j :
  world_inv w -> is_slot i -> is_slot j -> i <> j ->
  (cp_id (cps w i) =? cp_id (cps w j)) = false.
Proof.
  intros Hw Hi Hj Hne. apply Z.eqb_neq. intros E.
  pose proof (cps_slot w i Hw Hi) as Si. pose proof (cps_slot w j Hw Hj) as Sj.
  unfold slot in *. rewrite E in Si. congruence.
Qed.

Lemma closed_not_current w cp i :
  world_inv w -> is_slot i -> cp ∈ closed w ->
  (cp_id (cps w i) =? cp_id cp) = false.
Proof.
  intros Hw Hi Hcp. destruct (inv_closed w Hw cp Hcp) as (_ & Hs & Hlt).
  apply Z.eqb_neq. intros E.
  pose proof (cps_slot w i Hw Hi) as Si.
  assert (slot cp = i) by (unfold slot in *; congruence).
  subst i. lia.
Qed.

Lemma future_not_current w cp i :
  world_inv w -> is_slot i -> is_slot (slot cp) ->
  cp_id (cps w (slot cp)) < cp_id cp ->
  (cp_id (cps w i) =? cp_id cp) = false.
Proof.
  intros Hw Hi Hs Hlt. apply Z.eqb_neq. intros E.
  pose proof (cps_slot w i Hw Hi) as Si.
  assert (slot cp = i) by (unfold slot in *; congruence).
  subst i. lia.
Qed.

(** A step that touches the requests alone, and no phase but between two
    flushing ones. *)
Lemma world_inv_frame w c' ph' :
  world_inv w ->
  frame (cache w) c' ->
  heap_inv (to_visit {| cache := c'; cps := cps w; closed := closed w;
                        phases := ph' |}) (reqs c') ->
  (forall j, flushing (ph' j) = flushing (phases w j) /\
             drained (ph' j) = drained (phases w j) /\
             (ph' j = Open -> phases w j = Open)) ->
  world_inv {| cache := c'; cps := cps w; closed := closed w; phases := ph' |}.
Proof.
  intros Hw (F1 & F2 & F3 & F4 & F5 & Hsh) Hheap Hph.
  assert (Hback : forall x r', reqs c' !! x = Some r' ->
            exists r, reqs (cache w) !! x = Some r /\ bcp r' = bcp r /\
                      bn r' = bn r /\ is_compl (state r') = is_compl (state r)).
  { intros x r' Hx. destruct Hsh as [Hlen Hp].
    assert (Hl : (x < length (reqs (cache w)))%nat)
      by (apply lookup_lt_Some in Hx; lia).
    apply lookup_lt_is_Some_2 in Hl as [r Hr].
    exists r. split; [exact Hr|]. apply (Hp x r r' Hr Hx). }
  assert (Hfwd : forall x r, reqs (cache w) !! x = Some r ->
            exists r', reqs c' !! x = Some r' /\ bcp r' = bcp r /\
                       bn r' = bn r /\ is_compl (state r') = is_compl (state r)).
  { intros x r Hx. destruct Hsh as [Hlen Hp].
    assert (Hl : (x < length (reqs c'))%nat)
      by (apply lookup_lt_Some in Hx; lia).
    apply lookup_lt_is_Some_2 in Hl as [r' Hr'].
    exists r'. split; [exact Hr'|]. apply (Hp x r r' Hx Hr'). }
  constructor; cbn [cache cps phases closed].
  - apply (inv_slots w Hw).
  - intros i Hi. destruct (Hph i) as (E1 & _ & _).
    rewrite F2, (same_shape_live _ _ i Hsh), E1. apply (inv_dirty w Hw i Hi).
  - exact Hheap.
  - intros x r' Hx Hnc. destruct (Hback x r' Hx) as (r & Hr & Hb & _ & Hc).
    rewrite Hb. apply (inv_cps w Hw x r Hr). congruence.
  - intros i x r' Hi Hop Hx Hsl Hnc.
    destruct (Hback x r' Hx) as (r & Hr & Hb & _ & Hc).
    rewrite F1. destruct (Hph i) as (_ & _ & E3).
    apply (inv_open w Hw i x r Hi (E3 Hop) Hr); congruence.
  - intros n i x Hi Hn. rewrite F3 in Hn.
    destruct (inv_node w Hw n i x Hi Hn) as (r & Hr & Hsl & Hnc & Hbn).
    destruct (Hfwd x r Hr) as (r' & Hr' & Hb & Hbn' & Hc). exists r'.
    repeat split; congruence.
  - intros i Hi. destruct (Hph i) as (_ & E2 & _).
    rewrite F5, (same_shape_live _ _ i Hsh), E2. apply (inv_fired w Hw i Hi).
  - intros cp Hcp. rewrite F5. apply (inv_closed w Hw cp Hcp).
  - intros cp Hs Hlt. rewrite F5. apply (inv_future w Hw cp Hs Hlt).
Qed.

Lemma world_inv_flush_begin w i :
  world_inv w -> is_slot i -> phases w i = Open ->
  world_inv {| cache := flush_begin (cache w) (cps w i);
               cps := cps w; closed := closed w;
               phases := upd (phases w) i
                           (Flushing (m_req_list (cache w) (slot (cps w i)))) |}.
Proof.
  intros Hw Hi Hop. pose proof (cps_slot w i Hw Hi) as Hs. rewrite Hs.
  unfold flush_begin. rewrite Hs.
  constructor; cbn [cache cps phases set_dirty_buf_cnt m_dirty_buf_cnt reqs
                    m_req_list nodes events].
  - apply (inv_slots w Hw).
  - intros j Hj. destruct (Z.eq_dec j i) as [->|Hne].
    + rewrite !upd_eq. rewrite (inv_dirty w Hw i Hi), Hop. simpl. lia.
    + rewrite !upd_ne by exact Hne. apply (inv_dirty w Hw j Hj).
  - apply heap_inv_ext with (tv := to_visit w); [|apply (inv_heap w Hw)].
    intros j. unfold to_visit; cbn [cache phases m_req_list set_dirty_buf_cnt].
    destruct (Z.eq_dec j i) as [->|Hne].
    + rewrite upd_eq, Hop. reflexivity.
    + rewrite upd_ne by exact Hne. reflexivity.
  - apply (inv_cps w Hw).
  - intros j x r Hj Hopj Hx Hsl Hnc. destruct (Z.eq_dec j i) as [->|Hne].
    + rewrite upd_eq in Hopj. discriminate.
    + rewrite upd_ne in Hopj by exact Hne. apply (inv_open w Hw j x r); assumption.
  - apply (inv_node w Hw).
  - intros j Hj. destruct (Z.eq_dec j i) as [->|Hne].
    + rewrite upd_eq. simpl. rewrite (inv_fired w Hw i Hi), Hop. reflexivity.
    + rewrite upd_ne by exact Hne. apply (inv_fired w Hw j Hj).
  - apply (inv_closed w Hw).
  - apply (inv_future w Hw).
Qed.

Lemma world_inv_flush_visit w i r rest :
  world_inv w -> is_slot i -> phases w i = Flushing (r :: rest) ->
  world_inv {| cache := flush_visit (cache w) r;
               cps := cps w; closed := closed w;
               phases := upd (phases w) i (Flushing rest) |}.
Proof.
  intros Hw Hi Hph.
  assert (Htv : to_visit w i = r :: rest) by (unfold to_visit; rewrite Hph; reflexivity).
  destruct (inv_heap w Hw) as (Hok & Hq & Hv).
  destruct (Hv i r Hi) as (rq & Hrq & Hsl).
  { rewrite Htv. apply elem_of_cons. left. reflexivity. }
  destruct (release_visit (cache w) (to_visit w) i r rest rq
              (inv_heap w Hw) Htv Hrq Hsl) as [H1 H2].
  apply world_inv_frame; try assumption.
  - apply heap_inv_ext with (tv := upd (to_visit w) i rest); [|exact H1].
    intros j. unfold to_visit; cbn [cache phases].
    destruct H2 as (F1 & _). unfold flush_visit. rewrite F1.
    destruct (Z.eq_dec j i) as [->|Hne].
    + rewrite !upd_eq. reflexivity.
    + rewrite !upd_ne by exact Hne. reflexivity.
  - intros j. destruct (Z.eq_dec j i) as [->|Hne].
    + rewrite upd_eq, Hph. simpl. repeat split. discriminate.
    + rewrite upd_ne by exact Hne. auto.
Qed.

Lemma world_inv_flush_end w i :
  world_inv w -> is_slot i -> phases w i = Flushing [] ->
  world_inv {| cache := flush_end (cache w) (cps w i);
               cps := cps w; closed := closed w;
               phases := upd (phases w) i Drained |}.
Proof.
  intros Hw Hi Hph. pose proof (cps_slot w i Hw Hi) as Hs.
  pose proof (inv_dirty w Hw i Hi) as Hd. rewrite Hph in Hd. simpl in Hd.
  pose proof (inv_fired w Hw i Hi) as Hf. rewrite Hph in Hf. simpl in Hf.
  assert (Hev : forall cp,
            cp_comp_count cp (events (flush_end (cache w) (cps w i)))
            = cp_comp_count cp (events (cache w))
              + (if (live i (reqs (cache w)) =? 0)
                    && (cp_id (cps w i) =? cp_id cp) then 1 else 0)).
  { intros cp. unfold flush_end. rewrite Hs.
    cbn [m_dirty_buf_cnt set_req_list set_dirty_buf_cnt]. rewrite Hd.
    replace (live i (reqs (cache w)) + 1 - 1) with (live i (reqs (cache w))) by lia.
    destruct (live i (reqs (cache w)) =? 0); cbn.
    - rewrite cp_comp_count_app. simpl. lia.
    - lia. }
  assert (Hfields : reqs (flush_end (cache w) (cps w i)) = reqs (cache w) /\
                    nodes (flush_end (cache w) (cps w i)) = nodes (cache w) /\
                    m_req_list (flush_end (cache w) (cps w i))
                    = upd (m_req_list (cache w)) i [] /\
                    m_dirty_buf_cnt (flush_end (cache w) (cps w i))
                    = upd (m_dirty_buf_cnt (cache w)) i (live i (reqs (cache w)))).
  { unfold flush_end. rewrite Hs.
    cbn [m_dirty_buf_cnt set_req_list set_dirty_buf_cnt]. rewrite Hd.
    replace (live i (reqs (cache w)) + 1 - 1) with (live i (reqs (cache w))) by lia.
    destruct (live i (reqs (cache w)) =? 0); cbn; auto. }
  destruct Hfields as (R1 & R2 & R3 & R4).
  constructor; cbn [cache cps phases closed]; rewrite ?R1, ?R2, ?R3, ?R4.
  - apply (inv_slots w Hw).
  - intros j Hj. destruct (Z.eq_dec j i) as [->|Hne].
    + rewrite !upd_eq. simpl. lia.
    + rewrite !upd_ne by exact Hne. apply (inv_dirty w Hw j Hj).
  - apply heap_inv_ext with (tv := to_visit w); [|apply (inv_heap w Hw)].
    intros j. unfold to_visit; cbn [cache phases]. rewrite R3.
    destruct (Z.eq_dec j i) as [->|Hne].
    + rewrite upd_eq, Hph. reflexivity.
    + rewrite !upd_ne by exact Hne. reflexivity.
  - apply (inv_cps w Hw).
  - intros j x r Hj Hopj Hx Hsl Hnc. destruct (Z.eq_dec j i) as [->|Hne].
    + rewrite upd_eq in Hopj. discriminate.
    + rewrite upd_ne in Hopj by exact Hne. rewrite upd_ne by exact Hne.
      apply (inv_open w Hw j x r); assumption.
  - apply (inv_node w Hw).
  - intros j Hj. rewrite Hev. destruct (Z.eq_dec j i) as [->|Hne].
    + rewrite upd_eq, Z.eqb_refl, Hf. simpl.
      destruct (live i (reqs (cache w)) =? 0); reflexivity.
    + rewrite upd_ne by exact Hne. rewrite (inv_fired w Hw j Hj).
      rewrite (cps_distinct w i j Hw Hi Hj) by congruence.
      rewrite andb_false_r. lia.
  - intros cp Hcp. rewrite Hev, (closed_not_current w cp i Hw Hi Hcp), andb_false_r.
    rewrite Z.add_0_r. apply (inv_closed w Hw cp Hcp).
  - intros cp Hsl Hlt.
    rewrite Hev, (future_not_current w cp i Hw Hi Hsl Hlt), andb_false_r.
    rewrite Z.add_0_r. apply (inv_future w Hw cp Hsl Hlt).
Qed.

Lemma heap_inv_set_compl tv heap r rr :
  heap_inv tv heap -> heap !! r = Some rr -> dependent_cnt rr = 0 ->
  heap_inv tv (<[r := with_state rr WB_REQ_COMPL]> heap).
Proof.
  intros (Hok & Hq & Hv) Hr Hc.
  assert (Hl : (r < length heap)%nat) by (apply lookup_lt_Some in Hr; exact Hr).
  assert (Hocc : forall y, occ y (<[r := with_state rr WB_REQ_COMPL]> heap) = occ y heap).
  { intros y. rewrite (occ_insert y heap r rr _ Hr).
    change (req_q (with_state rr WB_REQ_COMPL)) with (req_q rr). lia. }
  split; [|split].
  - intros y r' Hy. destruct (Nat.eq_dec y r) as [->|Hne].
    + rewrite list_lookup_insert_eq in Hy by exact Hl. injection Hy as <-.
      destruct (Hok r rr Hr) as (A & B & C & D).
      unfold req_ok. cbn. rewrite Hocc. split; [exact A|]. split; [exact B|].
      split; [|discriminate]. rewrite Hc. split; [discriminate | lia].
    + rewrite list_lookup_insert_ne in Hy by congruence.
      destruct (Hok y r' Hy) as (A & B & C & D).
      unfold req_ok. rewrite Hocc. auto.
  - intros q rq z Hq' Hz. rewrite length_insert.
    destruct (Nat.eq_dec q r) as [->|Hne].
    + rewrite list_lookup_insert_eq in Hq' by exact Hl. injection Hq' as <-.
      cbn in Hz. eapply Hq; eassumption.
    + rewrite list_lookup_insert_ne in Hq' by congruence. eapply Hq; eassumption.
  - intros i z Hi Hz. destruct (Hv i z Hi Hz) as (r0 & Hr0 & Hs0).
    destruct (Nat.eq_dec z r) as [->|Hne].
    + exists (with_state rr WB_REQ_COMPL).
      rewrite list_lookup_insert_eq by exact Hl. split; [reflexivity|].
      cbn. congruence.
    + exists r0. rewrite list_lookup_insert_ne by congruence. auto.
Qed.

Lemma live_set_compl i heap r rr :
  heap !! r = Some rr -> is_compl (state rr) = false ->
  live i (<[r := with_state rr WB_REQ_COMPL]> heap)
  = live i heap - (if slot (bcp rr) =? i then 1 else 0).
Proof.
  intros Hr Hs. unfold live. rewrite (sumZ_insert _ heap r rr _ Hr). cbn.
  rewrite Hs, andb_false_r, andb_true_r. lia.
Qed.

Lemma world_inv_completion w r :
  world_inv w ->
  (r < length (reqs (cache w)))%nat ->
  state (get_req (cache w) r) = WB_REQ_SENT ->
  world_inv {| cache := writeBack_completion_internal (cache w) r;
               cps := cps w; closed := closed w; phases := phases w |}.
Proof.
  intros Hw Hlt Hst.
  destruct (lookup_lt_is_Some_2 _ _ Hlt) as [rr Hrr].
  rewrite (get_req_some _ r rr Hrr) in Hst.
  pose proof (inv_heap w Hw) as Hheap.
  destruct Hheap as (Hok & Hq & Hv).
  destruct (Hok r rr Hrr) as (Hsl & Hcnt & Hwait & Hni).
  set (i := slot (bcp rr)) in *.
  pose proof (countZ_nonneg r (to_visit w i)) as Hc1.
  pose proof (occ_nonneg r (reqs (cache w))) as Hc2.
  assert (Hzero : dependent_cnt rr = 0).
  { destruct (Z.lt_trichotomy 0 (dependent_cnt rr)) as [H|[H|H]]; [|lia|lia].
    apply Hwait in H. congruence. }
  assert (Hncompl : is_compl (state rr) = false) by (rewrite Hst; reflexivity).
  assert (Hnopen : phases w i <> Open).
  { intros Hop.
    pose proof (inv_open w Hw i r rr Hsl Hop Hrr eq_refl Hncompl) as Hin.
    assert (Htv : to_visit w i = m_req_list (cache w) i)
      by (unfold to_visit; rewrite Hop; reflexivity).
    rewrite <- Htv in Hin. apply countZ_in in Hin. lia. }
  set (c1 := set_req (cache w) r (with_state rr WB_REQ_COMPL)).
  assert (H1 : heap_inv (to_visit w) (reqs c1)).
  { apply heap_inv_set_compl; [exact (inv_heap w Hw) | exact Hrr | exact Hzero]. }
  assert (Hl1 : (r < length (reqs c1))%nat) by (cbn; rewrite length_insert; exact Hlt).
  destruct (drain_ok (to_visit w) r (length (req_q (get_req c1 r))) c1 H1 Hl1)
    as [H2 (F1 & F2 & F3 & F4 & F5 & Hsh)].
  set (c2 := drain (length (req_q (get_req c1 r))) c1 r) in *.
  assert (H1r : reqs c1 !! r = Some (with_state rr WB_REQ_COMPL))
    by (cbn; apply list_lookup_insert_eq; exact Hlt).
  destruct (lookup_lt_is_Some_2 (reqs c2) r) as [r2 Hr2].
  { destruct Hsh as [Hlen _]. lia. }
  destruct (proj2 Hsh r _ r2 H1r Hr2) as (Hb2 & Hbn2 & _). cbn in Hb2, Hbn2.
  assert (Hlive : forall j, live j (reqs c2)
            = live j (reqs (cache w)) - (if i =? j then 1 else 0)).
  { intros j. rewrite (same_shape_live _ _ j Hsh). cbn.
    apply live_set_compl; assumption. }
  assert (Hback : forall x r', reqs c2 !! x = Some r' ->
            is_compl (state r') = false ->
            x <> r /\
            exists r0, reqs (cache w) !! x = Some r0 /\ bcp r' = bcp r0 /\
                       bn r' = bn r0 /\ is_compl (state r0) = false).
  { intros x r' Hx Hnc. destruct Hsh as [Hlen Hp].
    assert (Hx1 : (x < length (reqs c1))%nat) by (apply lookup_lt_Some in Hx; lia).
    apply lookup_lt_is_Some_2 in Hx1 as [r1 Hr1].
    destruct (Hp x r1 r' Hr1 Hx) as (Hb & Hbn & Hc).
    destruct (Nat.eq_dec x r) as [->|Hne].
    - rewrite H1r in Hr1. injection Hr1 as <-. cbn in Hc. congruence.
    - split; [exact Hne|]. exists r1. cbn in Hr1.
      rewrite list_lookup_insert_ne in Hr1 by congruence.
      repeat split; try assumption. congruence. }
  assert (Hfwd : forall x r0, reqs (cache w) !! x = Some r0 -> x <> r ->
            exists r', reqs c2 !! x = Some r' /\ bcp r' = bcp r0 /\
                       bn r' = bn r0 /\
                       is_compl (state r') = is_compl (state r0)).
  { intros x r0 Hx Hne. destruct Hsh as [Hlen Hp].
    assert (Hx1 : reqs c1 !! x = Some r0).
    { cbn. rewrite list_lookup_insert_ne by congruence. exact Hx. }
    assert (Hx2 : (x < length (reqs c2))%nat).
    { apply lookup_lt_Some in Hx1. lia. }
    apply lookup_lt_is_Some_2 in Hx2 as [r' Hr'].
    exists r'. split; [exact Hr'|]. apply (Hp x r0 r' Hx1 Hr'). }
  pose proof (inv_dirty w Hw i Hsl) as Hd.
  pose proof (inv_cps w Hw r rr Hrr Hncompl) as Hcp. fold i in Hcp.
  set (n := m_dirty_buf_cnt (cache w) i - 1).
  assert (Hn : n = live i (reqs c2) + flushing (phases w i)).
  { unfold n. rewrite Hd, Hlive, Z.eqb_refl. lia. }
  assert (Hres : exists c',
            writeBack_completion_internal (cache w) r = c' /\
            reqs c' = reqs c2 /\
            m_req_list c' = m_req_list (cache w) /\
            m_dirty_buf_cnt c' = upd (m_dirty_buf_cnt (cache w)) i n /\
            nodes c'
            = upd (nodes (cache w)) (bn rr)
                {| node_bcp := node_bcp (nodes (cache w) (bn rr));
                   req := upd (req (nodes (cache w) (bn rr))) i None;
                   memvec := memvec (nodes (cache w) (bn rr)) |} /\
            forall cp, cp_comp_count cp (events c')
              = cp_comp_count cp (events (cache w))
                + (if (n =? 0) && (cp_id (bcp rr) =? cp_id cp) then 1 else 0)).
  { eexists. split; [reflexivity|].
    unfold writeBack_completion_internal.
    rewrite (get_req_some _ r rr Hrr). fold i. fold c1. fold c2.
    rewrite (get_req_some c2 r r2 Hr2). rewrite Hbn2.
    cbn [m_dirty_buf_cnt set_nodes set_dirty_buf_cnt nodes].
    rewrite F2, F3. cbn [c1 set_req set_reqs m_dirty_buf_cnt nodes].
    fold n.
    destruct (n =? 0); cbn [reqs m_req_list m_dirty_buf_cnt nodes events emit
                             set_dirty_buf_cnt set_nodes].
    - rewrite F1. repeat split; try reflexivity.
      intros cp. rewrite cp_comp_count_app, F5. cbn.
      unfold get_req. cbn. rewrite Hr2. cbn. rewrite Hb2. lia.
    - rewrite F1. repeat split; try reflexivity.
      intros cp. rewrite F5. cbn. lia. }
  destruct Hres as (c' & -> & R1 & R2 & R3 & R4 & R5).
  constructor; cbn [cache cps phases closed]; rewrite ?R1, ?R2, ?R3, ?R4.
  - apply (inv_slots w Hw).
  - intros j Hj. destruct (Z.eq_dec j i) as [->|Hne].
    + rewrite upd_eq. exact Hn.
    + rewrite upd_ne by exact Hne. rewrite Hlive.
      destruct (Z.eqb_spec i j); [congruence|].
      rewrite (inv_dirty w Hw j Hj). lia.
  - apply heap_inv_ext with (tv := to_visit w); [|exact H2].
    intros j. unfold to_visit; cbn [cache phases]. rewrite R2. reflexivity.
  - intros x r' Hx Hnc.
    destruct (Hback x r' Hx Hnc) as (_ & r0 & Hr0 & Hb & _ & Hc0).
    rewrite Hb. apply (inv_cps w Hw x r0 Hr0 Hc0).
  - intros j x r' Hj Hop Hx Hs Hnc.
    destruct (Hback x r' Hx Hnc) as (_ & r0 & Hr0 & Hb & _ & Hc0).
    apply (inv_open w Hw j x r0 Hj Hop Hr0); congruence.
  - intros nd j x Hj Hnd.
    assert (Hold : req (nodes (cache w) nd) j = Some x /\ (nd <> bn rr \/ j <> i)).
    { destruct (Z.eq_dec nd (bn rr)) as [->|Hne].
      - rewrite upd_eq in Hnd. cbn in Hnd.
        destruct (Z.eq_dec j i) as [->|Hji].
        + rewrite upd_eq in Hnd. discriminate.
        + rewrite upd_ne in Hnd by exact Hji. auto.
      - rewrite upd_ne in Hnd by exact Hne. auto. }
    destruct Hold as [Hold Hdiff].
    destruct (inv_node w Hw nd j x Hj Hold) as (r0 & Hr0 & Hs0 & Hc0 & Hbn0).
    assert (Hxr : x <> r).
    { intros ->. rewrite Hrr in Hr0. injection Hr0 as <-.
      destruct Hdiff as [Hd1|Hd2]; [congruence|]. apply Hd2. symmetry. exact Hs0. }
    destruct (Hfwd x r0 Hr0 Hxr) as (r' & Hr' & Hb & Hbn' & Hc').
    exists r'. repeat split; congruence.
  - intros j Hj. rewrite R5, (inv_fired w Hw j Hj), Hlive.
    destruct (Z.eq_dec j i) as [->|Hne].
    + rewrite Z.eqb_refl, Hcp, Z.eqb_refl, andb_true_r.
      pose proof (live_nonneg i (reqs c2)) as Hnn.
      rewrite Hlive, Z.eqb_refl in Hnn.
      destruct (phases w i) eqn:Hp; [contradiction| |]; simpl.
      * simpl in Hn. destruct (Z.eqb_spec n 0); [|reflexivity].
        rewrite Hlive, Z.eqb_refl in Hn. lia.
      * simpl in Hn. rewrite Hlive, Z.eqb_refl in Hn.
        destruct (Z.eqb_spec (live i (reqs (cache w))) 0); [lia|].
        destruct (Z.eqb_spec n 0), (Z.eqb_spec (live i (reqs (cache w)) - 1) 0);
          lia.
    + destruct (Z.eqb_spec i j); [congruence|].
      rewrite Hcp, (cps_distinct w i j Hw Hsl Hj) by congruence.
      rewrite andb_false_r, Z.sub_0_r. lia.
  - intros cp Hcp'. rewrite R5, Hcp.
    rewrite (closed_not_current w cp i Hw Hsl Hcp'), andb_false_r, Z.add_0_r.
    apply (inv_closed w Hw cp Hcp').
  - intros cp Hs' Hlt'. rewrite R5, Hcp.
    rewrite (future_not_current w cp i Hw Hsl Hs' Hlt'), andb_false_r, Z.add_0_r.
    apply (inv_future w Hw cp Hs' Hlt').
Qed.

Lemma completion_effect w r :
  world_inv w ->
  (r < length (reqs (cache w)))%nat ->
  state (get_req (cache w) r) = WB_REQ_SENT ->
  let c' := writeBack_completion_internal (cache w) r in
  let cp := bcp (get_req (cache w) r) in
  cp = cps w (slot cp) /\
  is_slot (slot cp) /\
  state (get_req c' r) = WB_REQ_COMPL /\
  live (slot cp) (reqs c') = live (slot cp) (reqs (cache w)) - 1 /\
  m_dirty_buf_cnt c' (slot cp) = m_dirty_buf_cnt (cache w) (slot cp) - 1 /\
  (forall j, j <> slot cp -> m_dirty_buf_cnt c' j = m_dirty_buf_cnt (cache w) j) /\
  cp_comp_count cp (events c')
  = cp_comp_count cp (events (cache w))
    + (if m_dirty_buf_cnt c' (slot cp) =? 0 then 1 else 0).
Proof.
  intros Hw Hlt Hst. cbv zeta.
  destruct (lookup_lt_is_Some_2 _ _ Hlt) as [rr Hrr].
  rewrite (get_req_some _ r rr Hrr) in Hst.
  rewrite (get_req_some (cache w) r rr Hrr).
  pose proof (inv_heap w Hw) as Hheap.
  destruct Hheap as (Hok & Hq & Hv).
  destruct (Hok r rr Hrr) as (Hsl & Hcnt & Hwait & Hni).
  set (i := slot (bcp rr)) in *.
  pose proof (countZ_nonneg r (to_visit w i)) as Hc1.
  pose proof (occ_nonneg r (reqs (cache w))) as Hc2.
  assert (Hzero : dependent_cnt rr = 0).
  { destruct (Z.lt_trichotomy 0 (dependent_cnt rr)) as [H|[H|H]]; [|lia|lia].
    apply Hwait in H. congruence. }
  assert (Hncompl : is_compl (state rr) = false) by (rewrite Hst; reflexivity).
  assert (Hnopen : phases w i <> Open).
  { intros Hop.
    pose proof (inv_open w Hw i r rr Hsl Hop Hrr eq_refl Hncompl) as Hin.
    assert (Htv : to_visit w i = m_req_list (cache w) i)
      by (unfold to_visit; rewrite Hop; reflexivity).
    rewrite <- Htv in Hin. apply countZ_in in Hin. lia. }
  set (c1 := set_req (cache w) r (with_state rr WB_REQ_COMPL)).
  assert (H1 : heap_inv (to_visit w) (reqs c1)).
  { apply heap_inv_set_compl; [exact (inv_heap w Hw) | exact Hrr | exact Hzero]. }
  assert (Hl1 : (r < length (reqs c1))%nat) by (cbn; rewrite length_insert; exact Hlt).
  destruct (drain_ok (to_visit w) r (length (req_q (get_req c1 r))) c1 H1 Hl1)
    as [H2 (F1 & F2 & F3 & F4 & F5 & Hsh)].
  set (c2 := drain (length (req_q (get_req c1 r))) c1 r) in *.
  assert (H1r : reqs c1 !! r = Some (with_state rr WB_REQ_COMPL))
    by (cbn; apply list_lookup_insert_eq; exact Hlt).
  destruct (lookup_lt_is_Some_2 (reqs c2) r) as [r2 Hr2].
  { destruct Hsh as [Hlen _]. lia. }
  destruct (proj2 Hsh r _ r2 H1r Hr2) as (Hb2 & Hbn2 & _). cbn in Hb2, Hbn2.
  assert (Hlive : forall j, live j (reqs c2)
            = live j (reqs (cache w)) - (if i =? j then 1 else 0)).
  { intros j. rewrite (same_shape_live _ _ j Hsh). cbn.
    apply live_set_compl; assumption. }
  assert (Hback : forall x r', reqs c2 !! x = Some r' ->
            is_compl (state r') = false ->
            x <> r /\
            exists r0, reqs (cache w) !! x = Some r0 /\ bcp r' = bcp r0 /\
                       bn r' = bn r0 /\ is_compl (state r0) = false).
  { intros x r' Hx Hnc. destruct Hsh as [Hlen Hp].
    assert (Hx1 : (x < length (reqs c1))%nat) by (apply lookup_lt_Some in Hx; lia).
    apply lookup_lt_is_Some_2 in Hx1 as [r1 Hr1].
    destruct (Hp x r1 r' Hr1 Hx) as (Hb & Hbn & Hc).
    destruct (Nat.eq_dec x r) as [->|Hne].
    - rewrite H1r in Hr1. injection Hr1 as <-. cbn in Hc. congruence.
    - split; [exact Hne|]. exists r1. cbn in Hr1.
      rewrite list_lookup_insert_ne in Hr1 by congruence.
      repeat split; try assumption. congruence. }
  assert (Hfwd : forall x r0, reqs (cache w) !! x = Some r0 -> x <> r ->
            exists r', reqs c2 !! x = Some r' /\ bcp r' = bcp r0 /\
                       bn r' = bn r0 /\
                       is_compl (state r') = is_compl (state r0)).
  { intros x r0 Hx Hne. destruct Hsh as [Hlen Hp].
    assert (Hx1 : reqs c1 !! x = Some r0).
    { cbn. rewrite list_lookup_insert_ne by congruence. exact Hx. }
    assert (Hx2 : (x < length (reqs c2))%nat).
    { apply lookup_lt_Some in Hx1. lia. }
    apply lookup_lt_is_Some_2 in Hx2 as [r' Hr'].
    exists r'. split; [exact Hr'|]. apply (Hp x r0 r' Hx1 Hr'). }
  pose proof (inv_dirty w Hw i Hsl) as Hd.
  pose proof (inv_cps w Hw r rr Hrr Hncompl) as Hcp. fold i in Hcp.
  set (n := m_dirty_buf_cnt (cache w) i - 1).
  assert (Hn : n = live i (reqs c2) + flushing (phases w i)).
  { unfold n. rewrite Hd, Hlive, Z.eqb_refl. lia. }
  assert (Hres : exists c',
            writeBack_completion_internal (cache w) r = c' /\
            reqs c' = reqs c2 /\
            m_req_list c' = m_req_list (cache w) /\
            m_dirty_buf_cnt c' = upd (m_dirty_buf_cnt (cache w)) i n /\
            nodes c'
            = upd (nodes (cache w)) (bn rr)
                {| node_bcp := node_bcp (nodes (cache w) (bn rr));
                   req := upd (req (nodes (cache w) (bn rr))) i None;
                   memvec := memvec (nodes (cache w) (bn rr)) |} /\
            forall cp, cp_comp_count cp (events c')
              = cp_comp_count cp (events (cache w))
                + (if (n =? 0) && (cp_id (bcp rr) =? cp_id cp) then 1 else 0)).
  { eexists. split; [reflexivity|].
    unfold writeBack_completion_internal.
    rewrite (get_req_some _ r rr Hrr). fold i. fold c1. fold c2.
    rewrite (get_req_some c2 r r2 Hr2). rewrite Hbn2.
    cbn [m_dirty_buf_cnt set_nodes set_dirty_buf_cnt nodes].
    rewrite F2, F3. cbn [c1 set_req set_reqs m_dirty_buf_cnt nodes].
    fold n.
    destruct (n =? 0); cbn [reqs m_req_list m_dirty_buf_cnt nodes events emit
                             set_dirty_buf_cnt set_nodes].
    - rewrite F1. repeat split; try reflexivity.
      intros cp. rewrite cp_comp_count_app, F5. cbn.
      unfold get_req. cbn. rewrite Hr2. cbn. rewrite Hb2. lia.
    - rewrite F1. repeat split; try reflexivity.
      intros cp. rewrite F5. cbn. lia. }
  destruct Hres as (c' & -> & R1 & R2 & R3 & R4 & R5).
  fold i. rewrite R3, R5, upd_eq, Z.eqb_refl, andb_true_r.
  split; [exact Hcp|]. split; [exact Hsl|].
  split.
  { unfold get_req. rewrite R1, Hr2. cbn.
    destruct Hsh as [_ Hp]. destruct (Hp r _ r2 H1r Hr2) as (_ & _ & Hc).
    cbn in Hc. destruct (state r2); try discriminate. reflexivity. }
  split; [rewrite R1, Hlive, Z.eqb_refl; reflexivity|].
  split; [reflexivity|].
  split; [intros j Hj; apply upd_ne; exact Hj|].
  reflexivity.
Qed.


Lemma heap_inv_inc tv heap heap' x delta :
  0 <= delta ->
  heap_inv tv heap ->
  length heap' = length heap ->
  (forall y r r', heap !! y = Some r -> heap' !! y = Some r' ->
     bcp r' = bcp r /\ bn r' = bn r /\ state r' = state r /\
     (forall z, z ∈ req_q r' -> (z < length heap)%nat) /\
     dependent_cnt r' = dependent_cnt r + (if Nat.eqb y x then delta else 0)) ->
  (forall y, occ y heap' = occ y heap + (if Nat.eqb y x then delta else 0)) ->
  (forall r, heap !! x = Some r -> 0 < delta -> 0 < dependent_cnt r) ->
  heap_inv tv heap' /\ same_shape heap heap'.
Proof.
  intros Hd (Hok & Hq & Hv) Hlen Hrel Hocc Hpos.
  assert (Hback : forall y r', heap' !! y = Some r' -> exists r, heap !! y = Some r).
  { intros y r' Hy. apply lookup_lt_Some in Hy. rewrite Hlen in Hy.
    apply lookup_lt_is_Some_2 in Hy. exact Hy. }
  split; [split; [|split]|].
  - intros y r' Hy. destruct (Hback y r' Hy) as [r Hr].
    destruct (Hok y r Hr) as (Hs & Hc & Hst & Hni).
    destruct (Hrel y r r' Hr Hy) as (Hb & _ & Hs' & _ & Hc').
    unfold req_ok. rewrite Hb, Hs', Hc', Hocc.
    split; [exact Hs|]. split; [lia|]. split; [|exact Hni].
    destruct (Nat.eqb_spec y x) as [->|Hne]; [|rewrite Z.add_0_r; exact Hst].
    destruct (Z.eq_dec delta 0) as [->|Hdz]; [rewrite Z.add_0_r; exact Hst|].
    specialize (Hpos r Hr ltac:(lia)). rewrite Hst. lia.
  - intros q rq' z Hq' Hz. destruct (Hback q rq' Hq') as [rq Hrq].
    destruct (Hrel q rq rq' Hrq Hq') as (_ & _ & _ & Hsub & _).
    rewrite Hlen. apply Hsub. exact Hz.
  - intros i z Hi Hz. destruct (Hv i z Hi Hz) as (r & Hr & Hsl).
    assert (Hz' : (z < length heap')%nat).
    { apply lookup_lt_Some in Hr. lia. }
    apply lookup_lt_is_Some_2 in Hz' as [r' Hr'].
    exists r'. split; [exact Hr'|].
    destruct (Hrel z r r' Hr Hr') as (Hb & _). rewrite Hb. exact Hsl.
  - split; [exact Hlen|]. intros y r r' Hr Hy.
    destruct (Hrel y r r' Hr Hy) as (Hb & Hbn & Hs' & _).
    rewrite Hs'. auto.
Qed.

Lemma world_inv_update_mem w r bn' :
  world_inv w -> (r < length (reqs (cache w)))%nat ->
  world_inv {| cache := update_mem (cache w) r bn'; cps := cps w; closed := closed w; phases := phases w |}.
Proof.
  intros Hw Hr. unfold update_mem.
  destruct (negb _); [|destruct w; exact Hw].
  destruct (lookup_lt_is_Some_2 _ _ Hr) as [rr Hrr].
  rewrite (get_req_some _ r rr Hrr).
  destruct (heap_inv_inc (to_visit w) (reqs (cache w))
              (<[r := with_mem rr (memvec (nodes (cache w) bn'))]> (reqs (cache w)))
              r 0) as [H1 H2].
  - lia.
  - apply (inv_heap w Hw).
  - apply length_insert.
  - intros y r0 r0' H0 H0'.
    destruct (Nat.eq_dec y r) as [->|Hne].
    + rewrite list_lookup_insert_eq in H0' by exact Hr. injection H0' as <-.
      rewrite Hrr in H0. injection H0 as <-. cbn.
      destruct (inv_heap w Hw) as (_ & Hq & _).
      repeat split; try reflexivity.
      * intros z Hz. eapply Hq; eassumption.
      * destruct (Nat.eqb r r); lia.
    + rewrite list_lookup_insert_ne in H0' by congruence.
      rewrite H0 in H0'. injection H0' as <-.
      destruct (inv_heap w Hw) as (_ & Hq & _).
      repeat split; try reflexivity.
      * intros z Hz. eapply Hq; eassumption.
      * destruct (Nat.eqb y r); lia.
  - intros y. rewrite (occ_insert y _ r rr _ Hrr).
    change (req_q (with_mem rr (memvec (nodes (cache w) bn')))) with (req_q rr).
    destruct (Nat.eqb y r); lia.
  - intros r0 _ H. lia.
  - apply world_inv_frame; [exact Hw | | | intros j; auto].
    + unfold frame, set_req. cbn. auto 10.
    + apply heap_inv_ext with (tv := to_visit w); [|exact H1]. intros j. reflexivity.
Qed.

Lemma world_inv_add_dependency w i d wb rd rwb :
  world_inv w -> is_slot i -> phases w i = Open ->
  reqs (cache w) !! d = Some rd ->
  reqs (cache w) !! wb = Some rwb -> slot (bcp rwb) = i ->
  is_compl (state rwb) = false ->
  world_inv {| cache := add_dependency (cache w) d wb;
               cps := cps w; closed := closed w; phases := phases w |}.
Proof.
  intros Hw Hi Hop Hd Hwb Hsl Hnc.
  assert (Hdl : (d < length (reqs (cache w)))%nat) by (apply lookup_lt_Some in Hd; exact Hd).
  assert (Hwl : (wb < length (reqs (cache w)))%nat) by (apply lookup_lt_Some in Hwb; exact Hwb).
  destruct (inv_heap w Hw) as (Hok & Hq & Hv).
  set (rd' := with_req_q rd (req_q rd ++ [wb])).
  set (heap2 := <[d := rd']> (reqs (cache w))).
  assert (Hl2 : length heap2 = length (reqs (cache w))) by apply length_insert.
  destruct (lookup_lt_is_Some_2 heap2 wb) as [r2 Hr2]; [lia|].
  assert (Hreqs : reqs (add_dependency (cache w) d wb)
                  = <[wb := with_dependent_cnt r2 (dependent_cnt r2 + 1)]> heap2).
  { unfold add_dependency. rewrite (get_req_some _ d rd Hd).
    assert (Hg : get_req (set_req (cache w) d rd') wb = r2)
      by (apply get_req_some; exact Hr2).
    fold rd'. rewrite Hg. reflexivity. }
  assert (Hr2' : bcp r2 = bcp rwb /\ bn r2 = bn rwb /\ state r2 = state rwb /\
                 dependent_cnt r2 = dependent_cnt rwb /\
                 (forall z, z ∈ req_q r2 -> (z < length (reqs (cache w)))%nat)).
  { unfold heap2 in Hr2. destruct (Nat.eq_dec d wb) as [->|Hne].
    - rewrite list_lookup_insert_eq in Hr2 by exact Hdl. injection Hr2 as <-.
      rewrite Hd in Hwb. injection Hwb as <-. cbn. repeat split.
      intros z Hz. apply elem_of_app in Hz as [Hz|Hz].
      + eapply Hq; eassumption.
      + apply list_elem_of_singleton in Hz. subst z. exact Hwl.
    - rewrite list_lookup_insert_ne in Hr2 by exact Hne.
      rewrite Hwb in Hr2. injection Hr2 as <-. repeat split.
      intros z Hz. eapply Hq; eassumption. }
  destruct Hr2' as (B1 & B2 & B3 & B4 & B5).
  destruct (heap_inv_inc (to_visit w) (reqs (cache w))
              (reqs (add_dependency (cache w) d wb)) wb 1) as [H1 H2].
  - lia.
  - apply (inv_heap w Hw).
  - rewrite Hreqs, length_insert. exact Hl2.
  - intros y r0 r0' H0 H0'. rewrite Hreqs in H0'.
    destruct (Nat.eqb_spec y wb) as [->|Hne].
    + rewrite list_lookup_insert_eq in H0' by lia. injection H0' as <-.
      rewrite Hwb in H0. injection H0 as <-. cbn.
      repeat split; try assumption. lia.
    + rewrite list_lookup_insert_ne in H0' by congruence. unfold heap2 in H0'.
      destruct (Nat.eq_dec y d) as [->|Hyd].
      * rewrite list_lookup_insert_eq in H0' by exact Hdl. injection H0' as <-.
        assert (r0 = rd) by congruence. subst r0.
        cbn. repeat split; try lia.
        intros z Hz. apply elem_of_app in Hz as [Hz|Hz].
        -- exact (Hq d rd z Hd Hz).
        -- apply list_elem_of_singleton in Hz. subst z. exact Hwl.
      * rewrite list_lookup_insert_ne in H0' by congruence.
        rewrite H0 in H0'. injection H0' as <-. repeat split; try lia.
        intros z Hz. exact (Hq y r0 z H0 Hz).
  - intros y. rewrite Hreqs, (occ_insert y _ wb r2 _ Hr2).
    change (req_q (with_dependent_cnt r2 (dependent_cnt r2 + 1))) with (req_q r2).
    unfold heap2. rewrite (occ_insert y _ d rd _ Hd).
    change (req_q rd') with (req_q rd ++ [wb]).
    rewrite countZ_app, countZ_cons. change (countZ y []) with 0.
    rewrite (Nat.eqb_sym wb y). lia.
  - intros r0 H0 _. rewrite Hwb in H0. injection H0 as <-.
    destruct (Hok wb rwb Hwb) as (_ & Hc & _).
    pose proof (inv_open w Hw i wb rwb Hi Hop Hwb Hsl Hnc) as Hin.
    assert (Htv : to_visit w i = m_req_list (cache w) i)
      by (unfold to_visit; rewrite Hop; reflexivity).
    rewrite <- Htv in Hin. apply countZ_in in Hin.
    pose proof (occ_nonneg wb (reqs (cache w))). rewrite Hsl in Hc. lia.
  - apply world_inv_frame; [exact Hw | | | intros j; auto].
    + unfold frame, add_dependency, set_req. cbn. auto 10.
    + apply heap_inv_ext with (tv := to_visit w); [|exact H1]. intros j. reflexivity.
Qed.

Lemma occ_zero x heap :
  (forall rq, rq ∈ heap -> x ∉ req_q rq) -> occ x heap = 0.
Proof.
  induction heap as [|r heap IH]; intros H; [reflexivity|].
  unfold occ in *. simpl. rewrite IH.
  - rewrite countZ_not_in; [lia|]. apply H. apply elem_of_cons. left. reflexivity.
  - intros rq Hrq. apply H. apply elem_of_cons. right. exact Hrq.
Qed.

Lemma lookup_snoc_cases {A} (l : list A) a y b :
  (l ++ [a]) !! y = Some b ->
  (l !! y = Some b /\ (y < length l)%nat) \/ (y = length l /\ b = a).
Proof.
  intros H. destruct (decide (y < length l)%nat) as [Hlt|Hge].
  - rewrite lookup_app_l in H by exact Hlt. left. auto.
  - pose proof (lookup_lt_Some _ _ _ H) as Hl. rewrite length_app in Hl. simpl in Hl.
    assert (y = length l) by lia. subst y.
    rewrite lookup_app_r, Nat.sub_diag in H by lia. injection H as <-. right. auto.
Qed.

Lemma heap_inv_create tv heap i bn' bcp' mem' :
  heap_inv tv heap -> is_slot i -> slot bcp' = i ->
  heap_inv (upd tv i (tv i ++ [length heap]))
    (heap ++ [{| state := WB_REQ_WAITING; bid := bn'; bcp := bcp'; bn := bn';
                 req_q := []; dependent_cnt := 1; m_mem := mem' |}]).
Proof.
  intros (Hok & Hq & Hv) Hi Hs.
  set (new := {| state := WB_REQ_WAITING; bid := bn'; bcp := bcp'; bn := bn';
                 req_q := []; dependent_cnt := 1; m_mem := mem' |}).
  assert (Hocc : forall y, occ y (heap ++ [new]) = occ y heap).
  { intros y. unfold occ. rewrite sumZ_app. simpl.
    change (countZ y []) with 0. lia. }
  assert (Hfresh_tv : forall j, is_slot j -> countZ (length heap) (tv j) = 0).
  { intros j Hj. apply countZ_not_in. intros Hin.
    destruct (Hv j _ Hj Hin) as (r & Hr & _). apply lookup_lt_Some in Hr. lia. }
  assert (Hfresh_q : occ (length heap) heap = 0).
  { apply occ_zero. intros rq Hrq Hin.
    apply list_elem_of_lookup_1 in Hrq as [q Hq'].
    pose proof (Hq q rq _ Hq' Hin). lia. }
  assert (Htv : forall y j, (y < length heap)%nat ->
            countZ y (upd tv i (tv i ++ [length heap]) j) = countZ y (tv j)).
  { intros y j Hy. destruct (Z.eq_dec j i) as [->|Hne].
    - rewrite upd_eq, countZ_app, countZ_cons. change (countZ y []) with 0.
      destruct (Nat.eqb_spec (length heap) y); lia.
    - rewrite upd_ne by exact Hne. reflexivity. }
  split; [|split].
  - intros y r' Hy. apply lookup_snoc_cases in Hy as [[Hy Hlt]|[-> ->]].
    + destruct (Hok y r' Hy) as (A & B & C & D).
      unfold req_ok. rewrite Hocc, Htv by exact Hlt. auto.
    + unfold req_ok. cbn. rewrite Hs, upd_eq, countZ_app, countZ_cons, Hocc.
      rewrite (Hfresh_tv i Hi), Hfresh_q, Nat.eqb_refl.
      change (countZ (length heap) []) with 0.
      split; [exact Hi|]. split; [lia|]. split; [|discriminate].
      split; [lia | reflexivity].
  - intros q rq z Hq' Hz. rewrite length_app. simpl.
    apply lookup_snoc_cases in Hq' as [[Hq' _]|[_ ->]].
    + pose proof (Hq q rq z Hq' Hz). lia.
    + cbn in Hz. inversion Hz.
  - intros j z Hj Hz. destruct (Z.eq_dec j i) as [->|Hne].
    + rewrite upd_eq in Hz. apply elem_of_app in Hz as [Hz|Hz].
      * destruct (Hv i z Hi Hz) as (r & Hr & Hsl). exists r.
        split; [|exact Hsl]. rewrite lookup_app_l; [exact Hr|].
        apply lookup_lt_Some in Hr. exact Hr.
      * apply list_elem_of_singleton in Hz. subst z. exists new.
        rewrite lookup_app_r, Nat.sub_diag by lia. auto.
    + rewrite upd_ne in Hz by exact Hne.
      destruct (Hv j z Hj Hz) as (r & Hr & Hsl). exists r.
      split; [|exact Hsl]. rewrite lookup_app_l; [exact Hr|].
      apply lookup_lt_Some in Hr. exact Hr.
Qed.

Lemma world_inv_create w i bn' :
  world_inv w -> is_slot i -> phases w i = Open ->
  world_inv {| cache := create_req (cache w) bn' (cps w i);
               cps := cps w; closed := closed w; phases := phases w |}.
Proof.
  intros Hw Hi Hop. pose proof (cps_slot w i Hw Hi) as Hs.
  assert (Htv : forall j,
            to_visit {| cache := create_req (cache w) bn' (cps w i);
                        cps := cps w; closed := closed w; phases := phases w |} j
            = upd (to_visit w) i (to_visit w i ++ [length (reqs (cache w))]) j).
  { intros j. unfold to_visit, create_req. cbn [cache phases m_req_list].
    rewrite Hs. destruct (Z.eq_dec j i) as [->|Hne].
    - rewrite Hop, !upd_eq. reflexivity.
    - rewrite !upd_ne by exact Hne. reflexivity. }
  assert (Hlive : forall j, live j (reqs (create_req (cache w) bn' (cps w i)))
            = live j (reqs (cache w)) + (if i =? j then 1 else 0)).
  { intros j. unfold create_req. cbn [reqs]. unfold live. rewrite sumZ_app.
    cbn. rewrite Hs, andb_true_r. lia. }
  constructor; cbn [cache cps phases].
  - apply (inv_slots w Hw).
  - intros j Hj. rewrite Hlive. unfold create_req. cbn [m_dirty_buf_cnt]. rewrite Hs.
    destruct (Z.eq_dec j i) as [->|Hne].
    + rewrite upd_eq, Z.eqb_refl, (inv_dirty w Hw i Hi). lia.
    + rewrite upd_ne by exact Hne. destruct (Z.eqb_spec i j); [congruence|].
      rewrite (inv_dirty w Hw j Hj). lia.
  - eapply heap_inv_ext; [exact Htv|]. unfold create_req. cbn [reqs].
    apply heap_inv_create; [apply (inv_heap w Hw) | exact Hi | exact Hs].
  - intros x r Hx Hnc. unfold create_req in Hx. cbn [reqs] in Hx.
    apply lookup_snoc_cases in Hx as [[Hx _]|[_ ->]].
    + apply (inv_cps w Hw x r Hx Hnc).
    + cbn. rewrite Hs. reflexivity.
  - intros j x r Hj Hopj Hx Hsl Hnc. unfold create_req in *.
    cbn [reqs m_req_list] in *.
    rewrite Hs. apply lookup_snoc_cases in Hx as [[Hx _]|[-> ->]].
    + pose proof (inv_open w Hw j x r Hj Hopj Hx Hsl Hnc) as Hin.
      destruct (Z.eq_dec j i) as [->|Hne].
      * rewrite upd_eq. apply elem_of_app. left. exact Hin.
      * rewrite upd_ne by exact Hne. exact Hin.
    + cbn in Hsl. rewrite Hs in Hsl. subst j. rewrite upd_eq.
      apply elem_of_app. right. apply list_elem_of_singleton. reflexivity.
  - intros nd j x Hj Hnd. unfold create_req in *. cbn [reqs nodes] in *.
    rewrite Hs in Hnd.
    assert (Hcase : req (nodes (cache w) nd) j = Some x \/
                    (x = length (reqs (cache w)) /\ j = i /\ nd = bn')).
    { destruct (Z.eq_dec nd bn') as [->|Hne].
      - rewrite upd_eq in Hnd. cbn in Hnd.
        destruct (Z.eq_dec j i) as [->|Hji].
        + rewrite upd_eq in Hnd. injection Hnd as <-. right. auto.
        + rewrite upd_ne in Hnd by exact Hji. left. exact Hnd.
      - rewrite upd_ne in Hnd by exact Hne. left. exact Hnd. }
    destruct Hcase as [Hold|[-> [-> ->]]].
    + destruct (inv_node w Hw nd j x Hj Hold) as (r & Hr & Hsl). exists r.
      split; [|exact Hsl]. rewrite lookup_app_l; [exact Hr|].
      apply lookup_lt_Some in Hr. exact Hr.
    + eexists. rewrite lookup_app_r, Nat.sub_diag by lia.
      split; [reflexivity|]. cbn. auto.
  - intros j Hj. rewrite Hlive. unfold create_req. cbn [events].
    rewrite (inv_fired w Hw j Hj).
    destruct (Z.eqb_spec i j) as [->|Hne].
    + rewrite Hop. reflexivity.
    + rewrite Z.add_0_r. reflexivity.
  - apply (inv_closed w Hw).
  - apply (inv_future w Hw).
Qed.

Lemma world_inv_write w i bn' dependent_bn :
  world_inv w -> is_slot i -> phases w i = Open ->
  world_inv {| cache := write (cache w) bn' dependent_bn (cps w i);
               cps := cps w; closed := closed w; phases := phases w |}.
Proof.
  intros Hw Hi Hop. pose proof (cps_slot w i Hw Hi) as Hs.
  unfold write. rewrite Hs.
  set (wbd_req := match dependent_bn with
                  | Some dn => req (nodes (cache w) dn) i
                  | None => None
                  end).
  set (c1 := match req (nodes (cache w) bn') i with
             | Some r => update_mem (cache w) r bn'
             | None => create_req (cache w) bn' (cps w i)
             end).
  assert (H1 : world_inv {| cache := c1; cps := cps w; closed := closed w; phases := phases w |}).
  { unfold c1. destruct (req (nodes (cache w) bn') i) as [r|] eqn:Er.
    - apply world_inv_update_mem; [exact Hw|].
      destruct (inv_node w Hw bn' i r Hi Er) as (rr & Hrr & _).
      apply lookup_lt_Some in Hrr. exact Hrr.
    - apply world_inv_create; assumption. }
  assert (Hlen : (length (reqs (cache w)) <= length (reqs c1))%nat).
  { unfold c1. destruct (req (nodes (cache w) bn') i) as [r|].
    - unfold update_mem. destruct (negb _); cbn; [rewrite length_insert|]; lia.
    - unfold create_req. cbn. rewrite length_app. lia. }
  destruct (req (nodes c1 bn') i) as [wb|] eqn:Ewb; [|exact H1].
  destruct wbd_req as [d|] eqn:Ed; [|exact H1].
  destruct (inv_node _ H1 bn' i wb Hi Ewb) as (rwb & Hrwb & Hsl & Hnc & _).
  assert (Hd : exists rd, reqs c1 !! d = Some rd).
  { unfold wbd_req in Ed. destruct dependent_bn as [dn|]; [|discriminate].
    destruct (inv_node w Hw dn i d Hi Ed) as (rd0 & Hrd0 & _).
    apply lookup_lt_is_Some_2. apply lookup_lt_Some in Hrd0. lia. }
  destruct Hd as [rd Hrd].
  apply (world_inv_add_dependency
           {| cache := c1; cps := cps w; closed := closed w; phases := phases w |}
           i d wb rd rwb);
    assumption.
Qed.

Lemma live_zero i heap :
  live i heap = 0 ->
  forall r, r ∈ heap -> slot (bcp r) = i -> is_compl (state r) = true.
Proof.
  induction heap as [|a heap IH]; intros H r Hr Hs; [inversion Hr|].
  unfold live in H. simpl in H. fold (live i heap) in H.
  pose proof (live_nonneg i heap) as Hnn.
  apply elem_of_cons in Hr as [->|Hr].
  - destruct (is_compl (state a)); [reflexivity|].
    rewrite Hs, Z.eqb_refl in H. simpl in H. lia.
  - apply IH; try assumption.
    destruct (_ && _) in H; lia.
Qed.

Lemma world_inv_prepare_cp w i new_bcp :
  world_inv w -> is_slot i -> slot new_bcp = i ->
  cp_id (cps w i) < cp_id new_bcp ->
  phases w i = Drained ->
  m_dirty_buf_cnt (cache w) i = 0 ->
  m_req_list (cache w) i = [] ->
  world_inv {| cache := cache w;
               cps := upd (cps w) i new_bcp;
               phases := upd (phases w) i Open;
               closed := cps w i :: closed w |}.
Proof.
  intros Hw Hi Hs Hlt Hph Hd Hl.
  pose proof (inv_dirty w Hw i Hi) as Hdi. rewrite Hph, Hd in Hdi. simpl in Hdi.
  assert (Hlive : live i (reqs (cache w)) = 0) by lia.
  assert (Hnone : forall x r, reqs (cache w) !! x = Some r ->
            is_compl (state r) = false -> slot (bcp r) <> i).
  { intros x r Hx Hnc Hsl.
    pose proof (live_zero i _ Hlive r (list_elem_of_lookup_2 _ _ _ Hx) Hsl).
    congruence. }
  pose proof (inv_fired w Hw i Hi) as Hf.
  rewrite Hph, Hlive in Hf. simpl in Hf.
  constructor; cbn [cache cps phases closed].
  - destruct (inv_slots w Hw) as [S0 S1]. destruct Hi as [->| ->].
    + rewrite upd_eq, upd_ne by lia. auto.
    + rewrite upd_eq, upd_ne by lia. auto.
  - intros j Hj. destruct (Z.eq_dec j i) as [->|Hne].
    + rewrite upd_eq. simpl. lia.
    + rewrite upd_ne by exact Hne. apply (inv_dirty w Hw j Hj).
  - apply heap_inv_ext with (tv := to_visit w); [|apply (inv_heap w Hw)].
    intros j. unfold to_visit; cbn [cache phases].
    destruct (Z.eq_dec j i) as [->|Hne].
    + rewrite upd_eq, Hph, Hl. reflexivity.
    + rewrite upd_ne by exact Hne. reflexivity.
  - intros x r Hx Hnc. pose proof (Hnone x r Hx Hnc) as Hne.
    rewrite upd_ne by exact Hne. apply (inv_cps w Hw x r Hx Hnc).
  - intros j x r Hj Hop Hx Hsl Hnc. destruct (Z.eq_dec j i) as [->|Hne].
    + exfalso. apply (Hnone x r Hx Hnc Hsl).
    + rewrite upd_ne in Hop by exact Hne.
      apply (inv_open w Hw j x r); assumption.
  - apply (inv_node w Hw).
  - intros j Hj. destruct (Z.eq_dec j i) as [->|Hne].
    + rewrite !upd_eq. simpl. apply (inv_future w Hw new_bcp).
      * rewrite Hs. exact Hi.
      * rewrite Hs. exact Hlt.
    + rewrite !upd_ne by exact Hne. apply (inv_fired w Hw j Hj).
  - intros cp Hcp. apply elem_of_cons in Hcp as [->|Hcp].
    + pose proof (cps_slot w i Hw Hi) as Si. rewrite Si, upd_eq.
      split; [exact Hf|]. split; [exact Hi | exact Hlt].
    + destruct (inv_closed w Hw cp Hcp) as (C1 & C2 & C3).
      split; [exact C1|]. split; [exact C2|].
      destruct (Z.eq_dec (slot cp) i) as [E|E].
      * rewrite E, upd_eq. rewrite E in C3. lia.
      * rewrite upd_ne by exact E. exact C3.
  - intros cp Hsl Hfut. apply (inv_future w Hw cp Hsl).
    destruct (Z.eq_dec (slot cp) i) as [E|E].
    + rewrite E, upd_eq in Hfut. rewrite E. lia.
    + rewrite upd_ne in Hfut by exact E. exact Hfut.
Qed.

Lemma cache_inv_step w w' : world_inv w -> step w w' -> world_inv w'.
Proof.
  intros Hw Hstep.
  destruct Hstep as [w i bn' dep Hi Hop _ | w i Hi Hop | w i r rest Hi Hph
                    | w i Hi Hph | w r Hr Hst
                    | w i new_bcp Hi Hs Hlt Hph Hd Hl].
  - apply world_inv_write; assumption.
  - apply world_inv_flush_begin; assumption.
  - apply world_inv_flush_visit; assumption.
  - apply world_inv_flush_end; assumption.
  - apply world_inv_completion; assumption.
  - apply world_inv_prepare_cp; assumption.
Qed.

Lemma cache_inv_started w : started w -> world_inv w.
Proof.
  intros (Hc & H0 & H1 & P0 & P1 & Hcl).
  constructor; rewrite ?Hc, ?Hcl; cbn.
  - auto.
  - intros i [->| ->]; rewrite ?P0, ?P1; reflexivity.
  - split; [|split].
    + intros x r Hx. discriminate.
    + intros q rq x Hq. discriminate.
    + intros i x [->| ->] Hx; unfold to_visit in Hx; rewrite Hc, ?P0, ?P1 in Hx;
        cbn in Hx; inversion Hx.
  - intros x r Hx. discriminate.
  - intros i x r _ _ Hx. discriminate.
  - intros n i x _ Hx. discriminate.
  - intros i [->| ->]; rewrite ?P0, ?P1; reflexivity.
  - intros cp Hcp. inversion Hcp.
  - reflexivity.
Qed.

Lemma cache_inv_reachable w : reachable w -> world_inv w.
Proof.
  induction 1 as [w Hs | w w' _ IH Hstep].
  - apply cache_inv_started. exact Hs.
  - eapply cache_inv_step; eassumption.
Qed.

End WBCacheInvariant.

Section WBCacheClaims.
Import WBCache.

Lemma write_events c bn' dep cp : events (write c bn' dep cp) = events c.
Proof.
  unfold write.
  set (c1 := match req (nodes c bn') (slot cp) with
             | Some r => update_mem c r bn'
             | None => create_req c bn' cp
             end).
  assert (H1 : events c1 = events c).
  { unfold c1. destruct (req (nodes c bn') (slot cp)).
    - unfold update_mem. destruct (negb _); reflexivity.
    - reflexivity. }
  destruct (req (nodes c1 bn') (slot cp)); [|exact H1].
  destruct dep as [dn|]; [|exact H1].
  destruct (req (nodes c dn) (slot cp)); [|exact H1].
  exact H1.
Qed.

Lemma flush_buffers_empty c cp :
  m_req_list c (slot cp) = [] -> m_dirty_buf_cnt c (slot cp) = 0 ->
  events (flush_buffers c cp) = events c ++ [EvCpComp cp] /\
  m_dirty_buf_cnt (flush_buffers c cp) (slot cp) = 0.
Proof.
  intros Hl Hd. unfold flush_buffers. rewrite Hl. cbn [fold_left].
  unfold flush_end, flush_begin.
  cbn [m_dirty_buf_cnt set_req_list set_dirty_buf_cnt].
  unfold upd. rewrite !Z.eqb_refl, Hd.
  change (0 + 1 - 1 =? 0) with true. cbv iota.
  split; [reflexivity|].
  cbn [m_dirty_buf_cnt emit set_dirty_buf_cnt]. rewrite Z.eqb_refl. reflexivity.
Qed.

(** Scenario: the writes go out one after the other as their predecessors
    complete, and the callback runs once, after the last completion. *)
Example dependent_writes_run :
  events (flush_buffers ex_written ex_cp) = [EvBlkWrite 0 0] /\
  events ex_done
  = [EvBlkWrite 0 0; EvBlkWrite 1 0; EvBlkWrite 2 0; EvCpComp ex_cp] /\
  m_dirty_buf_cnt ex_done 0 = 0.
Proof. vm_compute. auto. Qed.

(** Scenario: slot 0 goes through two generations; checkpoint 4 has had
    its callback, checkpoint 6 has not. *)
Example second_generation_run :
  reachable ex_world_next /\
  cp_comp_count ex_cp (events (cache ex_world_next)) = 1 /\
  cp_comp_count (cps ex_world_next 0) (events (cache ex_world_next)) = 0.
Proof.
  split; [|vm_compute; auto].
  assert (H0 : reachable ex_world).
  { apply reachable_start. vm_compute. repeat split. }
  assert (H1 : reachable ex_world_flushing).
  { apply (reachable_step ex_world); [exact H0|].
    exact (step_flush_begin ex_world 0 (or_introl eq_refl) eq_refl). }
  assert (H2 : reachable ex_world_flushed).
  { apply (reachable_step ex_world_flushing); [exact H1|].
    exact (step_flush_end ex_world_flushing 0 (or_introl eq_refl) eq_refl). }
  apply (reachable_step ex_world_flushed); [exact H2|].
  refine (step_prepare_cp ex_world_flushed 0 {| cp_id := 6 |}
            (or_introl eq_refl) eq_refl _ eq_refl eq_refl eq_refl).
  vm_compute. reflexivity.
Qed.

(** C9. For the current checkpoint of either slot, at every point of
    every run: the completion callback has run once if the slot is drained
    and none of its requests is incomplete, and not at all otherwise. For
    every earlier checkpoint, whose slot has since been given to a later
    one, it has run once. A step in which it runs is the end of
    [flush_buffers] for that slot or a write completion, and leaves the
    dirty counter of the slot at zero. On a checkpoint with no dirty node,
    [flush_buffers] itself runs it. The completion of a write that has
    been sent marks its request complete, takes it out of the incomplete
    requests of its slot and one off the dirty counter of the slot, and
    runs the callback of the request's checkpoint, which owns the slot,
    exactly when the counter has come to zero; the end of [flush_buffers]
    takes one off the counter and runs the callback on the same
    condition. *)
Theorem cp_complete_fires_once :
  (forall w i, reachable w -> is_slot i ->
     cp_comp_count (cps w i) (events (cache w))
     = if drained (phases w i) && (live i (reqs (cache w)) =? 0) then 1 else 0) /\
  (forall w cp, reachable w -> cp ∈ closed w ->
     cp_comp_count cp (events (cache w)) = 1) /\
  (forall w w' i, reachable w -> step w w' -> is_slot i ->
     cp_comp_count (cps w i) (events (cache w))
       < cp_comp_count (cps w i) (events (cache w')) ->
     m_dirty_buf_cnt (cache w') i = 0 /\
     cp_comp_count (cps w i) (events (cache w)) = 0 /\
     cp_comp_count (cps w i) (events (cache w')) = 1 /\
     ((phases w i = Flushing [] /\ cache w' = flush_end (cache w) (cps w i)) \/
      (exists r, state (get_req (cache w) r) = WB_REQ_SENT /\
                 cache w' = writeBack_completion_internal (cache w) r))) /\
  (forall c cp, m_req_list c (slot cp) = [] -> m_dirty_buf_cnt c (slot cp) = 0 ->
     events (flush_buffers c cp) = events c ++ [EvCpComp cp] /\
     m_dirty_buf_cnt (flush_buffers c cp) (slot cp) = 0) /\
  (forall w r, reachable w -> (r < length (reqs (cache w)))%nat ->
     state (get_req (cache w) r) = WB_REQ_SENT ->
     let c' := writeBack_completion_internal (cache w) r in
     let cp := bcp (get_req (cache w) r) in
     cp = cps w (slot cp) /\
     is_slot (slot cp) /\
     state (get_req c' r) = WB_REQ_COMPL /\
     live (slot cp) (reqs c') = live (slot cp) (reqs (cache w)) - 1 /\
     m_dirty_buf_cnt c' (slot cp) = m_dirty_buf_cnt (cache w) (slot cp) - 1 /\
     (forall j, j <> slot cp ->
        m_dirty_buf_cnt c' j = m_dirty_buf_cnt (cache w) j) /\
     cp_comp_count cp (events c')
     = cp_comp_count cp (events (cache w))
       + (if m_dirty_buf_cnt c' (slot cp) =? 0 then 1 else 0)) /\
  (forall c cp,
     m_dirty_buf_cnt (flush_end c cp) (slot cp) = m_dirty_buf_cnt c (slot cp) - 1 /\
     m_req_list (flush_end c cp) (slot cp) = [] /\
     reqs (flush_end c cp) = reqs c /\
     cp_comp_count cp (events (flush_end c cp))
     = cp_comp_count cp (events c)
       + (if m_dirty_buf_cnt (flush_end c cp) (slot cp) =? 0 then 1 else 0)).
Proof.
  split; [|split; [|split; [|split; [|split]]]].
  - intros w i Hr Hi. apply (inv_fired w (cache_inv_reachable w Hr) i Hi).
  - intros w cp Hr Hcp.
    apply (inv_closed w (cache_inv_reachable w Hr) cp Hcp).
  - intros w w' i Hr Hstep Hi Hlt.
    pose proof (cache_inv_reachable w Hr) as Hw.
    pose proof (cache_inv_step w w' Hw Hstep) as Hw'.
    assert (Hcps : cps w' = cps w).
    { destruct Hstep; try reflexivity. exfalso. cbn [cache] in Hlt. lia. }
    pose proof (inv_fired w Hw i Hi) as Hf.
    pose proof (inv_fired w' Hw' i Hi) as Hf'.
    pose proof (inv_dirty w' Hw' i Hi) as Hd'.
    rewrite Hcps in Hf'.
    assert (H0 : cp_comp_count (cps w i) (events (cache w)) = 0 /\
                 cp_comp_count (cps w i) (events (cache w')) = 1).
    { destruct (drained (phases w i) && _), (drained (phases w' i) && _); lia. }
    destruct H0 as [H0 H1].
    split.
    { rewrite H1 in Hf'.
      destruct (drained (phases w' i)) eqn:Edr; [|simpl in Hf'; lia].
      destruct (Z.eqb_spec (live i (reqs (cache w'))) 0) as [El|]; [|simpl in Hf'; lia].
      rewrite Hd', El. destruct (phases w' i); try discriminate. reflexivity. }
    split; [exact H0|]. split; [exact H1|].
    destruct Hstep as [w j bn' dep Hj Hop _ | w j Hj Hop | w j r rest Hj Hph
                      | w j Hj Hph | w r Hrl Hst
                      | w j nb Hj Hs Hlt' Hph Hd Hl]; cbn [cache cps phases] in *.
    + rewrite write_events in Hlt. lia.
    + unfold flush_begin in Hlt. cbn in Hlt. lia.
    + unfold flush_visit in Hlt.
      destruct (release_frame_fields (cache w) r) as (_ & _ & _ & _ & F).
      rewrite F in Hlt. lia.
    + left. destruct (Z.eq_dec j i) as [->|Hne]; [auto|].
      exfalso. rewrite upd_ne in Hf' by congruence.
      assert (Er : reqs (flush_end (cache w) (cps w j)) = reqs (cache w)).
      { unfold flush_end. destruct (m_dirty_buf_cnt _ _ - 1 =? 0); reflexivity. }
      rewrite Er, <- Hf in Hf'. lia.
    + right. exists r. auto.
    + lia.
  - apply flush_buffers_empty.
  - intros w r Hr Hlt Hst.
    apply (completion_effect w r (cache_inv_reachable w Hr) Hlt Hst).
  - intros c cp. unfold flush_end.
    cbn [m_dirty_buf_cnt set_req_list set_dirty_buf_cnt].
    destruct (m_dirty_buf_cnt c (slot cp) - 1 =? 0) eqn:E;
      cbn [m_dirty_buf_cnt m_req_list reqs events emit set_req_list set_dirty_buf_cnt];
      rewrite !upd_eq, E.
    + repeat split; try reflexivity.
      rewrite cp_comp_count_app. cbn. rewrite Z.eqb_refl. lia.
    + repeat split; try reflexivity. lia.
Qed.

End WBCacheClaims.

(** Witness of C8: node 1 was written in checkpoint 4 and its request still
    waits; refreshing it for checkpoint 5 gives it a fresh memory vector. *)
Lemma refresh_buf_write_modifiable_witness :
  let c := WBCache.write WBCache.empty_cache 1 None WBCache.ex_cp in
  exists c',
    WBCache.refresh_buf c 1 true (Some {| WBCache.cp_id := 5 |})
      = (WBCache.success, c') /\
    WBCache.memvec (WBCache.nodes c' 1) = length (WBCache.mems c).
Proof.
  intros c.
  destruct (refresh_buf_write_modifiable c 1 {| WBCache.cp_id := 5 |} WBCache.ex_cp)
    as (_ & _ & H & _).
  - reflexivity.
  - destruct H as [Hcopy _]; [vm_compute; reflexivity|].
    destruct (Hcopy 0%nat) as (c' & H1 & H2 & _).
    + reflexivity.
    + vm_compute. discriminate.
    + exists c'. split; [exact H1 | exact H2].
Defined.

(** Witness of C6: five bytes appended to a device whose threshold is one
    byte start a flush. *)
Lemma flush_if_needed_gate_witness :
  exists lg,
    LogDevice.writes
      (LogDevice.trace
         (LogDevice.flush_if_needed LogGroupFmt.ex_cfg LogDevice.ex_crc 1 1000
            (LogDevice.formatted 1) 5 0 10))
    = LogDevice.writes (LogDevice.trace (LogDevice.formatted 1)) ++ [lg].
Proof.
  destruct (flush_if_needed_gate LogGroupFmt.ex_cfg LogDevice.ex_crc 1 1000
              (LogDevice.formatted 1) 5 0 10) as ([_ H] & _).
  apply H. split; [left; simpl; lia | reflexivity].
Defined.

Lemma ex_world_f3_reachable : WBCache.reachable WBCache.ex_world_f3.
Proof.
  assert (H0 : WBCache.reachable WBCache.ex_world).
  { apply WBCache.reachable_start. vm_compute. repeat split. }
  assert (H1 : WBCache.reachable WBCache.ex_world_w1).
  { apply (WBCache.reachable_step WBCache.ex_world); [exact H0|].
    refine (WBCache.step_write WBCache.ex_world 0 1 None
              (or_introl eq_refl) eq_refl _).
    intros dn Hdn. discriminate. }
  assert (H2 : WBCache.reachable WBCache.ex_world_f1).
  { apply (WBCache.reachable_step WBCache.ex_world_w1); [exact H1|].
    exact (WBCache.step_flush_begin WBCache.ex_world_w1 0
             (or_introl eq_refl) eq_refl). }
  assert (H3 : WBCache.reachable WBCache.ex_world_f2).
  { apply (WBCache.reachable_step WBCache.ex_world_f1); [exact H2|].
    exact (WBCache.step_flush_visit WBCache.ex_world_f1 0 0%nat []
             (or_introl eq_refl) eq_refl). }
  apply (WBCache.reachable_step WBCache.ex_world_f2); [exact H3|].
  exact (WBCache.step_flush_end WBCache.ex_world_f2 0
           (or_introl eq_refl) eq_refl).
Defined.

(** Witness of C9: node 1 is written in checkpoint 4 and the checkpoint is
    flushed; the callback has not run when [flush_buffers] ends, as the
    write is in flight, and runs when the write completes, which leaves
    the dirty counter of slot 0 at zero. A flush of checkpoint 4 on a
    cache without dirty nodes runs it itself. *)
Lemma cp_complete_fires_once_witness :
  WBCache.cp_comp_count WBCache.ex_cp
    (WBCache.events (WBCache.cache WBCache.ex_world_f3)) = 0 /\
  WBCache.m_dirty_buf_cnt (WBCache.cache WBCache.ex_world_f3) 0 = 1 /\
  WBCache.state
    (WBCache.get_req
       (WBCache.writeBack_completion_internal
          (WBCache.cache WBCache.ex_world_f3) 0) 0) = WBCache.WB_REQ_COMPL /\
  WBCache.m_dirty_buf_cnt
    (WBCache.writeBack_completion_internal
       (WBCache.cache WBCache.ex_world_f3) 0) 0 = 0 /\
  WBCache.cp_comp_count WBCache.ex_cp
    (WBCache.events
       (WBCache.writeBack_completion_internal
          (WBCache.cache WBCache.ex_world_f3) 0)) = 1 /\
  WBCache.events (WBCache.flush_buffers WBCache.empty_cache WBCache.ex_cp)
  = [WBCache.EvCpComp WBCache.ex_cp].
Proof.
  destruct cp_complete_fires_once as (H1 & _ & _ & H4 & H5 & _).
  destruct (H5 WBCache.ex_world_f3 0%nat ex_world_f3_reachable)
    as (_ & _ & Hst & _ & Hd & _ & Hc).
  { vm_compute. lia. }
  { reflexivity. }
  split.
  { apply (H1 WBCache.ex_world_f3 0 ex_world_f3_reachable). left. reflexivity. }
  split; [reflexivity|].
  split; [exact Hst|].
  split; [exact Hd|].
  split; [exact Hc|].
  destruct (H4 WBCache.empty_cache WBCache.ex_cp) as [He _];
    [reflexivity | reflexivity | exact He].
Defined.

(** ** Append block allocator: runs, persistence and recovery *)

Section AppendBlkAllocRuns.
Import AppendBlkAlloc.
Variable cfg : BlkAllocConfig.
Hypothesis Hcfg : cfg_ok cfg.

Local Abbreviation in_chunk a := (0 <= m_last_append_offset a <= total_blks cfg).

Lemma laid_out_weaken l : forall from from',
  from' <= from -> laid_out cfg from l -> laid_out cfg from' l.
Proof.
  destruct l as [|b rest]; intros from from' Hle H; simpl in *; [exact I|].
  destruct H as (H1 & H2 & H3 & H4 & H5). repeat split; try assumption. lia.
Qed.

Lemma laid_out_lookup l : forall from i b,
  laid_out cfg from l -> l !! i = Some b ->
  from <= blk_num b /\ 0 <= blk_count b /\
  blk_num b + blk_count b <= total_blks cfg /\ chunk_num b = chunk_id cfg.
Proof.
  induction l as [|a rest IH]; intros from i b H Hi; [discriminate|].
  destruct H as (H1 & H2 & H3 & H4 & H5).
  destruct i as [|i]; simpl in Hi.
  - injection Hi as <-. auto.
  - destruct (IH _ i b H5 Hi) as (I1 & I2 & I3 & I4).
    repeat split; try assumption. lia.
Qed.

Lemma laid_out_ordered l : forall from i j b b',
  laid_out cfg from l -> (i < j)%nat -> l !! i = Some b -> l !! j = Some b' ->
  blk_num b + blk_count b <= blk_num b'.
Proof.
  induction l as [|a rest IH]; intros from i j b b' H Hij Hi Hj; [discriminate|].
  destruct H as (H1 & H2 & H3 & H4 & H5).
  destruct j as [|j]; [lia|]. simpl in Hj.
  destruct i as [|i]; simpl in Hi.
  - injection Hi as <-.
    destruct (laid_out_lookup rest _ j b' H5 Hj) as (I1 & _). exact I1.
  - apply (IH _ i j b b' H5); [lia | assumption | assumption].
Qed.

Lemma do_call_in_chunk a c :
  in_chunk a -> call_sane cfg c ->
  m_last_append_offset a <= m_last_append_offset (do_call cfg a c) /\
  m_last_append_offset (do_call cfg a c) <= total_blks cfg.
Proof.
  intros Ha Hc. destruct Hcfg as [Hb Ht].
  destruct c as [nblks hint | b | b | b | | ]; simpl in *.
  - unfold alloc.
    destruct (Z.ltb_spec (avail_after_hint cfg a hint) nblks); [simpl; lia|].
    destruct (Z.ltb_spec (max_blks_per_blkid cfg) nblks); [simpl; lia|].
    pose proof (avail_after_hint_le cfg (conj Hb Ht) a nblks hint Hc Ha) as Hle.
    destruct Hc as [Hn _]. simpl. rewrite wrap_small by lia. lia.
  - unfold reserve_on_disk. destruct (_ <=? _); simpl; lia.
  - destruct Hc as (Hn & Hk & Hle). unfold reserve_on_cache.
    rewrite wrap_small by lia.
    destruct (Z.leb_spec (blk_num b + blk_count b) (m_last_append_offset a));
      simpl; lia.
  - lia.
  - unfold cp_flush. destruct (m_is_dirty a); simpl; lia.
  - contradiction.
Qed.

Lemma allocated_laid_out cs : forall a,
  in_chunk a -> Forall (call_sane cfg) cs ->
  laid_out cfg (m_last_append_offset a) (allocated cfg a cs).
Proof.
  induction cs as [|c cs IH]; intros a Ha Hcs; [exact I|].
  inversion Hcs as [|c' cs' Hc Hcs' E]; subst.
  destruct (do_call_in_chunk a c Ha Hc) as [Hup Hin].
  assert (Hnext : laid_out cfg (m_last_append_offset a)
                    (allocated cfg (do_call cfg a c) cs)).
  { apply laid_out_weaken with (from := m_last_append_offset (do_call cfg a c));
      [exact Hup|]. apply IH; [lia | exact Hcs']. }
  destruct c as [nblks hint | b | b | b | | ]; try exact Hnext.
  cbn [allocated].
  destruct (snd (fst (alloc cfg a nblks hint))) as [b|] eqn:Eb; [|exact Hnext].
  clear Hnext. simpl in Hc, Hup, Hin |- *.
  unfold alloc in Eb, Hup, Hin |- *.
  destruct (Z.ltb_spec (avail_after_hint cfg a hint) nblks); [discriminate|].
  destruct (Z.ltb_spec (max_blks_per_blkid cfg) nblks); [discriminate|].
  simpl in Eb. injection Eb as <-. simpl in Hup, Hin |- *.
  pose proof (avail_after_hint_le cfg Hcfg a nblks hint Hc Ha) as Hle.
  destruct Hcfg as [Hb Ht]. destruct Hc as [Hn _].
  rewrite wrap_small in * by lia.
  repeat split; try lia.
  apply (IH {| m_last_append_offset := m_last_append_offset a + nblks;
               m_commit_offset := m_commit_offset a;
               m_freeable_nblks := m_freeable_nblks a;
               m_is_dirty := m_is_dirty a;
               m_sb := m_sb a |}); [simpl; lia | exact Hcs'].
Qed.

(** X1. The allocator never hands out a block twice: over any run of calls
    that does not reset it, the block ids of the successful allocations
    lie one after the other, each inside the chunk and the earlier one
    ending at or before the start of the later one. Freeing a block id
    does not make its blocks available again. *)
Theorem alloc_never_overlaps a cs i j b b' :
  in_chunk a -> Forall (call_sane cfg) cs -> (i < j)%nat ->
  allocated cfg a cs !! i = Some b ->
  allocated cfg a cs !! j = Some b' ->
  m_last_append_offset a <= blk_num b /\
  0 <= blk_count b /\
  blk_num b + blk_count b <= blk_num b' /\
  blk_num b' + blk_count b' <= total_blks cfg.
Proof.
  intros Ha Hcs Hij Hi Hj.
  pose proof (allocated_laid_out cs a Ha Hcs) as Hl.
  destruct (laid_out_lookup _ _ i b Hl Hi) as (H1 & H2 & _).
  destruct (laid_out_lookup _ _ j b' Hl Hj) as (_ & _ & H3 & _).
  pose proof (laid_out_ordered _ _ i j b b' Hl Hij Hi Hj).
  auto.
Qed.

Lemma started_sb_ok a : started cfg a -> sb_ok cfg a /\
  commit_offset (m_sb a) <= m_commit_offset a.
Proof.
  intros [id | a0 buf a' Hrec].
  - split; [|simpl; lia]. repeat split.
  - unfold on_meta_blk_found in Hrec.
    destruct (Z.eqb_spec (magic buf) (append_blkalloc_sb_magic cfg));
      [|discriminate].
    destruct (Z.eqb_spec (version buf) (append_blkalloc_sb_version cfg));
      [|discriminate].
    simpl in Hrec. injection Hrec as <-. simpl.
    split; [|lia]. repeat split; assumption.
Qed.

Lemma do_call_sb_ok a c : sb_ok cfg a -> sb_ok cfg (do_call cfg a c).
Proof.
  intros (Hm & Hv & Hs).
  assert (Hkeep : sb_ok cfg a) by (repeat split; try assumption; apply Hs; assumption).
  destruct c as [nblks hint | b | b | b | | ]; simpl.
  - unfold alloc. destruct (_ <? _); [exact Hkeep|].
    destruct (_ <? _); [exact Hkeep|]. exact Hkeep.
  - unfold reserve_on_disk. destruct (_ <=? _); simpl; [exact Hkeep|].
    split; [exact Hm|]. split; [exact Hv|]. simpl. discriminate.
  - unfold reserve_on_cache. destruct (_ <=? _); simpl; exact Hkeep.
  - split; [exact Hm|]. split; [exact Hv|]. simpl. discriminate.
  - unfold cp_flush. destruct (m_is_dirty a) eqn:Ed; [|exact Hkeep].
    split; [exact Hm|]. split; [exact Hv|]. simpl. auto.
  - split; [exact Hm|]. split; [exact Hv|]. simpl. discriminate.
Qed.

Lemma run_sb_ok cs : forall a, sb_ok cfg a -> sb_ok cfg (run cfg a cs).
Proof.
  induction cs as [|c cs IH]; intros a Ha; simpl; [exact Ha|].
  apply IH. apply do_call_sb_ok. exact Ha.
Qed.

Lemma cp_flush_synced a :
  sb_ok cfg a ->
  commit_offset (m_sb (cp_flush a)) = m_commit_offset a /\
  freeable_nblks (m_sb (cp_flush a)) = m_freeable_nblks a /\
  magic (m_sb (cp_flush a)) = append_blkalloc_sb_magic cfg /\
  version (m_sb (cp_flush a)) = append_blkalloc_sb_version cfg /\
  m_is_dirty (cp_flush a) = false.
Proof.
  intros (Hm & Hv & Hs). unfold cp_flush.
  destruct (m_is_dirty a) eqn:Ed; simpl.
  - auto.
  - destruct (Hs eq_refl) as [H1 H2]. auto.
Qed.

(** X2. Persist and recover: whatever run a started allocator has been
    through, the superblock that [cp_flush] leaves is accepted by
    [on_meta_blk_found], and the recovered allocator has the commit offset
    and the freeable count of the moment of the flush. Its append offset
    restarts from that commit offset: blocks that were allocated and not
    reserved on disk are forgotten. *)
Theorem cp_flush_recovery_round_trip a0 cs fresh :
  started cfg a0 ->
  exists a',
    on_meta_blk_found cfg fresh (m_sb (cp_flush (run cfg a0 cs))) = Some a' /\
    m_commit_offset a' = m_commit_offset (run cfg a0 cs) /\
    m_last_append_offset a' = m_commit_offset (run cfg a0 cs) /\
    m_freeable_nblks a' = m_freeable_nblks (run cfg a0 cs).
Proof.
  intros Hs.
  destruct (started_sb_ok a0 Hs) as [Hsb _].
  pose proof (run_sb_ok cs a0 Hsb) as Hrun.
  destruct (cp_flush_synced _ Hrun) as (Hc & Hf & Hm & Hv & _).
  unfold on_meta_blk_found. rewrite Hm, Hv, !Z.eqb_refl. simpl.
  eexists. split; [reflexivity|]. simpl. auto.
Qed.

(** X3. [is_blk_alloced_on_disk] answers from the persisted superblock: no
    call other than [cp_flush] changes its answer, so a block id that has
    been allocated and reserved on disk is reported only after the next
    [cp_flush], and then it is. *)
Theorem on_disk_view_follows_cp_flush a0 cs b :
  started cfg a0 ->
  let a := run cfg a0 cs in
  (forall c bid, c <> CCpFlush ->
     is_blk_alloced_on_disk (do_call cfg a c) bid = is_blk_alloced_on_disk a bid) /\
  (0 <= blk_num b -> 0 < blk_count b ->
   blk_num b + blk_count b < 2 ^ blk_num_bits cfg ->
   is_blk_alloced_on_disk (cp_flush (snd (reserve_on_disk cfg a b))) b = true).
Proof.
  intros Hs a. split.
  - intros c bid Hc. unfold is_blk_alloced_on_disk.
    assert (Hsb : m_sb (do_call cfg a c) = m_sb a).
    { destruct c as [nblks hint | b1 | b1 | b1 | | ]; simpl; try congruence.
      + unfold alloc. destruct (_ <? _); [reflexivity|].
        destruct (_ <? _); reflexivity.
      + unfold reserve_on_disk. destruct (_ <=? _); reflexivity.
      + unfold reserve_on_cache. destruct (_ <=? _); reflexivity. }
    rewrite Hsb. reflexivity.
  - intros Hn Hk Hlt.
    destruct (started_sb_ok a0 Hs) as [Hsb _].
    pose proof (run_sb_ok cs a0 Hsb) as Hrun. fold a in Hrun.
    pose proof (do_call_sb_ok a (CReserveOnDisk b) Hrun) as Hres.
    simpl in Hres.
    destruct (cp_flush_synced _ Hres) as (Hc & _).
    unfold is_blk_alloced_on_disk. rewrite Hc.
    unfold reserve_on_disk. rewrite wrap_small by lia.
    destruct (Z.leb_spec (blk_num b + blk_count b) (m_commit_offset a));
      simpl; apply Z.ltb_lt; lia.
Qed.

Lemma do_call_commit_mono a c :
  is_reset c = false ->
  commit_offset (m_sb a) <= m_commit_offset a ->
  m_commit_offset a <= m_commit_offset (do_call cfg a c) /\
  commit_offset (m_sb a) <= commit_offset (m_sb (do_call cfg a c)) /\
  commit_offset (m_sb (do_call cfg a c)) <= m_commit_offset (do_call cfg a c).
Proof.
  intros Hr Hle.
  destruct c as [nblks hint | b | b | b | | ]; simpl; try discriminate.
  - unfold alloc. destruct (_ <? _); [simpl; lia|].
    destruct (_ <? _); simpl; lia.
  - unfold reserve_on_disk.
    destruct (Z.leb_spec (wrap (blk_num_bits cfg) (blk_num b + blk_count b))
                (m_commit_offset a)); simpl; lia.
  - unfold reserve_on_cache. destruct (_ <=? _); simpl; lia.
  - lia.
  - unfold cp_flush. destruct (m_is_dirty a); simpl; lia.
Qed.

Lemma run_commit_mono cs : forall a,
  forallb (fun c => negb (is_reset c)) cs = true ->
  commit_offset (m_sb a) <= m_commit_offset a ->
  m_commit_offset a <= m_commit_offset (run cfg a cs) /\
  commit_offset (m_sb a) <= commit_offset (m_sb (run cfg a cs)) /\
  commit_offset (m_sb (run cfg a cs)) <= m_commit_offset (run cfg a cs).
Proof.
  induction cs as [|c cs IH]; intros a Hcs Hle; simpl in *; [lia|].
  apply andb_prop in Hcs as [Hc Hcs]. apply negb_true_iff in Hc.
  destruct (do_call_commit_mono a c Hc Hle) as (H1 & H2 & H3).
  destruct (IH _ Hcs H3) as (I1 & I2 & I3). lia.
Qed.

(** X4. Short of a [reset], the commit offset only grows: neither the
    in-memory [m_commit_offset] nor the one persisted in the superblock
    is ever lowered by [alloc], [reserve_on_disk], [reserve_on_cache],
    [free] or [cp_flush], and the persisted one never runs ahead of the
    one in memory. *)
Theorem commit_offset_never_lowered a0 cs1 cs2 :
  started cfg a0 ->
  forallb (fun c => negb (is_reset c)) (cs1 ++ cs2) = true ->
  m_commit_offset (run cfg a0 cs1) <= m_commit_offset (run cfg a0 (cs1 ++ cs2)) /\
  commit_offset (m_sb (run cfg a0 cs1))
    <= commit_offset (m_sb (run cfg a0 (cs1 ++ cs2))) /\
  commit_offset (m_sb (run cfg a0 (cs1 ++ cs2)))
    <= m_commit_offset (run cfg a0 (cs1 ++ cs2)).
Proof.
  intros Hs Hcs. rewrite forallb_app in Hcs. apply andb_prop in Hcs as [H1 H2].
  destruct (started_sb_ok a0 Hs) as [_ Hle].
  destruct (run_commit_mono cs1 a0 H1 Hle) as (_ & _ & Hle1).
  unfold run at 2 4 5 6. rewrite fold_left_app. fold (run cfg a0 cs1).
  apply (run_commit_mono cs2 (run cfg a0 cs1) H2 Hle1).
Qed.

(** X5. [free] only keeps books: it adds the count of the block id to the
    freeable counter and raises the dirty flag, and an [alloc] after it
    has the outcome and the block id it would have had without it. *)
Theorem free_returns_no_space a bid nblks hint :
  alloc cfg (free cfg a bid) nblks hint
  = (fst (fst (alloc cfg a nblks hint)),
     snd (fst (alloc cfg a nblks hint)),
     free cfg (snd (alloc cfg a nblks hint)) bid) /\
  available_blks cfg (free cfg a bid) = available_blks cfg a /\
  get_defrag_nblks (free cfg a bid)
  = wrap (blk_num_bits cfg) (get_defrag_nblks a + blk_count bid) /\
  m_is_dirty (free cfg a bid) = true.
Proof.
  split; [|repeat split].
  unfold alloc, avail_after_hint, available_blks, get_used_blks. simpl.
  destruct (reserved_blks hint) as [r|].
  - destruct (r <? _); destruct (_ <? nblks); try reflexivity;
      destruct (_ <? nblks); reflexivity.
  - destruct (_ <? nblks); [reflexivity|].
    destruct (_ <? nblks); reflexivity.
Qed.

End AppendBlkAllocRuns.

(** Witness of X1: two allocations with a free between them. *)
Lemma alloc_never_overlaps_witness :
  let cfg := AppendBlkAlloc.ex_cfg in
  let a := AppendBlkAlloc.construct_format cfg 0 in
  let b := {| AppendBlkAlloc.blk_num := 0; AppendBlkAlloc.blk_count := 5;
              AppendBlkAlloc.chunk_num := 1 |} in
  let b' := {| AppendBlkAlloc.blk_num := 5; AppendBlkAlloc.blk_count := 7;
               AppendBlkAlloc.chunk_num := 1 |} in
  AppendBlkAlloc.allocated cfg a
    [AppendBlkAlloc.CAlloc 5 AppendBlkAlloc.no_hint; AppendBlkAlloc.CFree b;
     AppendBlkAlloc.CAlloc 7 AppendBlkAlloc.no_hint] = [b; b'] /\
  AppendBlkAlloc.blk_num b + AppendBlkAlloc.blk_count b <= AppendBlkAlloc.blk_num b'.
Proof.
  cbv zeta. split; [reflexivity|].
  refine (proj1 (proj2 (proj2
    (alloc_never_overlaps AppendBlkAlloc.ex_cfg ex_cfg_ok
       (AppendBlkAlloc.construct_format AppendBlkAlloc.ex_cfg 0)
       [AppendBlkAlloc.CAlloc 5 AppendBlkAlloc.no_hint;
        AppendBlkAlloc.CFree
          {| AppendBlkAlloc.blk_num := 0; AppendBlkAlloc.blk_count := 5;
             AppendBlkAlloc.chunk_num := 1 |};
        AppendBlkAlloc.CAlloc 7 AppendBlkAlloc.no_hint]
       0%nat 1%nat _ _ _ _ _ _ _)))).
  - simpl. lia.
  - repeat constructor; simpl; lia.
  - lia.
  - reflexivity.
  - reflexivity.
Defined.

(** Witness of X2: twelve blocks allocated, five of them reserved on disk,
    three freed; the recovered allocator restarts at offset 5. *)
Lemma cp_flush_recovery_round_trip_witness :
  let cfg := AppendBlkAlloc.ex_cfg in
  let a0 := AppendBlkAlloc.construct_format cfg 0 in
  let b := {| AppendBlkAlloc.blk_num := 0; AppendBlkAlloc.blk_count := 5;
              AppendBlkAlloc.chunk_num := 1 |} in
  let cs := [AppendBlkAlloc.CAlloc 12 AppendBlkAlloc.no_hint;
             AppendBlkAlloc.CReserveOnDisk b;
             AppendBlkAlloc.CFree
               {| AppendBlkAlloc.blk_num := 0; AppendBlkAlloc.blk_count := 3;
                  AppendBlkAlloc.chunk_num := 1 |}] in
  AppendBlkAlloc.m_last_append_offset (AppendBlkAlloc.run cfg a0 cs) = 12 /\
  exists a',
    AppendBlkAlloc.on_meta_blk_found cfg a0
      (AppendBlkAlloc.m_sb (AppendBlkAlloc.cp_flush (AppendBlkAlloc.run cfg a0 cs)))
    = Some a' /\
    AppendBlkAlloc.m_last_append_offset a' = 5 /\
    AppendBlkAlloc.m_freeable_nblks a' = 3.
Proof.
  cbv zeta. split; [reflexivity|].
  destruct (cp_flush_recovery_round_trip AppendBlkAlloc.ex_cfg
              (AppendBlkAlloc.construct_format AppendBlkAlloc.ex_cfg 0)
              [AppendBlkAlloc.CAlloc 12 AppendBlkAlloc.no_hint;
               AppendBlkAlloc.CReserveOnDisk
                 {| AppendBlkAlloc.blk_num := 0; AppendBlkAlloc.blk_count := 5;
                    AppendBlkAlloc.chunk_num := 1 |};
               AppendBlkAlloc.CFree
                 {| AppendBlkAlloc.blk_num := 0; AppendBlkAlloc.blk_count := 3;
                    AppendBlkAlloc.chunk_num := 1 |}]
              (AppendBlkAlloc.construct_format AppendBlkAlloc.ex_cfg 0)
              (AppendBlkAlloc.started_format AppendBlkAlloc.ex_cfg 0))
    as (a' & H1 & _ & H3 & H4).
  exists a'. split; [exact H1|]. split; [exact H3 | exact H4].
Defined.

(** Witness of X3: five blocks allocated and reserved on disk are reported
    on disk once the checkpoint has flushed. *)
Lemma on_disk_view_follows_cp_flush_witness :
  let cfg := AppendBlkAlloc.ex_cfg in
  let b := {| AppendBlkAlloc.blk_num := 0; AppendBlkAlloc.blk_count := 5;
              AppendBlkAlloc.chunk_num := 1 |} in
  let a := AppendBlkAlloc.run cfg (AppendBlkAlloc.construct_format cfg 0)
             [AppendBlkAlloc.CAlloc 5 AppendBlkAlloc.no_hint] in
  AppendBlkAlloc.is_blk_alloced_on_disk
    (snd (AppendBlkAlloc.reserve_on_disk cfg a b)) b = false /\
  AppendBlkAlloc.is_blk_alloced_on_disk
    (AppendBlkAlloc.cp_flush (snd (AppendBlkAlloc.reserve_on_disk cfg a b))) b = true.
Proof.
  cbv zeta. split; [reflexivity|].
  apply (on_disk_view_follows_cp_flush AppendBlkAlloc.ex_cfg
           (AppendBlkAlloc.construct_format AppendBlkAlloc.ex_cfg 0)
           [AppendBlkAlloc.CAlloc 5 AppendBlkAlloc.no_hint]
           {| AppendBlkAlloc.blk_num := 0; AppendBlkAlloc.blk_count := 5;
              AppendBlkAlloc.chunk_num := 1 |}
           (AppendBlkAlloc.started_format AppendBlkAlloc.ex_cfg 0));
    simpl; lia.
Defined.

(** Witness of X4: a reservation on disk of an extent below the commit
    offset leaves the offset where it was. *)
Lemma commit_offset_never_lowered_witness :
  let cfg := AppendBlkAlloc.ex_cfg in
  let a0 := AppendBlkAlloc.construct_format cfg 0 in
  let hi := {| AppendBlkAlloc.blk_num := 0; AppendBlkAlloc.blk_count := 9;
               AppendBlkAlloc.chunk_num := 1 |} in
  let lo := {| AppendBlkAlloc.blk_num := 0; AppendBlkAlloc.blk_count := 4;
               AppendBlkAlloc.chunk_num := 1 |} in
  AppendBlkAlloc.m_commit_offset
    (AppendBlkAlloc.run cfg a0 [AppendBlkAlloc.CReserveOnDisk hi])
  <= AppendBlkAlloc.m_commit_offset
       (AppendBlkAlloc.run cfg a0
          ([AppendBlkAlloc.CReserveOnDisk hi]
           ++ [AppendBlkAlloc.CReserveOnDisk lo; AppendBlkAlloc.CCpFlush])).
Proof.
  cbv zeta.
  apply (commit_offset_never_lowered AppendBlkAlloc.ex_cfg
           (AppendBlkAlloc.construct_format AppendBlkAlloc.ex_cfg 0)
           [AppendBlkAlloc.CReserveOnDisk
              {| AppendBlkAlloc.blk_num := 0; AppendBlkAlloc.blk_count := 9;
                 AppendBlkAlloc.chunk_num := 1 |}]
           [AppendBlkAlloc.CReserveOnDisk
              {| AppendBlkAlloc.blk_num := 0; AppendBlkAlloc.blk_count := 4;
                 AppendBlkAlloc.chunk_num := 1 |};
            AppendBlkAlloc.CCpFlush]
           (AppendBlkAlloc.started_format AppendBlkAlloc.ex_cfg 0)).
  reflexivity.
Defined.

(** ** Rollback superblock *)

Section RollbackSbFacts.
Import RollbackSb.

Lemma u32_small x : 0 <= x < 2 ^ 32 -> LogGroupFmt.u32 x = x.
Proof. intros H. unfold LogGroupFmt.u32. apply wrap_small. exact H. Qed.

(** X6. [remove_ith_record(i)] on a record in use deletes exactly that
    record: the records in use afterwards are the earlier ones with record
    [i] taken out and the order kept, the count is one less, and the
    allocation keeps its size. An index outside the records in use is
    outside what the function can do. *)
Theorem remove_ith_record_deletes sb i :
  (0 <= i < num_records sb ->
   num_records sb <= Z.of_nat (length (slots sb)) ->
   num_records sb <= 2 ^ 32 ->
   exists sb',
     remove_ith_record sb i = Some sb' /\
     records sb' = delete (Z.to_nat i) (records sb) /\
     num_records sb' = num_records sb - 1 /\
     length (slots sb') = length (slots sb)) /\
  (i < 0 \/ num_records sb <= i -> remove_ith_record sb i = None).
Proof.
  split.
  - intros Hi Hcap Hn. unfold remove_ith_record.
    destruct (Z.leb_spec 0 i); [|lia].
    destruct (Z.ltb_spec i (num_records sb)); [|lia].
    destruct (Z.leb_spec (num_records sb) (Z.of_nat (length (slots sb)))); [|lia].
    cbn [andb]. eexists. split; [reflexivity|].
    set (n := num_records sb) in *. set (s := slots sb) in *.
    assert (Hm : take (Z.to_nat (n - i - 1)) (drop (Z.to_nat (i + 1)) s)
                 = drop (S (Z.to_nat i)) (take (Z.to_nat n) s)).
    { rewrite take_drop_commute. f_equal; [lia|]. f_equal. lia. }
    assert (Hlm : length (take (Z.to_nat (n - i - 1)) (drop (Z.to_nat (i + 1)) s))
                  = Z.to_nat (n - i - 1)).
    { rewrite length_take, length_drop. lia. }
    assert (Hli : length (take (Z.to_nat i) s) = Z.to_nat i).
    { rewrite length_take. lia. }
    unfold records. cbn [num_records slots]. fold n s.
    rewrite u32_small by lia.
    split; [|split; [reflexivity|]].
    + rewrite app_assoc.
      rewrite take_app_length' by (rewrite length_app, Hli, Hlm; lia).
      rewrite delete_take_drop, take_take, Hm.
      f_equal. f_equal. lia.
    + rewrite !length_app, Hli, Hlm, length_drop. lia.
  - intros Hi. unfold remove_ith_record.
    destruct Hi as [Hi|Hi].
    + destruct (Z.leb_spec 0 i); [lia|]. reflexivity.
    + destruct (Z.ltb_spec i (num_records sb)); [lia|].
      rewrite andb_false_r. reflexivity.
Qed.

(** X7. [add_record] writes the record to the first free slot, so the
    records in use grow by it at the end and [at] of the old count reads it
    back; removing that last record again gives the records and the count
    there were. Without a free slot the write would leave the allocation. *)
Theorem add_record_appends sb s r :
  (0 <= num_records sb < Z.of_nat (length (slots sb)) ->
   num_records sb + 1 < 2 ^ 32 ->
   exists sb' sb'',
     add_record sb s r = Some sb' /\
     records sb' = records sb ++ [{| rb_store_id := s; idx_range := r |}] /\
     num_records sb' = num_records sb + 1 /\
     at_ sb' (num_records sb) = Some {| rb_store_id := s; idx_range := r |} /\
     remove_ith_record sb' (num_records sb) = Some sb'' /\
     records sb'' = records sb /\
     num_records sb'' = num_records sb) /\
  (Z.of_nat (length (slots sb)) <= num_records sb -> add_record sb s r = None).
Proof.
  split.
  - intros Hn Hlt.
    set (x := {| rb_store_id := s; idx_range := r |}).
    set (sb' := {| magic := magic sb; version := version sb;
                   logdev_id := logdev_id sb;
                   num_records := num_records sb + 1;
                   slots := <[Z.to_nat (num_records sb) := x]> (slots sb) |}).
    assert (Hadd : add_record sb s r = Some sb').
    { unfold add_record.
      destruct (Z.leb_spec 0 (num_records sb)); [|lia].
      destruct (Z.ltb_spec (num_records sb) (Z.of_nat (length (slots sb)))); [|lia].
      cbn [andb]. rewrite u32_small by lia. reflexivity. }
    assert (Hlook : slots sb' !! Z.to_nat (num_records sb) = Some x).
    { unfold sb'. cbn [slots]. apply list_lookup_insert_eq. lia. }
    assert (Hrec : records sb' = records sb ++ [x]).
    { unfold records. replace (Z.to_nat (num_records sb')) with (S (Z.to_nat (num_records sb)))
        by (unfold sb'; cbn [num_records]; lia).
      rewrite (take_S_r _ _ x Hlook). f_equal.
      unfold sb'. cbn [slots]. apply take_insert_ge. lia. }
    destruct (remove_ith_record_deletes sb' (num_records sb)) as [Hrem _].
    destruct Hrem as (sb'' & R1 & R2 & R3 & _).
    { unfold sb'. cbn [num_records]. lia. }
    { unfold sb'. cbn [num_records slots]. rewrite length_insert. lia. }
    { unfold sb'. cbn [num_records]. lia. }
    exists sb', sb''. split; [exact Hadd|]. split; [exact Hrec|].
    split; [reflexivity|]. split.
    { unfold at_. destruct (Z.ltb_spec (num_records sb) 0); [lia|]. exact Hlook. }
    split; [exact R1|]. split.
    + rewrite R2, Hrec.
      replace (Z.to_nat (num_records sb)) with (length (records sb))
        by (unfold records; rewrite length_take; lia).
      rewrite delete_take_drop, take_app_length.
      rewrite drop_ge by (rewrite length_app; simpl; lia).
      apply app_nil_r.
    + rewrite R3. unfold sb'. cbn [num_records]. lia.
  - intros H. unfold add_record.
    destruct (Z.ltb_spec (num_records sb) (Z.of_nat (length (slots sb)))); [lia|].
    rewrite andb_false_r. reflexivity.
Qed.

End RollbackSbFacts.

(** ** Loading the log *)

Section LogRecoveryFacts.
Import LogGroupFmt LogDevice LogRecovery.
Variable decode : list Z -> log_group_header * list serialized_log_record.

Lemma nth_record_lookup slots : forall n,
  0 <= n -> nth_record slots n = slots !! Z.to_nat n.
Proof.
  induction slots as [|r rest IH]; intros n Hn; simpl; [reflexivity|].
  destruct (Z.eqb_spec n 0) as [->|Hne]; [reflexivity|].
  rewrite IH by lia.
  replace (Z.to_nat n) with (S (Z.to_nat (n - 1))) by lia. reflexivity.
Qed.

Lemma found_record_some h slots off buf i :
  0 <= i < Z.of_nat (length slots) ->
  is_Some (found_record h slots off buf i).
Proof.
  intros Hi. unfold found_record. rewrite nth_record_lookup by lia.
  destruct (lookup_lt_is_Some_2 slots (Z.to_nat i)) as [r Hr]; [lia|].
  rewrite Hr. eauto.
Qed.

Lemma replay_records_spec h slots off buf fuel : forall i,
  0 <= i -> i + Z.of_nat fuel <= Z.of_nat (length slots) ->
  replay_records fuel h slots off buf i
  = Some (omap (found_record h slots off buf) (seqZ i (Z.of_nat fuel))).
Proof.
  induction fuel as [|fuel IH]; intros i Hi Hle.
  - reflexivity.
  - cbn [replay_records].
    destruct (found_record_some h slots off buf i) as [f Hf]; [lia|].
    rewrite Hf. rewrite IH; [|lia|rewrite Nat2Z.inj_succ in Hle; lia].
    rewrite Nat2Z.inj_succ. rewrite (seqZ_cons i) by lia. cbn [omap list_omap]. rewrite Hf.
    replace (Z.pred (Z.succ (Z.of_nat fuel))) with (Z.of_nat fuel) by lia.
    reflexivity.
Qed.

Lemma load_groups_spec stream : forall d cbs,
  Forall (group_ok decode) stream ->
  exists d',
    load_groups decode stream d cbs = Some (d', cbs ++ stream_callbacks decode stream) /\
    d' = (if decide (stream = []) then d
          else set_log_idx d (loaded_idx decode d stream)).
Proof.
  induction stream as [|[off buf] rest IH]; intros d cbs Hok.
  - exists d. unfold stream_callbacks. simpl. rewrite app_nil_r. auto.
  - inversion Hok as [|g gs [Hne Hn] Hrest E]; subst. simpl in Hne, Hn.
    cbn [load_groups].
    destruct (Z.eqb_spec (Z.of_nat (length buf)) 0) as [E0|_].
    { destruct buf; [congruence | simpl in E0; lia]. }
    destruct (decode buf) as [h slots] eqn:Ed. simpl in Hn.
    rewrite (replay_records_spec h slots off buf _ 0) by lia.
    rewrite Z2Nat.id by lia.
    destruct (IH (set_log_idx d (start_idx h + nrecords h))
                 (cbs ++ omap (found_record h slots off buf) (seqZ 0 (nrecords h)))
                 Hrest) as (d' & Hl & Hd').
    exists d'. split.
    + rewrite Hl. unfold stream_callbacks. cbn [map concat].
      unfold group_callbacks at 2. cbn [fst snd]. rewrite Ed.
      rewrite <- app_assoc. reflexivity.
    + rewrite Hd'. destruct (decide (rest = [])) as [->|Hr].
      * rewrite decide_False by discriminate.
        unfold loaded_idx. simpl. rewrite Ed. reflexivity.
      * rewrite decide_False by discriminate.
        unfold loaded_idx. destruct rest as [|g' rest']; [congruence|].
        change (last ((off, buf) :: g' :: rest')) with (last (g' :: rest')).
        destruct (last (g' :: rest')) as [g|] eqn:El; [reflexivity|].
        apply last_None in El. discriminate.
Qed.

Lemma omap_lookup_total {A B} (f : A -> option B) (l : list A) : forall n,
  (forall x, x ∈ l -> is_Some (f x)) ->
  omap f l !! n = l !! n ≫= f.
Proof.
  induction l as [|a l IH]; intros n Hall; [reflexivity|].
  cbn [omap list_omap].
  destruct (Hall a) as [b Hb]; [left|]. rewrite Hb.
  destruct n as [|n]; simpl; [rewrite Hb; reflexivity|].
  apply IH. intros x Hx. apply Hall. right. exact Hx.
Qed.

Lemma omap_length_total {A B} (f : A -> option B) (l : list A) :
  (forall x, x ∈ l -> is_Some (f x)) -> length (omap f l) = length l.
Proof.
  induction l as [|a l IH]; intros Hall; [reflexivity|].
  cbn [omap list_omap].
  destruct (Hall a) as [b Hb]; [left|]. rewrite Hb. simpl. f_equal.
  apply IH. intros x Hx. apply Hall. right. exact Hx.
Qed.

Lemma group_callbacks_lookup g h slots i r :
  decode (snd g) = (h, slots) ->
  0 <= nrecords h <= Z.of_nat (length slots) ->
  0 <= i < nrecords h ->
  slots !! Z.to_nat i = Some r ->
  length (group_callbacks decode g) = Z.to_nat (nrecords h) /\
  group_callbacks decode g !! Z.to_nat i
  = Some (LogFound (store_id r) (store_seq_num r)
            {| idx := start_idx h + i; dev_offset := fst g |}
            (slice (snd g) (load_data_offset h r) (size r))).
Proof.
  intros Ed Hn Hi Hr. unfold group_callbacks. rewrite Ed.
  assert (Hall : forall x, x ∈ seqZ 0 (nrecords h) ->
            is_Some (found_record h slots (fst g) (snd g) x)).
  { intros x Hx. apply elem_of_seqZ in Hx. apply found_record_some. lia. }
  split.
  - rewrite omap_length_total by exact Hall. apply length_seqZ.
  - rewrite omap_lookup_total by exact Hall.
    rewrite (lookup_seqZ_lt 0 (nrecords h) (Z.to_nat i)) by lia.
    cbn [mbind option_bind]. rewrite Z.add_0_l, Z2Nat.id by lia.
    unfold found_record. rewrite nth_record_lookup by lia. rewrite Hr.
    reflexivity.
Qed.

Section Checked.
Variable max_blks_read_for_additional_check : Z.

Lemma assert_next_pages_idx d1 d2 pages :
  m_log_idx d1 = m_log_idx d2 ->
  assert_next_pages decode max_blks_read_for_additional_check d1 pages
  = assert_next_pages decode max_blks_read_for_additional_check d2 pages.
Proof. intros H. unfold assert_next_pages. rewrite H. reflexivity. Qed.

Local Abbreviation do_load' := (do_load decode max_blks_read_for_additional_check).
Local Abbreviation assert_next_pages' :=
  (assert_next_pages decode max_blks_read_for_additional_check).

(** X8. [do_load] replays a stream of groups in order: it makes one
    [m_logfound_cb] call for every record of every group, record [i] of a
    group with log index [start_idx + i], the device offset of the group
    and the [size] bytes at [offset + (inlined ? 0 : oob_data_offset)] of
    the group's buffer; the log index of the device ends as that after the
    last group (unchanged for an empty stream), the store's tail is where
    the reader stopped, and the call aborts exactly when one of the pages
    checked after the end holds a header that starts at or past the loaded
    index. *)
Theorem do_load_replays_stream d stream pages seeked_pos :
  Forall (group_ok decode) stream ->
  (assert_next_pages' (set_log_idx d (loaded_idx decode d stream)) pages = true ->
   exists d',
     do_load' d stream pages seeked_pos
       = Some (d', stream_callbacks decode stream) /\
     m_log_idx d' = loaded_idx decode d stream /\
     store_tail d' = seeked_pos /\
     m_log_records d' = m_log_records d /\
     m_last_flush_idx d' = m_last_flush_idx d /\
     m_last_crc d' = m_last_crc d /\
     trace d' = trace d) /\
  (assert_next_pages' (set_log_idx d (loaded_idx decode d stream)) pages = false ->
   do_load' d stream pages seeked_pos = None) /\
  (forall g h slots i r,
     g ∈ stream -> decode (snd g) = (h, slots) ->
     0 <= i < nrecords h -> slots !! Z.to_nat i = Some r ->
     length (group_callbacks decode g) = Z.to_nat (nrecords h) /\
     group_callbacks decode g !! Z.to_nat i
     = Some (LogFound (store_id r) (store_seq_num r)
               {| idx := start_idx h + i; dev_offset := fst g |}
               (slice (snd g) (load_data_offset h r) (size r)))).
Proof.
  intros Hok.
  destruct (load_groups_spec stream d [] Hok) as (d1 & Hl & Hd1).
  assert (Hidx : m_log_idx d1 = loaded_idx decode d stream).
  { rewrite Hd1. destruct (decide (stream = [])) as [->|_]; reflexivity. }
  assert (Hfr : m_log_records d1 = m_log_records d /\
                m_last_flush_idx d1 = m_last_flush_idx d /\
                m_last_crc d1 = m_last_crc d /\ trace d1 = trace d).
  { rewrite Hd1. destruct (decide (stream = [])); auto. }
  assert (Ha : assert_next_pages' d1 pages
               = assert_next_pages'
                   (set_log_idx d (loaded_idx decode d stream)) pages).
  { apply assert_next_pages_idx. rewrite Hidx. reflexivity. }
  split; [|split].
  - intros Hp. unfold do_load. rewrite Hl, Ha, Hp.
    eexists. split; [reflexivity|]. cbn. tauto.
  - intros Hp. unfold do_load. rewrite Hl, Ha, Hp. reflexivity.
  - intros g h slots i r Hg Ed Hi Hr.
    rewrite Forall_forall in Hok. destruct (Hok g Hg) as [_ Hn].
    rewrite Ed in Hn. simpl in Hn.
    apply (group_callbacks_lookup g h slots i r); assumption.
Qed.


Section Started.
Variable cfg : log_config.

(** X10. After [start(format = false)] the reserved stores have been
    announced before any log entry, the tracker is empty, nothing is pending
    or flushing, [m_last_flush_idx] is the index before the loaded one, and
    the next [append_async] gets the log index that follows the last
    record loaded. *)
Theorem start_recover_resumes id reserved stream pages seeked_pos d cbs :
  Forall (group_ok decode) stream ->
  start_recover decode max_blks_read_for_additional_check id reserved stream
    pages seeked_pos = Some (d, cbs) ->
  cbs = map StoreFound reserved ++ stream_callbacks decode stream /\
  m_log_idx d = loaded_idx decode (formatted id) stream /\
  m_last_flush_idx d = m_log_idx d - 1 /\
  m_log_records d = ∅ /\
  m_is_flushing d = false /\
  m_pending_flush_size d = 0 /\
  forall fdt mt crc sid seq data addr al ctx now,
    fst (append_async cfg crc fdt mt d sid seq data addr al ctx now)
    = loaded_idx decode (formatted id) stream.
Proof.
  intros Hok Hs. unfold start_recover in Hs.
  destruct (do_load_replays_stream (formatted id) stream pages seeked_pos Hok)
    as (Hyes & Hno & _).
  destruct (assert_next_pages'
              (set_log_idx (formatted id) (loaded_idx decode (formatted id) stream))
              pages) eqn:Ea.
  - destruct (Hyes eq_refl) as (d1 & Hl & Hi & _ & _ & _ & _ & _).
    rewrite Hl in Hs. injection Hs as <- <-.
    cbn [m_log_idx set_last_flush_idx set_log_records m_last_flush_idx
         m_log_records m_is_flushing m_pending_flush_size].
    split; [reflexivity|]. split; [exact Hi|]. split; [reflexivity|].
    split; [reflexivity|].
    unfold do_load in Hl.
    destruct (load_groups decode stream (formatted id) []) as [[d0 c0]|] eqn:El;
      [|discriminate].
    destruct (load_groups_spec stream (formatted id) [] Hok) as (d0' & Hl' & Hd0).
    rewrite El in Hl'. injection Hl' as -> _.
    destruct (assert_next_pages' d0' pages); [|discriminate].
    injection Hl as <-.
    split; [|split].
    + rewrite Hd0. destruct (decide (stream = [])); reflexivity.
    + rewrite Hd0. destruct (decide (stream = [])); reflexivity.
    + intros. unfold append_async. cbn [fst]. cbn. exact Hi.
  - rewrite (Hno eq_refl) in Hs. discriminate.
Qed.

End Started.

End Checked.

Section Read.
Variable cfg : log_config.
Variable crc32_ieee : Z -> list Z -> Z.
Variable init_crc32 : Z.

(** X9. Recovery and [read] agree: for a group that lies in the store at
    offset [off], the payload that [do_load] hands to [m_logfound_cb] for
    record [i] is the payload that [read] returns for the key of that
    callback, namely the [size] bytes of the store at
    [off + offset + (inlined ? 0 : oob_data_offset)]. *)
Theorem read_agrees_with_load store off h slots i r :
  decode (pread store initial_read_size off) = (h, slots) ->
  decode (pread store (group_size h) off) = (h, slots) ->
  magic h = LOG_GROUP_HDR_MAGIC ->
  0 <= n_log_records h <= Z.of_nat (length slots) ->
  n_log_records h <= 2 ^ 32 ->
  (group_size h <= initial_read_size ->
   cur_grp_crc h
   = crc32_ieee init_crc32
       (slice (pread store initial_read_size off)
          (sizeof_log_group_header cfg)
          (group_size h - sizeof_log_group_header cfg))) ->
  0 <= i < n_log_records h ->
  slots !! Z.to_nat i = Some r ->
  0 <= size r -> 0 <= offset r -> 0 <= oob_data_offset h ->
  offset r + oob_data_offset h < 2 ^ 32 ->
  load_data_offset h r + size r <= group_size h ->
  exists payload,
    group_callbacks decode (off, pread store (group_size h) off) !! Z.to_nat i
    = Some (LogFound (store_id r) (store_seq_num r)
              {| idx := start_log_idx h + i; dev_offset := off |} payload) /\
    read cfg decode crc32_ieee init_crc32 store {| idx := start_log_idx h + i; dev_offset := off |} = Some payload /\
    payload = pread store (size r) (off + load_data_offset h r).
Proof.
  intros Hd1 Hd2 Hm Hn Hn32 Hcrc Hi Hr Hsz Hoff Hoob Hsum Hfit.
  assert (Hdo : load_data_offset h r
                = offset r + (if negb (is_inlined r =? 0) then 0
                              else oob_data_offset h)).
  { unfold load_data_offset. apply wrap_small.
    destruct (negb (is_inlined r =? 0)); lia. }
  exists (pread store (size r) (off + load_data_offset h r)).
  split; [|split; [|reflexivity]].
  - destruct (group_callbacks_lookup (off, pread store (group_size h) off)
                h slots i r Hd2 Hn Hi Hr) as [_ Hl].
    rewrite Hl. cbn [fst snd]. unfold start_idx. do 2 f_equal.
    apply (slice_pread store (group_size h) off); [rewrite Hdo|..]; try lia.
    destruct (negb (is_inlined r =? 0)); lia.
  - rewrite Hdo.
    apply (read_payload_location cfg decode crc32_ieee init_crc32 store
             {| idx := start_log_idx h + i; dev_offset := off |} h slots r);
      cbn [idx dev_offset]; try assumption; try lia.
    replace (start_log_idx h + i - start_log_idx h) with i by lia.
    rewrite nth_record_lookup by lia. exact Hr.
Qed.

End Read.

End LogRecoveryFacts.

(** ** Log device: indexes and the flush lock *)

Section LogDeviceUse.
Import LogGroupFmt LogDevice.
Variable cfg : log_config.
Variable compute_crc : LogGroup -> Z.
Variable flush_data_threshold_size : Z.
Variable max_time_between_flush_us : Z.

Local Abbreviation flush_if_needed' :=
  (flush_if_needed cfg compute_crc flush_data_threshold_size max_time_between_flush_us).
Local Abbreviation unlock_flush' :=
  (unlock_flush cfg compute_crc flush_data_threshold_size max_time_between_flush_us).
Local Abbreviation append_async' :=
  (append_async cfg compute_crc flush_data_threshold_size max_time_between_flush_us).
Local Abbreviation on_flush_completion' :=
  (on_flush_completion cfg compute_crc flush_data_threshold_size max_time_between_flush_us).
Local Abbreviation reachable' :=
  (reachable cfg compute_crc flush_data_threshold_size max_time_between_flush_us).

Lemma flush_if_needed_log_idx d sz new_idx now :
  m_log_idx (flush_if_needed' d sz new_idx now) = m_log_idx d.
Proof.
  destruct (flush_due flush_data_threshold_size max_time_between_flush_us d
              (m_pending_flush_size d + sz) now && negb (m_is_flushing d)) eqn:E.
  - apply andb_true_iff in E as [Hd Hf]. apply negb_true_iff in Hf.
    destruct (flush_if_needed_starts cfg compute_crc flush_data_threshold_size
                max_time_between_flush_us d sz new_idx now Hd Hf)
      as (_ & _ & _ & _ & _ & _ & _ & H & _). exact H.
  - rewrite flush_if_needed_idle by exact E. reflexivity.
Qed.

Lemma unlock_flush_log_idx d now :
  m_log_idx (unlock_flush' d now) = m_log_idx d /\
  m_block_flush_q (unlock_flush' d now) = [].
Proof.
  unfold unlock_flush.
  destruct (flush_if_needed_frame cfg compute_crc flush_data_threshold_size
              max_time_between_flush_us (release_flush d) 0 (-1) now)
    as (_ & _ & Hq).
  rewrite flush_if_needed_log_idx, Hq.
  unfold release_flush, run_blocked.
  destruct (m_block_flush_q d) as [|cb q] eqn:Eq; simpl; [rewrite Eq|]; auto.
Qed.

Lemma append_comp_loop_log_idx lg k fuel : forall d i d',
  append_comp_loop fuel d lg k i = Some d' ->
  m_log_idx d' = m_log_idx d /\ m_log_records d' = m_log_records d.
Proof.
  induction fuel as [|fuel IH]; intros d i d' H; simpl in H.
  - injection H as <-. auto.
  - destruct (tracker_at (m_log_records d) i) as [r|]; [|discriminate].
    apply IH in H as [H1 H2]. rewrite H1, H2. auto.
Qed.

Lemma truncate_lookup d key j s :
  m_log_records (truncate d key) !! j = Some s ->
  m_log_records d !! j = Some s /\ idx key < j.
Proof.
  unfold truncate, tracker_truncate. cbn [m_log_records set_log_records].
  intros H. apply map_lookup_filter_Some in H. exact H.
Qed.

Lemma tracker_bounded_reachable id w :
  reachable' id w -> tracker_bounded (dev w).
Proof.
  induction 1 as [|w w' _ IH Hstep].
  - split; [simpl; lia|]. intros j. simpl. rewrite lookup_empty.
    intros [x Hx]. discriminate.
  - destruct IH as [H0 IH].
    destruct Hstep as
      [w sid sq dt da al ctx now | w now | w lg now d' Hlg Hcomp | w cb | w now Hcl
      | w key];
      cbn [dev].
    + unfold append_async. cbn [snd]. unfold tracker_bounded.
      destruct (flush_if_needed_frame cfg compute_crc flush_data_threshold_size
                  max_time_between_flush_us
                  (set_log_records (set_log_idx (dev w) (m_log_idx (dev w) + 1))
                     (tracker_create
                        (m_log_records (set_log_idx (dev w) (m_log_idx (dev w) + 1)))
                        (m_log_idx (dev w))
                        {| data := dt; data_addr := da; data_is_aligned := al;
                           context := ctx; rec_store_id := sid; seq_num := sq |}))
                  (data_size {| data := dt; data_addr := da; data_is_aligned := al;
                                context := ctx; rec_store_id := sid; seq_num := sq |})
                  (m_log_idx (dev w)) now) as (_ & Hr & _).
      rewrite flush_if_needed_log_idx, Hr. cbn.
      split; [lia|]. intros j. unfold tracker_create.
      destruct (Z.eq_dec j (m_log_idx (dev w))) as [->|Hne].
      * intros _. lia.
      * rewrite lookup_insert_ne by congruence. intros Hj. apply IH in Hj. lia.
    + unfold tracker_bounded.
      destruct (flush_if_needed_frame cfg compute_crc flush_data_threshold_size
                  max_time_between_flush_us (dev w) 0 (-1) now) as (_ & Hr & _).
      rewrite flush_if_needed_log_idx, Hr. auto.
    + unfold on_flush_completion in Hcomp.
      destruct (append_comp_loop _ _ _ _ _) as [d3|] eqn:Eloop; [|discriminate].
      injection Hcomp as <-.
      apply append_comp_loop_log_idx in Eloop as [E1 E2]. cbn in E1, E2.
      unfold tracker_bounded.
      destruct (unlock_flush_facts cfg compute_crc flush_data_threshold_size
                  max_time_between_flush_us
                  (set_last_crc d3 (cur_grp_crc (header lg))) now)
        as (rest & _ & _ & _ & Hr).
      destruct (unlock_flush_log_idx (set_last_crc d3 (cur_grp_crc (header lg))) now)
        as [Hi _].
      rewrite Hi, Hr. cbn. rewrite E1, E2.
      split; [exact H0|]. intros j. rewrite tracker_complete_lookup.
      intros Hj. apply IH.
      destruct (m_log_records (dev w) !! j); [eauto|].
      destruct Hj as [x Hx]. discriminate.
    + unfold try_lock_flush. destruct (negb _); cbn; split; assumption.
    + unfold tracker_bounded.
      destruct (unlock_flush_facts cfg compute_crc flush_data_threshold_size
                  max_time_between_flush_us (dev w) now) as (rest & _ & _ & _ & Hr).
      destruct (unlock_flush_log_idx (dev w) now) as [Hi _].
      rewrite Hi, Hr. auto.
    + split; [exact H0|]. intros j [x Hx].
      apply truncate_lookup in Hx as [Hx _]. apply IH. eauto.
Qed.

(** X11. [append_async] never hands out a log index that is in use. In a run
    of a started device up to its stop (appends, timer flushes,
    completions, locking and unlocking of the flush, truncations), every
    index that the tracker holds lies below [m_log_idx]; the call returns
    [m_log_idx], which the tracker does not hold, stores the record under
    it with its payload, store id, sequence number and context, leaves the
    other slots alone and moves [m_log_idx] on by one. *)
Theorem append_async_fresh_index id w sid sq dt da al ctx now :
  reachable' id w ->
  let r := append_async' (dev w) sid sq dt da al ctx now in
  fst r = m_log_idx (dev w) /\
  0 <= fst r /\
  m_log_records (dev w) !! fst r = None /\
  (forall j, is_Some (m_log_records (dev w) !! j) -> 0 <= j < fst r) /\
  tracker_at (m_log_records (snd r)) (fst r)
  = Some {| data := dt; data_addr := da; data_is_aligned := al;
            context := ctx; rec_store_id := sid; seq_num := sq |} /\
  (forall j, j <> fst r ->
     m_log_records (snd r) !! j = m_log_records (dev w) !! j) /\
  m_log_idx (snd r) = fst r + 1.
Proof.
  intros Hr r. destruct (tracker_bounded_reachable id w Hr) as [H0 Hd].
  assert (Hfst : fst r = m_log_idx (dev w)) by reflexivity.
  rewrite Hfst.
  assert (Hrec : m_log_records (snd r)
                 = tracker_create (m_log_records (dev w)) (m_log_idx (dev w))
                     {| data := dt; data_addr := da; data_is_aligned := al;
                        context := ctx; rec_store_id := sid; seq_num := sq |}).
  { unfold r, append_async. cbn [snd].
    destruct (flush_if_needed_frame cfg compute_crc flush_data_threshold_size
                max_time_between_flush_us
                (set_log_records (set_log_idx (dev w) (m_log_idx (dev w) + 1))
                   (tracker_create
                      (m_log_records (set_log_idx (dev w) (m_log_idx (dev w) + 1)))
                      (m_log_idx (dev w))
                      {| data := dt; data_addr := da; data_is_aligned := al;
                         context := ctx; rec_store_id := sid; seq_num := sq |}))
                (data_size {| data := dt; data_addr := da; data_is_aligned := al;
                              context := ctx; rec_store_id := sid; seq_num := sq |})
                (m_log_idx (dev w)) now) as (_ & Hf & _).
    rewrite Hf. reflexivity. }
  split; [reflexivity|]. split; [exact H0|]. split.
  { destruct (m_log_records (dev w) !! m_log_idx (dev w)) eqn:E; [|reflexivity].
    assert (Hs : is_Some (m_log_records (dev w) !! m_log_idx (dev w))) by eauto.
    apply Hd in Hs. lia. }
  split; [exact Hd|]. split.
  { rewrite Hrec. unfold tracker_at, tracker_create.
    rewrite lookup_insert_eq. reflexivity. }
  split.
  { intros j Hj. rewrite Hrec. unfold tracker_create.
    apply lookup_insert_ne. congruence. }
  unfold r, append_async. cbn [snd]. rewrite flush_if_needed_log_idx. reflexivity.
Qed.

(** X12. While a client holds the flush lock it won through
    [try_lock_flush], the flushing flag is set, no group is in flight, and
    [flush_if_needed] writes no group whatever is pending. *)
Theorem flush_lock_excludes_flush id w :
  reachable' id w -> client_locked w = true ->
  m_is_flushing (dev w) = true /\
  in_flight w = [] /\
  forall sz new_idx now,
    writes (trace (flush_if_needed' (dev w) sz new_idx now))
    = writes (trace (dev w)).
Proof.
  intros Hr Hc.
  destruct (world_inv_reachable cfg compute_crc flush_data_threshold_size
              max_time_between_flush_us id w Hr) as (Hlen & Hidle & Hclk & _).
  assert (Hf : m_is_flushing (dev w) = true).
  { destruct (m_is_flushing (dev w)); [reflexivity|].
    destruct (Hidle eq_refl) as [_ H]. congruence. }
  split; [exact Hf|]. split.
  - unfold in_flight. apply drop_ge. rewrite (Hclk Hc). lia.
  - intros sz new_idx now. rewrite flush_if_needed_writes, Hf.
    rewrite andb_false_r. apply app_nil_r.
Qed.


End LogDeviceUse.

(** ** Write-back cache: submissions *)

Section WBCacheSubmission.
Import WBCache.

Lemma blk_write_count_app x l1 l2 :
  blk_write_count x (l1 ++ l2) = blk_write_count x l1 + blk_write_count x l2.
Proof.
  induction l1 as [|e l1 IH]; simpl; [reflexivity|].
  destruct e; rewrite IH; lia.
Qed.

Lemma sent_inv_ext c c' :
  reqs c' = reqs c ->
  (forall x, blk_write_count x (events c') = blk_write_count x (events c)) ->
  sent_inv c -> sent_inv c'.
Proof.
  intros Hr He [H1 H2]. split.
  - intros x r Hx. rewrite Hr in Hx. rewrite He. apply H1. exact Hx.
  - intros x Hx. rewrite Hr in Hx. rewrite He. apply H2. exact Hx.
Qed.

Lemma sent_inv_emit_cp c cp : sent_inv c -> sent_inv (emit c (EvCpComp cp)).
Proof.
  apply sent_inv_ext; [reflexivity|]. intros x. cbn.
  rewrite blk_write_count_app. simpl. lia.
Qed.

Lemma sent_inv_set_req c x r' :
  (forall r, reqs c !! x = Some r ->
     submitted (state r') = submitted (state r) /\
     (submitted (state r) = true -> dependent_cnt r' <= dependent_cnt r)) ->
  sent_inv c -> sent_inv (set_req c x r').
Proof.
  intros Hrel [H1 H2]. split.
  - intros y ry Hy. cbn in Hy |- *.
    destruct (decide (y = x)) as [->|Hne].
    + destruct (lookup_lt_is_Some_2 (reqs c) x) as [r0 Hr0].
      { apply lookup_lt_Some in Hy. rewrite length_insert in Hy. exact Hy. }
      rewrite list_lookup_insert_eq in Hy
        by (apply lookup_lt_Some in Hr0; exact Hr0).
      injection Hy as <-.
      destruct (Hrel r0 Hr0) as [Hs Hc]. destruct (H1 x r0 Hr0) as [Hn Hle].
      rewrite Hs. split; [exact Hn|]. intros Hsub. specialize (Hc Hsub).
      specialize (Hle Hsub). lia.
    + rewrite list_lookup_insert_ne in Hy by congruence. apply H1. exact Hy.
  - intros y Hy. cbn in Hy |- *. rewrite length_insert in Hy. apply H2. exact Hy.
Qed.

Lemma closed_q_set_req heap x r r' :
  heap !! x = Some r ->
  (forall z, z ∈ req_q r' -> z ∈ req_q r) ->
  closed_q heap -> closed_q (<[x := r']> heap).
Proof.
  intros Hx Hsub Hc q rq z Hq Hz. rewrite length_insert.
  destruct (decide (q = x)) as [->|Hne].
  - rewrite list_lookup_insert_eq in Hq by (apply lookup_lt_Some in Hx; exact Hx).
    injection Hq as <-. apply (Hc x r z Hx). apply Hsub. exact Hz.
  - rewrite list_lookup_insert_ne in Hq by congruence. apply (Hc q rq z Hq Hz).
Qed.

Lemma sent_inv_release c x :
  (x < length (reqs c))%nat -> sent_inv c -> sent_inv (release c x).
Proof.
  intros Hx Hs.
  destruct (lookup_lt_is_Some_2 _ _ Hx) as [r Hr].
  pose proof Hs as [H1 H2]. destruct (H1 x r Hr) as [Hn Hle].
  unfold release. rewrite (get_req_some c x r Hr). unfold decremented.
  cbn [dependent_cnt with_dependent_cnt].
  destruct (Z.eqb_spec (dependent_cnt r - 1) 0) as [E|E].
  - assert (Hns : submitted (state r) = false).
    { destruct (submitted (state r)); [|reflexivity]. specialize (Hle eq_refl). lia. }
    rewrite Hns in Hn. split.
    + intros y ry Hy. cbn in Hy |- *. rewrite blk_write_count_app. cbn.
      destruct (decide (y = x)) as [->|Hne].
      * rewrite list_lookup_insert_eq in Hy by exact Hx. injection Hy as <-.
        rewrite Nat.eqb_refl, Hn. cbn. split; [reflexivity|]. intros _. lia.
      * rewrite list_lookup_insert_ne in Hy by congruence.
        destruct (Nat.eqb_spec x y); [congruence|].
        destruct (H1 y ry Hy) as [A B]. rewrite A. split; [lia | exact B].
    + intros y Hy. cbn in Hy |- *. rewrite length_insert in Hy.
      rewrite blk_write_count_app. cbn.
      destruct (Nat.eqb_spec x y); [lia|]. rewrite (H2 y Hy). reflexivity.
  - apply sent_inv_set_req; [|exact Hs].
    intros r0 Hr0. rewrite Hr in Hr0. injection Hr0 as <-.
    cbn. split; [reflexivity|]. intros _. lia.
Qed.

Lemma closed_q_release c x : closed_q (reqs c) -> closed_q (reqs (release c x)).
Proof.
  intros Hc. rewrite release_reqs.
  destruct (reqs c !! x) as [r|] eqn:Hr.
  - apply (closed_q_set_req _ x r); [exact Hr | | exact Hc].
    rewrite (get_req_some c x r Hr). unfold decremented.
    destruct (_ =? 0); cbn; auto.
  - rewrite list_insert_ge by (apply lookup_ge_None; exact Hr). exact Hc.
Qed.

Lemma sent_inv_drain r fuel : forall c,
  sent_inv c -> closed_q (reqs c) ->
  sent_inv (drain fuel c r) /\ closed_q (reqs (drain fuel c r)) /\
  length (reqs (drain fuel c r)) = length (reqs c).
Proof.
  induction fuel as [|fuel IH]; intros c Hs Hc; [auto|].
  cbn [drain].
  destruct (last (req_q (get_req c r))) as [dep|] eqn:El; [|auto].
  destruct (reqs c !! r) as [rr|] eqn:Hr.
  - rewrite (get_req_some c r rr Hr) in El |- *.
    assert (Hdep : (dep < length (reqs c))%nat).
    { apply (Hc r rr dep Hr). apply elem_of_last. exact El. }
    set (c1 := set_req c r (with_req_q rr (removelast (req_q rr)))).
    assert (Hs1 : sent_inv c1).
    { apply sent_inv_set_req; [|exact Hs]. intros r0 Hr0.
      rewrite Hr in Hr0. injection Hr0 as <-. cbn. split; [reflexivity | lia]. }
    assert (Hc1 : closed_q (reqs c1)).
    { apply (closed_q_set_req _ r rr); [exact Hr | | exact Hc].
      cbn. intros z Hz. rewrite (last_removelast _ _ El).
      apply elem_of_app. left. exact Hz. }
    assert (Hl1 : length (reqs c1) = length (reqs c)).
    { unfold c1. cbn. apply length_insert. }
    destruct (IH (release c1 dep)) as (A & B & C).
    + apply sent_inv_release; [rewrite Hl1; exact Hdep | exact Hs1].
    + apply closed_q_release. exact Hc1.
    + split; [exact A|]. split; [exact B|].
      rewrite C, release_reqs, length_insert. exact Hl1.
  - unfold get_req in El. rewrite Hr in El. discriminate.
Qed.

Lemma sent_inv_completion c r :
  (r < length (reqs c))%nat -> state (get_req c r) = WB_REQ_SENT ->
  closed_q (reqs c) -> sent_inv c ->
  sent_inv (writeBack_completion_internal c r).
Proof.
  intros Hr Hst Hc Hs.
  destruct (lookup_lt_is_Some_2 _ _ Hr) as [rr Hrr].
  rewrite (get_req_some c r rr Hrr) in Hst.
  unfold writeBack_completion_internal.
  rewrite (get_req_some c r rr Hrr).
  set (c1 := set_req c r (with_state rr WB_REQ_COMPL)).
  assert (Hs1 : sent_inv c1).
  { apply sent_inv_set_req; [|exact Hs]. intros r0 Hr0.
    rewrite Hrr in Hr0. injection Hr0 as <-. cbn. rewrite Hst.
    split; [reflexivity | lia]. }
  assert (Hc1 : closed_q (reqs c1)).
  { apply (closed_q_set_req _ r rr); [exact Hrr | auto | exact Hc]. }
  destruct (sent_inv_drain r (length (req_q (get_req c1 r))) c1 Hs1 Hc1)
    as (Hs2 & _ & _).
  set (c2 := drain (length (req_q (get_req c1 r))) c1 r) in *.
  match goal with
  | |- sent_inv (if ?b then emit ?c4 ?e else ?c4') =>
      assert (Hs4 : sent_inv c4) by (revert Hs2; apply sent_inv_ext; [reflexivity | reflexivity]);
      destruct b; [apply sent_inv_emit_cp|]; exact Hs4
  end.
Qed.

Lemma occ_ge x heap q rq :
  heap !! q = Some rq -> countZ x (req_q rq) <= occ x heap.
Proof.
  revert q. induction heap as [|a heap IH]; intros q Hq; [discriminate|].
  unfold occ. simpl. fold (occ x heap).
  destruct q as [|q]; simpl in Hq.
  - injection Hq as <-. pose proof (occ_nonneg x heap). lia.
  - pose proof (countZ_nonneg x (req_q a)). specialize (IH q Hq). lia.
Qed.

Lemma heap_inv_waiting tv heap q rq x :
  heap_inv tv heap -> heap !! q = Some rq -> x ∈ req_q rq ->
  exists r, heap !! x = Some r /\ state r = WB_REQ_WAITING /\ 0 < dependent_cnt r.
Proof.
  intros (Hok & Hq & _) Hrq Hx.
  destruct (lookup_lt_is_Some_2 heap x (Hq q rq x Hrq Hx)) as [r Hr].
  exists r. split; [exact Hr|].
  destruct (Hok x r Hr) as (_ & Hcnt & Hw & _).
  pose proof (countZ_in x _ Hx). pose proof (occ_ge x heap q rq Hrq).
  pose proof (countZ_nonneg x (tv (slot (bcp r)))).
  assert (0 < dependent_cnt r) by lia.
  split; [apply Hw; assumption | assumption].
Qed.

Lemma heap_inv_to_visit_waiting tv heap i x :
  heap_inv tv heap -> is_slot i -> x ∈ tv i ->
  exists r, heap !! x = Some r /\ state r = WB_REQ_WAITING.
Proof.
  intros (Hok & _ & Hv) Hi Hx.
  destruct (Hv i x Hi Hx) as (r & Hr & Hsl).
  exists r. split; [exact Hr|].
  destruct (Hok x r Hr) as (_ & Hcnt & Hw & _).
  rewrite Hsl in Hcnt.
  pose proof (countZ_in x _ Hx). pose proof (occ_nonneg x heap).
  apply Hw. lia.
Qed.

Lemma sent_inv_create c bn' cp : sent_inv c -> sent_inv (create_req c bn' cp).
Proof.
  intros [H1 H2]. split.
  - intros x r Hx. cbn in Hx |- *.
    apply lookup_snoc_Some in Hx as [[Hlt Hx] | [-> <-]].
    + apply H1. exact Hx.
    + cbn. rewrite H2 by lia. split; [reflexivity | discriminate].
  - intros x Hx. cbn in Hx |- *. rewrite length_app in Hx. simpl in Hx.
    apply H2. lia.
Qed.

Lemma sent_inv_update_mem c r bn' : sent_inv c -> sent_inv (update_mem c r bn').
Proof.
  intros Hs. unfold update_mem. destruct (negb _); [|exact Hs].
  apply sent_inv_set_req; [|exact Hs].
  intros r0 Hr0. rewrite (get_req_some c r r0 Hr0). cbn. split; [reflexivity | lia].
Qed.

Lemma sent_inv_add_dependency c d wb rwb :
  reqs c !! wb = Some rwb -> state rwb = WB_REQ_WAITING ->
  sent_inv c -> sent_inv (add_dependency c d wb).
Proof.
  intros Hwb Hst Hs. unfold add_dependency.
  set (c2 := set_req c d (with_req_q (get_req c d) (req_q (get_req c d) ++ [wb]))).
  assert (Hs2 : sent_inv c2).
  { apply sent_inv_set_req; [|exact Hs].
    intros r0 Hr0. rewrite (get_req_some c d r0 Hr0). cbn. split; [reflexivity | lia]. }
  assert (Hst2 : forall r2, reqs c2 !! wb = Some r2 -> state r2 = WB_REQ_WAITING).
  { intros r2 Hr2. unfold c2 in Hr2. cbn in Hr2.
    destruct (decide (wb = d)) as [->|Hne].
    - destruct (lookup_lt_is_Some_2 (reqs c) d) as [rd Hrd];
        [apply lookup_lt_Some in Hwb; exact Hwb|].
      rewrite list_lookup_insert_eq in Hr2
        by (apply lookup_lt_Some in Hwb; exact Hwb).
      injection Hr2 as <-. rewrite (get_req_some c d rwb Hwb). exact Hst.
    - rewrite list_lookup_insert_ne in Hr2 by congruence.
      rewrite Hwb in Hr2. injection Hr2 as <-. exact Hst. }
  apply sent_inv_set_req; [|exact Hs2].
  intros r2 Hr2. rewrite (get_req_some c2 wb r2 Hr2). cbn.
  rewrite (Hst2 r2 Hr2). cbn. split; [reflexivity | discriminate].
Qed.

Lemma sent_inv_step w w' :
  world_inv w -> sent_inv (cache w) -> step w w' -> sent_inv (cache w').
Proof.
  intros Hw Hs Hstep.
  destruct Hstep as [w i bn' dep Hi Hop _ | w i Hi Hop | w i r rest Hi Hph
                    | w i Hi Hph | w r Hr Hst
                    | w i new_bcp Hi Hsl Hlt Hph Hd Hl]; cbn [cache].
  - pose proof (cps_slot w i Hw Hi) as Hsi.
    unfold write. rewrite Hsi.
    set (c1 := match req (nodes (cache w) bn') i with
               | Some r => update_mem (cache w) r bn'
               | None => create_req (cache w) bn' (cps w i)
               end).
    assert (H1 : world_inv {| cache := c1; cps := cps w; closed := closed w;
                              phases := phases w |}).
    { unfold c1. destruct (req (nodes (cache w) bn') i) as [r|] eqn:Er.
      - apply world_inv_update_mem; [exact Hw|].
        destruct (inv_node w Hw bn' i r Hi Er) as (rr & Hrr & _).
        apply lookup_lt_Some in Hrr. exact Hrr.
      - apply world_inv_create; assumption. }
    assert (Hs1 : sent_inv c1).
    { unfold c1. destruct (req (nodes (cache w) bn') i).
      - apply sent_inv_update_mem. exact Hs.
      - apply sent_inv_create. exact Hs. }
    destruct (req (nodes c1 bn') i) as [wb|] eqn:Ewb; [|exact Hs1].
    destruct (match dep with
              | Some dn => req (nodes (cache w) dn) i
              | None => None
              end) as [d|]; [|exact Hs1].
    destruct (inv_node _ H1 bn' i wb Hi Ewb) as (rwb & Hrwb & Hslot & Hnc & _).
    cbn [cache] in Hrwb.
    pose proof (inv_open _ H1 i wb rwb Hi Hop Hrwb Hslot Hnc) as Hin.
    cbn [cache] in Hin.
    destruct (heap_inv_to_visit_waiting _ _ i wb (inv_heap _ H1) Hi) as (r' & Hr' & Hwait).
    { unfold to_visit. cbn [phases cache]. rewrite Hop. exact Hin. }
    cbn [cache] in Hr'. rewrite Hrwb in Hr'. injection Hr' as <-.
    apply (sent_inv_add_dependency c1 d wb rwb Hrwb Hwait Hs1).
  - revert Hs. apply sent_inv_ext; reflexivity.
  - unfold flush_visit. apply sent_inv_release; [|exact Hs].
    destruct (inv_heap w Hw) as (_ & _ & Hv).
    destruct (Hv i r Hi) as (rr & Hrr & _).
    { unfold to_visit. rewrite Hph. left. }
    apply lookup_lt_Some in Hrr. exact Hrr.
  - unfold flush_end.
    match goal with
    | |- sent_inv (if ?b then emit ?c2 ?e else ?c2') =>
        assert (Hs2 : sent_inv c2) by (revert Hs; apply sent_inv_ext; reflexivity);
        destruct b; [apply sent_inv_emit_cp|]; exact Hs2
    end.
  - apply sent_inv_completion; try assumption.
    destruct (inv_heap w Hw) as (_ & Hq & _). exact Hq.
  - exact Hs.
Qed.

Lemma sent_inv_reachable w : reachable w -> sent_inv (cache w).
Proof.
  induction 1 as [w (Hc & _) | w w' Hr IH Hstep].
  - rewrite Hc. split; [intros x r Hx; discriminate | reflexivity].
  - apply (sent_inv_step w w'); [apply cache_inv_reachable; exact Hr | exact IH | exact Hstep].
Qed.

(** X14. No request is handed to the block store twice: at every point of
    every run a request has been written once if it is in state SENT or
    COMPL and not at all otherwise. *)
Theorem blk_write_at_most_once w x :
  reachable w ->
  blk_write_count x (events (cache w)) <= 1 /\
  (forall r, reqs (cache w) !! x = Some r ->
     blk_write_count x (events (cache w))
     = if submitted (state r) then 1 else 0) /\
  ((length (reqs (cache w)) <= x)%nat ->
   blk_write_count x (events (cache w)) = 0).
Proof.
  intros Hr. destruct (sent_inv_reachable w Hr) as [H1 H2].
  split; [|split].
  - destruct (reqs (cache w) !! x) as [r|] eqn:E.
    + destruct (H1 x r E) as [-> _]. destruct (submitted (state r)); lia.
    + rewrite H2; [lia|]. apply lookup_ge_None. exact E.
  - intros r Hx. apply H1. exact Hx.
  - apply H2.
Qed.

Lemma release_shape c x y r' :
  sent_inv c ->
  reqs (release c x) !! y = Some r' ->
  exists r, reqs c !! y = Some r /\ req_q r' = req_q r /\
            is_compl (state r') = is_compl (state r).
Proof.
  intros [H1 _] Hy. rewrite release_reqs in Hy.
  destruct (decide (y = x)) as [->|Hne].
  - destruct (lookup_lt_is_Some_2 (reqs c) x) as [r Hr].
    { apply lookup_lt_Some in Hy. rewrite length_insert in Hy. exact Hy. }
    rewrite list_lookup_insert_eq in Hy by (apply lookup_lt_Some in Hr; exact Hr).
    injection Hy as <-. exists r. split; [exact Hr|].
    rewrite (get_req_some c x r Hr). unfold decremented.
    cbn [dependent_cnt with_dependent_cnt].
    destruct (Z.eqb_spec (dependent_cnt r - 1) 0) as [E|E]; cbn; [|auto].
    split; [reflexivity|].
    destruct (H1 x r Hr) as [_ Hle].
    destruct (state r); cbn in *; try reflexivity.
    specialize (Hle eq_refl). lia.
  - rewrite list_lookup_insert_ne in Hy by congruence. eauto.
Qed.

Lemma drain_shape r fuel : forall c rr,
  sent_inv c -> closed_q (reqs c) ->
  reqs c !! r = Some rr -> (length (req_q rr) <= fuel)%nat ->
  forall y r', reqs (drain fuel c r) !! y = Some r' ->
  exists r0, reqs c !! y = Some r0 /\
             is_compl (state r') = is_compl (state r0) /\
             req_q r' = (if decide (y = r) then [] else req_q r0).
Proof.
  induction fuel as [|fuel IH]; intros c rr Hs Hc Hr Hlen y r' Hy.
  - simpl in Hy. exists r'. split; [exact Hy|]. split; [reflexivity|].
    destruct (decide (y = r)) as [->|_]; [|reflexivity].
    rewrite Hr in Hy. injection Hy as <-.
    destruct (req_q rr); [reflexivity | simpl in Hlen; lia].
  - cbn [drain] in Hy. rewrite (get_req_some c r rr Hr) in Hy.
    destruct (last (req_q rr)) as [dep|] eqn:El.
    + set (c1 := set_req c r (with_req_q rr (removelast (req_q rr)))) in *.
      assert (Hrl : (r < length (reqs c))%nat)
        by (apply lookup_lt_Some in Hr; exact Hr).
      assert (Hdep : (dep < length (reqs c))%nat).
      { apply (Hc r rr dep Hr). apply elem_of_last. exact El. }
      assert (Hs1 : sent_inv c1).
      { apply sent_inv_set_req; [|exact Hs]. intros r0 Hr0.
        rewrite Hr in Hr0. injection Hr0 as <-. cbn. split; [reflexivity | lia]. }
      assert (Hc1 : closed_q (reqs c1)).
      { apply (closed_q_set_req _ r rr); [exact Hr | | exact Hc].
        cbn. intros z Hz. rewrite (last_removelast _ _ El).
        apply elem_of_app. left. exact Hz. }
      assert (Hl1 : length (reqs c1) = length (reqs c)) by (cbn; apply length_insert).
      assert (H1r : reqs c1 !! r = Some (with_req_q rr (removelast (req_q rr))))
        by (cbn; apply list_lookup_insert_eq; exact Hrl).
      assert (Hs2 : sent_inv (release c1 dep))
        by (apply sent_inv_release; [rewrite Hl1; exact Hdep | exact Hs1]).
      assert (Hc2 : closed_q (reqs (release c1 dep)))
        by (apply closed_q_release; exact Hc1).
      destruct (lookup_lt_is_Some_2 (reqs (release c1 dep)) r) as [rr2 Hrr2].
      { rewrite release_reqs, length_insert, Hl1. exact Hrl. }
      destruct (release_shape c1 dep r rr2 Hs1 Hrr2) as (ra & Hra & Hqa & _).
      rewrite H1r in Hra. injection Hra as <-. cbn in Hqa.
      assert (Hlen2 : (length (req_q rr2) <= fuel)%nat).
      { rewrite Hqa. rewrite (last_removelast _ _ El) in Hlen.
        rewrite length_app in Hlen. simpl in Hlen. lia. }
      destruct (IH (release c1 dep) rr2 Hs2 Hc2 Hrr2 Hlen2 y r' Hy)
        as (r1 & Hr1 & Hcompl & Hq).
      destruct (release_shape c1 dep y r1 Hs1 Hr1) as (rb & Hrb & Hqb & Hcb).
      destruct (decide (y = r)) as [->|Hne].
      * exists rr. split; [exact Hr|]. rewrite H1r in Hrb. injection Hrb as <-.
        cbn in Hcb. split; [congruence | exact Hq].
      * unfold c1 in Hrb. cbn in Hrb.
        rewrite list_lookup_insert_ne in Hrb by congruence.
        exists rb. split; [exact Hrb|]. split; [congruence | congruence].
    + exists r'. split; [exact Hy|]. split; [reflexivity|].
      destruct (decide (y = r)) as [->|_]; [|reflexivity].
      rewrite Hr in Hy. injection Hy as <-.
      destruct (req_q rr) as [|a l] eqn:Eq; [reflexivity|].
      apply last_None in El. discriminate.
Qed.

Lemma compl_inv_completion c r :
  (r < length (reqs c))%nat -> state (get_req c r) = WB_REQ_SENT ->
  closed_q (reqs c) -> sent_inv c -> compl_inv (reqs c) ->
  compl_inv (reqs (writeBack_completion_internal c r)).
Proof.
  intros Hr Hst Hc Hs Hk.
  destruct (lookup_lt_is_Some_2 _ _ Hr) as [rr Hrr].
  rewrite (get_req_some c r rr Hrr) in Hst.
  unfold writeBack_completion_internal.
  rewrite (get_req_some c r rr Hrr).
  set (c1 := set_req c r (with_state rr WB_REQ_COMPL)).
  assert (Hs1 : sent_inv c1).
  { apply sent_inv_set_req; [|exact Hs]. intros r0 Hr0.
    rewrite Hrr in Hr0. injection Hr0 as <-. cbn. rewrite Hst.
    split; [reflexivity | lia]. }
  assert (Hc1 : closed_q (reqs c1)).
  { apply (closed_q_set_req _ r rr); [exact Hrr | auto | exact Hc]. }
  assert (H1r : reqs c1 !! r = Some (with_state rr WB_REQ_COMPL))
    by (cbn; apply list_lookup_insert_eq; exact Hr).
  rewrite (get_req_some c1 r _ H1r).
  assert (Hk2 : compl_inv (reqs (drain (length (req_q (with_state rr WB_REQ_COMPL))) c1 r))).
  { intros y r' Hy Hcompl.
    destruct (drain_shape r _ c1 _ Hs1 Hc1 H1r (Nat.le_refl _) y r' Hy)
      as (r0 & Hr0 & Hcs & Hq).
    destruct (decide (y = r)) as [->|Hne]; [exact Hq|].
    rewrite Hq. unfold c1 in Hr0. cbn in Hr0.
    rewrite list_lookup_insert_ne in Hr0 by congruence.
    apply (Hk y r0 Hr0). congruence. }
  match goal with
  | |- compl_inv (reqs (if ?b then _ else _)) => destruct b; exact Hk2
  end.
Qed.

Lemma compl_inv_set_req heap x r r' :
  heap !! x = Some r ->
  (is_compl (state r') = true -> is_compl (state r) = true /\ req_q r' = req_q r) ->
  compl_inv heap -> compl_inv (<[x := r']> heap).
Proof.
  intros Hx Hrel Hk q rq Hq Hcompl.
  destruct (decide (q = x)) as [->|Hne].
  - rewrite list_lookup_insert_eq in Hq by (apply lookup_lt_Some in Hx; exact Hx).
    injection Hq as <-. destruct (Hrel Hcompl) as [A B]. rewrite B.
    apply (Hk x r Hx A).
  - rewrite list_lookup_insert_ne in Hq by congruence. apply (Hk q rq Hq Hcompl).
Qed.

Lemma compl_inv_release c x :
  sent_inv c -> compl_inv (reqs c) -> compl_inv (reqs (release c x)).
Proof.
  intros Hs Hk q rq Hq Hcompl.
  destruct (release_shape c x q rq Hs Hq) as (r & Hr & Hqq & Hcs).
  rewrite Hqq. apply (Hk q r Hr). congruence.
Qed.

Lemma compl_inv_step w w' :
  world_inv w -> sent_inv (cache w) -> compl_inv (reqs (cache w)) ->
  step w w' -> compl_inv (reqs (cache w')).
Proof.
  intros Hw Hs Hk Hstep.
  destruct Hstep as [w i bn' dep Hi Hop _ | w i Hi Hop | w i r rest Hi Hph
                    | w i Hi Hph | w r Hr Hst
                    | w i new_bcp Hi Hsl Hlt Hph Hd Hl]; cbn [cache].
  - pose proof (cps_slot w i Hw Hi) as Hsi.
    unfold write. rewrite Hsi.
    set (c1 := match req (nodes (cache w) bn') i with
               | Some r => update_mem (cache w) r bn'
               | None => create_req (cache w) bn' (cps w i)
               end).
    assert (H1 : world_inv {| cache := c1; cps := cps w; closed := closed w;
                              phases := phases w |}).
    { unfold c1. destruct (req (nodes (cache w) bn') i) as [r|] eqn:Er.
      - apply world_inv_update_mem; [exact Hw|].
        destruct (inv_node w Hw bn' i r Hi Er) as (rr & Hrr & _).
        apply lookup_lt_Some in Hrr. exact Hrr.
      - apply world_inv_create; assumption. }
    assert (Hk1 : compl_inv (reqs c1)).
    { unfold c1. destruct (req (nodes (cache w) bn') i) as [r|].
      - unfold update_mem. destruct (negb _); [|exact Hk]. cbn.
        destruct (reqs (cache w) !! r) as [rr|] eqn:Hrr.
        + apply (compl_inv_set_req _ r rr); [exact Hrr | | exact Hk].
          rewrite (get_req_some _ r rr Hrr). cbn. auto.
        + rewrite list_insert_ge by (apply lookup_ge_None; exact Hrr). exact Hk.
      - intros q rq Hq Hcompl. cbn in Hq.
        apply lookup_snoc_Some in Hq as [[_ Hq] | [_ <-]].
        + apply (Hk q rq Hq Hcompl).
        + discriminate. }
    assert (Hnodes : forall dn d, req (nodes (cache w) dn) i = Some d ->
              req (nodes c1 dn) i = Some d).
    { intros dn d Hd. unfold c1.
      destruct (req (nodes (cache w) bn') i) as [r|] eqn:Er.
      - unfold update_mem. destruct (negb _); exact Hd.
      - cbn. unfold upd at 1. destruct (Z.eqb_spec dn bn') as [->|_]; [|exact Hd].
        congruence. }
    destruct (req (nodes c1 bn') i) as [wb|] eqn:Ewb; [|exact Hk1].
    destruct dep as [dn|]; [|exact Hk1].
    destruct (req (nodes (cache w) dn) i) as [d|] eqn:Ed; [|exact Hk1].
    destruct (inv_node _ H1 dn i d Hi (Hnodes dn d Ed)) as (rd & Hrd & _ & Hnc & _).
    cbn [cache] in Hrd.
    unfold add_dependency.
    set (c2 := set_req c1 d (with_req_q (get_req c1 d) (req_q (get_req c1 d) ++ [wb]))).
    assert (Hk2 : compl_inv (reqs c2)).
    { unfold c2. cbn. apply (compl_inv_set_req _ d rd); [exact Hrd | | exact Hk1].
      rewrite (get_req_some c1 d rd Hrd). cbn. congruence. }
    cbn.
    destruct (reqs c2 !! wb) as [r2|] eqn:Hr2.
    + apply (compl_inv_set_req _ wb r2); [exact Hr2 | | exact Hk2].
      rewrite (get_req_some c2 wb r2 Hr2). cbn. auto.
    + rewrite list_insert_ge by (apply lookup_ge_None; exact Hr2). exact Hk2.
  - exact Hk.
  - unfold flush_visit. apply compl_inv_release; assumption.
  - unfold flush_end.
    match goal with
    | |- compl_inv (reqs (if ?b then _ else _)) => destruct b; exact Hk
    end.
  - apply compl_inv_completion; try assumption.
    destruct (inv_heap w Hw) as (_ & Hq & _). exact Hq.
  - exact Hk.
Qed.

Lemma compl_inv_reachable w : reachable w -> compl_inv (reqs (cache w)).
Proof.
  induction 1 as [w (Hc & _) | w w' Hr IH Hstep].
  - rewrite Hc. intros q rq Hq. discriminate.
  - apply (compl_inv_step w w'); try assumption.
    + apply cache_inv_reachable; exact Hr.
    + apply sent_inv_reachable; exact Hr.
Qed.

(** X15. The order of dependent writes: as long as a request sits in the
    queue of another, that other one is not complete, and the queued
    request is still waiting and has not been handed to the block store.
    It leaves the queue only in the completion of the request it waits
    for. *)
Theorem queued_request_not_written w q rq x :
  reachable w ->
  reqs (cache w) !! q = Some rq -> x ∈ req_q rq ->
  is_compl (state rq) = false /\
  exists r,
    reqs (cache w) !! x = Some r /\
    state r = WB_REQ_WAITING /\
    blk_write_count x (events (cache w)) = 0.
Proof.
  intros Hr Hq Hx. split.
  - destruct (is_compl (state rq)) eqn:E; [|reflexivity].
    rewrite (compl_inv_reachable w Hr q rq Hq E) in Hx. inversion Hx.
  - destruct (heap_inv_waiting _ _ q rq x
                (inv_heap w (cache_inv_reachable w Hr)) Hq Hx)
      as (r & Hxr & Hst & _).
    exists r. split; [exact Hxr|]. split; [exact Hst|].
    destruct (sent_inv_reachable w Hr) as [H1 _].
    destruct (H1 x r Hxr) as [-> _]. rewrite Hst. reflexivity.
Qed.

End WBCacheSubmission.

(** ** Concrete runs of the added properties *)

(** Witness of X6: the middle one of three records is removed. *)
Lemma remove_ith_record_deletes_witness :
  exists sb',
    RollbackSb.remove_ith_record RollbackSb.ex_sb 1 = Some sb' /\
    RollbackSb.records sb'
    = [ {| RollbackSb.rb_store_id := 1; RollbackSb.idx_range := (10, 12) |};
        {| RollbackSb.rb_store_id := 1; RollbackSb.idx_range := (30, 35) |} ].
Proof.
  destruct (remove_ith_record_deletes RollbackSb.ex_sb 1) as [H _].
  destruct H as (sb' & H1 & H2 & _).
  - simpl. lia.
  - simpl. lia.
  - simpl. lia.
  - exists sb'. split; [exact H1|]. rewrite H2. reflexivity.
Defined.

(** Witness of X7: a fourth record is added to the three. *)
Lemma add_record_appends_witness :
  exists sb',
    RollbackSb.add_record RollbackSb.ex_sb 5 (40, 41) = Some sb' /\
    RollbackSb.at_ sb' 3
    = Some {| RollbackSb.rb_store_id := 5; RollbackSb.idx_range := (40, 41) |}.
Proof.
  destruct (add_record_appends RollbackSb.ex_sb 5 (40, 41)) as [H _].
  destruct H as (sb' & sb'' & H1 & _ & _ & H4 & _).
  - simpl. lia.
  - simpl. lia.
  - exists sb'. split; [exact H1 | exact H4].
Defined.

Lemma ex_stream_ok :
  Forall (LogRecovery.group_ok LogRecovery.ex_decode) LogRecovery.ex_stream.
Proof.
  repeat constructor; [discriminate | simpl; lia | simpl; lia].
Defined.

(** Witness of X8: the group of two records at offset 4096 is loaded into a
    fresh device. *)
Lemma do_load_replays_stream_witness :
  exists d',
    LogRecovery.do_load LogRecovery.ex_decode 4 (LogDevice.formatted 1)
      LogRecovery.ex_stream [] 4608
    = Some (d', LogRecovery.stream_callbacks LogRecovery.ex_decode
                  LogRecovery.ex_stream) /\
    LogDevice.m_log_idx d' = 12.
Proof.
  destruct (do_load_replays_stream LogRecovery.ex_decode 4
              (LogDevice.formatted 1) LogRecovery.ex_stream [] 4608
              ex_stream_ok) as (H & _).
  destruct (H eq_refl) as (d' & H1 & H2 & _).
  exists d'. split; [exact H1 | exact H2].
Defined.

(** Witness of X9: the second record of the group at offset 4096. *)
Lemma read_agrees_with_load_witness :
  exists payload,
    LogDevice.read LogGroupFmt.ex_cfg LogRecovery.ex_decode (fun _ _ => 0) 0
      LogRecovery.ex_store
      {| LogDevice.idx := 11; LogDevice.dev_offset := 4096 |} = Some payload /\
    payload = LogDevice.pread LogRecovery.ex_store 7 (4096 + 93).
Proof.
  destruct (read_agrees_with_load LogRecovery.ex_decode LogGroupFmt.ex_cfg
              (fun _ _ => 0) 0 LogRecovery.ex_store 4096
              LogGroupFmt.ex_header LogGroupFmt.ex_slots 1
              {| LogGroupFmt.size := 7; LogGroupFmt.offset := 93;
                 LogGroupFmt.is_inlined := 1; LogGroupFmt.store_seq_num := 1;
                 LogGroupFmt.store_id := 7 |})
    as (payload & _ & H2 & H3);
    [ first [ reflexivity | intros _; reflexivity | simpl; lia
            | vm_compute; discriminate ] .. | ].
  exists payload. split; [exact H2 | exact H3].
Defined.

(** Witness of X10: a start that finds store 7 and the group of two
    records; the next append gets log index 12. *)
Lemma start_recover_resumes_witness :
  match LogRecovery.start_recover LogRecovery.ex_decode 4 1 [7]
          LogRecovery.ex_stream [] 4608 with
  | Some (d, cbs) =>
      LogDevice.m_log_idx d = 12 /\ LogDevice.m_last_flush_idx d = 12 - 1 /\
      head cbs = Some (LogRecovery.StoreFound 7)
  | None => False
  end.
Proof.
  destruct (LogRecovery.start_recover LogRecovery.ex_decode 4 1 [7]
              LogRecovery.ex_stream [] 4608) as [[d cbs]|] eqn:E;
    [|vm_compute in E; discriminate].
  destruct (start_recover_resumes LogRecovery.ex_decode 4 LogGroupFmt.ex_cfg 1 [7]
              LogRecovery.ex_stream [] 4608 d cbs ex_stream_ok E)
    as (H1 & H2 & H3 & _).
  split; [exact H2|]. split; [rewrite H3, H2; reflexivity|].
  rewrite H1. reflexivity.
Defined.

Lemma ex_truncated_reachable :
  LogDevice.reachable LogGroupFmt.ex_cfg LogDevice.ex_crc 1 1000 1
    LogDevice.ex_truncated.
Proof.
  apply (LogDevice.reachable_step _ _ _ _ 1 (LogDevice.ex_w LogDevice.ex_d3 1));
    [exact ex_reachable|].
  exact (LogDevice.step_truncate LogGroupFmt.ex_cfg LogDevice.ex_crc 1 1000
           (LogDevice.ex_w LogDevice.ex_d3 1)
           {| LogDevice.idx := 0; LogDevice.dev_offset := 0 |}).
Defined.

(** Witness of X11: after two appends and a truncation up to index 0 the
    tracker holds index 1 alone, and the third append gets index 2. *)
Lemma append_async_fresh_index_witness :
  LogDevice.m_log_records (LogDevice.dev LogDevice.ex_truncated) !! 0 = None /\
  is_Some (LogDevice.m_log_records (LogDevice.dev LogDevice.ex_truncated) !! 1) /\
  fst (LogDevice.append_async LogGroupFmt.ex_cfg LogDevice.ex_crc 1 1000
         (LogDevice.dev LogDevice.ex_truncated) 7 2 [104; 105] 4096 true 0 40) = 2 /\
  LogDevice.m_log_records (LogDevice.dev LogDevice.ex_truncated) !! 2 = None.
Proof.
  destruct (append_async_fresh_index LogGroupFmt.ex_cfg LogDevice.ex_crc 1 1000 1
              LogDevice.ex_truncated 7 2 [104; 105] 4096 true 0 40
              ex_truncated_reachable) as (H1 & _ & H3 & _).
  split; [vm_compute; reflexivity|].
  split; [vm_compute; eauto|].
  split; [rewrite H1; vm_compute; reflexivity|].
  rewrite H1 in H3. exact H3.
Defined.

Lemma ex_locked_reachable :
  LogDevice.reachable LogGroupFmt.ex_cfg LogDevice.ex_crc 1 1000 1
    LogDevice.ex_locked.
Proof.
  apply (LogDevice.reachable_step _ _ _ _ 1 (LogDevice.started_world 1));
    [apply LogDevice.reachable_start|].
  exact (LogDevice.step_try_lock LogGroupFmt.ex_cfg LogDevice.ex_crc 1 1000
           (LogDevice.started_world 1) 9).
Defined.

(** Witness of X12: with the lock held, an append of five bytes over the
    threshold of one byte writes nothing. *)
Lemma flush_lock_excludes_flush_witness :
  LogDevice.writes
    (LogDevice.trace
       (LogDevice.flush_if_needed LogGroupFmt.ex_cfg LogDevice.ex_crc 1 1000
          (LogDevice.dev LogDevice.ex_locked) 5 0 10)) = [].
Proof.
  destruct (flush_lock_excludes_flush LogGroupFmt.ex_cfg LogDevice.ex_crc 1 1000 1
              LogDevice.ex_locked ex_locked_reachable eq_refl) as (_ & _ & H).
  rewrite H. reflexivity.
Defined.


Lemma ex_world_w2_reachable : WBCache.reachable WBCache.ex_world_w2.
Proof.
  assert (H0 : WBCache.reachable WBCache.ex_world).
  { apply WBCache.reachable_start. vm_compute. repeat split. }
  assert (H1 : WBCache.reachable WBCache.ex_world_w1).
  { apply (WBCache.reachable_step WBCache.ex_world); [exact H0|].
    refine (WBCache.step_write WBCache.ex_world 0 1 None
              (or_introl eq_refl) eq_refl _).
    intros dn Hdn. discriminate. }
  apply (WBCache.reachable_step WBCache.ex_world_w1); [exact H1|].
  refine (WBCache.step_write WBCache.ex_world_w1 0 2 (Some 1)
            (or_introl eq_refl) eq_refl _).
  intros dn Hdn. injection Hdn as <-. vm_compute. discriminate.
Defined.

Lemma ex_world_w4_reachable : WBCache.reachable WBCache.ex_world_w4.
Proof.
  assert (H3 : WBCache.reachable WBCache.ex_world_w3).
  { apply (WBCache.reachable_step WBCache.ex_world_w2);
      [exact ex_world_w2_reachable|].
    exact (WBCache.step_flush_begin WBCache.ex_world_w2 0
             (or_introl eq_refl) eq_refl). }
  apply (WBCache.reachable_step WBCache.ex_world_w3); [exact H3|].
  exact (WBCache.step_flush_visit WBCache.ex_world_w3 0 0%nat [1%nat]
           (or_introl eq_refl) eq_refl).
Defined.

(** Witness of X14: the flush has visited the request of node 1, which has
    gone to the block store once. *)
Lemma blk_write_at_most_once_witness :
  WBCache.blk_write_count 0
    (WBCache.events (WBCache.cache WBCache.ex_world_w4)) = 1 /\
  WBCache.blk_write_count 0
    (WBCache.events (WBCache.cache WBCache.ex_world_w4)) <= 1.
Proof.
  destruct (blk_write_at_most_once WBCache.ex_world_w4 0%nat
              ex_world_w4_reachable) as (H1 & _).
  split; [reflexivity | exact H1].
Defined.

(** Witness of X15: the request of node 2 sits in the queue of the request
    of node 1. *)
Lemma queued_request_not_written_witness :
  WBCache.blk_write_count 1
    (WBCache.events (WBCache.cache WBCache.ex_world_w4)) = 0.
Proof.
  destruct (queued_request_not_written WBCache.ex_world_w4 0%nat
              (WBCache.get_req (WBCache.cache WBCache.ex_world_w4) 0) 1%nat
              ex_world_w4_reachable) as (_ & r & _ & _ & H).
  - reflexivity.
  - vm_compute. left.
  - exact H.
Defined.

(** ** Write-back cache: repeated writes *)

Section WBCacheUse.
Import WBCache.

Lemma update_mem_fixed c r bn' rr :
  reqs c !! r = Some rr -> m_mem rr = memvec (nodes c bn') ->
  update_mem c r bn' = c.
Proof.
  intros Hr Hm. unfold update_mem. rewrite (get_req_some c r rr Hr), Hm.
  rewrite Nat.eqb_refl. reflexivity.
Qed.

Lemma write_no_dep c bn' cp :
  write c bn' None cp
  = match req (nodes c bn') (slot cp) with
    | Some r => update_mem c r bn'
    | None => create_req c bn' cp
    end.
Proof. unfold write. destruct (req (nodes _ bn') (slot cp)); reflexivity. Qed.

(** X16. [write] without a dependent node is idempotent: once a node has
    been written for a checkpoint, writing it again for the same checkpoint
    leaves the cache as it is. The first write of a node that has no
    request in the slot of the checkpoint creates exactly one request, at
    the end of the request list of the slot, and counts one dirty buffer; a
    write of a node that has a request creates none. No write of this kind
    sends anything to the block store. The hypothesis says that a request
    the node points to exists. *)
Theorem write_again_changes_nothing c bn' cp :
  (forall r, req (nodes c bn') (slot cp) = Some r -> (r < length (reqs c))%nat) ->
  let c' := write c bn' None cp in
  write c' bn' None cp = c' /\
  m_dirty_buf_cnt c' (slot cp)
  = m_dirty_buf_cnt c (slot cp)
    + (match req (nodes c bn') (slot cp) with Some _ => 0 | None => 1 end) /\
  m_req_list c' (slot cp)
  = m_req_list c (slot cp)
    ++ (match req (nodes c bn') (slot cp) with
        | Some _ => []
        | None => [length (reqs c)]
        end) /\
  length (reqs c')
  = (length (reqs c)
     + (match req (nodes c bn') (slot cp) with Some _ => 0 | None => 1 end))%nat /\
  events c' = events c.
Proof.
  intros Hin. cbv zeta. rewrite !write_no_dep.
  destruct (req (nodes c bn') (slot cp)) as [r|] eqn:Er.
  - specialize (Hin r eq_refl).
    destruct (lookup_lt_is_Some_2 _ _ Hin) as [rr Hrr].
    assert (Hn : nodes (update_mem c r bn') = nodes c).
    { unfold update_mem. destruct (negb _); reflexivity. }
    rewrite Hn, Er.
    split.
    { destruct (Nat.eqb_spec (m_mem rr) (memvec (nodes c bn'))) as [E|E].
      - rewrite (update_mem_fixed c r bn' rr Hrr E).
        apply (update_mem_fixed c r bn' rr Hrr E).
      - assert (E1 : update_mem c r bn'
                     = set_req c r (with_mem rr (memvec (nodes c bn')))).
        { unfold update_mem. rewrite (get_req_some c r rr Hrr).
          destruct (Nat.eqb_spec (m_mem rr) (memvec (nodes c bn')));
            [contradiction | reflexivity]. }
        rewrite E1.
        apply (update_mem_fixed _ r bn' (with_mem rr (memvec (nodes c bn')))).
        + cbn. apply list_lookup_insert_eq. exact Hin.
        + reflexivity. }
    unfold update_mem. destruct (negb _); cbn; rewrite ?length_insert, ?app_nil_r;
      repeat split; lia.
  - assert (Hreq : req (nodes (create_req c bn' cp) bn') (slot cp)
                   = Some (length (reqs c))).
    { cbn. rewrite upd_eq. cbn. rewrite upd_eq. reflexivity. }
    rewrite Hreq.
    split.
    + apply (update_mem_fixed _ _ bn'
               {| state := WB_REQ_WAITING; bid := bn'; bcp := cp; bn := bn';
                  req_q := []; dependent_cnt := 1;
                  m_mem := memvec (nodes c bn') |}).
      * cbn. apply list_lookup_middle. reflexivity.
      * cbn. rewrite upd_eq. reflexivity.
    + cbn. rewrite !upd_eq, length_app. cbn. repeat split; lia.
Qed.

End WBCacheUse.

(** ** Virtual device: allocation over chunks *)

Section VDevFacts.
Import VDev.
Context {A S Hints : Type} `{!BlkAllocator A Hints} `{!ChunkSelector S Hints}.
Variable can_look_for_other_chunk : Hints -> bool.
Variable max_blks_in_op : Z.
Variable blk_count_bits : Z.

Local Abbreviation VD := (@VirtualDev A S).
Local Abbreviation do_alloc_blk' := (do_alloc_blk can_look_for_other_chunk).
Local Abbreviation alloc_blk_loop' :=
  (alloc_blk_loop can_look_for_other_chunk max_blks_in_op blk_count_bits).

Lemma appended_app ans1 ans2 : appended (ans1 ++ ans2) = appended ans1 ++ appended ans2.
Proof.
  induction ans1 as [|[st ids] ans1 IH]; [reflexivity|].
  destruct st; cbn [app appended]; rewrite IH, ?app_assoc; reflexivity.
Qed.

Lemma returned_app ans1 ans2 : returned (ans1 ++ ans2) = returned ans1 ++ returned ans2.
Proof.
  induction ans1 as [|[st ids] ans1 IH]; [reflexivity|].
  destruct st; cbn [app returned]; rewrite IH, ?app_assoc; reflexivity.
Qed.

Lemma appended_failures fs :
  Forall (fun a : BlkAllocStatus * list BlkId => is_success (fst a) = false) fs ->
  appended fs = [].
Proof.
  induction 1 as [|[st ids] fs Hs _ IH]; [reflexivity|].
  destruct st; cbn in Hs |- *; try discriminate; exact IH.
Qed.

Lemma is_success_reported status :
  is_success (reported status) = is_success status.
Proof. destruct status; reflexivity. Qed.

Lemma alloc_blk_from_chunk_shape (v : VD) nblks hints out chunk st out' v' :
  alloc_blk_from_chunk v nblks hints out chunk = Some (st, out', v') ->
  exists status ids,
    answers v' = answers v ++ [(status, ids)] /\
    st = reported status /\
    out' = out ++ appended [(status, ids)] /\
    vec_frees v' = vec_frees v ++ returned [(status, ids)] /\
    frees v' = frees v /\
    vdev_num_alloc_failure v' = vdev_num_alloc_failure v /\
    m_chunk_selector v' = m_chunk_selector v.
Proof.
  unfold alloc_blk_from_chunk.
  destruct (chunks v !! chunk) as [a|]; [|discriminate].
  destruct (ba_alloc a nblks hints) as [[status ids] a1].
  intros H0. exists status, ids.
  destruct status; injection H0 as <- <- <-; cbn;
    rewrite ?app_nil_r; repeat split; reflexivity.
Qed.

Lemma do_alloc_blk_shape fuel : forall (v : VD) nblks hints out st out' v',
  do_alloc_blk' fuel v nblks hints out = Ret (st, out', v') ->
  exists fs l,
    answers v' = answers v ++ fs ++ [l] /\
    Forall (fun a : BlkAllocStatus * list BlkId => is_success (fst a) = false) fs /\
    st = reported (fst l) /\
    (is_success st = true \/ can_look_for_other_chunk hints = false) /\
    out' = out ++ appended (fs ++ [l]) /\
    vec_frees v' = vec_frees v ++ returned (fs ++ [l]) /\
    frees v' = frees v /\
    vdev_num_alloc_failure v'
    = vdev_num_alloc_failure v + (if is_success st then 0 else 1).
Proof.
  induction fuel as [|fuel IH]; intros v nblks hints out st out' v' H0;
    [discriminate|].
  cbn [do_alloc_blk] in H0.
  destruct (select (m_chunk_selector v) hints) as [[c|] s1]; [|discriminate].
  destruct (alloc_blk_from_chunk (with_selector v s1) nblks hints out c)
    as [[[st1 out1] v1]|] eqn:E; [|discriminate].
  destruct (alloc_blk_from_chunk_shape _ _ _ _ _ _ _ _ E)
    as (status & ids & Ha & Hst & Hout & Hvf & Hf & Hn & _).
  cbn [answers vec_frees frees vdev_num_alloc_failure with_selector] in Ha, Hvf, Hf, Hn.
  destruct (is_success st1) eqn:Es; cbn [orb] in H0.
  - injection H0 as <- <- <-. rewrite Es.
    exists [], (status, ids). cbn [app fst].
    repeat split; auto. lia.
  - destruct (can_look_for_other_chunk hints) eqn:Ec; cbn [negb] in H0.
    + destruct (IH _ _ _ _ _ _ _ H0)
        as (fs & l & Ha' & Hfs & Hst' & Hor & Hout' & Hvf' & Hf' & Hn').
      exists ((status, ids) :: fs), l.
      split; [rewrite Ha', Ha, <- !app_assoc; reflexivity|].
      split.
      { constructor; [|exact Hfs]. cbn [fst].
        rewrite <- is_success_reported, <- Hst. exact Es. }
      split; [exact Hst'|]. split; [rewrite Ec in Hor; exact Hor|].
      split.
      { rewrite Hout', Hout.
        change ((status, ids) :: fs) with ([(status, ids)] ++ fs).
        rewrite <- (app_assoc [(status, ids)]), (appended_app [(status, ids)]).
        rewrite app_assoc. reflexivity. }
      split.
      { rewrite Hvf', Hvf.
        change ((status, ids) :: fs) with ([(status, ids)] ++ fs).
        rewrite <- (app_assoc [(status, ids)]), (returned_app [(status, ids)]).
        rewrite app_assoc. reflexivity. }
      split; [congruence|]. rewrite Hn', Hn. reflexivity.
    + injection H0 as <- <- <-. rewrite Es.
      exists [], (status, ids). cbn [app fst vdev_num_alloc_failure count_failure
                                     answers vec_frees frees].
      repeat split; auto. lia.
Qed.

(** X17. [do_alloc_blk], when it returns. With hints that allow another
    chunk the status is SUCCESS, since the loop leaves only on a success.
    The chunk allocators have answered one or more times: every answer
    but the last was a failure, and the status returned is that of the
    last answer, a PARTIAL one being reported as FAILED. [out_blkid] is
    extended by the block ids of the last answer if it is a SUCCESS and is
    left alone otherwise; the block ids of every PARTIAL answer have been
    given back to the allocator, and those of the other failed answers
    have not. [free_blk] is not called. A status other than SUCCESS counts
    one failure, however many chunks were tried. *)
Theorem do_alloc_blk_keeps_trying fuel (v : VD) nblks hints out st out' v' :
  do_alloc_blk can_look_for_other_chunk fuel v nblks hints out
  = Ret (st, out', v') ->
  (can_look_for_other_chunk hints = true -> st = SUCCESS) /\
  frees v' = frees v /\
  vdev_num_alloc_failure v'
  = vdev_num_alloc_failure v + (if is_success st then 0 else 1) /\
  exists fs l,
    answers v' = answers v ++ fs ++ [l] /\
    Forall (fun a : BlkAllocStatus * list BlkId => fst a <> SUCCESS) fs /\
    st = reported (fst l) /\
    out' = out ++ (if is_success st then snd l else []) /\
    vec_frees v' = vec_frees v ++ returned (fs ++ [l]).
Proof.
  intros H0.
  destruct (do_alloc_blk_shape fuel v nblks hints out st out' v' H0)
    as (fs & l & Ha & Hfs & Hst & Hor & Hout & Hvf & Hf & Hn).
  split.
  { intros Hc. destruct Hor as [H1|H1]; [|congruence].
    destruct st; try discriminate. reflexivity. }
  split; [exact Hf|]. split; [exact Hn|].
  exists fs, l. split; [exact Ha|]. split.
  { eapply Forall_impl; [exact Hfs|]. intros [s ids] Hs. cbn in *.
    intros ->. discriminate. }
  split; [exact Hst|]. split; [|exact Hvf].
  rewrite Hout, appended_app, (appended_failures fs Hfs). cbn [app].
  rewrite Hst. destruct l as [[] ids]; cbn; rewrite ?app_nil_r; reflexivity.
Qed.

Lemma undo_loop_once fuel (v : VD) out0 bs :
  match undo_loop (Datatypes.S fuel) v (out0 ++ bs) (length out0) (length out0) with
  | Ret (out2, v2) =>
      out2 = out0 /\ answers v2 = answers v /\ vec_frees v2 = vec_frees v /\
      frees v2 = frees v ++ take 1 bs /\
      vdev_num_alloc_failure v2 = vdev_num_alloc_failure v
  | Abort => exists b, head bs = Some b /\ chunks v !! chunk_num b = None
  | NoFuel => False
  end.
Proof.
  destruct bs as [|b bs].
  - rewrite app_nil_r. unfold undo_loop.
    rewrite (proj2 (Nat.ltb_ge _ _)) by lia.
    rewrite app_nil_r. auto.
  - cbn [undo_loop].
    rewrite (proj2 (Nat.ltb_lt _ _)) by (rewrite length_app; simpl; lia).
    rewrite (list_lookup_middle out0 bs b (length out0) eq_refl).
    unfold free_blk. destruct (chunks v !! chunk_num b) as [a|] eqn:Ea.
    + rewrite take_app_length.
      destruct fuel; cbn [undo_loop];
        rewrite (proj2 (Nat.ltb_ge _ _)) by lia; cbn; auto.
    + exists b. auto.
Qed.

Lemma alloc_blk_loop_shape fuel : forall (v : VD) nblks hints out0 bs st out' v',
  alloc_blk_loop' fuel v nblks hints (out0 ++ bs) (length out0) = Ret (st, out', v') ->
  exists ans,
    answers v' = answers v ++ ans /\
    vec_frees v' = vec_frees v ++ returned ans /\
    if is_success st
    then out' = out0 ++ bs ++ appended ans /\ frees v' = frees v
    else out' = out0 /\ frees v' = frees v ++ take 1 (bs ++ appended ans).
Proof.
  induction fuel as [|fuel IH]; intros v nblks hints out0 bs st out' v' H0.
  - cbn [alloc_blk_loop] in H0. destruct (nblks =? 0); [|discriminate].
    injection H0 as <- <- <-. exists []. cbn. rewrite !app_nil_r. auto.
  - cbn [alloc_blk_loop] in H0. destruct (nblks =? 0).
    { injection H0 as <- <- <-. exists []. cbn. rewrite !app_nil_r. auto. }
    destruct (do_alloc_blk' (Datatypes.S fuel) v
                (Z.min max_blks_in_op (wrap blk_count_bits nblks)) hints (out0 ++ bs))
      as [[[ret out1] v1]| |] eqn:Ed; try discriminate.
    destruct (do_alloc_blk_shape _ _ _ _ _ _ _ _ Ed)
      as (fs & l & Ha & _ & _ & _ & Hout & Hvf & Hf & _).
    destruct (is_success ret) eqn:Es.
    + rewrite Hout, <- app_assoc in H0.
      destruct (IH _ _ _ _ _ _ _ _ H0) as (ans & Ha' & Hvf' & Hres).
      exists ((fs ++ [l]) ++ ans).
      split; [rewrite Ha', Ha, <- !app_assoc; reflexivity|].
      split; [rewrite Hvf', Hvf, (returned_app (fs ++ [l]) ans), app_assoc; reflexivity|].
      rewrite (appended_app (fs ++ [l]) ans).
      destruct (is_success st).
      * destruct Hres as [E1 E2]. rewrite E1, E2, Hf, <- !app_assoc. auto.
      * destruct Hres as [E1 E2]. rewrite E1, E2, Hf, <- !app_assoc. auto.
    + pose proof (undo_loop_once fuel v1 out0 (bs ++ appended (fs ++ [l]))) as Hu.
      rewrite Hout in H0. rewrite (app_assoc out0) in Hu.
      destruct (undo_loop (Datatypes.S fuel) v1
                  ((out0 ++ bs) ++ appended (fs ++ [l])) (length out0) (length out0))
        as [[out2 v2]| |]; try discriminate.
      injection H0 as <- <- <-. rewrite Es.
      destruct Hu as (E1 & E2 & E3 & E4 & _).
      exists (fs ++ [l]).
      split; [rewrite E2, Ha; reflexivity|].
      split; [rewrite E3; exact Hvf|].
      split; [exact E1|]. rewrite E4, Hf. reflexivity.
Qed.

Lemma do_alloc_blk_once fuel (v : VD) nblks hints out :
  can_look_for_other_chunk hints = false ->
  do_alloc_blk' (Datatypes.S fuel) v nblks hints out <> NoFuel.
Proof.
  intros Hc. cbn [do_alloc_blk].
  destruct (select (m_chunk_selector v) hints) as [[c|] s1]; [|discriminate].
  destruct (alloc_blk_from_chunk _ _ _ _ _) as [[[st1 out1] v1]|]; [|discriminate].
  rewrite Hc. cbn [negb]. rewrite orb_true_r. discriminate.
Qed.

Lemma alloc_blk_loop_returns fuel : forall (v : VD) nblks hints out0 bs,
  can_look_for_other_chunk hints = false ->
  0 < max_blks_in_op ->
  0 <= nblks < 2 ^ blk_count_bits -> nblks < 2 ^ 32 ->
  (Z.to_nat nblks <= fuel)%nat ->
  alloc_blk_loop' fuel v nblks hints (out0 ++ bs) (length out0) <> NoFuel.
Proof.
  induction fuel as [|fuel IH]; intros v nblks hints out0 bs Hc Hmax Hn H32 Hfuel.
  - cbn [alloc_blk_loop]. destruct (Z.eqb_spec nblks 0); [discriminate | lia].
  - cbn [alloc_blk_loop]. destruct (Z.eqb_spec nblks 0) as [|Hne]; [discriminate|].
    rewrite (wrap_small blk_count_bits nblks) by lia.
    pose proof (do_alloc_blk_once fuel v (Z.min max_blks_in_op nblks) hints
                  (out0 ++ bs) Hc) as Hd.
    destruct (do_alloc_blk' (Datatypes.S fuel) v (Z.min max_blks_in_op nblks) hints
                (out0 ++ bs)) as [[[ret out1] v1]| |] eqn:Ed;
      [|discriminate|congruence].
    destruct (do_alloc_blk_shape _ _ _ _ _ _ _ _ Ed)
      as (fs & l & _ & _ & _ & _ & Hout & _).
    destruct (is_success ret) eqn:Es.
    + rewrite Hout, <- app_assoc.
      rewrite (wrap_small 32) by lia.
      apply IH; try assumption; lia.
    + pose proof (undo_loop_once fuel v1 out0 (bs ++ appended (fs ++ [l]))) as Hu.
      rewrite Hout. rewrite (app_assoc out0) in Hu.
      destruct (undo_loop (Datatypes.S fuel) v1
                  ((out0 ++ bs) ++ appended (fs ++ [l])) (length out0) (length out0))
        as [[out2 v2]| |]; [discriminate | discriminate | contradiction].
Qed.

(** X18. [alloc_blk], when it returns. The block ids of the PARTIAL
    answers of the chunk allocators have been given back to them. On
    SUCCESS the block ids of the SUCCESS answers are appended to
    [out_blkid] and [free_blk] is not called. On any other status
    [out_blkid] is what it was before the call, and of the block ids of
    the SUCCESS answers, which the operations before the failing one had
    appended, [free_blk] has been called on the first only, since the
    loop erases the vector within its first round. With hints that forbid
    another chunk the call ends within as many operations as blocks are
    asked for. *)
Theorem alloc_blk_failure_frees_first_only fuel (v : VD) nblks hints out :
  (forall st out' v',
     alloc_blk can_look_for_other_chunk max_blks_in_op blk_count_bits
       fuel v nblks hints out = Ret (st, out', v') ->
     exists ans,
       answers v' = answers v ++ ans /\
       vec_frees v' = vec_frees v ++ returned ans /\
       (st = SUCCESS -> out' = out ++ appended ans /\ frees v' = frees v) /\
       (st <> SUCCESS ->
        out' = out /\ frees v' = frees v ++ take 1 (appended ans))) /\
  (can_look_for_other_chunk hints = false ->
   0 < max_blks_in_op ->
   0 <= nblks < 2 ^ blk_count_bits -> nblks < 2 ^ 32 ->
   (Z.to_nat nblks <= fuel)%nat ->
   alloc_blk can_look_for_other_chunk max_blks_in_op blk_count_bits
     fuel v nblks hints out <> NoFuel).
Proof.
  split.
  - intros st out' v' H0. unfold alloc_blk in H0.
    rewrite <- (app_nil_r out) in H0 at 1.
    apply alloc_blk_loop_shape in H0. cbn [app] in H0.
    destruct H0 as (ans & Ha & Hvf & Hres). exists ans.
    split; [exact Ha|]. split; [exact Hvf|]. split.
    + intros ->. cbn in Hres. exact Hres.
    + intros Hne. destruct st; try congruence; cbn in Hres; exact Hres.
  - intros Hc Hmax Hn H32 Hfuel. unfold alloc_blk.
    rewrite <- (app_nil_r out) at 1.
    apply alloc_blk_loop_returns; assumption.
Qed.

(** X19. [alloc_contiguous_blk], when it returns: a SUCCESS comes with one
    block id, the only one that a SUCCESS answer of a chunk allocator has
    put into the vector during the call, and [free_blk] is not called; any
    other status comes without a block id. The block ids of PARTIAL
    answers have been given back to their allocators. *)
Theorem alloc_contiguous_blk_one_block fuel (v : VD) nblks hints st ob v' :
  alloc_contiguous_blk can_look_for_other_chunk max_blks_in_op blk_count_bits
    fuel v nblks hints = Ret (st, ob, v') ->
  exists ans,
    answers v' = answers v ++ ans /\
    vec_frees v' = vec_frees v ++ returned ans /\
    (st = SUCCESS ->
     exists b, ob = Some b /\ appended ans = [b] /\ frees v' = frees v) /\
    (st <> SUCCESS ->
     ob = None /\ frees v' = frees v ++ take 1 (appended ans)).
Proof.
  unfold alloc_contiguous_blk, alloc_blk. intros H0.
  destruct (alloc_blk_loop' fuel v nblks hints [] (length []))
    as [[[ret out1] v1]| |] eqn:Ea; try discriminate.
  apply (alloc_blk_loop_shape fuel v nblks hints [] []) in Ea.
  destruct Ea as (ans & Ha & Hvf & Hres). cbn [app] in Hres.
  destruct (is_success ret) eqn:Es.
  - destruct Hres as [E1 E2]. subst out1.
    destruct (appended ans) as [|b [|b2 rest]] eqn:Eap; try discriminate.
    injection H0 as <- <- <-. exists ans.
    split; [exact Ha|]. split; [exact Hvf|].
    split; [|destruct ret; try discriminate; congruence].
    intros _. exists b. rewrite Eap. auto.
  - destruct Hres as [E1 E2]. injection H0 as <- <- <-. exists ans.
    split; [exact Ha|]. split; [exact Hvf|].
    split; [intros ->; discriminate|].
    intros _. split; [reflexivity | exact E2].
Qed.

End VDevFacts.

(** ** Volume requests and replication requests *)

Section VolReqFacts.
Import VolReq.
Variable E : Type.
Variable no_error : E.

Lemma set_errors_completed (r : vol_interface_req (E := E)) ecs :
  is_fail_completed r = true ->
  set_errors r ecs = (repeat false (length ecs), r).
Proof.
  intros Hc. induction ecs as [|ec ecs IH]; [reflexivity|].
  cbn [set_errors]. unfold set_error. rewrite Hc. cbn [negb].
  rewrite IH. reflexivity.
Qed.

(** X20. After [init] a request reports [no_error] and carries the value
    of the request counter, which moves on by one. Of any sequence of
    [set_error] calls that follows, the first returns true and all later
    ones return false, and the status of the request is the error of the
    first call. *)
Theorem set_error_first_wins (r : vol_interface_req (E := E)) counter ec ecs :
  let r0 := fst (init no_error r counter) in
  get_status r0 = no_error /\
  request_id r0 = counter /\
  snd (init no_error r counter) = wrap 64 (counter + 1) /\
  fst (set_errors r0 (ec :: ecs)) = true :: repeat false (length ecs) /\
  get_status (snd (set_errors r0 (ec :: ecs))) = ec /\
  is_fail_completed (snd (set_errors r0 (ec :: ecs))) = true.
Proof.
  cbv zeta. unfold init, next_request_id. cbn [fst snd].
  cbn [set_errors]. unfold set_error at 1 2 3. cbn [is_fail_completed negb].
  rewrite set_errors_completed by reflexivity.
  cbn [fst snd]. unfold get_status. cbn. repeat split; reflexivity.
Qed.

End VolReqFacts.

Section ReplReqFacts.
Import ReplReq.
Variable DATA_RECEIVED : Z.
Variable align_size : Z.

Local Abbreviation save_data' := (save_data DATA_RECEIVED align_size).
Local Abbreviation deliver' := (deliver DATA_RECEIVED align_size).

Lemma land_lor_same x s : s <> 0 -> Z.land (Z.lor x s) s <> 0.
Proof.
  intros Hs H. rewrite Z.land_lor_distr_l, Z.land_diag in H.
  apply Z.lor_eq_0_iff in H. tauto.
Qed.

Lemma deliver_received r ds :
  Z.land (m_state r) DATA_RECEIVED <> 0 ->
  deliver' r ds = (repeat false (length ds), r).
Proof.
  intros Hs. induction ds as [|d ds IH]; [reflexivity|].
  cbn [deliver]. unfold save_data, add_state_if_not_already.
  destruct (Z.eqb_spec (Z.land (m_state r) DATA_RECEIVED) 0); [contradiction|].
  cbn [negb]. rewrite IH. reflexivity.
Qed.

(** X21. The data of a request is saved once. Of any sequence of
    [save_pushed_data] and [save_fetched_data] calls on a request that has
    not received data, the first returns true, sets DATA_RECEIVED, makes
    [m_data] the bytes it was given, keeps its rpc handle and fulfils the
    data-received promise once; every later call returns false and changes
    nothing. On a request that has received data every call returns false
    and changes nothing. *)
Theorem data_saved_once r d ds :
  DATA_RECEIVED <> 0 ->
  (Z.land (m_state r) DATA_RECEIVED = 0 ->
   fst (deliver DATA_RECEIVED align_size r (d :: ds))
   = true :: repeat false (length ds) /\
   m_data (snd (deliver DATA_RECEIVED align_size r (d :: ds)))
   = Some (data_bytes d) /\
   m_state (snd (deliver DATA_RECEIVED align_size r (d :: ds)))
   = Z.lor (m_state r) DATA_RECEIVED /\
   trace (snd (deliver DATA_RECEIVED align_size r (d :: ds)))
   = trace r ++ [EvDataReceived] /\
   m_pushed_data (snd (deliver DATA_RECEIVED align_size r (d :: ds)))
   = (if by_push d then Some (handle d) else m_pushed_data r) /\
   m_fetched_data (snd (deliver DATA_RECEIVED align_size r (d :: ds)))
   = (if by_push d then m_fetched_data r else Some (handle d))) /\
  (Z.land (m_state r) DATA_RECEIVED <> 0 ->
   deliver DATA_RECEIVED align_size r (d :: ds)
   = (repeat false (Datatypes.S (length ds)), r)).
Proof.
  intros Hne. split.
  - intros H0.
    assert (Hd : exists r1,
               deliver' r (d :: ds) = (true :: repeat false (length ds), r1) /\
               m_data r1 = Some (data_bytes d) /\
               m_state r1 = Z.lor (m_state r) DATA_RECEIVED /\
               trace r1 = trace r ++ [EvDataReceived] /\
               m_pushed_data r1
               = (if by_push d then Some (handle d) else m_pushed_data r) /\
               m_fetched_data r1
               = (if by_push d then m_fetched_data r else Some (handle d))).
    { eexists. cbn [deliver]. unfold save_data at 1, add_state_if_not_already.
      rewrite H0. cbn [Z.eqb negb].
      rewrite deliver_received
        by (cbn; apply land_lor_same; exact Hne).
      split; [reflexivity|]. cbn. destruct (by_push d); repeat split; reflexivity. }
    destruct Hd as (r1 & -> & H1 & H2 & H3 & H4 & H5). cbn [fst snd]. repeat split; assumption.
  - intros H0. apply (deliver_received r (d :: ds) H0).
Qed.

(** X22. [release_data] drops the data, the buffer for unaligned data and
    both rpc handles, sends the response of pushed data if there is some,
    and leaves the state bits alone; a second call does nothing more, so
    the response is sent once. As DATA_RECEIVED stays set, data offered
    after a release is refused. *)
Theorem release_data_once r :
  release_data (release_data r) = release_data r /\
  m_data (release_data r) = None /\
  m_buf_for_unaligned_data (release_data r) = None /\
  m_pushed_data (release_data r) = None /\
  m_fetched_data (release_data r) = None /\
  trace (release_data r)
  = trace r ++ match m_pushed_data r with
               | Some h => [EvSendResponse h]
               | None => []
               end /\
  m_state (release_data r) = m_state r /\
  forall d, Z.land (m_state r) DATA_RECEIVED <> 0 ->
    fst (save_data DATA_RECEIVED align_size (release_data r) (by_push d)
           (handle d) (data_addr d) (data_bytes d)) = false.
Proof.
  split; [reflexivity|]. split; [reflexivity|]. split; [reflexivity|].
  split; [reflexivity|]. split; [reflexivity|].
  split; [cbn; destruct (m_pushed_data r); [reflexivity | apply eq_sym, app_nil_r]|].
  split; [reflexivity|].
  intros d H0. unfold save_data, add_state_if_not_already. cbn [m_state release_data].
  destruct (Z.eqb_spec (Z.land (m_state r) DATA_RECEIVED) 0); [contradiction|].
  reflexivity.
Qed.

End ReplReqFacts.

(** ** Journal entry of a replication request *)

Section JournalEntryFacts.
Import ReplReq.
Variable has_linked_data : Z -> bool.
Variable sizeof_repl_journal_entry : Z.
Variable size_field_bits : Z.
Variable serialize : BlkId -> list Z.
Variable serialized_size : BlkId -> Z.

Local Abbreviation blkids_serialized_size' := (blkids_serialized_size serialized_size).
Local Abbreviation create_journal_entry' :=
  (create_journal_entry has_linked_data sizeof_repl_journal_entry size_field_bits
     serialize serialized_size).

Lemma memcpy_at_app done bytes rest :
  (length bytes <= length rest)%nat ->
  memcpy_at (done ++ rest) (Z.of_nat (length done)) bytes
  = Some (done ++ bytes ++ drop (length bytes) rest).
Proof.
  intros Hl. unfold memcpy_at.
  rewrite length_app.
  replace ((0 <=? Z.of_nat (length done))
           && (Z.of_nat (length done) + Z.of_nat (length bytes)
               <=? Z.of_nat (length done + length rest))) with true
    by (symmetry; apply andb_true_iff; split; apply Z.leb_le; lia).
  rewrite Nat2Z.id, take_app_length, drop_app_add'; reflexivity.
Qed.

Lemma copy_blkids_app bs : forall done rest,
  (length (concat (map serialize bs)) <= length rest)%nat ->
  copy_blkids serialize (done ++ rest) (Z.of_nat (length done)) bs
  = Some (done ++ concat (map serialize bs)
            ++ drop (length (concat (map serialize bs))) rest,
          Z.of_nat (length done) + Z.of_nat (length (concat (map serialize bs)))).
Proof.
  induction bs as [|b bs IH]; intros done rest Hl.
  - cbn. rewrite Z.add_0_r. reflexivity.
  - cbn [copy_blkids map concat] in *. rewrite length_app in Hl.
    rewrite memcpy_at_app by lia.
    rewrite (app_assoc done), <- Nat2Z.inj_add, <- length_app.
    rewrite IH by (rewrite length_drop; lia).
    rewrite drop_drop, !length_app, <- !app_assoc, Nat2Z.inj_add, Nat2Z.inj_add.
    f_equal. f_equal. lia.
Qed.

Lemma fold_sizes bs : forall acc,
  (forall b, Z.of_nat (length (serialize b)) = serialized_size b) ->
  0 <= acc ->
  acc + Z.of_nat (length (concat (map serialize bs))) < 2 ^ 32 ->
  fold_left (fun acc b => u32 (acc + serialized_size b)) bs acc
  = acc + Z.of_nat (length (concat (map serialize bs))).
Proof.
  induction bs as [|b bs IH]; intros acc Hser H0 Hlt.
  - cbn. lia.
  - cbn [fold_left map concat] in *. rewrite length_app, Nat2Z.inj_add in *.
    unfold u32 at 2. rewrite wrap_small by (rewrite <- Hser; lia).
    rewrite IH by (try assumption; rewrite <- Hser; lia).
    rewrite <- Hser. lia.
Qed.

(** X23. The journal entry that [create_journal_entry] builds for a raft
    buffer holds, right behind the entry, the header, the key and, for a
    request with linked data, the serialised block ids in the order of
    [m_local_blkids], and these fill the buffer; [journal_entry_size] is
    the size of that buffer. Any request that takes the buffer over by
    [change_raft_journal_buf] with [adjust_hdr_key] gets the header and the
    key of the request that built it, and is no longer pending
    localisation. The hypotheses: [serialized_size] is the length of
    [serialize], the entry fits 32 bits, the header and the key sizes fit
    their fields, and [fresh], the content of the new allocation behind
    the entry, has the allocated length. *)
Theorem journal_entry_round_trip r r2 server_id fresh :
  let blkids := if has_linked_data (m_op_code r)
                then concat (map serialize (m_local_blkids r)) else [] in
  (forall b, Z.of_nat (length (serialize b)) = serialized_size b) ->
  0 <= sizeof_repl_journal_entry ->
  sizeof_repl_journal_entry + Z.of_nat (length (m_header r ++ m_key r ++ blkids))
  < 2 ^ 32 ->
  Z.of_nat (length (m_header r)) < 2 ^ size_field_bits ->
  Z.of_nat (length (m_key r)) < 2 ^ size_field_bits ->
  length fresh = length (m_header r ++ m_key r ++ blkids) ->
  exists jb,
    create_journal_entry has_linked_data sizeof_repl_journal_entry
      size_field_bits serialize serialized_size r true server_id fresh
    = Some (with_journal_buf r jb) /\
    is_raft_buf jb = true /\
    tail jb = m_header r ++ m_key r ++ blkids /\
    journal_entry_size has_linked_data sizeof_repl_journal_entry serialized_size r
    = sizeof_repl_journal_entry + Z.of_nat (length (tail jb)) /\
    m_header (change_raft_journal_buf r2 jb true) = m_header r /\
    m_key (change_raft_journal_buf r2 jb true) = m_key r /\
    m_is_jentry_localize_pending (change_raft_journal_buf r2 jb true) = false /\
    m_journal_buf (change_raft_journal_buf r2 jb true) = Some jb.
Proof.
  intros blkids Hser Hsz Hlt Hh Hk Hfresh.
  set (hdr := m_header r) in *. set (key := m_key r) in *.
  assert (Hval : (if has_linked_data (m_op_code r)
                  then blkids_serialized_size' r else 0)
                 = Z.of_nat (length blkids)).
  { subst blkids. destruct (has_linked_data (m_op_code r)); [|reflexivity].
    unfold blkids_serialized_size. rewrite fold_sizes; try assumption; try lia.
    rewrite !length_app in Hlt. lia. }
  assert (Hsize : u32 (sizeof_repl_journal_entry + Z.of_nat (length hdr)
                       + Z.of_nat (length key) + Z.of_nat (length blkids))
                  = sizeof_repl_journal_entry
                    + Z.of_nat (length (hdr ++ key ++ blkids))).
  { unfold u32. rewrite wrap_small; rewrite !length_app in *; lia. }
  assert (Hcopy1 : (if negb (Z.of_nat (length hdr) =? 0)
                    then (fun b => (b, 0 + Z.of_nat (length hdr)))
                         <$> memcpy_at fresh 0 hdr
                    else Some (fresh, 0))
                   = Some (hdr ++ drop (length hdr) fresh, Z.of_nat (length hdr))).
  { destruct (Z.eqb_spec (Z.of_nat (length hdr)) 0) as [E0|E0]; cbn [negb].
    - destruct hdr; [reflexivity | cbn in E0; lia].
    - pose proof (memcpy_at_app [] hdr fresh) as Hm.
      change ((length hdr <= length fresh)%nat -> memcpy_at fresh 0 hdr = Some (hdr ++ drop (length hdr) fresh)) in Hm.
      rewrite Hm by (rewrite Hfresh, length_app; lia).
      reflexivity. }
  assert (Hcopy2 : (if negb (Z.of_nat (length key) =? 0)
                    then (fun b => (b, Z.of_nat (length hdr) + Z.of_nat (length key)))
                         <$> memcpy_at (hdr ++ drop (length hdr) fresh)
                               (Z.of_nat (length hdr)) key
                    else Some (hdr ++ drop (length hdr) fresh, Z.of_nat (length hdr)))
                   = Some ((hdr ++ key) ++ drop (length (hdr ++ key)) fresh,
                           Z.of_nat (length (hdr ++ key)))).
  { destruct (Z.eqb_spec (Z.of_nat (length key)) 0) as [E0|E0]; cbn [negb].
    - destruct key; [|cbn in E0; lia]. rewrite !app_nil_r. reflexivity.
    - rewrite memcpy_at_app
        by (rewrite length_drop, Hfresh, !length_app; lia).
      cbn [fmap option_fmap option_map]. rewrite drop_drop, !length_app, <- app_assoc.
      rewrite Nat2Z.inj_add. reflexivity. }
  assert (Hcopy3 : (if has_linked_data (m_op_code r)
                    then copy_blkids serialize
                           ((hdr ++ key) ++ drop (length (hdr ++ key)) fresh)
                           (Z.of_nat (length (hdr ++ key))) (m_local_blkids r)
                    else Some ((hdr ++ key) ++ drop (length (hdr ++ key)) fresh,
                               Z.of_nat (length (hdr ++ key))))
                   = Some (hdr ++ key ++ blkids,
                           Z.of_nat (length (hdr ++ key))
                           + Z.of_nat (length blkids))).
  { assert (Hrest : length (drop (length (hdr ++ key)) fresh) = length blkids)
      by (rewrite length_drop, Hfresh, !length_app; lia).
    subst blkids. destruct (has_linked_data (m_op_code r)).
    - rewrite copy_blkids_app by lia.
      rewrite drop_ge by lia. rewrite app_nil_r, <- app_assoc. reflexivity.
    - destruct (drop (length (hdr ++ key)) fresh); [|discriminate].
      rewrite !app_nil_r, Z.add_0_r. reflexivity. }
  eexists. split.
  { unfold create_journal_entry. fold hdr key. rewrite Hval, Hsize.
    replace (Z.of_nat (length fresh)
             =? sizeof_repl_journal_entry
                + Z.of_nat (length (hdr ++ key ++ blkids))
                - sizeof_repl_journal_entry) with true
      by (symmetry; apply Z.eqb_eq; lia).
    cbn [negb]. rewrite Hcopy1. rewrite Hcopy2.
    rewrite Hcopy3. reflexivity. }
  cbn [is_raft_buf tail entry user_header_size key_size change_raft_journal_buf
       m_header m_key m_is_jentry_localize_pending m_journal_buf].
  split; [reflexivity|]. split; [reflexivity|].
  split.
  { unfold journal_entry_size. fold hdr key. rewrite Hval. exact Hsize. }
  rewrite !wrap_small by lia.
  unfold slice. rewrite !Nat2Z.id. cbn [Z.to_nat drop].
  change (Z.to_nat 0) with 0%nat. rewrite drop_0, take_app_length, drop_app_length, take_app_length.
  repeat split; reflexivity.
Qed.
End JournalEntryFacts.

(** ** Concrete runs of the properties of the cache writes, the virtual
    device and the requests *)

(** Witness of X16: node 1, written once for the checkpoint, is written
    again. *)
Lemma write_again_changes_nothing_witness :
  WBCache.write (WBCache.write (WBCache.cache WBCache.ex_world_w1) 1 None WBCache.ex_cp)
    1 None WBCache.ex_cp
  = WBCache.write (WBCache.cache WBCache.ex_world_w1) 1 None WBCache.ex_cp /\
  length (WBCache.reqs
            (WBCache.write (WBCache.cache WBCache.ex_world_w1) 1 None WBCache.ex_cp))
  = 1%nat.
Proof.
  destruct (write_again_changes_nothing (WBCache.cache WBCache.ex_world_w1) 1
              WBCache.ex_cp) as (H1 & _ & _ & H4 & _).
  - intros r Hr. vm_compute in Hr. injection Hr as <-. vm_compute. lia.
  - split; [exact H1 | rewrite H4; reflexivity].
Defined.

Section VDevRuns.
Import VDev.

(** Witness of X17: three blocks with hints that allow another chunk.
    Chunk 0, which has two, answers PARTIAL and gets its block id back;
    chunk 1 serves the request. *)
Lemma do_alloc_blk_keeps_trying_witness :
  match do_alloc_blk (fun h : bool => h) 2 ex_vdev 3 true [] with
  | Ret (st, out', v') =>
      st = SUCCESS /\
      out' = [ {| AppendBlkAlloc.blk_num := 0; AppendBlkAlloc.blk_count := 3;
                  AppendBlkAlloc.chunk_num := 1 |} ] /\
      map fst (answers v') = [PARTIAL; SUCCESS] /\
      vec_frees v' = [ {| AppendBlkAlloc.blk_num := 0; AppendBlkAlloc.blk_count := 2;
                          AppendBlkAlloc.chunk_num := 0 |} ] /\
      frees v' = [] /\
      vdev_num_alloc_failure v' = 0
  | _ => False
  end.
Proof.
  destruct (do_alloc_blk (fun h : bool => h) 2 ex_vdev 3 true [])
    as [[[st out'] v']| |] eqn:E; [ | vm_compute in E; discriminate ..].
  destruct (do_alloc_blk_keeps_trying (fun h : bool => h) 2 ex_vdev 3 true []
              st out' v' E) as (H1 & H2 & H3 & _).
  pose proof E as E'. vm_compute in E'. injection E' as _ Hout Hv.
  assert (Hst : st = SUCCESS) by (apply H1; reflexivity).
  split; [exact Hst|].
  split; [symmetry; exact Hout|].
  split; [rewrite <- Hv; reflexivity|].
  split; [rewrite <- Hv; reflexivity|].
  split; [rewrite H2; reflexivity|].
  rewrite H3, Hst. reflexivity.
Defined.

(** Witness of X18: twelve blocks in operations of four with hints that
    forbid another chunk. Chunk 1 serves two operations, chunk 0, which
    has two blocks, answers the third with PARTIAL; of the two block ids
    appended the first is freed. *)
Lemma alloc_blk_failure_frees_first_only_witness :
  match alloc_blk (fun h : bool => h) 4 16 12 ex_vdev2 12 false [] with
  | Ret (st, out', v') =>
      st = FAILED /\ out' = [] /\
      map fst (answers v') = [SUCCESS; SUCCESS; PARTIAL] /\
      appended (answers v')
      = [ {| AppendBlkAlloc.blk_num := 0; AppendBlkAlloc.blk_count := 4;
             AppendBlkAlloc.chunk_num := 1 |};
          {| AppendBlkAlloc.blk_num := 4; AppendBlkAlloc.blk_count := 4;
             AppendBlkAlloc.chunk_num := 1 |} ] /\
      frees v' = take 1 (appended (answers v'))
  | Abort => False
  | NoFuel => False
  end.
Proof.
  destruct (alloc_blk_failure_frees_first_only (fun h : bool => h) 4 16 12
              ex_vdev2 12 false []) as [H Hret].
  destruct (alloc_blk (fun h : bool => h) 4 16 12 ex_vdev2 12 false [])
    as [[[st out'] v']| |] eqn:E.
  - pose proof E as E'. vm_compute in E'. injection E' as Hst _ Hv.
    destruct (H st out' v' eq_refl) as (ans & Ha & _ & _ & H2).
    destruct H2 as (Ho & Hf); [rewrite <- Hst; discriminate|].
    split; [symmetry; exact Hst|]. split; [exact Ho|].
    split; [rewrite <- Hv; reflexivity|].
    split; [rewrite <- Hv; reflexivity|].
    rewrite Hf, Ha. reflexivity.
  - vm_compute in E. discriminate.
  - apply Hret; [reflexivity | lia | simpl; lia | simpl; lia | simpl; lia | reflexivity].
Defined.

(** Witness of X19: three contiguous blocks with hints that allow another
    chunk; chunk 0 answers PARTIAL, chunk 1 serves the request. *)
Lemma alloc_contiguous_blk_one_block_witness :
  match alloc_contiguous_blk (fun h : bool => h) 4 16 3 ex_vdev 3 true with
  | Ret (st, ob, v') =>
      st = SUCCESS /\
      ob = Some {| AppendBlkAlloc.blk_num := 0; AppendBlkAlloc.blk_count := 3;
                   AppendBlkAlloc.chunk_num := 1 |} /\
      appended (answers v')
      = [ {| AppendBlkAlloc.blk_num := 0; AppendBlkAlloc.blk_count := 3;
             AppendBlkAlloc.chunk_num := 1 |} ] /\
      frees v' = []
  | _ => False
  end.
Proof.
  destruct (alloc_contiguous_blk (fun h : bool => h) 4 16 3 ex_vdev 3 true)
    as [[[st ob] v']| |] eqn:E; [ | vm_compute in E; discriminate ..].
  pose proof E as E'. vm_compute in E'. injection E' as Hst Hob Hv.
  destruct (alloc_contiguous_blk_one_block (fun h : bool => h) 4 16 3
              ex_vdev 3 true st ob v' E) as (ans & Ha & _ & H1 & _).
  destruct (H1 (eq_sym Hst)) as (b & Hb & Hap & Hf).
  split; [symmetry; exact Hst|].
  split; [symmetry; exact Hob|].
  split; [rewrite <- Hv; reflexivity|].
  exact Hf.
Defined.

End VDevRuns.

(** Witness of X21: data pushed to a request in state 1, with 2 as
    DATA_RECEIVED, and then fetched as well. *)
Lemma data_saved_once_witness :
  fst (ReplReq.deliver 2 512 ReplReq.ex_req
         [ {| ReplReq.by_push := true; ReplReq.handle := 77;
              ReplReq.data_addr := 1024; ReplReq.data_bytes := [1; 2] |};
           {| ReplReq.by_push := false; ReplReq.handle := 78;
              ReplReq.data_addr := 3; ReplReq.data_bytes := [5] |} ])
  = [true; false] /\
  ReplReq.m_data
    (snd (ReplReq.deliver 2 512 ReplReq.ex_req
            [ {| ReplReq.by_push := true; ReplReq.handle := 77;
                 ReplReq.data_addr := 1024; ReplReq.data_bytes := [1; 2] |};
              {| ReplReq.by_push := false; ReplReq.handle := 78;
                 ReplReq.data_addr := 3; ReplReq.data_bytes := [5] |} ]))
  = Some [1; 2].
Proof.
  destruct (data_saved_once 2 512 ReplReq.ex_req
              {| ReplReq.by_push := true; ReplReq.handle := 77;
                 ReplReq.data_addr := 1024; ReplReq.data_bytes := [1; 2] |}
              [ {| ReplReq.by_push := false; ReplReq.handle := 78;
                   ReplReq.data_addr := 3; ReplReq.data_bytes := [5] |} ])
    as [H _]; [lia|].
  destruct (H eq_refl) as (H1 & H2 & _).
  split; [exact H1 | exact H2].
Defined.

(** Witness of X22: a request that holds pushed data, with 2 as
    DATA_RECEIVED, is released: the response is sent, a second release adds
    nothing, and data fetched afterwards is refused. *)
Lemma release_data_once_witness :
  let r := snd (ReplReq.save_data 2 512 ReplReq.ex_req true 77 1024 [1; 2]) in
  ReplReq.m_data r = Some [1; 2] /\
  ReplReq.trace (ReplReq.release_data r)
  = [ReplReq.EvDataReceived; ReplReq.EvSendResponse 77] /\
  ReplReq.trace (ReplReq.release_data (ReplReq.release_data r))
  = [ReplReq.EvDataReceived; ReplReq.EvSendResponse 77] /\
  ReplReq.m_data (ReplReq.release_data r) = None /\
  fst (ReplReq.save_data 2 512 (ReplReq.release_data r) false 78 3 [5]) = false.
Proof.
  intros r.
  destruct (release_data_once 2 512 r) as (H1 & H2 & _ & _ & _ & H6 & _ & H8).
  split; [reflexivity|].
  split; [rewrite H6; reflexivity|].
  split; [rewrite H1, H6; reflexivity|].
  split; [exact H2|].
  apply (H8 {| ReplReq.by_push := false; ReplReq.handle := 78;
               ReplReq.data_addr := 3; ReplReq.data_bytes := [5] |}).
  vm_compute. discriminate.
Defined.

(** Witness of X23: the entry of the request with a header of three bytes,
    a key of two and one block id of three. *)
Lemma journal_entry_round_trip_witness :
  exists jb,
    ReplReq.create_journal_entry (fun c => c =? 1) 16 24 ReplReq.ex_serialize
      (fun _ => 3) ReplReq.ex_req true 1 (repeat 0 8)
    = Some (ReplReq.with_journal_buf ReplReq.ex_req jb) /\
    ReplReq.tail jb = [1; 2; 3; 9; 8; 5; 2; 0] /\
    ReplReq.m_key (ReplReq.change_raft_journal_buf ReplReq.ex_req jb true) = [9; 8].
Proof.
  destruct (journal_entry_round_trip (fun c => c =? 1) 16 24 ReplReq.ex_serialize
              (fun _ => 3) ReplReq.ex_req ReplReq.ex_req 1 (repeat 0 8))
    as (jb & H1 & _ & H3 & _ & _ & H6 & _);
    [ intros b; reflexivity | lia | simpl; lia | simpl; lia | simpl; lia
    | reflexivity | ].
  exists jb. split; [exact H1|]. split; [rewrite H3; reflexivity | exact H6].
Defined.
